(** * rlib::Json (Json.h): value model, parser, serializer and JSON Pointer

    A shallow embedding of [rlib::JsonT] and proofs about it.  The value is
    an inductive type with one constructor per [Type] tag; [std::string] is
    [string] (a sequence of bytes), [std::vector<JsonT>] is a list,
    [std::map<std::string, JsonT>] is an association list kept in key order,
    [size_t] and [int] are [Z] with their wrap-around written out, and
    [double] is a binary64 [spec_float].  Code that throws returns an
    [outcome]. *)

From Stdlib Require Import ZArith Lia Ascii String List Bool.
From Stdlib Require Import DecimalString DecimalZ SpecFloat.
From stdpp Require Import base list.
Import ListNotations.

#[local] Open Scope string_scope.
#[local] Open Scope Z_scope.

(* ===================================================================== *)
(** ** Characters and [std::string] helpers *)

Definition chLF : ascii := "010"%char.
Definition chCR : ascii := "013"%char.
Definition chTAB : ascii := "009"%char.
Definition chBS : ascii := "008"%char.
Definition chDQ : ascii := "034"%char.
Definition chBSL : ascii := "\"%char.

Definition str1 (c : ascii) : string := String c EmptyString.
Definition sDQ : string := str1 chDQ.

(** [isspace] in the "C" locale: what [\s] and [\S] of [std::regex] test. *)
Definition isspace (c : ascii) : bool :=
  let n := N_of_ascii c in ((n =? 32) || ((9 <=? n) && (n <=? 13)))%N.

Definition isdigit (c : ascii) : bool :=
  let n := N_of_ascii c in ((48 <=? n) && (n <=? 57))%N.

Definition in_range_char (lo hi c : ascii) : bool :=
  ((N_of_ascii lo <=? N_of_ascii c) && (N_of_ascii c <=? N_of_ascii hi))%N.

(** [[0-9a-fA-F]] *)
Definition isxdigit (c : ascii) : bool :=
  isdigit c || in_range_char "a" "f" c || in_range_char "A" "F" c.

Fixpoint string_drop (n : nat) (s : string) : string :=
  match n, s with
  | O, _ => s
  | S _, EmptyString => EmptyString
  | S n', String _ s' => string_drop n' s'
  end.

Fixpoint string_take (n : nat) (s : string) : string :=
  match n, s with
  | O, _ => EmptyString
  | S _, EmptyString => EmptyString
  | S n', String c s' => String c (string_take n' s')
  end.

(** [s.pop_back()]; the callers only use it on a non-empty string. *)
Fixpoint pop_back (s : string) : string :=
  match s with
  | EmptyString => EmptyString
  | String c EmptyString => EmptyString
  | String c s' => String c (pop_back s')
  end.

Fixpoint string_forallb (p : ascii -> bool) (s : string) : bool :=
  match s with
  | EmptyString => true
  | String c s' => p c && string_forallb p s'
  end.

Definition is_empty (s : string) : bool :=
  match s with EmptyString => true | _ => false end.

(** Whether [s] starts with the characters of [p]. *)
Fixpoint starts_with (p s : string) : bool :=
  match p with
  | EmptyString => true
  | String a p' =>
      match s with
      | String b s' => Ascii.eqb a b && starts_with p' s'
      | EmptyString => false
      end
  end.

(* ===================================================================== *)
(** ** Exceptions and outcomes *)

Inductive exception : Type :=
| ParseException (what : string) (position : nat)
| out_of_range (what : string)
| invalid_argument (what : string)
| range_error (what : string).

(** The result of running a piece of the code: a value, a C++ exception, a
    failed [assert], or undefined behaviour (an unchecked access that the
    code never guards). *)
Inductive outcome (A : Type) : Type :=
| Ret (a : A)
| Throw (e : exception)
| AssertFail
| Undefined.
Arguments Ret {A} a.
Arguments Throw {A} e.
Arguments AssertFail {A}.
Arguments Undefined {A}.

Definition bind {A B : Type} (m : outcome A) (k : A -> outcome B) : outcome B :=
  match m with
  | Ret a => k a
  | Throw e => Throw e
  | AssertFail => AssertFail
  | Undefined => Undefined
  end.

Notation "'let*' p ':=' m 'in' k" := (bind m (fun p => k))
  (at level 10, p pattern, m at level 100, k at level 200).

Definition assert (b : bool) : outcome unit :=
  if b then Ret tt else AssertFail.

(* ===================================================================== *)
(** ** The regular expressions of the source, as scanners

    [std::regex] (ECMAScript grammar) tries alternatives from left to right
    and quantifiers greedily; [.] matches every character but LF and CR,
    and [^] and [$] only match at the two ends of the searched range. *)

(** [regex_search(it, json.cend(), m, regex("\n")) ? m[0].second : cend]:
    the suffix that starts after the first LF, or the empty suffix. *)
Fixpoint find_line_end (s : string) : string :=
  match s with
  | EmptyString => EmptyString
  | String c s' => if Ascii.eqb c chLF then s' else find_line_end s'
  end.

(** [regex_search(.., regex(R"([^\s])"))]. *)
Fixpoint has_nonspace (s : string) : bool :=
  match s with
  | EmptyString => false
  | String c s' => negb (isspace c) || has_nonspace s'
  end.

(** Length of the run [\s*] at the start of [s]. *)
Fixpoint span_space (s : string) : nat :=
  match s with
  | String c s' => if isspace c then S (span_space s') else O
  | EmptyString => O
  end.

(** Length of the run [[0-9]*] at the start of [s]. *)
Fixpoint span_digits (s : string) : nat :=
  match s with
  | String c s' => if isdigit c then S (span_digits s') else O
  | EmptyString => O
  end.

(** Length matched at the start of [s] by the number pattern of the token
    expression: an optional minus, one or more digits, an optional point
    with any number of digits, an optional exponent ([e] or [E], an
    optional sign, one or more digits).  Every part is greedy and nothing
    follows the pattern, so the first choice of each part is the match. *)
Definition scan_number (s : string) : option nat :=
  let '(neg, s1) :=
    match s with
    | String "-"%char s' => (1%nat, s')
    | _ => (0%nat, s)
    end in
  let nd := span_digits s1 in
  if Nat.eqb nd 0 then None else
  let s2 := string_drop nd s1 in
  let nf :=
    match s2 with
    | String "."%char s' => S (span_digits s')
    | _ => 0%nat
    end in
  let s3 := string_drop nf s2 in
  let ne :=
    match s3 with
    | String c s' =>
        if Ascii.eqb c "e" || Ascii.eqb c "E" then
          let '(sg, s'') :=
            match s' with
            | String c2 t =>
                if Ascii.eqb c2 "+" || Ascii.eqb c2 "-"
                then (1%nat, t) else (0%nat, s')
            | EmptyString => (0%nat, s')
            end in
          let k := span_digits s'' in
          if Nat.eqb k 0 then 0%nat else (1 + sg + k)%nat
        else 0%nat
    | EmptyString => 0%nat
    end in
  Some (neg + nd + nf + ne)%nat.

(** [regex_search(s, m, regex("^-?[0-9]+$"))]. *)
Definition is_integer_token (s : string) : bool :=
  match s with
  | String "-"%char s' => negb (is_empty s') && string_forallb isdigit s'
  | _ => negb (is_empty s) && string_forallb isdigit s
  end.

(** [regex_replace(s, regex(pat), fmt)] for a pattern that is a literal,
    non-empty string and a format without [$]: every occurrence, leftmost
    first and not overlapping, is replaced.  [skip] counts the characters
    of an occurrence that are still to be passed over. *)
Fixpoint regex_replace_from (skip : nat) (pat fmt s : string) : string :=
  match s with
  | EmptyString => EmptyString
  | String c s' =>
      match skip with
      | S k => regex_replace_from k pat fmt s'
      | O =>
          if starts_with pat s
          then fmt ++ regex_replace_from (String.length pat - 1) pat fmt s'
          else String c (regex_replace_from O pat fmt s')
      end
  end.

Definition regex_replace (s pat fmt : string) : string :=
  regex_replace_from O pat fmt s.

(** [sregex_token_iterator(s.cbegin(), s.cend(), regex("/"), -1)]: the
    pieces between the separators; the piece after the last separator is
    produced only when it is not empty. *)
Fixpoint split_slash (cur : string) (s : string) : list string :=
  match s with
  | EmptyString => if is_empty cur then [] else [cur]
  | String c s' =>
      if Ascii.eqb c "/" then cur :: split_slash EmptyString s'
      else split_slash (cur ++ str1 c) s'
  end.

(* ===================================================================== *)
(** ** Integers: [std::intmax_t], [std::to_string], [std::stoll] *)

Definition INTMAX_MIN : Z := - 2 ^ 63.
Definition INTMAX_MAX : Z := 2 ^ 63 - 1.

Definition in_intmax (n : Z) : bool := (INTMAX_MIN <=? n) && (n <=? INTMAX_MAX).

(** [static_cast<U>(n)] to an integral type of [bits] bits: the value is
    reduced modulo [2^bits] into the range of the type. *)
Record int_type : Type := { is_signed : bool; bits : Z }.

Definition t_int : int_type := {| is_signed := true; bits := 32 |}.
Definition t_intmax : int_type := {| is_signed := true; bits := 64 |}.
Definition t_size : int_type := {| is_signed := false; bits := 64 |}.

Definition in_int_type (U : int_type) (n : Z) : bool :=
  if is_signed U
  then (- 2 ^ (bits U - 1) <=? n) && (n <? 2 ^ (bits U - 1))
  else (0 <=? n) && (n <? 2 ^ bits U).

Definition static_cast (U : int_type) (n : Z) : Z :=
  let m := n mod 2 ^ bits U in
  if is_signed U && (2 ^ (bits U - 1) <=? m) then m - 2 ^ bits U else m.

(** [std::to_string(std::intmax_t)]: decimal digits, with a minus sign for
    a negative number. *)
Definition to_string_int (n : Z) : string :=
  NilZero.string_of_int (Z.to_int n).

(** [std::stoll(s)] on a string made of an optional minus and digits (the
    only strings the parser passes): the value, or [std::out_of_range]
    when it does not fit. *)
Definition stoll (s : string) : outcome Z :=
  match NilZero.int_of_string s with
  | Some d =>
      let n := Z.of_int d in
      if in_intmax n then Ret n else Throw (out_of_range "stoll")
  | None => Throw (invalid_argument "stoll")
  end.

Definition digit_value (c : ascii) : Z := Z.of_N (N_of_ascii c) - 48.

(** Value of the run of decimal digits at the start of [s]. *)
Fixpoint digits_value (acc : Z) (s : string) : Z :=
  match s with
  | String c s' =>
      if isdigit c then digits_value (10 * acc + digit_value c) s' else acc
  | EmptyString => acc
  end.

Definition hex_digit_value (c : ascii) : Z :=
  let n := Z.of_N (N_of_ascii c) in
  if isdigit c then n - 48
  else if in_range_char "a" "f" c then n - 87
  else n - 55.

(** [std::stoi(s, nullptr, 16)] on a string of hexadecimal digits. *)
Fixpoint stoi16_from (acc : Z) (s : string) : Z :=
  match s with
  | String c s' => stoi16_from (16 * acc + hex_digit_value c) s'
  | EmptyString => acc
  end.

Definition stoi16 (s : string) : Z := stoi16_from 0 s.

(* ===================================================================== *)
(** ** [double]: binary64 *)

Definition prec : Z := 53.
Definition emax : Z := 1024.

Definition double : Type := spec_float.

(** [operator==] of [double]. *)
Definition double_eqb (x y : double) : bool := SFeqb x y.

(** [static_cast<double>(n)]: the nearest binary64 number. *)
Definition double_of_Z (n : Z) : double := binary_normalize prec emax n 0 false.

(** The pieces of a decimal literal: sign, digits without the point, and
    the power of ten they are scaled by. *)
Record decimal_literal : Type :=
  { lit_neg : bool; lit_digits : Z; lit_exp : Z }.

(** Reads a whole string of the shape of the number pattern. *)
Definition read_decimal (s : string) : option decimal_literal :=
  match scan_number s with
  | None => None
  | Some n =>
      if negb (Nat.eqb n (String.length s)) then None else
      let '(neg, s1) :=
        match s with
        | String "-"%char s' => (true, s')
        | _ => (false, s)
        end in
      let nd := span_digits s1 in
      let s2 := string_drop nd s1 in
      let '(nf, s3) :=
        match s2 with
        | String "."%char s' => (span_digits s', string_drop (span_digits s') s')
        | _ => (0%nat, s2)
        end in
      let frac := match s2 with String _ s' => s' | EmptyString => s2 end in
      let m := digits_value (digits_value 0 s1) (string_take nf frac) in
      let e :=
        match s3 with
        | String _ (String "-"%char t) => - digits_value 0 t
        | String _ (String "+"%char t) => digits_value 0 t
        | String _ t => digits_value 0 t
        | EmptyString => 0
        end in
      Some {| lit_neg := neg; lit_digits := m; lit_exp := e - Z.of_nat nf |}
  end.

(** Whether the binary64 number [r] is exactly [num / den]. *)
Definition double_is_exactly (r : double) (num den : Z) : bool :=
  match r with
  | S754_finite _ m e =>
      num * 2 ^ Z.max (- e) 0 =? Z.pos m * 2 ^ Z.max e 0 * den
  | _ => false
  end.

(** Whether [strtod] counts the positive value [num / den] as tiny.  On
    x86-64 tininess is detected after rounding: the value is tiny when,
    rounded to 53 bits as if the exponent had no lower bound, it is still
    below the least normal number [2^-1022], that is when it lies below
    [2^-1022 - 2^-1076]; from there on the rounding gives [2^-1022]. *)
Definition strtod_is_tiny (num den : Z) : bool :=
  num * 2 ^ 1076 <? (2 ^ 54 - 1) * den.

(** [std::stod(s)] on the strings the parser passes.  A string that is not
    a whole decimal literal converts nothing: [std::invalid_argument].
    Otherwise the value is rounded to the nearest binary64 number (ties to
    even), and [strtod] reporting [ERANGE] (overflow, or a tiny value that
    the result does not give exactly) makes [std::out_of_range]. *)
Definition stod (s : string) : outcome double :=
  match read_decimal s with
  | None => Throw (invalid_argument "stod")
  | Some l =>
      if lit_digits l =? 0 then Ret (S754_zero (lit_neg l)) else
      let num := lit_digits l * 10 ^ Z.max (lit_exp l) 0 in
      let den := 10 ^ Z.max (- lit_exp l) 0 in
      let r := SFdiv prec emax (S754_finite (lit_neg l) (Z.to_pos num) 0)
                               (S754_finite false (Z.to_pos den) 0) in
      match r with
      | S754_infinity _ => Throw (out_of_range "stod")
      | _ =>
          if strtod_is_tiny num den && negb (double_is_exactly r num den)
          then Throw (out_of_range "stod")
          else Ret r
      end
  end.

(** The integer nearest to [num / den] ([den > 0]), ties to even. *)
Definition div_nearest_even (num den : Z) : Z :=
  let q := num / den in
  let r := num mod den in
  match 2 * r ?= den with
  | Lt => q
  | Eq => if Z.even q then q else q + 1
  | Gt => q + 1
  end.

(** The last six decimal digits of [n], zero padded. *)
Definition six_digits (n : Z) : string :=
  string_drop 1 (to_string_int (10 ^ 6 + n mod 10 ^ 6)).

(** [std::to_string(double)], that is [sprintf("%f")]: fixed notation with
    six digits after the point, the exact value correctly rounded. *)
Definition to_string_double (d : double) : string :=
  match d with
  | S754_nan => "nan"
  | S754_infinity s => if s then "-inf" else "inf"
  | S754_zero s => (if s then "-" else EmptyString) ++ "0.000000"
  | S754_finite s m e =>
      let scaled :=
        div_nearest_even (Z.pos m * 10 ^ 6 * 2 ^ Z.max e 0) (2 ^ Z.max (- e) 0) in
      (if s then "-" else EmptyString)
        ++ to_string_int (scaled / 10 ^ 6) ++ "." ++ six_digits scaled
  end.

(** [std::llroundl(x)]: the nearest integer, ties away from zero.  When
    the result does not fit in [long long] (or [x] is not finite) C leaves
    the value unspecified; [LLONG_MIN] is what x86-64 returns. *)
Definition llroundl (d : double) : Z :=
  match d with
  | S754_zero _ => 0
  | S754_finite s m e =>
      let a := (2 * Z.pos m * 2 ^ Z.max e 0 + 2 ^ Z.max (- e) 0)
                 / (2 * 2 ^ Z.max (- e) 0) in
      let r := if s then - a else a in
      if in_intmax r then r else INTMAX_MIN
  | _ => INTMAX_MIN
  end.

(* ===================================================================== *)
(** ** UTF-16 to UTF-8 *)

Definition byte_of_Z (n : Z) : ascii := ascii_of_N (Z.to_N n).

Definition utf8_encode (c : Z) : string :=
  if c <? 128 then str1 (byte_of_Z c)
  else if c <? 2048 then
    String (byte_of_Z (192 + c / 64)) (str1 (byte_of_Z (128 + c mod 64)))
  else if c <? 65536 then
    String (byte_of_Z (224 + c / 4096))
      (String (byte_of_Z (128 + (c / 64) mod 64))
         (str1 (byte_of_Z (128 + c mod 64))))
  else
    String (byte_of_Z (240 + c / 262144))
      (String (byte_of_Z (128 + (c / 4096) mod 64))
         (String (byte_of_Z (128 + (c / 64) mod 64))
            (str1 (byte_of_Z (128 + c mod 64))))).

Definition is_high_surrogate (c : Z) : bool := (55296 <=? c) && (c <=? 56319).
Definition is_low_surrogate (c : Z) : bool := (56320 <=? c) && (c <=? 57343).

(** The conversion loop of [codecvt_utf8_utf16<char16_t>::out] (libstdc++):
    a pair of surrogates is one code point, a high surrogate at the end of
    the input stops the conversion, any other lone surrogate is an error. *)
Fixpoint utf16_out (from : list Z) : outcome string :=
  match from with
  | [] => Ret EmptyString
  | c :: from' =>
      if is_high_surrogate c then
        match from' with
        | [] => Ret EmptyString
        | c2 :: from'' =>
            if is_low_surrogate c2 then
              let* r := utf16_out from'' in
              Ret (utf8_encode (65536 + (c - 55296) * 1024 + (c2 - 56320)) ++ r)
            else Throw (range_error "wstring_convert::to_bytes")
        end
      else if is_low_surrogate c then
        Throw (range_error "wstring_convert::to_bytes")
      else
        let* r := utf16_out from' in
        Ret (utf8_encode c ++ r)
  end.

(** The units up to the first zero: [to_bytes] is handed [su16.c_str()]. *)
Fixpoint c_str (units : list Z) : list Z :=
  match units with
  | [] => []
  | c :: units' => if c =? 0 then [] else c :: c_str units'
  end.

(** [wstring_convert<codecvt_utf8_utf16<char16_t>, char16_t>().to_bytes]. *)
Definition to_bytes (units : list Z) : outcome string :=
  utf16_out (c_str units).

(* ===================================================================== *)
(** ** The value: [class JsonT] *)

(** [enum class Type]. *)
Module Type_.
(** [enum class Type]. *)
Inductive t : Set := Null | Bool | Float | Int | String | Array | Map.

(** Equality of tags. *)
Definition eqb (a b : t) : bool :=
  match a, b with
  | Null, Null | Bool, Bool | Float, Float | Int, Int
  | String, String | Array, Array | Map, Map => true
  | _, _ => false
  end.
End Type_.

(** The tag [m_type] and the member of the union that is alive.  The
    induction principle that reaches the children is [JsonT_ind] below. *)
#[local] Unset Elimination Schemes.
Inductive JsonT : Type :=
| JNull
| JBool (m_bool : bool)
| JFloat (m_float : double)
| JInt (m_int : Z)
| JString (m_string : string)
| JArray (m_array : list JsonT)
| JMap (m_map : list (string * JsonT)).
#[local] Set Elimination Schemes.

(** [typedef std::vector<JsonT> Array] and
    [typedef std::map<std::string, JsonT> Map]. *)
Abbreviation Array := (list JsonT).
Abbreviation Map := (list (string * JsonT)).

Definition m_emptyJson : JsonT := JNull.
Definition m_emptyString : string := EmptyString.
Definition m_emptyArray : Array := [].
Definition m_emptyMap : Map := [].

(** *** [std::map<std::string, JsonT>] as a list in key order *)

(** [m.find(key)]: the element whose key is [key]. *)
Fixpoint map_find (key : string) (m : Map) : option JsonT :=
  match m with
  | [] => None
  | (k, v) :: m' => if String.eqb key k then Some v else map_find key m'
  end.

(** Writing [v] into the element of key [key], which is inserted at its
    place in the order when it is missing. *)
Fixpoint map_insert (key : string) (v : JsonT) (m : Map) : Map :=
  match m with
  | [] => [(key, v)]
  | (k, x) :: m' =>
      match String.compare key k with
      | Lt => (key, v) :: m
      | Eq => (k, v) :: m'
      | Gt => (k, x) :: map_insert key v m'
      end
  end.

(** [m[key]] of [std::map]: a missing key is inserted with [JsonT()]. *)
Definition map_subscript (key : string) (m : Map) : Map :=
  match map_find key m with
  | Some _ => m
  | None => map_insert key JNull m
  end.

(** [m.erase(key)]: the map and the number of elements removed. *)
Fixpoint map_erase (key : string) (m : Map) : Map * Z :=
  match m with
  | [] => ([], 0)
  | (k, v) :: m' =>
      if String.eqb key k then (m', 1)
      else let '(r, n) := map_erase key m' in ((k, v) :: r, n)
  end.

(** *** Tag, [operator==], [clear], [ensureMap], [ensureArray] *)

Definition type (v : JsonT) : Type_.t :=
  match v with
  | JNull => Type_.Null
  | JBool _ => Type_.Bool
  | JFloat _ => Type_.Float
  | JInt _ => Type_.Int
  | JString _ => Type_.String
  | JArray _ => Type_.Array
  | JMap _ => Type_.Map
  end.

Definition isType (v : JsonT) (t : Type_.t) : bool := Type_.eqb (type v) t.
Definition isNull (v : JsonT) : bool := isType v Type_.Null.

(** [operator==]: same tag and equal payloads; vectors and maps compare
    their sizes and their elements in order. *)
Fixpoint json_eqb (x y : JsonT) : bool :=
  match x, y with
  | JNull, JNull => true
  | JBool a, JBool b => Bool.eqb a b
  | JFloat a, JFloat b => double_eqb a b
  | JInt a, JInt b => a =? b
  | JString a, JString b => String.eqb a b
  | JArray a, JArray b =>
      (fix go (a b : list JsonT) : bool :=
         match a, b with
         | [], [] => true
         | x :: a', y :: b' => json_eqb x y && go a' b'
         | _, _ => false
         end) a b
  | JMap a, JMap b =>
      (fix go (a b : list (string * JsonT)) : bool :=
         match a, b with
         | [], [] => true
         | (k, x) :: a', (k', y) :: b' =>
             String.eqb k k' && json_eqb x y && go a' b'
         | _, _ => false
         end) a b
  | _, _ => false
  end.

(** [clear()]: the payload is destroyed and the tag becomes [Null]. *)
Definition clear (v : JsonT) : JsonT := JNull.

(** [ensureMap()] and [ensureArray()]: the receiver afterwards; the handle
    that is returned is its payload. *)
Definition ensureMap (v : JsonT) : JsonT :=
  match v with
  | JMap _ => v
  | _ => JMap []
  end.

Definition ensureArray (v : JsonT) : JsonT :=
  match v with
  | JArray _ => v
  | _ => JArray []
  end.

(** *** [get<U>()] *)

Definition get_bool (v : JsonT) : bool :=
  match v with
  | JBool b => b
  | _ => false
  end.

(** [get<double>()]. *)
Definition get_double (v : JsonT) : double :=
  match v with
  | JFloat d => d
  | JInt n => double_of_Z n
  | _ => S754_zero false
  end.

(** [get<U>()] for an integral [U] other than [bool]. *)
Definition get_integer (U : int_type) (v : JsonT) : Z :=
  match v with
  | JBool b => if b then 1 else 0
  | JFloat d => static_cast U (llroundl d)
  | JInt n => static_cast U n
  | _ => 0
  end.

Definition get_string (v : JsonT) : string :=
  match v with
  | JString s => s
  | _ => m_emptyString
  end.

Definition get_Array (v : JsonT) : Array :=
  match v with
  | JArray a => a
  | _ => m_emptyArray
  end.

Definition get_Map (v : JsonT) : Map :=
  match v with
  | JMap m => m
  | _ => m_emptyMap
  end.

(** *** References into a value *)

(** One step from a value to a child: a key of its map or a position of
    its vector. *)
Inductive step : Type :=
| Key (key : string)
| Idx (index : nat).

(** What a [const JsonT&] returned by the non-throwing accessors
    designates: the shared [m_emptyJson] or a child of the receiver. *)
Inductive cref : Type :=
| RefEmptyJson
| RefChild (s : step).

Definition child (v : JsonT) (s : step) : option JsonT :=
  match s, v with
  | Key k, JMap m => map_find k m
  | Idx i, JArray a => a !! i
  | _, _ => None
  end.

Definition deref (v : JsonT) (r : cref) : option JsonT :=
  match r with
  | RefEmptyJson => Some m_emptyJson
  | RefChild s => child v s
  end.

(** Assignment through a reference to the child [s]. *)
Definition set_child (v : JsonT) (s : step) (c : JsonT) : JsonT :=
  match s, v with
  | Key k, JMap m => JMap (map_insert k c m)
  | Idx i, JArray a => JArray (<[i := c]> a)
  | _, _ => v
  end.

(** [size_t]. *)
Definition SIZE_MOD : Z := 2 ^ 64.
Definition size (a : Array) : Z := Z.of_nat (List.length a).

(** *** Access by key *)

(** [operator[](const std::string&) const]. *)
Definition subscript_key_const (v : JsonT) (key : string) : cref :=
  let m := get_Map v in
  match map_find key m with
  | Some _ => RefChild (Key key)
  | None => RefEmptyJson
  end.

(** [operator[](const std::string&)]: the receiver afterwards and the
    child that the returned reference designates. *)
Definition subscript_key (v : JsonT) (key : string) : JsonT * step :=
  (JMap (map_subscript key (get_Map (ensureMap v))), Key key).

(** [at(const std::string&)]. *)
Definition at_key (v : JsonT) (key : string) : outcome step :=
  match v with
  | JMap m =>
      match map_find key m with
      | None => Throw (out_of_range "invalid key")
      | Some _ => Ret (Key key)
      end
  | _ => Throw (out_of_range "not map")
  end.

(** [erase(const std::string&)]. *)
Definition erase_key (v : JsonT) (key : string) : JsonT * bool :=
  match v with
  | JMap m => let '(m', n) := map_erase key m in (JMap m', 0 <? n)
  | _ => (v, false)
  end.

(** *** Access by index *)

(** [operator[](size_t) const]. *)
Definition subscript_index_const (v : JsonT) (index : Z) : cref :=
  let a := get_Array v in
  if index <? size a then RefChild (Idx (Z.to_nat index)) else RefEmptyJson.

(** [operator[](size_t)]: [resize(index + 1)] when [index >= size()], the
    sum being computed in [size_t]; then the unchecked [a[index]]. *)
Definition subscript_index (v : JsonT) (index : Z) : outcome (JsonT * step) :=
  let a := get_Array (ensureArray v) in
  let a' :=
    if size a <=? index
    then resize (Z.to_nat ((index + 1) mod SIZE_MOD)) JNull a
    else a in
  if index <? size a' then Ret (JArray a', Idx (Z.to_nat index))
  else Undefined.

(** [at(size_t)]. *)
Definition at_index (v : JsonT) (index : Z) : outcome step :=
  match v with
  | JArray a =>
      if size a <=? index then Throw (out_of_range "invalid index")
      else Ret (Idx (Z.to_nat index))
  | _ => Throw (out_of_range "not array")
  end.

(** [erase(size_t)]. *)
Definition erase_index (v : JsonT) (index : Z) : JsonT * bool :=
  match v with
  | JArray a =>
      if size a <=? index then (v, false)
      else (JArray (delete (Z.to_nat index) a), true)
  | _ => (v, false)
  end.

(** [v[index] = x]: the mutable accessor followed by the assignment
    through the reference it returns. *)
Definition assign_index (v : JsonT) (index : Z) (x : JsonT) : outcome JsonT :=
  let* (v', s) := subscript_index v index in
  Ret (set_child v' s x).

(** [v[key] = x]. *)
Definition assign_key (v : JsonT) (key : string) (x : JsonT) : JsonT :=
  let '(v', s) := subscript_key v key in set_child v' s x.

(** *** Move construction and move assignment *)

(** [JsonT(JsonT&& s)]: the new object and the source afterwards.  The tag
    of the source is copied and never written; a scalar payload is copied,
    and the payload of a string, vector or map is moved out, which leaves
    an empty one behind. *)
Definition move_construct (s : JsonT) : JsonT * JsonT :=
  match s with
  | JNull => (JNull, JNull)
  | JBool b => (JBool b, JBool b)
  | JFloat d => (JFloat d, JFloat d)
  | JInt n => (JInt n, JInt n)
  | JString x => (JString x, JString EmptyString)
  | JArray a => (JArray a, JArray [])
  | JMap m => (JMap m, JMap [])
  end.

(* ===================================================================== *)
(** ** [parse] *)

Record ParseOptions : Type := { comment : bool }.

(** [ParseOptions()]. *)
Definition default_ParseOptions : ParseOptions := {| comment := true |}.

(** The bit fields of [State::flags]. *)
Record Flags : Type :=
  { bFinish : bool; bBegin : bool; end_ : N; objectKey : N; value : N }.

(** [flags.all = 0]. *)
Definition flags_zero : Flags :=
  {| bFinish := false; bBegin := false; end_ := 0; objectKey := 0; value := 0 |}.

(** [flags.all == 0]. *)
Definition flags_all_is_zero (f : Flags) : bool :=
  negb (bFinish f) && negb (bBegin f)
  && (end_ f =? 0)%N && (objectKey f =? 0)%N && (value f =? 0)%N.

Definition flags_finish : Flags :=
  {| bFinish := true; bBegin := false; end_ := 0; objectKey := 0; value := 0 |}.
Definition flags_end (e : N) : Flags :=
  {| bFinish := false; bBegin := false; end_ := e; objectKey := 0; value := 0 |}.
Definition flags_key (e : N) : Flags :=
  {| bFinish := false; bBegin := false; end_ := e; objectKey := 1; value := 0 |}.
Definition flags_colon : Flags :=
  {| bFinish := false; bBegin := false; end_ := 0; objectKey := 2; value := 0 |}.
Definition flags_value (e v : N) : Flags :=
  {| bFinish := false; bBegin := true; end_ := e; objectKey := 0; value := v |}.

(** A [JsonT*] into the tree under [State::result]: the steps from the
    root to the object pointed at. *)
Abbreviation path := (list step).

Fixpoint get_at (v : JsonT) (p : path) : option JsonT :=
  match p with
  | [] => Some v
  | s :: p' =>
      match child v s with
      | Some c => get_at c p'
      | None => None
      end
  end.

Fixpoint set_at (v : JsonT) (p : path) (x : JsonT) : JsonT :=
  match p with
  | [] => x
  | s :: p' =>
      match child v s with
      | Some c => set_child v s (set_at c p' x)
      | None => v
      end
  end.

(** *** Objects that hold values, and move assignment *)

(** The objects of a program: its variables are the entries of a store,
    and an object is a variable, or a node inside one, at a place that a
    path from the variable leads to.  Two places of one variable are the
    same object or two objects; one object is part of another when its
    path goes on from the other's. *)
Abbreviation store := (list JsonT).

Record object : Type := { var : nat; place : path }.

Definition step_eqb (a b : step) : bool :=
  match a, b with
  | Key k, Key k' => String.eqb k k'
  | Idx i, Idx j => Nat.eqb i j
  | _, _ => false
  end.

Fixpoint path_eqb (p q : path) : bool :=
  match p, q with
  | [], [] => true
  | a :: p', b :: q' => step_eqb a b && path_eqb p' q'
  | _, _ => false
  end.

(** [&a == &b]. *)
Definition object_eqb (a b : object) : bool :=
  Nat.eqb (var a) (var b) && path_eqb (place a) (place b).

(** The value that the object holds; [None] when the store has no such
    object (any more). *)
Definition load (h : store) (o : object) : option JsonT :=
  match h !! var o with
  | Some v => get_at v (place o)
  | None => None
  end.

(** A write through a pointer to the object; it does not reach the store
    when the object is not in it. *)
Definition save (h : store) (o : object) (x : JsonT) : store :=
  match h !! var o with
  | Some v => <[var o := set_at v (place o) x]> h
  | None => h
  end.

(** [operator=(JsonT&& s)] for the objects [this] and [s]: nothing when
    they are the same object; otherwise [clear()], which destroys what
    [this] holds, and then the move constructor in place, which reads [s]
    and leaves it moved from.  A source that was part of [this] has been
    destroyed by [clear()] when the constructor reads it: the behaviour is
    undefined.  When [this] is part of [s], the payload that is moved out
    of [s] holds [this], so what the constructor makes there is not
    reached from the store any more. *)
Definition move_assign (this s : object) (h : store) : outcome store :=
  match load h this, load h s with
  | Some dst, Some _ =>
      if object_eqb this s then Ret h
      else
        let h1 := save h this (clear dst) in
        match load h1 s with
        | None => Undefined
        | Some src =>
            let '(new, src') := move_construct src in
            Ret (save (save h1 s src') this new)
        end
  | _, _ => Undefined
  end.

(** The two paths part: at some step they go on differently, so neither
    leads through the node of the other. *)
Fixpoint diverge (p q : path) : bool :=
  match p, q with
  | a :: p', b :: q' => if step_eqb a b then diverge p' q' else true
  | _, _ => false
  end.

(** Two objects apart: neither is the other nor a part of it. *)
Definition apart (a b : object) : bool :=
  negb (Nat.eqb (var a) (var b)) || diverge (place a) (place b).

(** A scalar: [Null], [Bool], [Float] or [Int]. *)
Definition is_scalar (v : JsonT) : bool :=
  match v with
  | JNull | JBool _ | JFloat _ | JInt _ => true
  | _ => false
  end.

(** [struct State].  [parents] has the back of the vector at its head;
    [it] and [itLineEnd] are the suffixes of [json] that start at the two
    iterators. *)
Record State : Type :=
  { json : string;
    result : JsonT;
    flags : Flags;
    parents : list path;
    it : string;
    itLineEnd : string }.

Definition with_result (r : JsonT) (st : State) : State :=
  {| json := json st; result := r; flags := flags st; parents := parents st;
     it := it st; itLineEnd := itLineEnd st |}.
Definition with_flags (f : Flags) (st : State) : State :=
  {| json := json st; result := result st; flags := f; parents := parents st;
     it := it st; itLineEnd := itLineEnd st |}.
Definition with_parents (ps : list path) (st : State) : State :=
  {| json := json st; result := result st; flags := flags st; parents := ps;
     it := it st; itLineEnd := itLineEnd st |}.
Definition with_it (i : string) (st : State) : State :=
  {| json := json st; result := result st; flags := flags st;
     parents := parents st; it := i; itLineEnd := itLineEnd st |}.
Definition with_itLineEnd (i : string) (st : State) : State :=
  {| json := json st; result := result st; flags := flags st;
     parents := parents st; it := it st; itLineEnd := i |}.

(** [State(const std::string& s)]. *)
Definition init_state (s : string) : State :=
  {| json := s; result := JNull; flags := flags_value 0 3; parents := [[]];
     it := s; itLineEnd := EmptyString |}.

(** The characters of [[it, itLineEnd)]. *)
Definition range (st : State) : string :=
  string_take (String.length (it st) - String.length (itLineEnd st)) (it st).

(** [state.it = m[0].second] for a match of [n] characters at [it]. *)
Definition advance (n : nat) (st : State) : State :=
  with_it (string_drop n (it st)) st.

(** [ParseException(msg, json, it)]. *)
Definition parse_exception (msg : string) (st : State) : exception :=
  ParseException (msg ++ string_take 16 (it st))
                 (String.length (json st) - String.length (it st)).

Definition what (e : exception) : string :=
  match e with
  | ParseException w _ | out_of_range w | invalid_argument w | range_error w => w
  end.

(** The handlers of the loop of [parse]: a [ParseException] passes, any
    other exception becomes a [ParseException] at the current [it]. *)
Definition rethrow {A : Type} (st : State) (o : outcome A) : outcome A :=
  match o with
  | Throw (ParseException w p) => Throw (ParseException w p)
  | Throw e => Throw (parse_exception (what e) st)
  | _ => o
  end.

(** [**parents.rbegin()], with the pointer it was reached through. *)
Definition top (st : State) : outcome (path * JsonT) :=
  match parents st with
  | [] => Undefined
  | p :: _ =>
      match get_at (result st) p with
      | Some v => Ret (p, v)
      | None => Undefined
      end
  end.

(** [State::setValue]. *)
Definition setValue (v : JsonT) (st : State) : outcome State :=
  let* (p, parent) := top st in
  match value (flags st) with
  | 1%N =>
      let* _ := assert (isNull parent) in
      Ret (with_flags (flags_end 2)
             (with_parents (tail (parents st))
                (with_result (set_at (result st) p v) st)))
  | 2%N =>
      if negb (isType parent Type_.Array) then Throw (parse_exception EmptyString st)
      else
        let* parent' := assign_index parent (size (get_Array parent)) v in
        Ret (with_flags (flags_end 4)
               (with_result (set_at (result st) p parent') st))
  | 3%N =>
      Ret (with_flags flags_finish (with_result (set_at (result st) p v) st))
  | _ => Throw (parse_exception EmptyString st)
  end.

(** [State::setEnd]. *)
Definition setEnd (st : State) : outcome State :=
  if (List.length (parents st) <=? 1)%nat then Ret (with_flags flags_finish st)
  else
    let st' := with_parents (tail (parents st)) st in
    let* (_, parent) := top st' in
    match type parent with
    | Type_.Map => Ret (with_flags (flags_end 2) st')
    | Type_.Array => Ret (with_flags (flags_end 4) st')
    | _ => Throw (parse_exception EmptyString st')
    end.

(** *** The token expression *)

(** One alternative of the token expression: a literal, [\S], or the
    number pattern. *)
Inductive alt : Type :=
| ALit (s : string)
| ANonSpace
| ANumber.

(** The alternatives in the order in which the source appends them. *)
Definition token_alts (f : Flags) : outcome (list alt) :=
  let* e :=
    match end_ f with
    | 0%N => Ret []
    | 1%N => Ret [ALit "}"]
    | 2%N => Ret [ALit "}"; ALit ","]
    | 3%N => Ret [ALit "]"]
    | 4%N => Ret [ALit "]"; ALit ","]
    | _ => AssertFail
    end in
  let* k :=
    match objectKey f with
    | 0%N => Ret []
    | 1%N => Ret [ALit sDQ]
    | 2%N => Ret [ALit ":"]
    | _ => AssertFail
    end in
  Ret ([ALit "//"; ALit "/*"]
       ++ (if bFinish f then [ANonSpace] else [])
       ++ (if bBegin f then [ALit "{"; ALit "["] else [])
       ++ e ++ k
       ++ (if (value f =? 0)%N then []
           else [ALit sDQ; ALit "true"; ALit "false"; ALit "null"; ANumber]))%list.

(** Length of the match of one alternative at the start of [s]. *)
Definition match_alt (a : alt) (s : string) : option nat :=
  match a with
  | ALit l => if starts_with l s then Some (String.length l) else None
  | ANonSpace =>
      match s with
      | String c _ => if isspace c then None else Some 1%nat
      | EmptyString => None
      end
  | ANumber => scan_number s
  end.

Fixpoint first_match (alts : list alt) (s : string) : option nat :=
  match alts with
  | [] => None
  | a :: alts' =>
      match match_alt a s with
      | Some n => Some n
      | None => first_match alts' s
      end
  end.

(** [regex_search(it, itLineEnd, m, re)] for the token expression, which
    is anchored, skips white space and then takes the first alternative
    that matches: [m[1].str()] and the length of [m[0]].  No alternative
    can start with a white space character, so giving back part of the
    white space never helps. *)
Definition match_token (f : Flags) (r : string) : outcome (option (string * nat)) :=
  let* alts := token_alts f in
  let n0 := span_space r in
  let r' := string_drop n0 r in
  match first_match alts r' with
  | Some n => Ret (Some (string_take n r', (n0 + n)%nat))
  | None => Ret None
  end.

(** *** The string token *)

Fixpoint match_classes (cls : list (ascii -> bool)) (s : string) : bool :=
  match cls, s with
  | [], _ => true
  | p :: cls', String c s' => p c && match_classes cls' s'
  | _ :: _, EmptyString => false
  end.

Definition is_char (a c : ascii) : bool := Ascii.eqb c a.
Definition is_dD (c : ascii) : bool := is_char "d" c || is_char "D" c.
Definition is_89abAB (c : ascii) : bool :=
  is_char "8" c || is_char "9" c || is_char "a" c || is_char "b" c
  || is_char "A" c || is_char "B" c.
Definition is_cfCF (c : ascii) : bool :=
  in_range_char "c" "f" c || in_range_char "C" "F" c.

Definition u_high : list (ascii -> bool) :=
  [is_char chBSL; is_char "u"; is_dD; is_89abAB; isxdigit; isxdigit].
Definition u_low : list (ascii -> bool) :=
  [is_char chBSL; is_char "u"; is_dD; is_cfCF; isxdigit; isxdigit].
Definition u_any : list (ascii -> bool) :=
  [is_char chBSL; is_char "u"; isxdigit; isxdigit; isxdigit; isxdigit].

(** The sub-matches [m[1]] to [m[5]] of the string expression and the
    length of [m[0]]. *)
Record smatch : Type :=
  { m1 : string; m2 : string; m3 : string; m4 : string; m5 : string;
    m_length : nat }.

Definition escape2 (c : ascii) : string := String chBSL (str1 c).

(** The second group of the string expression at the start of [s]: a pair
    of surrogate escapes, one [\u] escape, one of the six two-character
    escapes, or the closing quote, tried in this order. *)
Definition match_string_token (s : string) : option smatch :=
  let mk (a b c d : string) :=
    Some {| m1 := EmptyString; m2 := a; m3 := b; m4 := c; m5 := d;
            m_length := String.length a |} in
  let lit (l : string) := mk l EmptyString EmptyString EmptyString in
  if match_classes (u_high ++ u_low)%list s then
    mk (string_take 12 s) (substring 2 4 s) (substring 8 4 s) EmptyString
  else if match_classes u_any s then
    mk (string_take 6 s) EmptyString EmptyString (substring 2 4 s)
  else if starts_with (escape2 chDQ) s then lit (escape2 chDQ)
  else if starts_with (escape2 "r") s then lit (escape2 "r")
  else if starts_with (escape2 "t") s then lit (escape2 "t")
  else if starts_with (escape2 "/") s then lit (escape2 "/")
  else if starts_with (escape2 "b") s then lit (escape2 "b")
  else if starts_with (escape2 chBSL) s then lit (escape2 chBSL)
  else if starts_with sDQ s then lit sDQ
  else None.

(** [regex_search(it, itLineEnd, m, re)] for the string expression: it is
    anchored, and its first group is lazy, so the match ends at the first
    place where the second group matches; the characters before it are
    matched by [.], which refuses LF and CR. *)
Fixpoint find_string_token (s : string) : option smatch :=
  match match_string_token s with
  | Some m => Some m
  | None =>
      match s with
      | EmptyString => None
      | String c s' =>
          if Ascii.eqb c chLF || Ascii.eqb c chCR then None
          else
            match find_string_token s' with
            | Some m =>
                Some {| m1 := String c (m1 m); m2 := m2 m; m3 := m3 m;
                        m4 := m4 m; m5 := m5 m; m_length := S (m_length m) |}
            | None => None
            end
      end
  end.

(** [mapReplace]. *)
Definition mapReplace : list (string * string) :=
  [ (escape2 chDQ, sDQ);
    (escape2 "r", str1 chCR);
    (escape2 "t", str1 chTAB);
    (escape2 "/", "/");
    (escape2 "b", str1 chBS);
    (escape2 chBSL, str1 chBSL) ].

(** [find] in a [std::map] with string keys that is given by its list of
    entries. *)
Fixpoint find_key {A : Type} (key : string) (m : list (string * A)) : option A :=
  match m with
  | [] => None
  | (k, v) :: m' => if String.eqb key k then Some v else find_key key m'
  end.

(** The loop that decodes a string, entered after its opening quote.
    Every turn takes at least one character, so [fuel] turns are enough
    when [fuel] is larger than the number of characters of the range. *)
Fixpoint decode_string (fuel : nat) (st : State) (text : string)
  : outcome (State * string) :=
  match fuel with
  | O => Undefined
  | S fuel' =>
      match find_string_token (range st) with
      | None => Throw (parse_exception EmptyString st)
      | Some m =>
          let st' := advance (m_length m) st in
          let text' := text ++ m1 m in
          if String.eqb (m2 m) sDQ then Ret (st', text')
          else
            match find_key (m2 m) mapReplace with
            | Some r => decode_string fuel' st' (text' ++ r)
            | None =>
                let c :=
                  if is_empty (m5 m) then [stoi16 (m3 m); stoi16 (m4 m)]
                  else [stoi16 (m5 m)] in
                let* su8 := rethrow st' (to_bytes c) in
                decode_string fuel' st' (text' ++ su8)
            end
      end
  end.

(** *** The token handlers ([mapToken]) *)

(** The end of the match of [.*(\n|$)] searched from [it]: [.] refuses LF
    and CR, so the match ends after the first LF, or at the end of the
    text; the search always succeeds. *)
Definition line_comment_end (s : string) : option string :=
  Some (find_line_end s).

(** The end of the first occurrence of the closing mark of a block
    comment. *)
Fixpoint block_comment_end (s : string) : option string :=
  match s with
  | EmptyString => None
  | String c s' =>
      match s' with
      | String c' s'' =>
          if Ascii.eqb c "*" && Ascii.eqb c' "/" then Some s''
          else block_comment_end s'
      | EmptyString => None
      end
  end.

Definition on_line_comment (st : State) : outcome State :=
  match line_comment_end (it st) with
  | None => Throw (parse_exception EmptyString st)
  | Some i => Ret (with_it i st)
  end.

Definition on_block_comment (st : State) : outcome State :=
  match block_comment_end (it st) with
  | None => Throw (parse_exception EmptyString st)
  | Some i => Ret (with_it i st)
  end.

(** The common part of the handlers of the two opening brackets: the new
    container is appended to the array on top of the stack and pushed, or
    it is made in place in the empty slot on top of the stack. *)
Definition on_begin (ensure : JsonT -> JsonT) (f : Flags) (st : State)
  : outcome State :=
  let* (p, parent) := top st in
  if isType parent Type_.Array then
    let* (parent', s) := subscript_index parent (size (get_Array parent)) in
    let* v := match child parent' s with Some v => Ret v | None => Undefined end in
    Ret (with_flags f
           (with_parents ((p ++ [s])%list :: parents st)
              (with_result (set_at (result st) p (set_child parent' s (ensure v))) st)))
  else if negb (isNull parent) then Throw (parse_exception EmptyString st)
  else
    Ret (with_flags f (with_result (set_at (result st) p (ensure parent)) st)).

Definition on_object_begin : State -> outcome State :=
  on_begin ensureMap (flags_key 1).

Definition on_colon (st : State) : outcome State :=
  Ret (with_flags (flags_value 0 1) st).

Definition on_object_end (st : State) : outcome State :=
  let* (_, parent) := top st in
  if negb (isType parent Type_.Map) then Throw (parse_exception EmptyString st)
  else setEnd st.

Definition on_array_begin : State -> outcome State :=
  on_begin ensureArray (flags_value 3 2).

Definition on_array_end (st : State) : outcome State :=
  let* (_, parent) := top st in
  if negb (isType parent Type_.Array) then Throw (parse_exception EmptyString st)
  else setEnd st.

Definition on_comma (st : State) : outcome State :=
  match end_ (flags st) with
  | 2%N => Ret (with_flags (flags_key 0) st)
  | 4%N => Ret (with_flags (flags_value 0 2) st)
  | _ => Throw (parse_exception EmptyString st)
  end.

(** The handler of the opening quote: the text is decoded; as a key of an
    object it selects the element of the map, creating it when missing,
    clears it and pushes it; otherwise it is a value. *)
Definition on_string (st : State) : outcome State :=
  let* (st1, sText) :=
    decode_string (S (String.length (range st))) st EmptyString in
  if (objectKey (flags st1) =? 1)%N then
    let* (p, parent) := top st1 in
    let* _ := assert (isType parent Type_.Map) in
    let '(parent', s) := subscript_key parent sText in
    let* v := match child parent' s with Some v => Ret v | None => Undefined end in
    Ret (with_flags flags_colon
           (with_parents ((p ++ [s])%list :: parents st1)
              (with_result
                 (set_at (result st1) p (set_child parent' s (clear v))) st1)))
  else setValue (JString sText) st1.

Definition mapToken : list (string * (State -> outcome State)) :=
  [ ("//", on_line_comment);
    ("/*", on_block_comment);
    ("{", on_object_begin);
    (":", on_colon);
    ("}", on_object_end);
    ("[", on_array_begin);
    ("]", on_array_end);
    (",", on_comma);
    ("true", setValue (JBool true));
    ("false", setValue (JBool false));
    ("null", setValue JNull);
    (sDQ, on_string) ].

(** The value of a token that is in no entry of [mapToken]: an integer
    when the token is an optional minus and digits and [stoll] accepts
    it, otherwise what [stod] makes of it. *)
Definition number_value (sToken : string) : outcome JsonT :=
  let as_double :=
    let* d := stod sToken in Ret (JFloat d) in
  if is_integer_token sToken then
    match stoll sToken with
    | Ret n => Ret (JInt n)
    | _ => as_double
    end
  else as_double.

(** *** The loop *)

Inductive loop : Type :=
| Continue (st : State)
| Break (st : State).

(** One turn of [while (true)]. *)
Definition turn (st : State) : outcome loop :=
  if flags_all_is_zero (flags st) then Throw (parse_exception EmptyString st)
  else if bool_decide (parents st = []) then Throw (parse_exception EmptyString st)
  else if is_empty (it st) then
    if negb (bFinish (flags st)) then Throw (parse_exception EmptyString st)
    else Ret (Break st)
  else
    let st := with_itLineEnd (find_line_end (it st)) st in
    if negb (has_nonspace (range st)) then Ret (Continue (with_it (itLineEnd st) st))
    else
      let* tok := match_token (flags st) (range st) in
      let '(sToken, st) :=
        match tok with
        | Some (t, n) => (t, advance n st)
        | None => (EmptyString, st)
        end in
      match find_key sToken mapToken with
      | Some handler =>
          let* st' := handler st in Ret (Continue st')
      | None =>
          let* v := rethrow st (number_value sToken) in
          let* st' := setValue v st in
          Ret (Continue st')
      end.

(** The loop for at most [fuel] turns; [None] when they do not suffice. *)
Fixpoint run (fuel : nat) (st : State) : option (outcome JsonT) :=
  match fuel with
  | O => None
  | S fuel' =>
      match turn st with
      | Ret (Continue st') => run fuel' st'
      | Ret (Break st') => Some (Ret (result st'))
      | Throw e => Some (Throw e)
      | AssertFail => Some AssertFail
      | Undefined => Some Undefined
      end
  end.

(** [parse(sJson, opt)].  Every turn that continues moves [it] forward, so
    the loop ends within [length sJson + 1] turns ([run_enough_fuel]).
    The source never reads [opt]. *)
Definition parse (sJson : string) (opt : ParseOptions) : outcome JsonT :=
  match run (S (String.length sJson)) (init_state sJson) with
  | Some o => o
  | None => Undefined
  end.

(* ===================================================================== *)
(** ** [stringify] *)

(** The table of [fEscape]: the character that each expression matches
    and the text that replaces it. *)
Definition escape_tbl : list (string * string) :=
  [ (str1 chBSL, escape2 chBSL);
    (sDQ, escape2 chDQ);
    (str1 chCR, escape2 "r");
    (str1 chTAB, escape2 "t");
    ("/", escape2 "/");
    (str1 chBS, escape2 "b") ].

(** [for (auto& i : tbl) result = regex_replace(result, i.re, i.dst)]. *)
Definition replace_each (tbl : list (string * string)) (s : string) : string :=
  fold_left (fun result i => regex_replace result (fst i) (snd i)) tbl s.

Definition fEscape (s : string) : string := replace_each escape_tbl s.

(** [F::f]. *)
Fixpoint stringify (j : JsonT) : string :=
  match j with
  | JNull => "null"
  | JBool b => if b then "true" else "false"
  | JFloat d => to_string_double d
  | JInt n => to_string_int n
  | JString s => sDQ ++ fEscape s ++ sDQ
  | JArray a =>
      let s := fold_left (fun s i => s ++ (stringify i ++ ",")) a "[" in
      (if 1 <=? size a then pop_back s else s) ++ "]"
  | JMap m =>
      let s :=
        fold_left
          (fun s i => s ++ (sDQ ++ fEscape (fst i) ++ sDQ ++ ":" ++ stringify (snd i) ++ ","))
          m "{" in
      (if 1 <=? Z.of_nat (List.length m) then pop_back s else s) ++ "}"
  end.

(* ===================================================================== *)
(** ** JSON Pointer *)

Record Pointer : Type := { text : string }.

(** The table of replacements applied to a token of a pointer. *)
Definition pointer_tbl : list (string * string) :=
  [ ("~0", "~");
    ("~1", "/");
    (str1 chCR, escape2 "r");
    (str1 chTAB, escape2 "t");
    (str1 chBS, escape2 "b") ].

(** [regex_search(s, m, regex("^[0-9]+$"))]. *)
Definition is_digits (s : string) : bool :=
  negb (is_empty s) && string_forallb isdigit s.

(** The text of a JSON array that the tokens are written into. *)
Definition pointer_json (tokens : list string) : string :=
  let json :=
    fold_left
      (fun json s =>
         if is_digits s then json ++ (s ++ ",")
         else json ++ (sDQ ++ replace_each pointer_tbl s ++ sDQ ++ ","))
      tokens "[" in
  pop_back json ++ "]".

(** The first lambda of [at(const Pointer&)]: the tokens of the pointer as
    values, read back with [parse]. *)
Definition pointer_tokens (pointer : Pointer) : outcome Array :=
  if is_empty (text pointer) then Ret []
  else
    let tokens := split_slash EmptyString (text pointer ++ "/") in
    let* json := parse (pointer_json tokens) default_ParseOptions in
    let* _ := assert (Type_.eqb (type json) Type_.Array) in
    let v := get_Array (ensureArray json) in
    match v with
    | [] => Undefined
    | v0 :: v' =>
        if isType v0 Type_.String && is_empty (get_string v0)
        then Ret (clear v0 :: v')
        else Ret v
    end.

(** The loop over [tokens[1..]]: [p] is the pointer that has been reached
    from [this]. *)
Fixpoint walk (this : JsonT) (p : path) (tokens : list JsonT) : outcome path :=
  match tokens with
  | [] => Ret p
  | j :: tokens' =>
      let* cur := match get_at this p with Some c => Ret c | None => Undefined end in
      match type j with
      | Type_.Int =>
          let* s := at_index cur (static_cast t_size (get_integer t_int j)) in
          walk this (p ++ [s])%list tokens'
      | Type_.String =>
          let* s := at_key cur (get_string j) in
          walk this (p ++ [s])%list tokens'
      | _ => Throw (out_of_range "invalid key")
      end
  end.

(** [at(const Pointer&)]: the path from the receiver to the value that the
    returned reference designates. *)
Definition at_pointer (this : JsonT) (pointer : Pointer) : outcome path :=
  let* tokens := pointer_tokens pointer in
  match tokens with
  | [] => Ret []
  | t0 :: rest =>
      if negb (isNull t0) then Throw (out_of_range "invalid key")
      else walk this [] rest
  end.

(** [operator[](const Pointer&) const]: [std::out_of_range] is caught and
    answered with [m_emptyJson] ([None]); anything else passes. *)
Definition subscript_pointer (this : JsonT) (pointer : Pointer)
  : outcome (option path) :=
  match at_pointer this pointer with
  | Ret p => Ret (Some p)
  | Throw (out_of_range _) => Ret None
  | Throw e => Throw e
  | AssertFail => AssertFail
  | Undefined => Undefined
  end.

(* ===================================================================== *)
(** ** Predicates and texts that the statements use *)

(** The induction principle of [JsonT] that gives the hypothesis for every
    element of a vector and every value of a map. *)
Fixpoint JsonT_ind (P : JsonT -> Prop)
    (HNull : P JNull)
    (HBool : forall b, P (JBool b))
    (HFloat : forall d, P (JFloat d))
    (HInt : forall n, P (JInt n))
    (HString : forall s, P (JString s))
    (HArray : forall a, Forall P a -> P (JArray a))
    (HMap : forall m, Forall (fun i => P (snd i)) m -> P (JMap m))
    (v : JsonT) {struct v} : P v :=
  let rec := JsonT_ind P HNull HBool HFloat HInt HString HArray HMap in
  match v with
  | JNull => HNull
  | JBool b => HBool b
  | JFloat d => HFloat d
  | JInt n => HInt n
  | JString s => HString s
  | JArray a =>
      HArray a
        ((fix go (l : list JsonT) : Forall P l :=
            match l with
            | [] => List.Forall_nil P
            | x :: l' => List.Forall_cons P x l' (rec x) (go l')
            end) a)
  | JMap m =>
      HMap m
        ((fix go (l : list (string * JsonT)) : Forall (fun i => P (snd i)) l :=
            match l with
            | [] => List.Forall_nil _
            | x :: l' => List.Forall_cons _ x l' (rec (snd x)) (go l')
            end) m)
  end.

(** No line feed in the string. *)
Definition no_lf (s : string) : bool :=
  string_forallb (fun c => negb (Ascii.eqb c chLF)) s.

(** The keys of the list ascend strictly: each one is below all the later
    ones, in the order of [std::string] (bytes compared as unsigned). *)
Fixpoint keys_ascending (m : list (string * JsonT)) : bool :=
  match m with
  | [] => true
  | i :: m' => forallb (fun i' => String.ltb (fst i) (fst i')) m' && keys_ascending m'
  end.

(** The invariants that the C++ types give to a value: an [Int] fits
    [std::intmax_t], the size of a vector fits [size_t], and a map holds
    its keys in ascending order, once each. *)
Fixpoint well_formed (v : JsonT) : bool :=
  match v with
  | JInt n => in_intmax n
  | JArray a => (size a <? SIZE_MOD) && forallb well_formed a
  | JMap m => keys_ascending m && forallb (fun i => well_formed (snd i)) m
  | _ => true
  end.

(** No [Float] in the tree, and no line feed in a string or in a key. *)
Fixpoint plain (v : JsonT) : bool :=
  match v with
  | JFloat _ => false
  | JString s => no_lf s
  | JArray a => forallb plain a
  | JMap m => forallb (fun i => no_lf (fst i) && plain (snd i)) m
  | _ => true
  end.

(** The same binary64 datum: sign, mantissa and exponent agree. *)
Definition same_double (x y : double) : bool :=
  match x, y with
  | S754_zero a, S754_zero b => Bool.eqb a b
  | S754_infinity a, S754_infinity b => Bool.eqb a b
  | S754_nan, S754_nan => true
  | S754_finite a m e, S754_finite b n f =>
      Bool.eqb a b && Pos.eqb m n && Z.eqb e f
  | _, _ => false
  end.

(** The six decimals that [std::to_string] writes determine the [Float]:
    it is finite, and [stod] makes it again from its text. *)
Definition six_decimals_determine (d : double) : bool :=
  match d with
  | S754_zero _ | S754_finite _ _ _ =>
      match stod (to_string_double d) with
      | Ret d' => same_double d' d
      | _ => false
      end
  | _ => false
  end.

(** Every [Float] of the tree is determined by its six decimals, and no
    string and no key holds a line feed. *)
Fixpoint readable (v : JsonT) : bool :=
  match v with
  | JFloat d => six_decimals_determine d
  | JString s => no_lf s
  | JArray a => forallb readable a
  | JMap m => forallb (fun i => no_lf (fst i) && readable (snd i)) m
  | _ => true
  end.

(** The map that holds the members of [ms] written one after the other,
    a later one replacing an earlier one of the same key. *)
Definition map_of_members (ms : list (string * JsonT)) : Map :=
  fold_left (fun m i => map_insert (fst i) (snd i) m) ms [].

(** The value whose maps hold the members of the lists of [v], in the
    sense of [map_of_members]. *)
Fixpoint as_parsed (v : JsonT) : JsonT :=
  match v with
  | JArray a => JArray (map as_parsed a)
  | JMap m =>
      JMap (fold_left (fun acc i => map_insert (fst i) (as_parsed (snd i)) acc) m [])
  | _ => v
  end.

(** The text of one member of an object, and of an object with the
    members [ms] in this order, without white space. *)
Definition member_text (i : string * JsonT) : string :=
  sDQ ++ fEscape (fst i) ++ sDQ ++ ":" ++ stringify (snd i).

Fixpoint comma_tail {A : Type} (f : A -> string) (l : list A) : string :=
  match l with
  | [] => EmptyString
  | x :: l' => "," ++ f x ++ comma_tail f l'
  end.

Definition comma_join {A : Type} (f : A -> string) (l : list A) : string :=
  match l with
  | [] => EmptyString
  | x :: l' => f x ++ comma_tail f l'
  end.

Definition object_text (ms : list (string * JsonT)) : string :=
  "{" ++ comma_join member_text ms ++ "}".

(** The value of the last member of key [key] in [ms]. *)
Definition last_member (key : string) (ms : list (string * JsonT)) : option JsonT :=
  find_key key (rev ms).

(** A token of the shape of the number pattern, in full. *)
Definition is_number_token (s : string) : bool :=
  match scan_number s with
  | Some n => Nat.eqb n (String.length s)
  | None => false
  end.

(** The integer that a string of an optional minus and digits denotes, as
    the standard library reads decimal numerals. *)
Definition integer_of_token (s : string) : Z :=
  match NilZero.int_of_string s with
  | Some d => Z.of_int d
  | None => 0
  end.

(** The text of the comment example: an object with a block comment
    before its only member. *)
Definition commented_object : string :=
  "{ /* c */ " ++ sDQ ++ "a" ++ sDQ ++ ":1 }".

(** The tree and the pointers of the pointer examples. *)
Definition pointer_tree : JsonT :=
  JMap [("a", JArray [JInt 10; JInt 20]); ("a/b", JBool true)].
Definition quote_pointer : Pointer := {| text := "/a" ++ sDQ ++ "b" |}.

(** [r] is an integer nearest to the finite binary number of sign [s],
    mantissa [m] and exponent [e]. *)
Definition nearest_integer (s : bool) (m : positive) (e r : Z) : Prop :=
  let k := Z.max (- e) 0 in
  let X := Z.pos m * 2 ^ Z.max e 0 in
  2 * Z.abs (r * 2 ^ k - (if s then - X else X)) <= 2 ^ k.

(** A state of the loop between two turns on a text without line feed:
    [itLineEnd] is the end of the text. *)
Definition mkst (j : string) (r : JsonT) (f : Flags) (ps : list path) (i : string)
  : State :=
  {| json := j; result := r; flags := f; parents := ps; it := i;
     itLineEnd := EmptyString |}.

(** Some turns of the loop lead from the first state to the second. *)
Inductive turns : State -> State -> Prop :=
| turns_nil st : turns st st
| turns_cons st st' st'' :
    turn st = Ret (Continue st') -> turns st' st'' -> turns st st''.

(** The place that waits for a value when [flags.value] is [m]: the empty
    element of a map that the key has pushed (1), the end of the array on
    top of the stack (2), or the empty root (3); with the result, the
    stack and the flags that storing a value there leads to. *)
Inductive slot :
  N -> JsonT -> list path -> (JsonT -> JsonT) -> list path -> Flags -> Prop :=
| slot_member r q k m0 ps :
    get_at r q = Some (JMap m0) -> map_find k m0 = Some JNull ->
    slot 1 r ((q ++ [Key k])%list :: q :: ps)
         (fun v => set_at r q (JMap (map_insert k v m0))) (q :: ps) (flags_end 2)
| slot_element r p a ps :
    get_at r p = Some (JArray a) -> size a + 1 < SIZE_MOD ->
    slot 2 r (p :: ps)
         (fun v => set_at r p (JArray (a ++ [v])%list)) (p :: ps) (flags_end 4)
| slot_root r p :
    get_at r p = Some JNull ->
    slot 3 r [p] (fun v => set_at r p v) [p] flags_finish.

(** What may follow a value in the text of [stringify]. *)
Definition delim (rest : string) : bool :=
  match rest with
  | EmptyString => true
  | String c _ => Ascii.eqb c "," || Ascii.eqb c "]" || Ascii.eqb c "}"
  end.

(** The invariants of the C++ types without the order of the keys. *)
Fixpoint representable (v : JsonT) : bool :=
  match v with
  | JInt n => in_intmax n
  | JArray a => (size a <? SIZE_MOD) && forallb representable a
  | JMap m => forallb (fun i => representable (snd i)) m
  | _ => true
  end.

(** The stack and the result once a container has been opened in a slot:
    the container lives at [c] in a tree that is [r0] but for it, and
    closing it when it is [V] stores [V] in the slot. *)
Definition closes (j : string) (r0 : JsonT) (c : path) (tl : list path)
    (F : JsonT -> JsonT) (ps' : list path) (f' : Flags) : Prop :=
  forall V f i,
    setEnd (mkst j (set_at r0 c V) f (c :: tl) i) = Ret (mkst j (F V) f' ps' i).

(** The loop reads the text of [v] in a slot and stores there the value
    [as_parsed v], whatever follows the text. *)
Definition parses (v : JsonT) : Prop :=
  forall j r ps m e F ps' f' rest,
    slot m r ps F ps' f' -> (e = 0 \/ e = 3)%N ->
    no_lf rest = true -> delim rest = true ->
    turns (mkst j r (flags_value e m) ps (stringify v ++ rest))
          (mkst j (F (as_parsed v)) f' ps' rest).

(** The statement proved by induction on the tree: a representable value
    that is readable is read back. *)
Abbreviation parses_if_readable :=
  (fun v => representable v = true -> readable v = true -> parses v).

(** One step of building the parsed map: the member's key receives the
    parsed form of its value. *)
Abbreviation insert_member :=
  (fun (acc : Map) (i : string * JsonT) => map_insert (fst i) (as_parsed (snd i)) acc).

(** The text does not go on with a digit (so a run of digits ends here). *)
Definition nondigit_start (rest : string) : bool :=
  match rest with
  | EmptyString => true
  | String c _ => negb (isdigit c)
  end.

(** The characters a number token is made of. *)
Definition numchar (c : ascii) : bool :=
  isdigit c || Ascii.eqb c "-" || Ascii.eqb c "+" || Ascii.eqb c "."
  || Ascii.eqb c "e" || Ascii.eqb c "E".

(** The text does not go on with a character of a number token, so the
    number pattern stops here at the latest. *)
Definition number_stop (rest : string) : bool :=
  match rest with
  | EmptyString => true
  | String c _ => negb (numchar c)
  end.

(** A match of the string body lengthened by one plain character in front. *)
Definition smatch_cons (c : ascii) (m : smatch) : smatch :=
  {| m1 := String c (m1 m); m2 := m2 m; m3 := m3 m; m4 := m4 m; m5 := m5 m;
     m_length := S (m_length m) |}.

(** The match of a string body that has no escape in it. *)
Definition smatch_lit (l : string) : smatch :=
  {| m1 := EmptyString; m2 := l; m3 := EmptyString; m4 := EmptyString;
     m5 := EmptyString; m_length := String.length l |}.


(* ===================================================================== *)
(** ** Further predicates and texts *)

(** No [Float] anywhere in the tree. *)
Fixpoint no_float (v : JsonT) : bool :=
  match v with
  | JFloat _ => false
  | JArray a => forallb no_float a
  | JMap m => forallb (fun i => no_float (snd i)) m
  | _ => true
  end.

(** No NaN anywhere in the tree. *)
Fixpoint no_nan (v : JsonT) : bool :=
  match v with
  | JFloat S754_nan => false
  | JArray a => forallb no_nan a
  | JMap m => forallb (fun i => no_nan (snd i)) m
  | _ => true
  end.

(** An exception is a [ParseException] whose position lies in the text. *)
Definition is_ParseException (j : string) (e : exception) : Prop :=
  exists w p, e = ParseException w p /\ (p <= String.length j)%nat.

(** White space only. *)
Definition blank (s : string) : bool := string_forallb isspace s.

(** The first line of [s], with its line feed: the characters of
    [[it, itLineEnd)] when [it] is at [s]. *)
Definition line_of (s : string) : string :=
  string_take (String.length s - String.length (find_line_end s)) s.

(** Two states of the loop that agree on the result, the flags and the
    stack, the text left to the first being the text left to the second
    followed by white space. *)
Definition same_but_tail (st1 st2 : State) : Prop :=
  result st1 = result st2 /\ flags st1 = flags st2 /\ parents st1 = parents st2
  /\ exists ws, blank ws = true /\ it st1 = it st2 ++ ws.

(** The state [st] with another text. *)
Definition retext (st : State) (j i le : string) : State :=
  {| json := j; result := result st; flags := flags st; parents := parents st;
     it := i; itLineEnd := le |}.

(** An alternative of the token expression that is not a literal with a
    white space character in it. *)
Definition spaceless_alt (a : alt) : Prop :=
  match a with
  | ALit l => string_forallb (fun c => negb (isspace c)) l = true
  | _ => True
  end.

(** The two states agree on the result, the flags and the stack; the text
    left to the first is the text left to the second followed by [ws], and
    the same holds for what is left of the line, with [x]. *)
Definition same_but_tails (st1 st2 : State) (ws x : string) : Prop :=
  result st1 = result st2 /\ flags st1 = flags st2 /\ parents st1 = parents st2
  /\ it st1 = it st2 ++ ws /\ range st1 = range st2 ++ x.

(** What the handler of the opening quote does once the text [sText] is
    decoded. *)
Definition on_string_tail (sText : string) (st1 : State) : outcome State :=
  if (objectKey (flags st1) =? 1)%N then
    let* (p, parent) := top st1 in
    let* _ := assert (isType parent Type_.Map) in
    let '(parent', s) := subscript_key parent sText in
    let* v := match child parent' s with Some v => Ret v | None => Undefined end in
    Ret (with_flags flags_colon
           (with_parents ((p ++ [s])%list :: parents st1)
              (with_result
                 (set_at (result st1) p (set_child parent' s (clear v))) st1)))
  else setValue (JString sText) st1.

(** What a turn does with the token [t] once [it] is behind it. *)
Definition dispatch (t : string) (st : State) : outcome loop :=
  match find_key t mapToken with
  | Some handler => let* st' := handler st in Ret (Continue st')
  | None =>
      let* v := rethrow st (number_value t) in
      let* st' := setValue v st in
      Ret (Continue st')
  end.

(** Whether [p] occurs somewhere in [s]. *)
Fixpoint occurs (p s : string) : bool :=
  starts_with p s
  || match s with
     | EmptyString => false
     | String _ s' => occurs p s'
     end.

(** Texts made of white space, block comments, and line comments with the
    line feed that ends them. *)
Inductive filler : string -> Prop :=
| filler_nil : filler EmptyString
| filler_space c p : isspace c = true -> filler p -> filler (String c p)
| filler_block c p :
    occurs "*/" c = false -> filler p -> filler ("/*" ++ c ++ "*/" ++ p)
| filler_line c p :
    no_lf c = true -> filler p -> filler ("//" ++ c ++ str1 chLF ++ p).

(** A state of the loop before the first token: nothing is stored yet. *)
Definition fresh_state (j i le : string) : State :=
  {| json := j; result := JNull; flags := flags_value 0 3; parents := [[]];
     it := i; itLineEnd := le |}.

(** The loop reads the text [txt] in a slot and stores the value [v]
    there, whatever follows the text. *)
Definition reads (txt : string) (v : JsonT) : Prop :=
  forall j r ps m e F ps' f' rest,
    slot m r ps F ps' f' -> (e = 0 \/ e = 3)%N ->
    no_lf rest = true -> delim rest = true ->
    turns (mkst j r (flags_value e m) ps (txt ++ rest))
          (mkst j (F v) f' ps' rest).

(** A character that stands for itself between the quotes of a string:
    not a backslash, a quote, a line feed or a carriage return. *)
Definition raw_char (c : ascii) : bool :=
  negb (Ascii.eqb c chBSL || Ascii.eqb c chDQ
        || Ascii.eqb c chLF || Ascii.eqb c chCR).

(** The match of the string expression on a body of such characters. *)
Definition smatch_raw (k : string) : smatch :=
  {| m1 := k; m2 := sDQ; m3 := EmptyString; m4 := EmptyString;
     m5 := EmptyString; m_length := S (String.length k) |}.

(** *** Pointers written from paths *)

(** A character of a key that a pointer can carry: as [raw_char], and not
    a tab or a backspace. *)
Definition pointer_key_char (c : ascii) : bool :=
  raw_char c && negb (Ascii.eqb c chTAB || Ascii.eqb c chBS).

(** The escapes of a pointer token: [~0] for a tilde and [~1] for a
    slash. *)
Definition escape_key_char (c : ascii) : string :=
  if Ascii.eqb c "~" then "~0"
  else if Ascii.eqb c "/" then "~1"
  else str1 c.

Fixpoint escape_key (k : string) : string :=
  match k with
  | EmptyString => EmptyString
  | String c k' => escape_key_char c ++ escape_key k'
  end.

(** A key that a pointer can address: made of such characters, not made
    of digits only, and without a tilde followed by [1]. *)
Definition pointer_key (k : string) : bool :=
  string_forallb pointer_key_char k && negb (is_digits k)
  && negb (occurs "~1" k).

(** A step that a pointer can take: such a key, or an index that fits
    [int]. *)
Definition pointer_step (s : step) : bool :=
  match s with
  | Key k => pointer_key k
  | Idx i => Z.of_nat i <? 2 ^ 31
  end.

Definition token_of_step (s : step) : string :=
  match s with
  | Key k => escape_key k
  | Idx i => to_string_int (Z.of_nat i)
  end.

(** The text of the pointer that follows the path [p]: a slash and the
    token of each step. *)
Fixpoint pointer_text (p : path) : string :=
  match p with
  | [] => EmptyString
  | s :: p' => "/" ++ token_of_step s ++ pointer_text p'
  end.

(** The element of the JSON array that the token of a step is written
    as, and the value that it is read back as. *)
Definition elem_text (s : step) : string :=
  match s with
  | Key k => sDQ ++ k ++ sDQ
  | Idx i => to_string_int (Z.of_nat i)
  end.

Definition elem_value (s : step) : JsonT :=
  match s with
  | Key k => JString k
  | Idx i => JInt (Z.of_nat i)
  end.

(** The key with [~1] for each slash, the tildes as they are: what is left
    of [escape_key] once [~0] is replaced. *)
Fixpoint escape_slash (k : string) : string :=
  match k with
  | EmptyString => EmptyString
  | String c k' => (if Ascii.eqb c "/" then "~1" else str1 c) ++ escape_slash k'
  end.

(** The element and the value of each step, paired. *)
Definition elem_of_step (s : step) : string * JsonT := (elem_text s, elem_value s).

(** [n] copies of [s]. *)
Fixpoint repeat_text (n : nat) (s : string) : string :=
  match n with
  | O => EmptyString
  | S n' => s ++ repeat_text n' s
  end.

(** The bracket that closes the text of a container. *)
Definition closing (v : JsonT) : string :=
  match v with
  | JArray _ => "]"
  | JMap _ => "}"
  | _ => EmptyString
  end.

(** *** The invariant of the loop *)

(** The stack of [parents], top first: empty, or the root alone, or a
    pointer to a child of the node that the pointer below it designates. *)
Inductive links : list path -> Prop :=
| links_nil : links []
| links_root : links [[]]
| links_push p s ps : links (p :: ps) -> links ((p ++ [s])%list :: p :: ps).

(** The size of the largest vector in the tree. *)
Fixpoint max_size (v : JsonT) : nat :=
  match v with
  | JArray a =>
      Nat.max (List.length a) (fold_right (fun x m => Nat.max (max_size x) m) 0%nat a)
  | JMap m => fold_right (fun i acc => Nat.max (max_size (snd i)) acc) 0%nat m
  | _ => 0%nat
  end.

(** What holds of a state of the loop: the stack is linked, its top
    designates a node of the result, and no vector of the result has more
    elements than characters have been read, [k] of them to spare. *)
Definition inv (k : nat) (st : State) : Prop :=
  links (parents st)
  /\ match parents st with
     | p :: _ => exists c, get_at (result st) p = Some c
     | [] => True
     end
  /\ (max_size (result st) + String.length (it st) + k
      <= String.length (json st))%nat.

(** The outcome of a step that starts in a state with [inv 1]: it is not
    undefined, and a state that it returns has [inv 0]. *)
Definition step_ok (o : outcome State) : Prop :=
  match o with
  | Ret st' => inv 0 st'
  | Undefined => False
  | _ => True
  end.

(** *** Accessors applied one after the other *)

(** [v[s]] through the const accessors: the value that the reference
    designates. *)
Definition const_subscript (v : JsonT) (s : step) : JsonT :=
  let r :=
    match s with
    | Key k => subscript_key_const v k
    | Idx i => subscript_index_const v (Z.of_nat i)
    end in
  match deref v r with
  | Some c => c
  | None => m_emptyJson
  end.

(** [v[s1][s2]...[sn]] through the const accessors. *)
Fixpoint const_path (v : JsonT) (p : path) : JsonT :=
  match p with
  | [] => v
  | s :: p' => const_path (const_subscript v s) p'
  end.

(** [v[s]] through the mutable accessors: the receiver afterwards and the
    child that the reference designates. *)
Definition subscript_step (v : JsonT) (s : step) : outcome (JsonT * step) :=
  match s with
  | Key k => Ret (subscript_key v k)
  | Idx i => subscript_index v (Z.of_nat i)
  end.

(** [v[s1][s2]...[sn] = x] through the mutable accessors: each one is
    applied to the child that the one before has returned, and the
    assignment goes through the last reference. *)
Fixpoint assign_path (v : JsonT) (p : path) (x : JsonT) : outcome JsonT :=
  match p with
  | [] => Ret x
  | s :: p' =>
      let* (v1, s1) := subscript_step v s in
      let* c := match child v1 s1 with Some c => Ret c | None => Undefined end in
      let* c' := assign_path c p' x in
      Ret (set_child v1 s1 c')
  end.

(** An index whose successor does not wrap in [size_t]. *)
Definition step_in_range (s : step) : bool :=
  match s with
  | Key _ => true
  | Idx i => Z.of_nat i <? SIZE_MOD - 1
  end.

(** *** Escapes of code units *)

(** The bytes that the escape of the code unit [u] decodes to: nothing for
    zero, where the converted string ends, and the UTF-8 encoding
    otherwise. *)
Definition unit_bytes (u : Z) : string :=
  if u =? 0 then EmptyString else utf8_encode u.

(** The match of the string expression on raw characters followed by the
    escape of one code unit with the digits [h]. *)
Definition smatch_unit (a h : string) : smatch :=
  {| m1 := a; m2 := escape2 "u" ++ h; m3 := EmptyString; m4 := EmptyString;
     m5 := h; m_length := (String.length a + 6)%nat |}.

(** *** A token in any place *)

(** The state of the loop behind a token: the text is [json st], the
    result [r], the flags [f] and the stack [ps]; [it] is at [rest], and
    the line was that of the token. *)
Definition state_at (st : State) (r : JsonT) (f : Flags) (ps : list path)
    (rest : string) : State :=
  {| json := json st; result := r; flags := f; parents := ps; it := rest;
     itLineEnd := find_line_end rest |}.
(* ===================================================================== *)
(** ** [at] and the non-throwing accessors *)

(** C4: [at] throws [std::out_of_range] exactly when the const
    [operator[]] answers with the shared [m_emptyJson], and otherwise both
    designate the same child of the receiver, which exists. *)
Theorem at_agrees_with_subscript (v : JsonT) (key : string) (index : Z) :
  0 <= index ->
  ((exists w, at_key v key = Throw (out_of_range w))
     <-> subscript_key_const v key = RefEmptyJson)
  /\ (forall s, at_key v key = Ret s
        <-> subscript_key_const v key = RefChild s)
  /\ (forall s, at_key v key = Ret s -> exists c, child v s = Some c)
  /\ ((exists w, at_index v index = Throw (out_of_range w))
        <-> subscript_index_const v index = RefEmptyJson)
  /\ (forall s, at_index v index = Ret s
        <-> subscript_index_const v index = RefChild s)
  /\ (forall s, at_index v index = Ret s -> exists c, child v s = Some c)
  /\ at_key v key <> AssertFail /\ at_key v key <> Undefined
  /\ at_index v index <> AssertFail /\ at_index v index <> Undefined.
Proof.
  intros Hidx.
  assert (Hkey :
    ((exists w, at_key v key = Throw (out_of_range w))
       <-> subscript_key_const v key = RefEmptyJson)
    /\ (forall s, at_key v key = Ret s
          <-> subscript_key_const v key = RefChild s)
    /\ (forall s, at_key v key = Ret s -> exists c, child v s = Some c)
    /\ at_key v key <> AssertFail /\ at_key v key <> Undefined).
  { unfold at_key, subscript_key_const.
    destruct v as [| | | | | |m]; cbn;
      try (repeat split; intros; try discriminate; try congruence; eauto;
           match goal with H : ex _ |- _ => destruct H end; discriminate).
    destruct (map_find key m) as [c|] eqn:E.
    - repeat split; intros; try discriminate; try congruence.
      + destruct H; discriminate.
      + injection H as <-. cbn. rewrite E. eauto.
    - repeat split; intros; try discriminate; eauto. }
  assert (Hindex :
    ((exists w, at_index v index = Throw (out_of_range w))
       <-> subscript_index_const v index = RefEmptyJson)
    /\ (forall s, at_index v index = Ret s
          <-> subscript_index_const v index = RefChild s)
    /\ (forall s, at_index v index = Ret s -> exists c, child v s = Some c)
    /\ at_index v index <> AssertFail /\ at_index v index <> Undefined).
  { unfold at_index, subscript_index_const, size.
    destruct v as [| | | | |a|]; cbn;
      try (destruct (Z.ltb_spec index (Z.of_nat 0)); [simpl in *; lia|];
           repeat split; intros; try discriminate; try congruence; eauto;
           match goal with H : ex _ |- _ => destruct H end; discriminate).
    destruct (Z.leb_spec (Z.of_nat (length a)) index),
             (Z.ltb_spec index (Z.of_nat (length a))); try lia.
    - repeat split; intros; try discriminate; eauto.
    - repeat split; intros; try discriminate; try congruence.
      + destruct H1; discriminate.
      + injection H1 as <-. cbn. apply lookup_lt_is_Some_2. lia. }
  tauto.
Qed.

Lemma at_agrees_with_subscript_witness :
  at_index (JArray [JNull; JBool true]) 1 = Ret (Idx 1)
  /\ subscript_index_const (JArray [JNull; JBool true]) 1 = RefChild (Idx 1)
  /\ subscript_key_const (JMap [("k", JNull)]) "j" = RefEmptyJson.
Proof.
  destruct (at_agrees_with_subscript (JArray [JNull; JBool true]) "k" 1)
    as (_ & _ & _ & _ & H & _); [lia|].
  destruct (at_agrees_with_subscript (JMap [("k", JNull)]) "j" 0)
    as (H' & _); [lia|].
  split; [reflexivity|]. split.
  - apply H. reflexivity.
  - apply H'. eexists. reflexivity.
Defined.
(* ===================================================================== *)
(** ** Writing through the mutable index accessor *)

Lemma size_mod_val : SIZE_MOD = 18446744073709551616.
Proof. reflexivity. Qed.

(** C8: [v[index] = x] turns the receiver into an array, keeping the
    elements it had when it was one and dropping any other payload,
    extends it to [index + 1] elements with [Null], and stores [x]; on a
    [Null] receiver, [v[3] = x] gives three [Null] and [x]. *)
Theorem assign_index_autovivifies (v x : JsonT) (index : Z) :
  0 <= index < SIZE_MOD - 1 ->
  assign_index JNull 3 x = Ret (JArray [JNull; JNull; JNull; x])
  /\ let old := match v with JArray a => a | _ => [] end in
     exists a,
       assign_index v index x = Ret (JArray a)
       /\ size a = Z.max (size old) (index + 1)
       /\ a !! Z.to_nat index = Some x
       /\ (forall i, (i < length old)%nat -> i <> Z.to_nat index ->
             a !! i = old !! i)
       /\ (forall i, (length old <= i < Z.to_nat index)%nat ->
             a !! i = Some JNull).
Proof.
  intros Hidx. split; [reflexivity|].
  intros old.
  assert (Hold : get_Array (ensureArray v) = old) by (destruct v; reflexivity).
  unfold assign_index, subscript_index. rewrite Hold. clear Hold.
  rewrite size_mod_val in *.
  destruct (Z.leb_spec (size old) index) as [Hge|Hlt].
  - rewrite Z.mod_small by lia.
    set (a' := resize (Z.to_nat (index + 1)) JNull old).
    assert (Hlen : length a' = Z.to_nat (index + 1))
      by (unfold a'; apply length_resize).
    assert (Hs : (index <? size a') = true)
      by (unfold size; rewrite Hlen; apply Z.ltb_lt; lia).
    rewrite Hs. cbn.
    exists (<[Z.to_nat index := x]> a'). unfold size in *.
    split; [reflexivity|]. rewrite length_insert, Hlen.
    split; [lia|].
    split; [apply list_lookup_insert_eq; lia|].
    split.
    + intros i Hi Hne. rewrite list_lookup_insert_ne by congruence.
      unfold a'. apply lookup_resize; lia.
    + intros i Hi. rewrite list_lookup_insert_ne by lia.
      unfold a'. apply lookup_resize_new; lia.
  - assert (Hs : (index <? size old) = true) by (apply Z.ltb_lt; lia).
    rewrite Hs. cbn.
    exists (<[Z.to_nat index := x]> old). unfold size in *.
    split; [reflexivity|]. rewrite length_insert.
    split; [lia|].
    split; [apply list_lookup_insert_eq; lia|].
    split.
    + intros i Hi Hne. apply list_lookup_insert_ne. congruence.
    + intros i Hi. lia.
Qed.

Lemma assign_index_autovivifies_witness :
  exists a, assign_index (JString "s") 2 (JBool true) = Ret (JArray a)
            /\ size a = 3.
Proof.
  destruct (assign_index_autovivifies (JString "s") (JBool true) 2)
    as (_ & a & H1 & H2 & _); [rewrite size_mod_val; lia|].
  exists a. split; [exact H1 | exact H2].
Defined.

(* ===================================================================== *)
(** ** [get<U>()] *)

Lemma static_cast_in_range (U : int_type) (n : Z) :
  0 < bits U -> in_int_type U (static_cast U n) = true.
Proof.
  intros Hb. unfold in_int_type, static_cast.
  assert (H2 : 2 ^ bits U = 2 * 2 ^ (bits U - 1)).
  { rewrite <- Z.pow_succ_r by lia. f_equal. lia. }
  assert (Hp : 0 < 2 ^ (bits U - 1)) by (apply Z.pow_pos_nonneg; lia).
  pose proof (Z.mod_pos_bound n (2 ^ bits U) ltac:(lia)) as Hm.
  destruct (is_signed U); cbn.
  - destruct (Z.leb_spec (2 ^ (bits U - 1)) (n mod 2 ^ bits U)).
    + apply andb_true_iff. split; [apply Z.leb_le | apply Z.ltb_lt]; lia.
    + apply andb_true_iff. split; [apply Z.leb_le | apply Z.ltb_lt]; lia.
  - apply andb_true_iff. split; [apply Z.leb_le | apply Z.ltb_lt]; lia.
Qed.

Lemma static_cast_id (U : int_type) (n : Z) :
  0 < bits U -> in_int_type U n = true -> static_cast U n = n.
Proof.
  intros Hb Hin. unfold in_int_type, static_cast in *.
  assert (H2 : 2 ^ bits U = 2 * 2 ^ (bits U - 1)).
  { rewrite <- Z.pow_succ_r by lia. f_equal. lia. }
  assert (Hp : 0 < 2 ^ (bits U - 1)) by (apply Z.pow_pos_nonneg; lia).
  destruct (is_signed U); cbn.
  - apply andb_true_iff in Hin as [H1%Z.leb_le H3%Z.ltb_lt].
    destruct (Z.neg_nonneg_cases n) as [Hneg|Hnn].
    + assert (Hm : n mod 2 ^ bits U = n + 2 ^ bits U).
      { symmetry. apply Z.mod_unique with (-1); lia. }
      rewrite Hm.
      destruct (Z.leb_spec (2 ^ (bits U - 1)) (n + 2 ^ bits U)); lia.
    + rewrite Z.mod_small by lia.
      destruct (Z.leb_spec (2 ^ (bits U - 1)) n); lia.
  - apply andb_true_iff in Hin as [H1%Z.leb_le H3%Z.ltb_lt].
    apply Z.mod_small. lia.
Qed.

Lemma in_intmax_int_type (n : Z) :
  in_intmax n = true -> in_int_type t_intmax n = true.
Proof.
  unfold in_intmax, in_int_type, INTMAX_MIN, INTMAX_MAX. cbn.
  intros [H1%Z.leb_le H2%Z.leb_le]%andb_true_iff.
  apply andb_true_iff. split; [apply Z.leb_le | apply Z.ltb_lt]; lia.
Qed.

Lemma llroundl_nearest (s : bool) (m : positive) (e : Z) :
  Z.pos m * 2 ^ Z.max e 0 < 2 ^ 62 * 2 ^ Z.max (- e) 0 ->
  nearest_integer s m e (llroundl (S754_finite s m e))
  /\ Z.abs (llroundl (S754_finite s m e)) <= 2 ^ 62.
Proof.
  intros Hsmall. unfold nearest_integer, llroundl.
  set (k := Z.max (- e) 0) in *. set (X := Z.pos m * 2 ^ Z.max e 0) in *.
  assert (Hk : 0 < 2 ^ k) by (apply Z.pow_pos_nonneg; lia).
  assert (HX : 0 < X).
  { unfold X. apply Z.mul_pos_pos; [lia|]. apply Z.pow_pos_nonneg; lia. }
  set (a := (2 * Z.pos m * 2 ^ Z.max e 0 + 2 ^ k) / (2 * 2 ^ k)).
  assert (Ha : a = (2 * X + 2 ^ k) / (2 * 2 ^ k)).
  { unfold a, X. f_equal. lia. }
  pose proof (Z.div_mod (2 * X + 2 ^ k) (2 * 2 ^ k) ltac:(lia)) as Hdm.
  pose proof (Z.mod_pos_bound (2 * X + 2 ^ k) (2 * 2 ^ k) ltac:(lia)) as Hmb.
  rewrite <- Ha in Hdm.
  assert (Hbound : 0 <= a <= 2 ^ 62).
  { split.
    - rewrite Ha. apply Z.div_pos; lia.
    - assert (2 * 2 ^ k * a <= 2 * X + 2 ^ k) by lia.
      assert (2 * 2 ^ k * a < 2 * 2 ^ k * (2 ^ 62 + 1)) by nia.
      assert (a < 2 ^ 62 + 1) by nia. lia. }
  assert (Hin : in_intmax (if s then - a else a) = true).
  { unfold in_intmax, INTMAX_MIN, INTMAX_MAX.
    apply andb_true_iff. split; [apply Z.leb_le | apply Z.leb_le];
      destruct s; lia. }
  rewrite Hin.
  split; [|destruct s; lia].
  destruct s.
  - replace (- a * 2 ^ k - - X) with (- (a * 2 ^ k - X)) by lia.
    rewrite Z.abs_opp. apply Z.abs_case; [intros ? ? ->; tauto| |]; nia.
  - apply Z.abs_case; [intros ? ? ->; tauto| |]; nia.
Qed.

(** C5, as stated, fails: [get<int>()] of an [Int] that does not fit an
    [int] is not the stored value. *)
Lemma get_int_wraps :
  get_integer t_int (JInt 4294967296) = 0
  /\ get_integer t_int (JInt 4294967296) <> 4294967296.
Proof. split; [reflexivity | discriminate]. Qed.

(** C5, amended: [get<U>()] always returns; [bool]: the stored value of a
    [Bool], [false] otherwise; [double]: the stored value of a [Float],
    the nearest [double] of an [Int], [0.0] otherwise; an integral [U]:
    0 or 1 for a [Bool], the stored value of an [Int] converted to [U]
    (the stored value itself when [U] can hold it), the nearest integer
    of a [Float], ties away from zero, converted to [U] (that integer
    itself when the [Float] is finite and below [2^62] in magnitude and
    [U] can hold it), 0 otherwise; string, array and map: the payload of
    the matching kind, otherwise the empty default. *)
Theorem get_coercion_table (U : int_type) (v : JsonT) :
  1 < bits U ->
  (get_bool v = match v with JBool b => b | _ => false end)
  /\ (get_double v = match v with
                     | JFloat d => d
                     | JInt n => double_of_Z n
                     | _ => S754_zero false
                     end)
  /\ in_int_type U (get_integer U v) = true
  /\ (forall b, v = JBool b -> get_integer U v = if b then 1 else 0)
  /\ (forall n, v = JInt n ->
        get_integer U v = static_cast U n
        /\ (in_int_type U n = true -> get_integer U v = n)
        /\ (in_intmax n = true -> get_integer t_intmax v = n))
  /\ (forall d, v = JFloat d -> get_integer U v = static_cast U (llroundl d))
  /\ (forall s m e, v = JFloat (S754_finite s m e) ->
        Z.pos m * 2 ^ Z.max e 0 < 2 ^ 62 * 2 ^ Z.max (- e) 0 ->
        nearest_integer s m e (get_integer t_intmax v)
        /\ (in_int_type U (llroundl (S754_finite s m e)) = true ->
            nearest_integer s m e (get_integer U v)))
  /\ (type v <> Type_.Bool -> type v <> Type_.Int -> type v <> Type_.Float ->
        get_integer U v = 0)
  /\ (get_string v = match v with JString s => s | _ => EmptyString end)
  /\ (get_Array v = match v with JArray a => a | _ => [] end)
  /\ (get_Map v = match v with JMap m => m | _ => [] end).
Proof.
  intros Hb.
  split; [reflexivity|]. split; [reflexivity|].
  split.
  { assert (H1 : 1 < 2 ^ (bits U - 1) \/ bits U - 1 = 1 \/ 0 < 2 ^ (bits U - 1)).
    { right. right. apply Z.pow_pos_nonneg; lia. }
    assert (H2 : 1 < 2 ^ bits U) by (apply Z.pow_gt_1; lia).
    assert (H3 : 1 < 2 ^ (bits U - 1) \/ 2 ^ (bits U - 1) = 1 \/ True) by tauto.
    assert (H4 : 2 <= 2 ^ (bits U - 1)).
    { replace 2 with (2 ^ 1) at 1 by reflexivity.
      apply Z.pow_le_mono_r; lia. }
    assert (Hz : forall z, 0 <= z <= 1 -> in_int_type U z = true).
    { intros z Hz. unfold in_int_type. destruct (is_signed U);
        apply andb_true_iff; split; [apply Z.leb_le | apply Z.ltb_lt
                                    | apply Z.leb_le | apply Z.ltb_lt]; lia. }
    destruct v as [|b|d|n|s|a|m]; cbn;
      try (apply static_cast_in_range; lia); try (apply Hz; lia).
    destruct b; apply Hz; lia. }
  split; [intros b ->; reflexivity|].
  split.
  { intros n ->. cbn. split; [reflexivity|]. split.
    - intros Hin. apply static_cast_id; [lia | exact Hin].
    - intros Hin. apply static_cast_id; [cbn; lia | apply in_intmax_int_type, Hin]. }
  split; [intros d ->; reflexivity|].
  split.
  { intros s m e -> Hsmall. cbn [get_integer].
    destruct (llroundl_nearest s m e Hsmall) as [Hn Hr].
    split.
    - rewrite static_cast_id; [exact Hn | reflexivity |].
      unfold in_int_type, t_intmax. cbn [is_signed bits].
      change (64 - 1) with 63. apply andb_true_iff.
      split; [apply Z.leb_le | apply Z.ltb_lt]; lia.
    - intros Hin. rewrite static_cast_id; [exact Hn | lia | exact Hin]. }
  split.
  { intros H1 H2 H3. destruct v; cbn in *; congruence. }
  repeat split.
Qed.

Lemma get_coercion_table_witness :
  nearest_integer false 5 (-1) (get_integer t_intmax (JFloat (S754_finite false 5 (-1))))
  /\ get_integer t_int (JFloat (S754_finite false 5 (-1))) = 3.
Proof.
  destruct (get_coercion_table t_int (JFloat (S754_finite false 5 (-1))))
    as (_ & _ & _ & _ & _ & _ & H & _); [vm_compute; reflexivity|].
  destruct (H false 5%positive (-1) eq_refl) as [H1 _]; [vm_compute; reflexivity|].
  split; [exact H1 | reflexivity].
Defined.

(* ===================================================================== *)
(** ** The [comment] option *)

(** C2 (the code departs from it): [parse] never reads its options, so
    the text with a comment is accepted with [comment] false as well. *)
Theorem comment_option_is_not_read :
  parse commented_object {| comment := false |} = Ret (JMap [("a", JInt 1)])
  /\ parse commented_object default_ParseOptions = Ret (JMap [("a", JInt 1)])
  /\ forall s opt opt', parse s opt = parse s opt'.
Proof. split; [vm_compute; reflexivity|]. split; [vm_compute; reflexivity|]. reflexivity. Qed.
(* ===================================================================== *)
(** ** Strings *)

Lemma append_nil_r (s : string) : s ++ EmptyString = s.
Proof. induction s; cbn; congruence. Qed.

Lemma append_assoc (a b c : string) : (a ++ b) ++ c = a ++ (b ++ c).
Proof. induction a; cbn; congruence. Qed.

Lemma length_append (a b : string) :
  String.length (a ++ b) = (String.length a + String.length b)%nat.
Proof. induction a; cbn; congruence. Qed.

Lemma string_take_0 (s : string) : string_take 0 s = EmptyString.
Proof. destruct s; reflexivity. Qed.

Lemma string_take_S (n : nat) (c : ascii) (s : string) :
  string_take (S n) (String c s) = String c (string_take n s).
Proof. reflexivity. Qed.

Lemma string_take_app (a b : string) : string_take (String.length a) (a ++ b) = a.
Proof.
  induction a; cbn [String.length append].
  - apply string_take_0.
  - rewrite string_take_S. congruence.
Qed.

Lemma string_drop_app (a b : string) : string_drop (String.length a) (a ++ b) = b.
Proof. induction a; cbn; congruence. Qed.

Lemma string_take_all (s : string) : string_take (String.length s) s = s.
Proof.
  rewrite <- (append_nil_r s) at 2. apply string_take_app.
Qed.

Lemma string_take_drop (n : nat) (s : string) :
  string_take n s ++ string_drop n s = s.
Proof.
  revert s. induction n; intros s.
  - rewrite string_take_0. reflexivity.
  - destruct s; [reflexivity|]. rewrite string_take_S. cbn. f_equal. apply IHn.
Qed.

Lemma string_drop_length_le (n : nat) (s : string) :
  (String.length (string_drop n s) <= String.length s)%nat.
Proof.
  revert s. induction n; intros [|c s]; cbn; try lia.
  specialize (IHn s). lia.
Qed.

Lemma string_drop_length_lt (n : nat) (s : string) :
  (0 < n)%nat -> s <> EmptyString ->
  (String.length (string_drop n s) < String.length s)%nat.
Proof.
  intros Hn Hs. destruct n; [lia|]. destruct s; [congruence|]. cbn.
  pose proof (string_drop_length_le n s). lia.
Qed.

Lemma string_forallb_app (p : ascii -> bool) (a b : string) :
  string_forallb p (a ++ b) = string_forallb p a && string_forallb p b.
Proof. induction a; cbn; [reflexivity|]. rewrite IHa. apply andb_assoc. Qed.

Lemma string_forallb_impl (p q : ascii -> bool) (s : string) :
  (forall c, p c = true -> q c = true) ->
  string_forallb p s = true -> string_forallb q s = true.
Proof.
  intros Hpq. induction s; cbn; [reflexivity|].
  intros [H1 H2]%andb_true_iff. rewrite (Hpq _ H1). auto.
Qed.

Lemma no_lf_app (a b : string) : no_lf (a ++ b) = no_lf a && no_lf b.
Proof. apply string_forallb_app. Qed.

Lemma find_line_end_no_lf (s : string) :
  no_lf s = true -> find_line_end s = EmptyString.
Proof.
  induction s; cbn; [reflexivity|].
  intros [H1 H2]%andb_true_iff.
  apply negb_true_iff in H1. rewrite H1. auto.
Qed.

Lemma find_line_end_length (s : string) :
  s <> EmptyString ->
  (String.length (find_line_end s) < String.length s)%nat.
Proof.
  induction s as [|c s IH]; [congruence|]. intros _. cbn.
  destruct (Ascii.eqb c chLF); [lia|].
  destruct s; [cbn; lia|]. specialize (IH ltac:(congruence)). lia.
Qed.

Lemma pop_back_app_char (s : string) (c : ascii) : pop_back (s ++ str1 c) = s.
Proof.
  induction s as [|a s IH]; [reflexivity|].
  cbn [append]. cbn [pop_back]. rewrite IH.
  destruct s; reflexivity.
Qed.

Lemma compare_refl (s : string) : String.compare s s = Eq.
Proof.
  pose proof (String.compare_antisym s s) as H.
  destruct (String.compare s s); cbn in H; congruence.
Qed.

Lemma compare_Eq_iff (a b : string) : String.compare a b = Eq <-> a = b.
Proof.
  split; [apply String.compare_eq_iff | intros ->; apply compare_refl].
Qed.

(* ===================================================================== *)
(** ** Maps in key order *)

Lemma map_find_insert_eq (k : string) (v : JsonT) (m : Map) :
  map_find k (map_insert k v m) = Some v.
Proof.
  induction m as [|[k' x] m IH]; cbn.
  - rewrite String.eqb_refl. reflexivity.
  - destruct (String.compare k k') eqn:E; cbn.
    + apply compare_Eq_iff in E as ->. rewrite String.eqb_refl. reflexivity.
    + rewrite String.eqb_refl. reflexivity.
    + destruct (String.eqb_spec k k') as [->|_]; [|exact IH].
      rewrite compare_refl in E. discriminate.
Qed.

Lemma map_find_insert_ne (k k' : string) (v : JsonT) (m : Map) :
  k <> k' -> map_find k (map_insert k' v m) = map_find k m.
Proof.
  intros Hne. induction m as [|[k'' x] m IH]; cbn.
  - destruct (String.eqb_spec k k'); [congruence | reflexivity].
  - destruct (String.compare k' k'') eqn:E; cbn.
    + apply compare_Eq_iff in E as <-.
      destruct (String.eqb_spec k k'); [congruence | reflexivity].
    + destruct (String.eqb_spec k k'); [congruence | reflexivity].
    + rewrite IH. reflexivity.
Qed.

Lemma map_insert_insert (k : string) (v w : JsonT) (m : Map) :
  map_insert k w (map_insert k v m) = map_insert k w m.
Proof.
  induction m as [|[k' x] m IH]; cbn.
  - rewrite compare_refl. reflexivity.
  - destruct (String.compare k k') eqn:E; cbn.
    + rewrite E. reflexivity.
    + rewrite compare_refl. reflexivity.
    + rewrite E, IH. reflexivity.
Qed.

Lemma map_subscript_insert (k : string) (v : JsonT) (m : Map) :
  map_insert k v (map_subscript k m) = map_insert k v m.
Proof.
  unfold map_subscript. destruct (map_find k m); [reflexivity|].
  apply map_insert_insert.
Qed.

Lemma map_find_subscript (k : string) (m : Map) :
  exists x, map_find k (map_subscript k m) = Some x.
Proof.
  unfold map_subscript. destruct (map_find k m) eqn:E; [eauto|].
  rewrite map_find_insert_eq. eauto.
Qed.

(* ===================================================================== *)
(** ** Pointers into a tree *)

Lemma child_set_child (v : JsonT) (s : step) (c x : JsonT) :
  child v s = Some c -> child (set_child v s x) s = Some x.
Proof.
  destruct s as [k|i], v; cbn; try discriminate; intros H.
  - apply map_find_insert_eq.
  - apply list_lookup_insert_eq. eapply lookup_lt_Some. exact H.
Qed.

Lemma set_child_set_child (v : JsonT) (s : step) (x y : JsonT) :
  set_child (set_child v s x) s y = set_child v s y.
Proof.
  destruct s as [k|i], v; cbn; try reflexivity.
  - f_equal. apply map_insert_insert.
  - f_equal. apply list_insert_insert_eq.
Qed.

Lemma get_at_set_at (r : JsonT) (p : path) (c x : JsonT) :
  get_at r p = Some c -> get_at (set_at r p x) p = Some x.
Proof.
  revert r. induction p as [|s p IH]; intros r; cbn; [reflexivity|].
  destruct (child r s) as [d|] eqn:E; [|discriminate].
  intros H. rewrite (child_set_child _ _ _ _ E). eapply IH, H.
Qed.

Lemma set_at_set_at (r : JsonT) (p : path) (c x y : JsonT) :
  get_at r p = Some c -> set_at (set_at r p x) p y = set_at r p y.
Proof.
  revert r. induction p as [|s p IH]; intros r; cbn; [reflexivity|].
  destruct (child r s) as [d|] eqn:E; [|discriminate].
  intros H. rewrite (child_set_child _ _ _ _ E), set_child_set_child.
  f_equal. eapply IH, H.
Qed.

Lemma get_at_snoc (r : JsonT) (p : path) (s : step) (c : JsonT) :
  get_at r p = Some c -> get_at r (p ++ [s]) = child c s.
Proof.
  revert r. induction p as [|s' p IH]; intros r; cbn.
  - intros [= ->]. destruct (child c s); reflexivity.
  - destruct (child r s'); [apply IH | discriminate].
Qed.

Lemma set_at_snoc (r : JsonT) (p : path) (s : step) (c d x : JsonT) :
  get_at r p = Some c -> child c s = Some d ->
  set_at r (p ++ [s]) x = set_at r p (set_child c s x).
Proof.
  revert r. induction p as [|s' p IH]; intros r; cbn.
  - intros [= ->] ->. reflexivity.
  - destruct (child r s'); [|discriminate].
    intros H1 H2. f_equal. eapply IH; eauto.
Qed.

Lemma string_drop_app_le (n : nat) (a b : string) :
  (n <= String.length a)%nat -> string_drop n (a ++ b) = string_drop n a ++ b.
Proof.
  revert a. induction n as [|n IH]; intros a Hn; [reflexivity|].
  destruct a as [|c a]; [cbn in Hn; lia|].
  cbn [append string_drop]. apply IH. cbn in Hn. lia.
Qed.

Lemma string_take_app_le (n : nat) (a b : string) :
  (n <= String.length a)%nat -> string_take n (a ++ b) = string_take n a.
Proof.
  revert a. induction n as [|n IH]; intros a Hn; [reflexivity|].
  destruct a as [|c a]; [cbn in Hn; lia|].
  cbn [append string_take]. rewrite IH by (cbn in Hn; lia). reflexivity.
Qed.

Lemma string_drop_length (n : nat) (s : string) :
  String.length (string_drop n s) = (String.length s - n)%nat.
Proof.
  revert s. induction n as [|n IH]; intros s; [cbn; lia|].
  destruct s as [|c s]; [reflexivity|]. cbn [string_drop String.length]. apply IH.
Qed.

(* ===================================================================== *)
(** ** Turns of the loop *)

Lemma turns_trans (a b c : State) : turns a b -> turns b c -> turns a c.
Proof. induction 1; [auto|]. intros. eapply turns_cons; eauto. Qed.

Lemma turns_one (a b : State) : turn a = Ret (Continue b) -> turns a b.
Proof. intros. eapply turns_cons; [eassumption | apply turns_nil]. Qed.

Lemma turns_run (a b : State) :
  turns a b -> forall f o, run f b = Some o -> exists f', run f' a = Some o.
Proof.
  induction 1 as [|a a' b Ht _ IH]; intros f o Hr; [eauto|].
  destruct (IH f o Hr) as [f' Hf']. exists (S f'). cbn. rewrite Ht. exact Hf'.
Qed.

Lemma run_mono (f f' : nat) (st : State) (o : outcome JsonT) :
  run f st = Some o -> (f <= f')%nat -> run f' st = Some o.
Proof.
  revert f' st. induction f as [|f IH]; intros f' st; cbn; [discriminate|].
  intros H Hle. destruct f' as [|f']; [lia|]. cbn.
  destruct (turn st) as [[st'|st']| | |]; try exact H.
  apply IH; [exact H | lia].
Qed.

Lemma range_mkst j r f ps i : range (mkst j r f ps i) = i.
Proof.
  unfold range. cbn. rewrite Nat.sub_0_r. apply string_take_all.
Qed.

Lemma is_empty_false (s : string) : s <> EmptyString -> is_empty s = false.
Proof. destruct s; [congruence | reflexivity]. Qed.

Lemma app_nonempty (a b : string) : a <> EmptyString -> a ++ b <> EmptyString.
Proof. destruct a; [congruence | discriminate]. Qed.

Lemma advance_mkst j r f ps tok rest :
  advance (String.length tok) (mkst j r f ps (tok ++ rest)) = mkst j r f ps rest.
Proof.
  unfold advance, with_it, mkst. cbn. rewrite string_drop_app. reflexivity.
Qed.

(** A turn on a text without line feed that starts with a token. *)
Lemma turn_token j r f ps le tok rest :
  flags_all_is_zero f = false -> ps <> [] ->
  tok <> EmptyString ->
  no_lf (tok ++ rest) = true ->
  has_nonspace (tok ++ rest) = true ->
  match_token f (tok ++ rest) = Ret (Some (tok, String.length tok)) ->
  turn {| json := j; result := r; flags := f; parents := ps;
          it := tok ++ rest; itLineEnd := le |}
  = match find_key tok mapToken with
    | Some handler =>
        let* st' := handler (mkst j r f ps rest) in Ret (Continue st')
    | None =>
        let* v := rethrow (mkst j r f ps rest) (number_value tok) in
        let* st' := setValue v (mkst j r f ps rest) in
        Ret (Continue st')
    end.
Proof.
  intros Hf Hps Htok Hlf Hns Hm. unfold turn. cbn [flags parents it].
  rewrite Hf. rewrite bool_decide_eq_false_2 by exact Hps.
  rewrite is_empty_false by (apply app_nonempty, Htok).
  rewrite (find_line_end_no_lf _ Hlf).
  change (with_itLineEnd EmptyString
            {| json := j; result := r; flags := f; parents := ps;
               it := tok ++ rest; itLineEnd := le |})
    with (mkst j r f ps (tok ++ rest)).
  rewrite range_mkst, Hns. cbn [negb flags mkst].
  rewrite Hm. cbn [bind].
  rewrite advance_mkst. reflexivity.
Qed.

(** The end of the text. *)
Lemma turn_finish j r ps le :
  ps <> [] ->
  turn {| json := j; result := r; flags := flags_finish; parents := ps;
          it := EmptyString; itLineEnd := le |}
  = Ret (Break {| json := j; result := r; flags := flags_finish; parents := ps;
                  it := EmptyString; itLineEnd := le |}).
Proof.
  intros Hps. unfold turn. cbn [flags parents it].
  rewrite bool_decide_eq_false_2 by exact Hps. reflexivity.
Qed.

(** *** The token that each state finds *)

Ltac token_by_computation :=
  intros;
  repeat match goal with
         | H : _ \/ _ |- _ => destruct H
         end;
  subst; reflexivity.

Lemma match_token_value_lit (e m : N) (tok rest : string) :
  (e = 0 \/ e = 3)%N -> (m = 1 \/ m = 2 \/ m = 3)%N ->
  tok = "{" \/ tok = "[" \/ tok = sDQ \/ tok = "true" \/ tok = "false"
  \/ tok = "null" ->
  match_token (flags_value e m) (tok ++ rest)
  = Ret (Some (tok, String.length tok)).
Proof. token_by_computation. Qed.

Lemma match_token_array_close_empty (rest : string) :
  match_token (flags_value 3 2) ("]" ++ rest) = Ret (Some ("]", 1%nat)).
Proof. reflexivity. Qed.

Lemma match_token_key (e : N) (rest : string) :
  (e = 0 \/ e = 1)%N ->
  match_token (flags_key e) (sDQ ++ rest) = Ret (Some (sDQ, 1%nat)).
Proof. token_by_computation. Qed.

Lemma match_token_object_close_empty (rest : string) :
  match_token (flags_key 1) ("}" ++ rest) = Ret (Some ("}", 1%nat)).
Proof. reflexivity. Qed.

Lemma match_token_colon (rest : string) :
  match_token flags_colon (":" ++ rest) = Ret (Some (":", 1%nat)).
Proof. reflexivity. Qed.

Lemma match_token_end (e : N) (tok rest : string) :
  (e = 2 /\ (tok = "}" \/ tok = ","))%N \/ (e = 4 /\ (tok = "]" \/ tok = ","))%N ->
  match_token (flags_end e) (tok ++ rest) = Ret (Some (tok, 1%nat)).
Proof. intros [[-> [->| ->]]|[-> [->| ->]]]; reflexivity. Qed.
(* ===================================================================== *)
(** ** The handlers on a slot *)

Lemma top_mkst j r f p ps i c :
  get_at r p = Some c -> top (mkst j r f (p :: ps) i) = Ret (p, c).
Proof. intros H. unfold top. cbn. rewrite H. reflexivity. Qed.

Lemma size_snoc (a : Array) (x : JsonT) : size (a ++ [x]) = size a + 1.
Proof. unfold size. rewrite length_app. cbn. lia. Qed.

Lemma subscript_index_append (a : Array) :
  size a + 1 < SIZE_MOD ->
  subscript_index (JArray a) (size a)
  = Ret (JArray (a ++ [JNull]), Idx (length a)).
Proof.
  intros Hs. unfold subscript_index. cbn [ensureArray get_Array].
  rewrite Z.leb_refl.
  assert (Hpos : 0 <= size a) by (unfold size; lia).
  rewrite Z.mod_small by lia.
  replace (Z.to_nat (size a + 1)) with (length a + 1)%nat by (unfold size; lia).
  rewrite resize_add_eq by reflexivity.
  change (replicate 1 JNull) with [JNull].
  rewrite size_snoc.
  destruct (Z.ltb_spec (size a) (size a + 1)); [|lia].
  unfold size. rewrite Nat2Z.id. reflexivity.
Qed.

Lemma assign_index_append (a : Array) (v : JsonT) :
  size a + 1 < SIZE_MOD ->
  assign_index (JArray a) (size a) v = Ret (JArray (a ++ [v])).
Proof.
  intros Hs. unfold assign_index. rewrite subscript_index_append by exact Hs.
  cbn. rewrite insert_app_r_alt by lia. rewrite Nat.sub_diag. reflexivity.
Qed.

Lemma slot_top m r ps F ps' f' :
  slot m r ps F ps' f' ->
  exists p tl c, ps = p :: tl /\ get_at r p = Some c.
Proof.
  destruct 1 as [r q k m0 ps Hq Hk | r p a ps Hp Hs | r p Hp].
  - exists (q ++ [Key k])%list, (q :: ps), JNull. split; [reflexivity|].
    rewrite (get_at_snoc _ _ _ _ Hq). exact Hk.
  - eauto.
  - eauto.
Qed.

(** [setValue] stores the value in the slot. *)
Lemma setValue_slot j e i m r ps F ps' f' v :
  slot m r ps F ps' f' ->
  setValue v (mkst j r (flags_value e m) ps i) = Ret (mkst j (F v) f' ps' i).
Proof.
  destruct 1 as [r q k m0 ps Hq Hk | r p a ps Hp Hs | r p Hp];
    unfold setValue.
  - assert (Hslot : get_at r (q ++ [Key k]) = Some JNull).
    { rewrite (get_at_snoc _ _ _ _ Hq). exact Hk. }
    rewrite (top_mkst _ _ _ _ _ _ _ Hslot). cbn.
    rewrite (set_at_snoc _ _ (Key k) _ _ _ Hq Hk). reflexivity.
  - rewrite (top_mkst _ _ _ _ _ _ _ Hp). cbn [bind flags mkst flags_value value].
    cbn [isType type Type_.eqb negb get_Array].
    rewrite assign_index_append by exact Hs. reflexivity.
  - rewrite (top_mkst _ _ _ _ _ _ _ Hp). reflexivity.
Qed.



Lemma on_begin_slot j e i m r ps F ps' f' ensure f0 :
  slot m r ps F ps' f' ->
  exists r0 c tl x,
    on_begin ensure f0 (mkst j r (flags_value e m) ps i)
    = Ret (mkst j (set_at r0 c (ensure JNull)) f0 (c :: tl) i)
    /\ get_at r0 c = Some x
    /\ closes j r0 c tl F ps' f'.
Proof.
  destruct 1 as [r q k m0 ps Hq Hk | r p a ps Hp Hs | r p Hp];
    unfold on_begin.
  - assert (Hslot : get_at r (q ++ [Key k]) = Some JNull).
    { rewrite (get_at_snoc _ _ _ _ Hq). exact Hk. }
    rewrite (top_mkst _ _ _ _ _ _ _ Hslot). cbn.
    exists r, (q ++ [Key k])%list, (q :: ps), JNull.
    split; [reflexivity|]. split; [exact Hslot|].
    intros V f i'. unfold setEnd. cbn.
    rewrite (set_at_snoc _ _ (Key k) _ _ _ Hq Hk). cbn.
    assert (Hq' : get_at (set_at r q (JMap (map_insert k V m0))) q
                  = Some (JMap (map_insert k V m0)))
      by (eapply get_at_set_at, Hq).
    unfold top. cbn. rewrite Hq'. reflexivity.
  - rewrite (top_mkst _ _ _ _ _ _ _ Hp). cbn [bind].
    cbn [isType type Type_.eqb get_Array].
    rewrite subscript_index_append by exact Hs. cbn [bind child].
    rewrite list_lookup_middle by reflexivity. cbn [bind set_child].
    rewrite insert_app_r_alt by lia. rewrite Nat.sub_diag. cbn [insert list_insert].
    set (r0 := set_at r p (JArray (a ++ [JNull]))).
    assert (Hp0 : get_at r0 p = Some (JArray (a ++ [JNull])))
      by (eapply get_at_set_at, Hp).
    assert (Hc : child (JArray (a ++ [JNull])) (Idx (length a)) = Some JNull)
      by (cbn; apply list_lookup_middle; reflexivity).
    assert (Hset : forall V, set_at r0 (p ++ [Idx (length a)]) V
                             = set_at r p (JArray (a ++ [V]))).
    { intros V. rewrite (set_at_snoc _ _ _ _ _ _ Hp0 Hc). unfold r0.
      rewrite (set_at_set_at _ _ _ _ _ Hp). cbn [set_child].
      rewrite insert_app_r_alt by lia. rewrite Nat.sub_diag. reflexivity. }
    exists r0, (p ++ [Idx (length a)])%list, (p :: ps), JNull.
    split; [rewrite Hset; reflexivity|].
    split; [rewrite (get_at_snoc _ _ _ _ Hp0); exact Hc|].
    intros V f i'. unfold setEnd. cbn. rewrite Hset.
    assert (Hp2 : get_at (set_at r p (JArray (a ++ [V]))) p
                  = Some (JArray (a ++ [V])))
      by (eapply get_at_set_at, Hp).
    unfold top. cbn. rewrite Hp2. reflexivity.
  - rewrite (top_mkst _ _ _ _ _ _ _ Hp). cbn.
    exists r, p, [], JNull.
    split; [reflexivity|]. split; [exact Hp|].
    intros V f i'. reflexivity.
Qed.

Lemma on_array_end_closes j r1 c tl F ps' f' a f i x :
  closes j r1 c tl F ps' f' -> get_at r1 c = Some x ->
  on_array_end (mkst j (set_at r1 c (JArray a)) f (c :: tl) i)
  = Ret (mkst j (F (JArray a)) f' ps' i).
Proof.
  intros Hc Hx. unfold on_array_end.
  rewrite (top_mkst _ _ _ _ _ _ (JArray a)) by (eapply get_at_set_at, Hx).
  cbn. apply Hc.
Qed.

Lemma on_object_end_closes j r1 c tl F ps' f' m f i x :
  closes j r1 c tl F ps' f' -> get_at r1 c = Some x ->
  on_object_end (mkst j (set_at r1 c (JMap m)) f (c :: tl) i)
  = Ret (mkst j (F (JMap m)) f' ps' i).
Proof.
  intros Hc Hx. unfold on_object_end.
  rewrite (top_mkst _ _ _ _ _ _ (JMap m)) by (eapply get_at_set_at, Hx).
  cbn. apply Hc.
Qed.

Lemma slot_mode m r ps F ps' f' :
  slot m r ps F ps' f' -> (m = 1 \/ m = 2 \/ m = 3)%N.
Proof. destruct 1; auto. Qed.

Lemma slot_stack m r ps F ps' f' : slot m r ps F ps' f' -> ps <> [].
Proof. destruct 1; discriminate. Qed.
(* ===================================================================== *)
(** ** Number tokens *)

Lemma isdigit_cases (c : ascii) :
  isdigit c = true ->
  c = "0"%char \/ c = "1"%char \/ c = "2"%char \/ c = "3"%char \/ c = "4"%char
  \/ c = "5"%char \/ c = "6"%char \/ c = "7"%char \/ c = "8"%char \/ c = "9"%char.
Proof.
  destruct c as [[] [] [] [] [] [] [] []]; cbv; intros H; try discriminate H;
    tauto.
Qed.

Lemma uint_digits (d : Decimal.uint) :
  string_forallb isdigit (NilEmpty.string_of_uint d) = true.
Proof. induction d; cbn; auto. Qed.

Lemma nz_uint_digits (d : Decimal.uint) :
  string_forallb isdigit (NilZero.string_of_uint d) = true
  /\ NilZero.string_of_uint d <> EmptyString.
Proof.
  split.
  - destruct d; try apply (uint_digits (Decimal.D0 d)); try reflexivity;
      apply uint_digits.
  - destruct d; discriminate.
Qed.

(** The text of an integer: an optional minus and one or more digits. *)
Lemma to_string_int_shape (n : Z) :
  exists ds,
    (to_string_int n = ds \/ to_string_int n = String "-" ds)
    /\ string_forallb isdigit ds = true /\ ds <> EmptyString.
Proof.
  unfold to_string_int. destruct (Z.to_int n) as [d|d]; cbn.
  - exists (NilZero.string_of_uint d). split; [auto|]. apply nz_uint_digits.
  - exists (NilZero.string_of_uint d). split; [auto|]. apply nz_uint_digits.
Qed.



Lemma span_digits_app (ds rest : string) :
  string_forallb isdigit ds = true -> nondigit_start rest = true ->
  span_digits (ds ++ rest) = String.length ds.
Proof.
  intros Hd Hr. induction ds as [|c ds IH];
    cbn [append span_digits string_forallb String.length] in *.
  - destruct rest as [|c rest]; [reflexivity|].
    cbn [append span_digits nondigit_start] in *.
    apply negb_true_iff in Hr. rewrite Hr. reflexivity.
  - apply andb_true_iff in Hd as [Hc Hd]. rewrite Hc. f_equal. auto.
Qed.

Lemma delim_nondigit (rest : string) : delim rest = true -> nondigit_start rest = true.
Proof.
  destruct rest as [|c rest]; [reflexivity|]. cbn.
  intros [[H|H]%orb_true_iff|H]%orb_true_iff;
    apply Ascii.eqb_eq in H; subst; reflexivity.
Qed.

Lemma scan_digits_delim (ds rest : string) :
  string_forallb isdigit ds = true -> ds <> EmptyString -> delim rest = true ->
  scan_number (ds ++ rest) = Some (String.length ds)
  /\ scan_number (String "-" (ds ++ rest)) = Some (S (String.length ds)).
Proof.
  intros Hd Hne Hr.
  assert (Hsp : span_digits (ds ++ rest) = String.length ds)
    by (apply span_digits_app; auto using delim_nondigit).
  assert (Hlen : Nat.eqb (String.length ds) 0 = false).
  { destruct ds; [congruence | reflexivity]. }
  assert (Htail : forall k,
    (let s2 := string_drop (String.length ds) (ds ++ rest) in
     let nf := match s2 with
               | String "."%char s' => S (span_digits s')
               | _ => 0%nat
               end in
     let s3 := string_drop nf s2 in
     let ne := match s3 with
               | String c s' =>
                   if Ascii.eqb c "e" || Ascii.eqb c "E" then
                     let '(sg, s'') :=
                       match s' with
                       | String c2 t =>
                           if Ascii.eqb c2 "+" || Ascii.eqb c2 "-"
                           then (1%nat, t) else (0%nat, s')
                       | EmptyString => (0%nat, s')
                       end in
                     let k := span_digits s'' in
                     if Nat.eqb k 0 then 0%nat else (1 + sg + k)%nat
                   else 0%nat
               | EmptyString => 0%nat
               end in
     Some (k + String.length ds + nf + ne)%nat) = Some (k + String.length ds)%nat).
  { intros k. rewrite string_drop_app.
    destruct rest as [|c rest]; cbn.
    - f_equal. lia.
    - cbn in Hr.
      apply orb_true_iff in Hr as [Hr|Hr];
        [apply orb_true_iff in Hr as [Hr|Hr]|];
        apply Ascii.eqb_eq in Hr; subst c; cbn; f_equal; lia. }
  split.
  - unfold scan_number.
    destruct ds as [|c ds']; [congruence|].
    assert (Hc : c <> "-"%char).
    { intros ->. cbn in Hd. discriminate. }
    cbn [append].
    replace (match String c (ds' ++ rest) with
             | String "-"%char s' => (1%nat, s')
             | _ => (0%nat, String c (ds' ++ rest))
             end) with (0%nat, String c (ds' ++ rest)).
    2:{ destruct c as [[] [] [] [] [] [] [] []]; try reflexivity. congruence. }
    change (String c (ds' ++ rest)) with (String c ds' ++ rest).
    rewrite Hsp, Hlen. apply (Htail 0%nat).
  - unfold scan_number. rewrite Hsp, Hlen. apply (Htail 1%nat).
Qed.

Lemma scan_to_string_int (n : Z) (rest : string) :
  delim rest = true ->
  scan_number (to_string_int n ++ rest) = Some (String.length (to_string_int n)).
Proof.
  intros Hr. destruct (to_string_int_shape n) as (ds & [->| ->] & Hd & Hne).
  - apply scan_digits_delim; auto.
  - apply scan_digits_delim; auto.
Qed.

Lemma number_start (tok : string) (n : nat) :
  scan_number tok = Some n ->
  exists c s, tok = String c s /\ (c = "-"%char \/ isdigit c = true).
Proof.
  unfold scan_number. destruct tok as [|c s]; [discriminate|].
  intros H. exists c, s. split; [reflexivity|].
  destruct (Ascii.eqb_spec c "-"); [auto|]. right.
  replace (match String c s with
           | String "-"%char s' => (1%nat, s')
           | _ => (0%nat, String c s)
           end) with (0%nat, String c s) in H.
  2:{ destruct c as [[] [] [] [] [] [] [] []]; try reflexivity. congruence. }
  cbn in H. destruct (isdigit c); [reflexivity | discriminate].
Qed.

(** In a state that waits for a value, a text that starts with a minus or
    a digit is matched by the number pattern alone. *)
Lemma match_token_number (e m : N) (c : ascii) (s : string) :
  (e = 0 \/ e = 3)%N -> (m = 1 \/ m = 2 \/ m = 3)%N ->
  c = "-"%char \/ isdigit c = true ->
  match_token (flags_value e m) (String c s)
  = match scan_number (String c s) with
    | Some n => Ret (Some (string_take n (String c s), n))
    | None => Ret None
    end.
Proof.
  intros He Hm Hc.
  assert (Hcs : c = "-"%char \/ c = "0"%char \/ c = "1"%char \/ c = "2"%char
                \/ c = "3"%char \/ c = "4"%char \/ c = "5"%char \/ c = "6"%char
                \/ c = "7"%char \/ c = "8"%char \/ c = "9"%char).
  { destruct Hc as [Hc|Hc]; [auto|]. right. apply isdigit_cases, Hc. }
  clear Hc.
  destruct He as [->| ->], Hm as [->|[->| ->]];
    repeat (destruct Hcs as [->|Hcs]);
    subst; unfold match_token; cbn -[scan_number string_take];
    destruct (scan_number _); reflexivity.
Qed.

Lemma find_key_number (c : ascii) (s : string) :
  c = "-"%char \/ isdigit c = true ->
  find_key (String c s) mapToken = None.
Proof.
  intros [->|Hc]; [reflexivity|].
  apply isdigit_cases in Hc.
  repeat (destruct Hc as [->|Hc]; [reflexivity|]); subst; reflexivity.
Qed.

Lemma has_nonspace_number (c : ascii) (s : string) :
  c = "-"%char \/ isdigit c = true -> has_nonspace (String c s) = true.
Proof.
  intros [->|Hc]; [reflexivity|].
  apply isdigit_cases in Hc.
  repeat (destruct Hc as [->|Hc]; [reflexivity|]); subst; reflexivity.
Qed.

Lemma is_integer_token_digits (ds : string) :
  string_forallb isdigit ds = true -> ds <> EmptyString ->
  is_integer_token ds = true /\ is_integer_token (String "-" ds) = true.
Proof.
  intros Hd Hne. split.
  - destruct ds as [|c ds']; [congruence|].
    assert (Hc : c <> "-"%char) by (intros ->; cbn in Hd; discriminate).
    unfold is_integer_token.
    destruct c as [[] [] [] [] [] [] [] []]; try exact Hd. congruence.
  - cbn. rewrite Hd. destruct ds; [congruence | reflexivity].
Qed.

Lemma stoll_to_string_int (n : Z) :
  in_intmax n = true -> stoll (to_string_int n) = Ret n.
Proof.
  intros Hn. unfold stoll, to_string_int.
  rewrite NilZero.isi.
  - rewrite DecimalZ.of_to, Hn. reflexivity.
  - destruct n; cbn; try discriminate.
    intros [= H]. revert H. apply DecimalPos.Unsigned.to_uint_nonnil.
  - destruct n; cbn; try discriminate.
    intros [= H]. revert H. apply DecimalPos.Unsigned.to_uint_nonnil.
Qed.

Lemma number_value_to_string_int (n : Z) :
  in_intmax n = true -> number_value (to_string_int n) = Ret (JInt n).
Proof.
  intros Hn. unfold number_value.
  assert (Hi : is_integer_token (to_string_int n) = true).
  { destruct (to_string_int_shape n) as (ds & [->| ->] & Hd & Hne);
      apply is_integer_token_digits; auto. }
  rewrite Hi, stoll_to_string_int by exact Hn. reflexivity.
Qed.

Lemma digits_no_lf (ds : string) :
  string_forallb isdigit ds = true -> no_lf ds = true.
Proof.
  apply string_forallb_impl. intros c Hc. apply isdigit_cases in Hc.
  repeat (destruct Hc as [->|Hc]; [reflexivity|]); subst; reflexivity.
Qed.

Lemma to_string_int_no_lf (n : Z) : no_lf (to_string_int n) = true.
Proof.
  destruct (to_string_int_shape n) as (ds & [->| ->] & Hd & _).
  - apply digits_no_lf, Hd.
  - cbn. apply digits_no_lf, Hd.
Qed.

Lemma span_digits_le (s : string) : (span_digits s <= String.length s)%nat.
Proof.
  induction s as [|c s IH]; [reflexivity|]. cbn [span_digits String.length].
  destruct (isdigit c); lia.
Qed.


Lemma string_take_add (a b : nat) (s : string) :
  string_take (a + b) s = string_take a s ++ string_take b (string_drop a s).
Proof.
  revert s. induction a as [|a IH]; intros s; [reflexivity|].
  destruct s as [|c s]; [destruct b; reflexivity|].
  cbn [Nat.add string_take string_drop append]. rewrite IH. reflexivity.
Qed.

Lemma string_drop_add (a b : nat) (s : string) :
  string_drop (a + b) s = string_drop b (string_drop a s).
Proof.
  revert s. induction a as [|a IH]; intros s; [reflexivity|].
  destruct s as [|c s]; [destruct b; reflexivity|].
  cbn [Nat.add string_drop]. apply IH.
Qed.

Lemma span_digits_take (s : string) :
  string_forallb numchar (string_take (span_digits s) s) = true.
Proof.
  induction s as [|c s IH]; [reflexivity|].
  cbn [span_digits]. destruct (isdigit c) eqn:E; [|reflexivity].
  cbn [string_take string_forallb]. rewrite IH. unfold numchar. rewrite E.
  reflexivity.
Qed.

Lemma scan_number_chars (s : string) (n : nat) :
  scan_number s = Some n -> string_forallb numchar (string_take n s) = true.
Proof.
  unfold scan_number.
  assert (Hneg : exists neg s1,
             match s with
             | String "-"%char s' => (1%nat, s')
             | _ => (0%nat, s)
             end = (neg, s1)
             /\ s1 = string_drop neg s
             /\ string_forallb numchar (string_take neg s) = true).
  { destruct s as [|c s']; [exists 0%nat, EmptyString; auto|].
    destruct (Ascii.eqb_spec c "-") as [->|Hc].
    - exists 1%nat, s'. auto.
    - exists 0%nat, (String c s'). split; [|auto].
      destruct c as [[] [] [] [] [] [] [] []]; try reflexivity. congruence. }
  destruct Hneg as (neg & s1 & -> & Hs1 & Hn1).
  destruct (Nat.eqb (span_digits s1) 0); [discriminate|].
  set (nd := span_digits s1). set (s2 := string_drop nd s1).
  set (nf := match s2 with
             | String "."%char s' => S (span_digits s')
             | _ => 0%nat
             end).
  set (s3 := string_drop nf s2).
  set (ne := match s3 with
             | String c s' =>
                 if Ascii.eqb c "e" || Ascii.eqb c "E" then
                   let '(sg, s'') :=
                     match s' with
                     | String c2 t =>
                         if Ascii.eqb c2 "+" || Ascii.eqb c2 "-"
                         then (1%nat, t) else (0%nat, s')
                     | EmptyString => (0%nat, s')
                     end in
                   let k := span_digits s'' in
                   if Nat.eqb k 0 then 0%nat else (1 + sg + k)%nat
                 else 0%nat
             | EmptyString => 0%nat
             end).
  intros [= <-].
  assert (Hnf : string_forallb numchar (string_take nf s2) = true).
  { unfold nf. destruct s2 as [|c s']; [reflexivity|].
    destruct (Ascii.eqb_spec c ".") as [->|Hc].
    - cbn [string_take string_forallb]. rewrite span_digits_take. reflexivity.
    - replace (match c with "."%char => S (span_digits s') | _ => 0%nat end)
        with 0%nat; [reflexivity|].
      destruct c as [[] [] [] [] [] [] [] []]; try reflexivity. congruence. }
  assert (Hne : string_forallb numchar (string_take ne s3) = true).
  { unfold ne. destruct s3 as [|c s']; [reflexivity|].
    destruct (Ascii.eqb c "e" || Ascii.eqb c "E") eqn:Ec; [|reflexivity].
    assert (Hc : numchar c = true).
    { unfold numchar. apply orb_true_iff in Ec as [->| ->];
        rewrite ?orb_true_r; reflexivity. }
    destruct s' as [|c2 t].
    - reflexivity.
    - destruct (Ascii.eqb c2 "+" || Ascii.eqb c2 "-") eqn:E2.
      + destruct (Nat.eqb (span_digits t) 0); [reflexivity|].
        cbn [Nat.add string_take string_forallb].
        rewrite Hc, span_digits_take.
        assert (H2 : numchar c2 = true).
        { unfold numchar. apply orb_true_iff in E2 as [->| ->];
            rewrite ?orb_true_r; reflexivity. }
        rewrite H2. reflexivity.
      + destruct (Nat.eqb (span_digits (String c2 t)) 0); [reflexivity|].
        cbn [Nat.add string_take string_forallb].
        rewrite Hc.
        exact (span_digits_take (String c2 t)). }
  rewrite !string_take_add, !string_forallb_app, !string_drop_add.
  rewrite <- Hs1. change (string_drop nd s1) with s2.
  change (string_drop nf s2) with s3.
  rewrite Hn1, Hnf, Hne. unfold nd. rewrite span_digits_take. reflexivity.
Qed.

Lemma numchar_not_lf (c : ascii) :
  numchar c = true -> negb (Ascii.eqb c chLF) = true.
Proof.
  destruct c as [[] [] [] [] [] [] [] []]; cbv; intros H;
    first [reflexivity | discriminate H].
Qed.

Lemma number_token_scan (tok : string) :
  is_number_token tok = true -> scan_number tok = Some (String.length tok).
Proof.
  unfold is_number_token. destruct (scan_number tok) as [n|]; [|discriminate].
  intros H%Nat.eqb_eq. congruence.
Qed.

Lemma number_token_no_lf (tok : string) :
  is_number_token tok = true -> no_lf tok = true.
Proof.
  intros H%number_token_scan. apply scan_number_chars in H.
  rewrite string_take_all in H.
  eapply string_forallb_impl; [|exact H]. apply numchar_not_lf.
Qed.

Lemma stod_cases (s : string) :
  (exists d, stod s = Ret d)
  \/ stod s = Throw (invalid_argument "stod")
  \/ stod s = Throw (out_of_range "stod").
Proof.
  unfold stod. destruct (read_decimal s) as [l|]; [|auto].
  destruct (lit_digits l =? 0); [eauto|].
  destruct (SFdiv _ _ _ _) as [sg|sg| |sg m e]; auto;
    match goal with
    | |- context [if ?b then _ else _] => destruct b; eauto
    end.
Qed.

Lemma number_value_cases (tok : string) :
  (exists v, number_value tok = Ret v)
  \/ number_value tok = Throw (invalid_argument "stod")
  \/ number_value tok = Throw (out_of_range "stod").
Proof.
  unfold number_value.
  assert (H : (exists v, (let* d := stod tok in Ret (JFloat d)) = Ret v)
              \/ (let* d := stod tok in Ret (JFloat d)) = Throw (invalid_argument "stod")
              \/ (let* d := stod tok in Ret (JFloat d)) = Throw (out_of_range "stod")).
  { destruct (stod_cases tok) as [[d ->]|[-> | ->]]; cbn; eauto. }
  destruct (is_integer_token tok); [|exact H].
  destruct (stoll tok); eauto.
Qed.


(* ===================================================================== *)
(** ** Where a number token ends *)

Lemma stop_not_digit (x : string) : number_stop x = true -> span_digits x = 0%nat.
Proof.
  destruct x as [|c x]; [reflexivity|]. cbn [number_stop span_digits].
  intros H. apply negb_true_iff in H.
  destruct c as [[] [] [] [] [] [] [] []]; try discriminate H; reflexivity.
Qed.

Lemma span_digits_stop (s x : string) :
  number_stop x = true -> span_digits (s ++ x) = span_digits s.
Proof.
  intros Hx. induction s as [|c s IH]; [apply stop_not_digit, Hx|].
  cbn [append span_digits]. rewrite IH. reflexivity.
Qed.

Lemma stop_head (x : string) (P : Prop) :
  number_stop x = true ->
  (x = EmptyString -> P) ->
  (forall c x', x = String c x' -> numchar c = false -> P) -> P.
Proof.
  destruct x as [|c x]; [auto|]. cbn [number_stop].
  intros H _ HP. apply negb_true_iff in H. eapply HP; eauto.
Qed.

(** The number pattern matches the same characters when the text goes on
    with something that is not a character of a number. *)
Lemma scan_number_stop (r x : string) :
  number_stop x = true -> scan_number (r ++ x) = scan_number r.
Proof.
  intros Hx.
  assert (Hsp : forall c, numchar c = false ->
            c <> "-"%char /\ c <> "."%char
            /\ Ascii.eqb c "e" || Ascii.eqb c "E" = false
            /\ Ascii.eqb c "+" || Ascii.eqb c "-" = false
            /\ isdigit c = false).
  { intros c H. destruct c as [[] [] [] [] [] [] [] []]; try discriminate H;
      repeat split; discriminate. }
  (* the pattern after the optional minus *)
  pose (F := fun (neg : nat) (s1 : string) =>
    let nd := span_digits s1 in
    if Nat.eqb nd 0 then None else
    let s2 := string_drop nd s1 in
    let nf :=
      match s2 with
      | String "."%char s' => S (span_digits s')
      | _ => 0%nat
      end in
    let s3 := string_drop nf s2 in
    let ne :=
      match s3 with
      | String c s' =>
          if Ascii.eqb c "e" || Ascii.eqb c "E" then
            let '(sg, s'') :=
              match s' with
              | String c2 t =>
                  if Ascii.eqb c2 "+" || Ascii.eqb c2 "-"
                  then (1%nat, t) else (0%nat, s')
              | EmptyString => (0%nat, s')
              end in
            let k := span_digits s'' in
            if Nat.eqb k 0 then 0%nat else (1 + sg + k)%nat
          else 0%nat
      | EmptyString => 0%nat
      end in
    Some (neg + nd + nf + ne)%nat).
  assert (Hrest : forall neg s1, F neg (s1 ++ x) = F neg s1).
  { intros neg s1. unfold F. cbn zeta. rewrite span_digits_stop by exact Hx.
    destruct (Nat.eqb (span_digits s1) 0); [reflexivity|].
    rewrite string_drop_app_le by apply span_digits_le.
    set (s2 := string_drop (span_digits s1) s1).
    assert (Hnf : match s2 ++ x with
                  | String "."%char s' => S (span_digits s')
                  | _ => 0%nat
                  end
                  = match s2 with
                    | String "."%char s' => S (span_digits s')
                    | _ => 0%nat
                    end
                  /\ (match s2 with
                      | String "."%char s' => S (span_digits s')
                      | _ => 0%nat
                      end <= String.length s2)%nat).
    { destruct s2 as [|c s2']; cbn [append].
      - split; [|cbn; lia].
        apply (stop_head x _ Hx); [intros ->; reflexivity|].
        intros c x' -> Hc. destruct (Hsp c Hc) as (_ & Hd & _).
        destruct c as [[] [] [] [] [] [] [] []]; try reflexivity. congruence.
      - destruct c as [[] [] [] [] [] [] [] []]; try (split; [reflexivity | cbn; lia]).
        rewrite span_digits_stop by exact Hx. split; [reflexivity|].
        pose proof (span_digits_le s2'). cbn [String.length]. lia. }
    destruct Hnf as [-> Hle].
    set (nf := match s2 with
               | String "."%char s' => S (span_digits s')
               | _ => 0%nat
               end) in *.
    rewrite string_drop_app_le by exact Hle.
    set (s3 := string_drop nf s2).
    f_equal. f_equal.
    destruct s3 as [|c s3']; cbn [append].
    - apply (stop_head x _ Hx); [intros ->; reflexivity|].
      intros c x' -> Hc. destruct (Hsp c Hc) as (_ & _ & -> & _). reflexivity.
    - destruct (Ascii.eqb c "e" || Ascii.eqb c "E"); [|reflexivity].
      destruct s3' as [|c2 t]; cbn [append].
      + apply (stop_head x _ Hx); [intros ->; reflexivity|].
        intros c' x' -> Hc. destruct (Hsp c' Hc) as (_ & _ & _ & -> & Hd).
        cbn [span_digits]. rewrite Hd. reflexivity.
      + destruct (Ascii.eqb c2 "+" || Ascii.eqb c2 "-").
        * rewrite span_digits_stop by exact Hx. reflexivity.
        * change (String c2 (t ++ x)) with (String c2 t ++ x).
          rewrite span_digits_stop by exact Hx. reflexivity. }
  unfold scan_number.
  assert (Hneg : (match r ++ x with
                  | String "-"%char s' => (1%nat, s')
                  | _ => (0%nat, r ++ x)
                  end)
                 = (let '(neg, s1) :=
                      match r with
                      | String "-"%char s' => (1%nat, s')
                      | _ => (0%nat, r)
                      end in (neg, s1 ++ x))).
  { destruct r as [|c r']; cbn [append].
    - apply (stop_head x _ Hx); [intros ->; reflexivity|].
      intros c x' -> Hc. destruct (Hsp c Hc) as (Hm & _).
      destruct c as [[] [] [] [] [] [] [] []]; try reflexivity. congruence.
    - destruct c as [[] [] [] [] [] [] [] []]; reflexivity. }
  rewrite Hneg.
  destruct (match r with
            | String "-"%char s' => (1%nat, s')
            | _ => (0%nat, r)
            end) as [neg s1].
  exact (Hrest neg s1).
Qed.


Lemma delim_stop (rest : string) : delim rest = true -> number_stop rest = true.
Proof.
  destruct rest as [|c rest]; [reflexivity|]. cbn [delim number_stop].
  intros [[H|H]%orb_true_iff|H]%orb_true_iff;
    apply Ascii.eqb_eq in H; subst; reflexivity.
Qed.

Lemma number_token_stop (tok rest : string) :
  is_number_token tok = true -> number_stop rest = true ->
  scan_number (tok ++ rest) = Some (String.length tok).
Proof.
  intros Hn Hr. rewrite scan_number_stop by exact Hr.
  apply number_token_scan, Hn.
Qed.


Lemma digits_parse (ds : string) :
  string_forallb isdigit ds = true ->
  exists d, NilEmpty.uint_of_string ds = Some d.
Proof.
  induction ds as [|c ds IH]; [cbn; eauto|].
  cbn [string_forallb NilEmpty.uint_of_string].
  intros [Hc Hds]%andb_true_iff. destruct (IH Hds) as [d ->].
  apply isdigit_cases in Hc.
  repeat (destruct Hc as [->|Hc]; [cbn; eauto|]). subst. cbn. eauto.
Qed.

Lemma integer_token_parse (tok : string) :
  is_integer_token tok = true -> exists d, NilZero.int_of_string tok = Some d.
Proof.
  unfold is_integer_token. destruct tok as [|c s]; [discriminate|].
  destruct (Ascii.eqb_spec c "-") as [->|Hc].
  - intros [Hne Hd]%andb_true_iff. destruct (digits_parse s Hd) as [d Hp].
    cbn. destruct s; [discriminate|]. cbn in Hp |- *. rewrite Hp. cbn. eauto.
  - intros H.
    assert (Hd : string_forallb isdigit (String c s) = true).
    { destruct c as [[] [] [] [] [] [] [] []];
        try (apply andb_true_iff in H as [_ H]; exact H). congruence. }
    destruct (digits_parse _ Hd) as [d Hp].
    unfold NilZero.int_of_string. rewrite (proj2 (Ascii.eqb_neq c "-") Hc).
    unfold NilZero.uint_of_string. rewrite Hp. cbn. eauto.
Qed.

Lemma stoll_integer_token (tok : string) :
  is_integer_token tok = true ->
  stoll tok = if in_intmax (integer_of_token tok)
              then Ret (integer_of_token tok)
              else Throw (out_of_range "stoll").
Proof.
  intros H. destruct (integer_token_parse tok H) as [d Hd].
  unfold stoll, integer_of_token. rewrite Hd. reflexivity.
Qed.


(** *** The value of a number token *)

(** What the program makes of a token is what the classification says:
    the integer when the token is an optional minus and digits and fits
    [intmax_t], otherwise what [stod] gives. *)
Lemma number_value_kind (tok : string) :
  number_value tok
  = if is_integer_token tok && in_intmax (integer_of_token tok)
    then Ret (JInt (integer_of_token tok))
    else let* d := stod tok in Ret (JFloat d).
Proof.
  unfold number_value. destruct (is_integer_token tok) eqn:Hi; [|reflexivity].
  rewrite stoll_integer_token by exact Hi. cbn [andb].
  destruct (in_intmax (integer_of_token tok)); reflexivity.
Qed.

(** *** A number token in a slot *)

Lemma number_token_nonempty (tok : string) :
  is_number_token tok = true -> tok <> EmptyString.
Proof. intros H ->. discriminate H. Qed.

(** The loop reads a number token in a slot and stores there what the
    program makes of the token, whatever follows it. *)
Lemma reads_number (tok : string) (v : JsonT) :
  is_number_token tok = true -> number_value tok = Ret v -> reads tok v.
Proof.
  intros Hn Hv j r ps m e F ps' f' rest Hslot He Hrest Hd.
  apply turns_one.
  pose proof (number_token_stop tok rest Hn (delim_stop _ Hd)) as Hscan.
  destruct (number_start (tok ++ rest) _ Hscan) as (c & s & Hcs & Hc).
  pose proof (number_token_nonempty tok Hn) as Hne.
  unfold mkst at 1. rewrite turn_token.
  - assert (Hk : find_key tok mapToken = None).
    { destruct tok as [|c' s']; [congruence|].
      cbn [append] in Hcs. injection Hcs as -> _.
      apply find_key_number, Hc. }
    rewrite Hk, Hv. cbn [rethrow bind].
    rewrite (setValue_slot _ _ _ _ _ _ _ _ _ _ Hslot). reflexivity.
  - reflexivity.
  - eapply slot_stack, Hslot.
  - exact Hne.
  - rewrite no_lf_app, number_token_no_lf, Hrest by exact Hn. reflexivity.
  - rewrite Hcs. apply has_nonspace_number, Hc.
  - rewrite Hcs, match_token_number;
      [| exact He | eapply slot_mode, Hslot | exact Hc].
    rewrite <- Hcs, Hscan, string_take_app. reflexivity.
Qed.

(** *** The text of a [Float] *)

Lemma same_double_eq (x y : double) : same_double x y = true -> x = y.
Proof.
  destruct x as [a|a| |a m e], y as [b|b| |b n f]; cbn; try discriminate;
    try reflexivity.
  - intros H%Bool.eqb_prop. congruence.
  - intros H%Bool.eqb_prop. congruence.
  - intros [[H1%Bool.eqb_prop H2%Pos.eqb_eq]%andb_prop H3%Z.eqb_eq]%andb_prop.
    congruence.
Qed.

Lemma stod_number_token (s : string) (d : double) :
  stod s = Ret d -> is_number_token s = true.
Proof.
  unfold stod, read_decimal, is_number_token.
  destruct (scan_number s) as [n|]; [|discriminate].
  destruct (Nat.eqb n (String.length s)); [reflexivity | discriminate].
Qed.

Lemma determined_stod (d : double) :
  six_decimals_determine d = true -> stod (to_string_double d) = Ret d.
Proof.
  unfold six_decimals_determine.
  destruct d as [s|s| |s m e]; try discriminate;
    destruct (stod _) as [d'| | |]; try discriminate;
    intros H%same_double_eq; congruence.
Qed.

Lemma point_not_integer (a b : string) :
  is_integer_token (a ++ "." ++ b) = false.
Proof.
  assert (H : forall x, string_forallb isdigit (x ++ "." ++ b) = false).
  { intros x. rewrite string_forallb_app. cbn. apply andb_false_r. }
  unfold is_integer_token. destruct a as [|c a]; [reflexivity|].
  pose proof (H a) as H1. pose proof (H (String c a)) as H2.
  cbn [append] in *.
  destruct c as [[] [] [] [] [] [] [] []];
    first [rewrite H2 | rewrite H1]; apply andb_false_r.
Qed.

(** The text of a [Float] is never that of an integer. *)
Lemma to_string_double_not_integer (d : double) :
  is_integer_token (to_string_double d) = false.
Proof.
  destruct d as [s|s| |s m e]; try (destruct s; reflexivity); try reflexivity.
  unfold to_string_double. destruct s.
  - rewrite <- append_assoc. apply point_not_integer.
  - cbn [append]. apply point_not_integer.
Qed.

Lemma determined_number_value (d : double) :
  six_decimals_determine d = true ->
  is_number_token (to_string_double d) = true
  /\ number_value (to_string_double d) = Ret (JFloat d).
Proof.
  intros H%determined_stod. split; [eapply stod_number_token, H|].
  unfold number_value. rewrite to_string_double_not_integer, H. reflexivity.
Qed.
(* ===================================================================== *)
(** ** String tokens *)

(** Replacing a single character works character by character. *)
Lemma regex_replace_char_app (a : ascii) (fmt s1 s2 : string) :
  regex_replace (s1 ++ s2) (str1 a) fmt
  = regex_replace s1 (str1 a) fmt ++ regex_replace s2 (str1 a) fmt.
Proof.
  unfold regex_replace. induction s1 as [|c s1 IH]; [reflexivity|].
  cbn [append regex_replace_from starts_with str1 String.length Nat.sub].
  rewrite andb_true_r.
  destruct (Ascii.eqb a c).
  - rewrite IH. symmetry. apply append_assoc.
  - rewrite IH. reflexivity.
Qed.

Lemma fEscape_app (s1 s2 : string) : fEscape (s1 ++ s2) = fEscape s1 ++ fEscape s2.
Proof.
  unfold fEscape, replace_each, escape_tbl. cbn [fold_left fst snd].
  unfold sDQ. change "/" with (str1 "/").
  rewrite !regex_replace_char_app. reflexivity.
Qed.

Lemma fEscape_cons (c : ascii) (s : string) :
  fEscape (String c s) = fEscape (str1 c) ++ fEscape s.
Proof. apply (fEscape_app (str1 c) s). Qed.





(** What the string expression finds at an escaped character: either the
    escape that [mapReplace] turns back into the character, or the
    character itself, which joins the characters before the token. *)
Lemma escaped_char (c : ascii) :
  c <> chLF ->
  no_lf (fEscape (str1 c)) = true
  /\ ((String.length (fEscape (str1 c)) = 2%nat
       /\ (forall l, find_string_token (fEscape (str1 c) ++ l)
                     = Some (smatch_lit (fEscape (str1 c))))
       /\ String.eqb (fEscape (str1 c)) sDQ = false
       /\ find_key (fEscape (str1 c)) mapReplace = Some (str1 c))
      \/ (fEscape (str1 c) = str1 c
          /\ forall l, find_string_token (String c l)
                       = match find_string_token l with
                         | Some m => Some (smatch_cons c m)
                         | None => None
                         end)).
Proof.
  intros Hc.
  destruct c as [[] [] [] [] [] [] [] []];
    try (exfalso; apply Hc; reflexivity);
    (split; [reflexivity|]);
    first [ right; split; [reflexivity | intros l; reflexivity]
          | left; repeat split; reflexivity ].
Qed.

Lemma fEscape_no_lf (s : string) : no_lf s = true -> no_lf (fEscape s) = true.
Proof.
  induction s as [|c s IH]; [reflexivity|].
  cbn [no_lf string_forallb]. intros [Hc Hs]%andb_true_iff.
  rewrite fEscape_cons, no_lf_app. apply andb_true_iff. split; [|auto].
  apply escaped_char. intros ->. discriminate.
Qed.

Lemma fEscape_length (s : string) :
  no_lf s = true -> (String.length s <= String.length (fEscape s))%nat.
Proof.
  induction s as [|c s IH]; [reflexivity|].
  cbn [no_lf string_forallb]. intros [Hc Hs]%andb_true_iff.
  rewrite fEscape_cons, length_append. cbn [String.length].
  specialize (IH Hs).
  assert (Hne : c <> chLF) by (intros ->; discriminate).
  destruct (escaped_char c Hne) as [_ [(H & _)|(H & _)]]; rewrite H;
    cbn [String.length str1]; lia.
Qed.

(** Decoding the escaped text of [s] up to the closing quote gives [s]. *)
Lemma decode_string_escaped (s : string) :
  no_lf s = true ->
  forall fuel text j r f ps rest,
    (String.length s < fuel)%nat ->
    decode_string fuel (mkst j r f ps (fEscape s ++ sDQ ++ rest)) text
    = Ret (mkst j r f ps rest, text ++ s).
Proof.
  induction s as [|c s IH]; intros Hlf fuel text j r f ps rest Hfuel.
  - destruct fuel as [|fuel]; [cbn in Hfuel; lia|].
    cbn [decode_string]. rewrite range_mkst.
    change (fEscape EmptyString ++ sDQ ++ rest) with (sDQ ++ rest).
    change (find_string_token (sDQ ++ rest)) with (Some (smatch_lit sDQ)).
    cbn [m_length smatch_lit m1 m2 String.eqb].
    change (String.length sDQ) with (String.length sDQ).
    rewrite advance_mkst, !append_nil_r. reflexivity.
  - cbn [no_lf string_forallb] in Hlf. apply andb_true_iff in Hlf as [Hc Hs].
    assert (Hne : c <> chLF) by (intros ->; discriminate).
    rewrite fEscape_cons, append_assoc.
    destruct fuel as [|fuel]; [cbn in Hfuel; lia|].
    cbn [String.length] in Hfuel.
    destruct (escaped_char c Hne) as [_ [(Hlen & Hfind & Hdq & Hrep)|(Heq & Hfind)]].
    + cbn [decode_string]. rewrite range_mkst, Hfind.
      cbn [m_length smatch_lit m1 m2].
      rewrite advance_mkst, Hdq, Hrep, append_nil_r.
      rewrite IH by (auto; lia).
      rewrite append_assoc. reflexivity.
    + rewrite Heq. change (str1 c ++ fEscape s ++ sDQ ++ rest)
        with (String c (fEscape s ++ sDQ ++ rest)).
      specialize (IH Hs (S fuel) (text ++ str1 c) j r f ps rest ltac:(lia)).
      cbn [decode_string] in IH |- *.
      rewrite range_mkst in IH |- *. rewrite Hfind.
      destruct (find_string_token (fEscape s ++ sDQ ++ rest)) as [m|];
        [|discriminate IH].
      cbn [smatch_cons m1 m2 m3 m4 m5 m_length].
      assert (Hadv : advance (S (m_length m))
                       (mkst j r f ps (String c (fEscape s ++ sDQ ++ rest)))
                     = advance (m_length m)
                         (mkst j r f ps (fEscape s ++ sDQ ++ rest)))
        by reflexivity.
      rewrite Hadv.
      replace (text ++ String c (m1 m)) with ((text ++ str1 c) ++ m1 m)
        by (rewrite append_assoc; reflexivity).
      rewrite IH. rewrite append_assoc. reflexivity.
Qed.

(** The handler of the quote in a state that waits for a value. *)
Lemma on_string_value (s : string) j r e m ps rest :
  no_lf s = true ->
  on_string (mkst j r (flags_value e m) ps (fEscape s ++ sDQ ++ rest))
  = setValue (JString s) (mkst j r (flags_value e m) ps rest).
Proof.
  intros Hs. unfold on_string.
  rewrite decode_string_escaped; [reflexivity | exact Hs |].
  rewrite range_mkst, length_append.
  pose proof (fEscape_length s Hs). lia.
Qed.

(** The handler of the quote in a state that waits for a key: the element
    of that key is created or emptied, and pushed. *)
Lemma on_string_key (k : string) j r e c tl m0 rest :
  no_lf k = true -> get_at r c = Some (JMap m0) ->
  on_string (mkst j r (flags_key e) (c :: tl) (fEscape k ++ sDQ ++ rest))
  = Ret (mkst j (set_at r c (JMap (map_insert k JNull m0))) flags_colon
           ((c ++ [Key k])%list :: c :: tl) rest).
Proof.
  intros Hk Hc. unfold on_string.
  rewrite decode_string_escaped; [| exact Hk |].
  2:{ rewrite range_mkst, length_append.
      pose proof (fEscape_length k Hk). lia. }
  cbn [bind flags mkst flags_key objectKey N.eqb Pos.eqb].
  rewrite (top_mkst j r (flags_key e) c tl rest _ Hc).
  cbn [bind isType type Type_.eqb assert subscript_key ensureMap get_Map child].
  change (EmptyString ++ k) with k.
  destruct (map_find_subscript k m0) as [x Hx]. rewrite Hx.
  cbn [bind set_child clear]. rewrite map_subscript_insert. reflexivity.
Qed.
(* ===================================================================== *)
(** ** The text of [stringify] *)

Lemma fold_commas {A : Type} (f : A -> string) (l : list A) (acc : string) :
  fold_left (fun s i => s ++ (f i ++ ",")) l acc
  = match l with
    | [] => acc
    | _ => (acc ++ comma_join f l) ++ ","
    end.
Proof.
  revert acc. induction l as [|x l IH]; intros acc; [reflexivity|].
  cbn [fold_left]. rewrite IH. destruct l as [|y l].
  - cbn [comma_join comma_tail]. rewrite append_nil_r, append_assoc. reflexivity.
  - cbn [comma_join comma_tail]. rewrite !append_assoc. reflexivity.
Qed.

Lemma stringify_array (a : Array) :
  stringify (JArray a) = "[" ++ comma_join stringify a ++ "]".
Proof.
  cbn [stringify]. rewrite fold_commas. destruct a as [|x a]; [reflexivity|].
  replace (1 <=? size (x :: a)) with true
    by (symmetry; apply Z.leb_le; unfold size; cbn [length]; lia).
  change "," with (str1 ","). rewrite pop_back_app_char.
  rewrite append_assoc. reflexivity.
Qed.

Lemma fold_left_pointwise {A B : Type} (f g : A -> B -> A) (l : list B) (a : A) :
  (forall a b, f a b = g a b) -> fold_left f l a = fold_left g l a.
Proof.
  intros H. revert a. induction l as [|b l IH]; intros a; [reflexivity|].
  cbn. rewrite H. apply IH.
Qed.

Lemma stringify_map (m : Map) :
  stringify (JMap m) = object_text m.
Proof.
  cbn [stringify]. unfold object_text.
  rewrite (fold_left_pointwise _ (fun s i => s ++ (member_text i ++ ","))).
  2:{ intros a b. unfold member_text. rewrite !append_assoc. reflexivity. }
  rewrite fold_commas. destruct m as [|x m]; [reflexivity|].
  replace (1 <=? Z.of_nat (length (x :: m))) with true
    by (symmetry; apply Z.leb_le; cbn [length]; lia).
  change "," with (str1 ","). rewrite pop_back_app_char.
  rewrite append_assoc. reflexivity.
Qed.

(* ===================================================================== *)
(** ** Reading back the text of a value *)

Lemma turn_tok j r f ps tok rest h :
  flags_all_is_zero f = false -> ps <> [] -> tok <> EmptyString ->
  no_lf tok = true -> no_lf rest = true ->
  has_nonspace (tok ++ rest) = true ->
  match_token f (tok ++ rest) = Ret (Some (tok, String.length tok)) ->
  find_key tok mapToken = Some h ->
  turn (mkst j r f ps (tok ++ rest))
  = let* st' := h (mkst j r f ps rest) in Ret (Continue st').
Proof.
  intros Hf Hps Htok Hlt Hlr Hns Hm Hk. unfold mkst at 1.
  rewrite turn_token; auto.
  - rewrite Hk. reflexivity.
  - rewrite no_lf_app, Hlt, Hlr. reflexivity.
Qed.


Lemma parses_literal (tok : string) (v : JsonT) :
  (tok = "true" /\ v = JBool true) \/ (tok = "false" /\ v = JBool false)
  \/ (tok = "null" /\ v = JNull) ->
  forall j r ps m e F ps' f' rest,
    slot m r ps F ps' f' -> (e = 0 \/ e = 3)%N -> no_lf rest = true ->
    turns (mkst j r (flags_value e m) ps (tok ++ rest))
          (mkst j (F v) f' ps' rest).
Proof.
  intros Htok j r ps m e F ps' f' rest Hslot He Hrest.
  apply turns_one.
  rewrite (turn_tok _ _ _ _ _ _ (setValue v)).
  - rewrite (setValue_slot _ _ _ _ _ _ _ _ _ _ Hslot). reflexivity.
  - reflexivity.
  - eapply slot_stack, Hslot.
  - destruct Htok as [[-> _]|[[-> _]|[-> _]]]; discriminate.
  - destruct Htok as [[-> _]|[[-> _]|[-> _]]]; reflexivity.
  - exact Hrest.
  - destruct Htok as [[-> _]|[[-> _]|[-> _]]]; reflexivity.
  - apply match_token_value_lit; [exact He | eapply slot_mode, Hslot |].
    destruct Htok as [[-> _]|[[-> _]|[-> _]]]; auto 10.
  - destruct Htok as [[-> ->]|[[-> ->]|[-> ->]]]; reflexivity.
Qed.

Lemma parses_int (n : Z) : in_intmax n = true -> parses (JInt n).
Proof.
  intros Hn j r ps m e F ps' f' rest Hslot He Hrest Hd.
  cbn [stringify as_parsed]. apply turns_one.
  destruct (number_start (to_string_int n ++ rest) _ (scan_to_string_int n rest Hd))
    as (c & s & Hcs & Hc).
  assert (Hne : to_string_int n <> EmptyString).
  { destruct (to_string_int_shape n) as (ds & [->| ->] & _ & Hds);
      [exact Hds | discriminate]. }
  unfold mkst at 1. rewrite turn_token.
  - assert (Hk : find_key (to_string_int n) mapToken = None).
    { destruct (to_string_int n) as [|c' s'] eqn:E; [congruence|].
      cbn [append] in Hcs. injection Hcs as -> _.
      apply find_key_number, Hc. }
    rewrite Hk, number_value_to_string_int by exact Hn.
    cbn [rethrow bind].
    rewrite (setValue_slot _ _ _ _ _ _ _ _ _ _ Hslot). reflexivity.
  - reflexivity.
  - eapply slot_stack, Hslot.
  - exact Hne.
  - rewrite no_lf_app, to_string_int_no_lf, Hrest. reflexivity.
  - rewrite Hcs. apply has_nonspace_number, Hc.
  - rewrite Hcs, match_token_number;
      [| exact He | eapply slot_mode, Hslot | exact Hc].
    rewrite <- Hcs, scan_to_string_int by exact Hd.
    rewrite string_take_app. reflexivity.
Qed.

Lemma parses_string (s : string) : no_lf s = true -> parses (JString s).
Proof.
  intros Hs j r ps m e F ps' f' rest Hslot He Hrest Hd.
  cbn [stringify as_parsed]. apply turns_one.
  rewrite append_assoc.
  rewrite (turn_tok _ _ _ _ _ _ on_string).
  - rewrite append_assoc, on_string_value by exact Hs.
    rewrite (setValue_slot _ _ _ _ _ _ _ _ _ _ Hslot). reflexivity.
  - reflexivity.
  - eapply slot_stack, Hslot.
  - discriminate.
  - reflexivity.
  - rewrite !no_lf_app, fEscape_no_lf, Hrest by exact Hs. reflexivity.
  - reflexivity.
  - apply match_token_value_lit; [exact He | eapply slot_mode, Hslot | auto].
  - reflexivity.
Qed.

Lemma no_lf_comma_tail {A : Type} (f : A -> string) (l : list A) :
  Forall (fun x => no_lf (f x) = true) l -> no_lf (comma_tail f l) = true.
Proof.
  induction 1 as [|x l Hx _ IH]; [reflexivity|].
  cbn [comma_tail]. rewrite !no_lf_app, Hx, IH. reflexivity.
Qed.

Lemma no_lf_comma_join {A : Type} (f : A -> string) (l : list A) :
  Forall (fun x => no_lf (f x) = true) l -> no_lf (comma_join f l) = true.
Proof.
  destruct 1 as [|x l Hx Hl]; [reflexivity|].
  cbn [comma_join]. rewrite no_lf_app, Hx, no_lf_comma_tail by exact Hl.
  reflexivity.
Qed.

Lemma no_lf_stringify (v : JsonT) :
  readable v = true -> no_lf (stringify v) = true.
Proof.
  induction v as [|b|d|n|s|a IH|m IH] using JsonT_ind; intros Hp.
  - reflexivity.
  - destruct b; reflexivity.
  - apply number_token_no_lf, determined_number_value, Hp.
  - apply to_string_int_no_lf.
  - cbn [stringify readable] in *. rewrite !no_lf_app, fEscape_no_lf by exact Hp.
    reflexivity.
  - rewrite stringify_array, !no_lf_app, no_lf_comma_join; [reflexivity|].
    cbn [readable] in Hp. induction IH as [|x a Hx _ IHa]; [constructor|].
    cbn [forallb] in Hp. apply andb_true_iff in Hp as [Hp1 Hp2].
    constructor; auto.
  - rewrite stringify_map. unfold object_text.
    rewrite !no_lf_app, no_lf_comma_join; [reflexivity|].
    cbn [readable] in Hp. induction IH as [|x m Hx _ IHm]; [constructor|].
    cbn [forallb] in Hp. apply andb_true_iff in Hp as [Hp1 Hp2].
    apply andb_true_iff in Hp1 as [Hk Hv].
    constructor; [|auto].
    unfold member_text. rewrite !no_lf_app, fEscape_no_lf, Hx by auto.
    reflexivity.
Qed.

Lemma delim_comma_tail {A : Type} (f : A -> string) (l : list A) (close rest : string) :
  close = "]" \/ close = "}" ->
  delim (comma_tail f l ++ close ++ rest) = true.
Proof. intros [->| ->]; destruct l; reflexivity. Qed.



Lemma turn_comma_array j r ps rest :
  ps <> [] -> no_lf rest = true ->
  turn (mkst j r (flags_end 4) ps ("," ++ rest))
  = Ret (Continue (mkst j r (flags_value 0 2) ps rest)).
Proof.
  intros Hps Hr. rewrite (turn_tok _ _ _ _ _ _ on_comma); auto;
    try reflexivity; try discriminate.
Qed.

Lemma turn_comma_object j r ps rest :
  ps <> [] -> no_lf rest = true ->
  turn (mkst j r (flags_end 2) ps ("," ++ rest))
  = Ret (Continue (mkst j r (flags_key 0) ps rest)).
Proof.
  intros Hps Hr. rewrite (turn_tok _ _ _ _ _ _ on_comma); auto;
    try reflexivity; try discriminate.
Qed.

Lemma turn_colon j r ps rest :
  ps <> [] -> no_lf rest = true ->
  turn (mkst j r flags_colon ps (":" ++ rest))
  = Ret (Continue (mkst j r (flags_value 0 1) ps rest)).
Proof.
  intros Hps Hr. rewrite (turn_tok _ _ _ _ _ _ on_colon); auto;
    try reflexivity; try discriminate.
Qed.

(** The elements of an array after the first. *)
Lemma fill_array j r0 c tl x (vs : list JsonT) :
  get_at r0 c = Some x ->
  Forall parses_if_readable vs ->
  forallb representable vs = true -> forallb readable vs = true ->
  forall a rest,
    size a + Z.of_nat (length vs) < SIZE_MOD -> no_lf rest = true ->
    turns (mkst j (set_at r0 c (JArray a)) (flags_end 4) (c :: tl)
             (comma_tail stringify vs ++ "]" ++ rest))
          (mkst j (set_at r0 c (JArray (a ++ map as_parsed vs))) (flags_end 4)
             (c :: tl) ("]" ++ rest)).
Proof.
  intros Hx HP. induction HP as [|v vs Hv _ IH]; intros Hrep Hpl a rest Hsz Hrest.
  - cbn [comma_tail map append]. rewrite app_nil_r. apply turns_nil.
  - cbn [forallb] in Hrep, Hpl.
    apply andb_true_iff in Hrep as [Hrv Hrvs].
    apply andb_true_iff in Hpl as [Hpv Hpvs].
    cbn [length] in Hsz.
    assert (Htail : no_lf (comma_tail stringify vs ++ "]" ++ rest) = true).
    { rewrite !no_lf_app, Hrest, no_lf_comma_tail; [reflexivity|].
      clear -Hpvs. induction vs as [|y vs IHv]; [constructor|].
      cbn [forallb] in Hpvs. apply andb_true_iff in Hpvs as [H1 H2].
      constructor; auto using no_lf_stringify. }
    cbn [comma_tail]. rewrite !append_assoc.
    eapply turns_cons.
    { apply turn_comma_array; [discriminate|].
      rewrite no_lf_app, no_lf_stringify, Htail by exact Hpv. reflexivity. }
    eapply turns_trans.
    { apply (Hv Hrv Hpv j _ _ 2%N 0%N _ _ _ _
               (slot_element _ c a tl (get_at_set_at _ _ _ _ Hx) ltac:(lia))
               ltac:(auto) Htail).
      apply delim_comma_tail. auto. }
    cbn beta. rewrite (set_at_set_at _ _ _ _ _ Hx).
    cbn [map]. replace (a ++ as_parsed v :: map as_parsed vs)%list
      with ((a ++ [as_parsed v]) ++ map as_parsed vs)%list
      by (rewrite <- app_assoc; reflexivity).
    apply IH; auto. rewrite size_snoc. lia.
Qed.

Lemma parses_array (a : Array) :
  Forall parses_if_readable a -> parses_if_readable (JArray a).
Proof.
  intros HP Hrep Hpl j r ps m e F ps' f' rest Hslot He Hrest Hd.
  cbn [representable readable] in Hrep, Hpl.
  apply andb_true_iff in Hrep as [Hsz Hrep]. apply Z.ltb_lt in Hsz.
  assert (Hjoin : no_lf (comma_join stringify a ++ "]" ++ rest) = true).
  { rewrite !no_lf_app, Hrest, no_lf_comma_join; [reflexivity|].
    clear -Hpl. induction a as [|y a IHa]; [constructor|].
    cbn [forallb] in Hpl. apply andb_true_iff in Hpl as [H1 H2].
    constructor; auto using no_lf_stringify. }
  rewrite stringify_array, !append_assoc.
  destruct (on_begin_slot j e (comma_join stringify a ++ "]" ++ rest)
              m r ps F ps' f' ensureArray (flags_value 3 2) Hslot)
    as (r0 & c & tl & x & Hb & Hx & Hcl).
  eapply turns_cons.
  { rewrite (turn_tok _ _ _ _ _ _ on_array_begin).
    - unfold on_array_begin. rewrite Hb. reflexivity.
    - reflexivity.
    - eapply slot_stack, Hslot.
    - discriminate.
    - reflexivity.
    - exact Hjoin.
    - reflexivity.
    - apply match_token_value_lit; [exact He | eapply slot_mode, Hslot | auto].
    - reflexivity. }
  cbn [ensureArray].
  assert (Hclose : forall V,
    turn (mkst j (set_at r0 c (JArray V)) (flags_end 4) (c :: tl) ("]" ++ rest))
    = Ret (Continue (mkst j (F (JArray V)) f' ps' rest))).
  { intros V. rewrite (turn_tok _ _ _ _ _ _ on_array_end); auto;
      try reflexivity; try discriminate.
    rewrite (on_array_end_closes _ _ _ _ _ _ _ _ _ _ _ Hcl Hx). reflexivity. }
  destruct HP as [|v vs Hv Hvs].
  - cbn [comma_join as_parsed map].
    change (EmptyString ++ "]" ++ rest) with ("]" ++ rest). apply turns_one.
    rewrite (turn_tok _ _ _ _ _ _ on_array_end); auto;
      try reflexivity; try discriminate.
    rewrite (on_array_end_closes _ _ _ _ _ _ _ _ _ _ _ Hcl Hx). reflexivity.
  - cbn [forallb] in Hrep, Hpl.
    apply andb_true_iff in Hrep as [Hrv Hrvs].
    apply andb_true_iff in Hpl as [Hpv Hpvs].
    unfold size in Hsz. cbn [length] in Hsz.
    cbn [comma_join] in *. rewrite append_assoc. rewrite append_assoc in Hjoin.
    rewrite no_lf_app in Hjoin. apply andb_true_iff in Hjoin as [_ Htail].
    eapply turns_trans.
    { apply (Hv Hrv Hpv j _ _ 2%N 3%N _ _ _ _
               (slot_element _ c [] tl (get_at_set_at _ _ _ _ Hx)
                  ltac:(unfold size; cbn [length]; lia))
               ltac:(auto) Htail).
      apply delim_comma_tail. auto. }
    cbn beta. rewrite (set_at_set_at _ _ _ _ _ Hx). cbn [app].
    eapply turns_trans.
    { eapply (fill_array j r0 c tl x vs Hx Hvs Hrvs Hpvs [as_parsed v] rest);
        [unfold size; cbn [length]; lia | exact Hrest]. }
    apply turns_one. cbn [as_parsed map app]. apply Hclose.
Qed.



(** One member of an object: the key, the colon and the value. *)
Lemma parses_member j r0 c tl x e (k : string) (v : JsonT) (m0 : Map) (rest : string) :
  get_at r0 c = Some x -> (e = 0 \/ e = 1)%N ->
  no_lf k = true -> readable v = true -> parses v ->
  no_lf rest = true -> delim rest = true ->
  turns (mkst j (set_at r0 c (JMap m0)) (flags_key e) (c :: tl)
           (member_text (k, v) ++ rest))
        (mkst j (set_at r0 c (JMap (map_insert k (as_parsed v) m0)))
           (flags_end 2) (c :: tl) rest).
Proof.
  intros Hx He Hk Hpv Hv Hrest Hd.
  assert (Hval : no_lf (stringify v ++ rest) = true).
  { rewrite no_lf_app, no_lf_stringify, Hrest by exact Hpv. reflexivity. }
  unfold member_text. cbn [fst snd]. rewrite !append_assoc.
  eapply turns_cons.
  { rewrite (turn_tok _ _ _ _ _ _ on_string).
    - rewrite (on_string_key k j _ e c tl m0) by
        (auto; eapply get_at_set_at, Hx).
      rewrite (set_at_set_at _ _ _ _ _ Hx). reflexivity.
    - destruct He as [->| ->]; reflexivity.
    - discriminate.
    - discriminate.
    - reflexivity.
    - rewrite no_lf_app, fEscape_no_lf by exact Hk. exact Hval.
    - reflexivity.
    - apply match_token_key, He.
    - reflexivity. }
  eapply turns_cons.
  { apply turn_colon; [discriminate | exact Hval]. }
  set (m1 := map_insert k JNull m0).
  assert (Hq : get_at (set_at r0 c (JMap m1)) c = Some (JMap m1))
    by (eapply get_at_set_at, Hx).
  pose proof (Hv j _ _ 1%N 0%N _ _ _ rest
                (slot_member _ c k m1 tl Hq (map_find_insert_eq k JNull m0))
                ltac:(auto) Hrest Hd) as Ht.
  cbn beta in Ht. rewrite (set_at_set_at _ _ _ _ _ Hx) in Ht.
  unfold m1 in Ht. rewrite map_insert_insert in Ht. exact Ht.
Qed.

(** The members of an object after the first. *)
Lemma fill_map j r0 c tl x (ms : list (string * JsonT)) :
  get_at r0 c = Some x ->
  Forall (fun i => parses_if_readable (snd i)) ms ->
  forallb (fun i => representable (snd i)) ms = true ->
  forallb (fun i => no_lf (fst i) && readable (snd i)) ms = true ->
  forall m0 rest,
    no_lf rest = true ->
    turns (mkst j (set_at r0 c (JMap m0)) (flags_end 2) (c :: tl)
             (comma_tail member_text ms ++ "}" ++ rest))
          (mkst j (set_at r0 c (JMap (fold_left insert_member ms m0)))
             (flags_end 2) (c :: tl) ("}" ++ rest)).
Proof.
  intros Hx HP. induction HP as [|[k v] ms Hv _ IH]; intros Hrep Hpl m0 rest Hrest.
  - apply turns_nil.
  - cbn [forallb fst snd] in Hrep, Hpl, Hv.
    apply andb_true_iff in Hrep as [Hrv Hrvs].
    apply andb_true_iff in Hpl as [Hpv Hpvs].
    apply andb_true_iff in Hpv as [Hk Hpv].
    assert (Htail : no_lf (comma_tail member_text ms ++ "}" ++ rest) = true).
    { rewrite !no_lf_app, Hrest, no_lf_comma_tail; [reflexivity|].
      clear -Hpvs. induction ms as [|[k' y] ms IHm]; [constructor|].
      cbn [forallb fst snd] in Hpvs. apply andb_true_iff in Hpvs as [H1 H2].
      apply andb_true_iff in H1 as [H0 H1].
      constructor; [|auto]. unfold member_text. cbn [fst snd].
      rewrite !no_lf_app, fEscape_no_lf, no_lf_stringify by auto. reflexivity. }
    assert (Hmem : no_lf (member_text (k, v)) = true).
    { unfold member_text. cbn [fst snd].
      rewrite !no_lf_app, fEscape_no_lf, no_lf_stringify by auto. reflexivity. }
    cbn [comma_tail fold_left]. rewrite !append_assoc.
    eapply turns_cons.
    { apply turn_comma_object; [discriminate|].
      rewrite no_lf_app, Hmem, Htail. reflexivity. }
    eapply turns_trans.
    { apply (parses_member j r0 c tl x 0%N k v m0); auto.
      apply delim_comma_tail. auto. }
    apply IH; auto.
Qed.

Lemma parses_map (m : Map) :
  Forall (fun i => parses_if_readable (snd i)) m -> parses_if_readable (JMap m).
Proof.
  intros HP Hrep Hpl j r ps md e F ps' f' rest Hslot He Hrest Hd.
  cbn [representable readable] in Hrep, Hpl.
  assert (Hjoin : no_lf (comma_join member_text m ++ "}" ++ rest) = true).
  { rewrite !no_lf_app, Hrest, no_lf_comma_join; [reflexivity|].
    clear -Hpl. induction m as [|[k' y] m IHm]; [constructor|].
    cbn [forallb fst snd] in Hpl. apply andb_true_iff in Hpl as [H1 H2].
    apply andb_true_iff in H1 as [H0 H1].
    constructor; [|auto]. unfold member_text. cbn [fst snd].
    rewrite !no_lf_app, fEscape_no_lf, no_lf_stringify by auto. reflexivity. }
  rewrite stringify_map. unfold object_text. rewrite !append_assoc.
  destruct (on_begin_slot j e (comma_join member_text m ++ "}" ++ rest)
              md r ps F ps' f' ensureMap (flags_key 1) Hslot)
    as (r0 & c & tl & x & Hb & Hx & Hcl).
  eapply turns_cons.
  { rewrite (turn_tok _ _ _ _ _ _ on_object_begin).
    - unfold on_object_begin. rewrite Hb. reflexivity.
    - reflexivity.
    - eapply slot_stack, Hslot.
    - discriminate.
    - reflexivity.
    - exact Hjoin.
    - reflexivity.
    - apply match_token_value_lit; [exact He | eapply slot_mode, Hslot | auto].
    - reflexivity. }
  cbn [ensureMap].
  assert (Hclose : forall V,
    turn (mkst j (set_at r0 c (JMap V)) (flags_end 2) (c :: tl) ("}" ++ rest))
    = Ret (Continue (mkst j (F (JMap V)) f' ps' rest))).
  { intros V. rewrite (turn_tok _ _ _ _ _ _ on_object_end); auto;
      try reflexivity; try discriminate.
    rewrite (on_object_end_closes _ _ _ _ _ _ _ _ _ _ _ Hcl Hx). reflexivity. }
  destruct HP as [|[k v] ms Hv Hvs].
  - cbn [comma_join as_parsed fold_left].
    change (EmptyString ++ "}" ++ rest) with ("}" ++ rest). apply turns_one.
    rewrite (turn_tok _ _ _ _ _ _ on_object_end); auto;
      try reflexivity; try discriminate.
    rewrite (on_object_end_closes _ _ _ _ _ _ _ _ _ _ _ Hcl Hx). reflexivity.
  - cbn [forallb fst snd] in Hrep, Hpl, Hv.
    apply andb_true_iff in Hrep as [Hrv Hrvs].
    apply andb_true_iff in Hpl as [Hpv Hpvs].
    apply andb_true_iff in Hpv as [Hk Hpv].
    cbn [comma_join] in *. rewrite append_assoc. rewrite append_assoc in Hjoin.
    rewrite no_lf_app in Hjoin. apply andb_true_iff in Hjoin as [_ Htail].
    eapply turns_trans.
    { apply (parses_member j r0 c tl x 1%N k v []); auto.
      apply delim_comma_tail. auto. }
    eapply turns_trans.
    { apply (fill_map j r0 c tl x ms Hx Hvs Hrvs Hpvs); exact Hrest. }
    apply turns_one. cbn [as_parsed fold_left fst snd]. apply Hclose.
Qed.

(** The loop reads the text of every readable value back. *)
Lemma parses_readable (v : JsonT) : parses_if_readable v.
Proof.
  induction v as [|b|d|n|s|a IH|m IH] using JsonT_ind.
  - intros _ _ j r ps m e F ps' f' rest Hslot He Hrest _.
    apply (parses_literal "null" JNull); auto.
  - intros _ _ j r ps m e F ps' f' rest Hslot He Hrest _.
    destruct b.
    + apply (parses_literal "true" (JBool true)); auto.
    + apply (parses_literal "false" (JBool false)); auto.
  - intros _ Hd. apply (reads_number (to_string_double d) (JFloat d));
      apply determined_number_value, Hd.
  - intros Hn _. apply parses_int, Hn.
  - intros _ Hs. apply parses_string, Hs.
  - apply parses_array, IH.
  - apply parses_map, IH.
Qed.

Lemma plain_readable (v : JsonT) : plain v = true -> readable v = true.
Proof.
  induction v as [|b|d|n|s|a IH|m IH] using JsonT_ind; intros Hp;
    try reflexivity; try exact Hp; try discriminate.
  - cbn [plain readable] in *.
    induction IH as [|x a Hx _ IHa]; [reflexivity|].
    cbn [forallb] in *. apply andb_true_iff in Hp as [H1 H2].
    rewrite Hx, IHa by auto. reflexivity.
  - cbn [plain readable] in *.
    induction IH as [|x m Hx _ IHm]; [reflexivity|].
    cbn [forallb] in *. apply andb_true_iff in Hp as [H1 H2].
    apply andb_true_iff in H1 as [Hk Hv].
    rewrite Hk, Hx, IHm by auto. reflexivity.
Qed.

(** The loop reads the text of every plain value back. *)
Lemma parses_plain (v : JsonT) :
  representable v = true -> plain v = true -> parses v.
Proof. intros Hrep Hpl. apply parses_readable; auto using plain_readable. Qed.

(* ===================================================================== *)
(** ** The loop ends *)

Ltac crunch_matches :=
  repeat match goal with
         | |- context [match ?x with _ => _ end] => destruct x eqn:?
         | |- context [if ?x then _ else _] => destruct x eqn:?
         end.

Lemma setValue_it (v : JsonT) (st st' : State) :
  setValue v st = Ret st' -> it st' = it st.
Proof.
  unfold setValue, bind, top, assert. crunch_matches;
    try discriminate; intros [= <-]; reflexivity.
Qed.

Lemma setEnd_it (st st' : State) : setEnd st = Ret st' -> it st' = it st.
Proof.
  unfold setEnd, bind, top. cbn [parents with_parents result].
  crunch_matches; try discriminate; intros [= <-]; reflexivity.
Qed.

Lemma on_begin_it ensure f (st st' : State) :
  on_begin ensure f st = Ret st' -> it st' = it st.
Proof.
  unfold on_begin, bind, top. crunch_matches;
    try discriminate; intros [= <-]; reflexivity.
Qed.

Lemma block_comment_end_length (s s' : string) :
  block_comment_end s = Some s' -> (String.length s' <= String.length s)%nat.
Proof.
  revert s'. induction s as [|c s IH]; intros s'; [discriminate|].
  cbn [block_comment_end]. destruct s as [|c' s]; [discriminate|].
  destruct (Ascii.eqb c "*" && Ascii.eqb c' "/").
  - intros [= <-]. cbn. lia.
  - intros H. apply IH in H. cbn in *. lia.
Qed.

Lemma find_line_end_le (s : string) :
  (String.length (find_line_end s) <= String.length s)%nat.
Proof.
  destruct s as [|c s]; [reflexivity|].
  pose proof (find_line_end_length (String c s) ltac:(discriminate)). lia.
Qed.

Lemma decode_string_it (fuel : nat) (st st' : State) (text text' : string) :
  decode_string fuel st text = Ret (st', text') ->
  (String.length (it st') <= String.length (it st))%nat
  /\ flags st' = flags st /\ parents st' = parents st /\ result st' = result st.
Proof.
  revert st text. induction fuel as [|fuel IH]; intros st text; [discriminate|].
  cbn [decode_string].
  destruct (find_string_token (range st)) as [m|]; [|discriminate].
  assert (Hadv : (String.length (it (advance (m_length m) st))
                  <= String.length (it st))%nat)
    by (apply string_drop_length_le).
  destruct (String.eqb (m2 m) sDQ).
  - intros [= <- _]. auto.
  - destruct (find_key (m2 m) mapReplace).
    + intros H. apply IH in H as (H1 & H2 & H3 & H4).
      cbn in *. repeat split; auto. lia.
    + unfold bind.
      destruct (rethrow _ _); try discriminate.
      intros H. apply IH in H as (H1 & H2 & H3 & H4).
      cbn in *. repeat split; auto. lia.
Qed.

Lemma on_string_it (st st' : State) :
  on_string st = Ret st' -> (String.length (it st') <= String.length (it st))%nat.
Proof.
  unfold on_string. unfold bind at 1.
  destruct (decode_string _ st EmptyString) as [[st1 sText]| | |] eqn:Hd;
    try discriminate.
  apply decode_string_it in Hd as (H1 & _).
  destruct (objectKey (flags st1) =? 1)%N.
  - unfold bind, top, assert, subscript_key. crunch_matches;
      try discriminate; intros [= <-]; exact H1.
  - intros H. apply setValue_it in H. rewrite H. exact H1.
Qed.

(** No handler of [mapToken] moves [it] backwards. *)
Lemma handler_it (tok : string) (h : State -> outcome State) (st st' : State) :
  find_key tok mapToken = Some h -> h st = Ret st' ->
  (String.length (it st') <= String.length (it st))%nat.
Proof.
  unfold mapToken. cbn [find_key].
  repeat (destruct (String.eqb tok _);
          [intros [= <-]; intros H;
           first [ apply setValue_it in H; rewrite H; reflexivity
                 | apply on_begin_it in H; rewrite H; reflexivity
                 | apply on_string_it in H; exact H
                 | idtac ]
          |]); try discriminate.
  - unfold on_line_comment, line_comment_end in H. injection H as <-.
    apply find_line_end_le.
  - unfold on_block_comment in H.
    destruct (block_comment_end (it st)) eqn:E; [|discriminate].
    injection H as <-. apply block_comment_end_length, E.
  - injection H as <-. reflexivity.
  - unfold on_object_end, bind in H.
    destruct (top st) as [[? ?]| | |]; try discriminate.
    destruct (negb _); [discriminate|].
    apply setEnd_it in H. rewrite H. reflexivity.
  - unfold on_array_end, bind in H.
    destruct (top st) as [[? ?]| | |]; try discriminate.
    destruct (negb _); [discriminate|].
    apply setEnd_it in H. rewrite H. reflexivity.
  - unfold on_comma in H. revert H. crunch_matches;
      try discriminate; intros [= <-]; reflexivity.
Qed.

Lemma scan_number_pos (s : string) (n : nat) :
  scan_number s = Some n -> (1 <= n)%nat.
Proof.
  unfold scan_number.
  destruct (match s with
            | String "-"%char s' => (1%nat, s')
            | _ => (0%nat, s)
            end) as [neg s1].
  destruct (Nat.eqb_spec (span_digits s1) 0); [discriminate|].
  intros [= <-]. lia.
Qed.

Lemma first_match_pos (f : Flags) (alts : list alt) (s : string) (n : nat) :
  token_alts f = Ret alts -> first_match alts s = Some n -> (1 <= n)%nat.
Proof.
  intros Ha.
  assert (Hall : Forall (fun a => forall k, match_alt a s = Some k -> (1 <= k)%nat) alts).
  { unfold token_alts, bind in Ha.
    assert (Hlit : forall l, l <> EmptyString ->
              forall k, match_alt (ALit l) s = Some k -> (1 <= k)%nat).
    { intros l Hl k. cbn. destruct (starts_with l s); [|discriminate].
      intros [= <-]. destruct l; [congruence | cbn; lia]. }
    assert (Hns : forall k, match_alt ANonSpace s = Some k -> (1 <= k)%nat).
    { intros k. cbn. destruct s; [discriminate|].
      destruct (isspace a); [discriminate|]. intros [= <-]. lia. }
    assert (Hnum : forall k, match_alt ANumber s = Some k -> (1 <= k)%nat)
      by (intros k; apply scan_number_pos).
    destruct (match end_ f with
              | 0%N => Ret []
              | 1%N => Ret [ALit "}"]
              | 2%N => Ret [ALit "}"; ALit ","]
              | 3%N => Ret [ALit "]"]
              | 4%N => Ret [ALit "]"; ALit ","]
              | _ => AssertFail
              end) as [ea| | |] eqn:He; try discriminate.
    destruct (match objectKey f with
              | 0%N => Ret []
              | 1%N => Ret [ALit sDQ]
              | 2%N => Ret [ALit ":"]
              | _ => AssertFail
              end) as [ka| | |] eqn:Hk; try discriminate.
    assert (Hea : Forall (fun a => forall k, match_alt a s = Some k -> (1 <= k)%nat) ea).
    { repeat match type of He with
             | match ?x with _ => _ end = _ => destruct x; try discriminate He
             end;
        injection He as <-;
        repeat (constructor; [apply Hlit; discriminate|]); constructor. }
    assert (Hka : Forall (fun a => forall k, match_alt a s = Some k -> (1 <= k)%nat) ka).
    { repeat match type of Hk with
             | match ?x with _ => _ end = _ => destruct x; try discriminate Hk
             end;
        injection Hk as <-;
        repeat (constructor; [apply Hlit; discriminate|]); constructor. }
    injection Ha as <-.
    cbn [app].
    constructor; [apply Hlit; discriminate|].
    constructor; [apply Hlit; discriminate|].
    apply Forall_app_2; [destruct (bFinish f); repeat constructor; auto|].
    apply Forall_app_2.
    { destruct (bBegin f);
        repeat (constructor; [apply Hlit; discriminate|]); constructor. }
    apply Forall_app_2; [exact Hea|].
    apply Forall_app_2; [exact Hka|].
    destruct (value f =? 0)%N; [constructor|].
    repeat (constructor; [first [exact Hnum | apply Hlit; discriminate]|]);
      constructor. }
  clear Ha. induction Hall as [|a alts Ha _ IH]; [discriminate|].
  cbn [first_match]. destruct (match_alt a s) eqn:E.
  - intros [= <-]. apply Ha. reflexivity.
  - exact IH.
Qed.

(** A turn that continues leaves less text. *)
Lemma turn_progress (st st' : State) :
  turn st = Ret (Continue st') ->
  (String.length (it st') < String.length (it st))%nat.
Proof.
  unfold turn.
  destruct (flags_all_is_zero (flags st)); [discriminate|].
  destruct (bool_decide (parents st = [])); [discriminate|].
  destruct (is_empty (it st)) eqn:Hemp.
  { destruct (negb (bFinish (flags st))); discriminate. }
  assert (Hne : it st <> EmptyString) by (intros H; rewrite H in Hemp; discriminate).
  set (st0 := with_itLineEnd (find_line_end (it st)) st).
  destruct (negb (has_nonspace (range st0))).
  { intros [= <-]. cbn. apply find_line_end_length, Hne. }
  unfold bind at 1.
  destruct (match_token (flags st0) (range st0)) as [tok| | |] eqn:Hm;
    try discriminate.
  destruct tok as [[t n]|].
  - assert (Hn : (1 <= n)%nat).
    { unfold match_token, bind in Hm.
      destruct (token_alts (flags st0)) as [alts| | |] eqn:Ha; try discriminate.
      destruct (first_match alts _) as [k|] eqn:Hk; [|discriminate].
      injection Hm as _ <-. apply (first_match_pos _ _ _ _ Ha) in Hk. lia. }
    assert (Hadv : (String.length (it (advance n st0)) < String.length (it st))%nat).
    { cbn. apply string_drop_length_lt; [lia | exact Hne]. }
    destruct (find_key t mapToken) as [h|] eqn:Hk.
    + unfold bind. destruct (h (advance n st0)) as [st1| | |] eqn:Hh;
        try discriminate.
      intros [= <-]. pose proof (handler_it _ _ _ _ Hk Hh). lia.
    + unfold bind. destruct (rethrow _ _) as [v| | |]; try discriminate.
      destruct (setValue v _) as [st1| | |] eqn:Hs; try discriminate.
      intros [= <-]. apply setValue_it in Hs. rewrite Hs. exact Hadv.
  - cbn [find_key mapToken String.eqb]. discriminate.
Qed.

Lemma run_enough_fuel (fuel : nat) (st : State) :
  (String.length (it st) < fuel)%nat -> exists o, run fuel st = Some o.
Proof.
  revert st. induction fuel as [|fuel IH]; intros st Hlt; [lia|].
  cbn [run]. destruct (turn st) as [[st'|st']| | |] eqn:Ht; eauto.
  apply IH. apply turn_progress in Ht. lia.
Qed.

(** [parse] is total: its loop always ends within its fuel. *)
Lemma parse_run (s : string) (opt : ParseOptions) :
  run (S (String.length s)) (init_state s) = Some (parse s opt).
Proof.
  unfold parse.
  destruct (run_enough_fuel (S (String.length s)) (init_state s)) as [o Ho];
    [cbn; lia|].
  rewrite Ho. reflexivity.
Qed.

Lemma parse_of_run (s : string) (opt : ParseOptions) (fuel : nat) (o : outcome JsonT) :
  run fuel (init_state s) = Some o -> parse s opt = o.
Proof.
  intros Hr. pose proof (parse_run s opt) as Hp.
  destruct (Nat.le_ge_cases fuel (S (String.length s))) as [Hle|Hge].
  - pose proof (run_mono _ _ _ _ Hr Hle). congruence.
  - pose proof (run_mono _ _ _ _ Hp Hge). congruence.
Qed.

Lemma parse_of_turns (s : string) (opt : ParseOptions) (v : JsonT) (ps : list path) :
  ps <> [] ->
  turns (init_state s) (mkst s v flags_finish ps EmptyString) ->
  parse s opt = Ret v.
Proof.
  intros Hps Ht.
  destruct (turns_run _ _ Ht 1%nat (Ret v)) as [fuel Hf].
  { cbn [run]. unfold mkst. rewrite turn_finish by exact Hps. reflexivity. }
  eapply parse_of_run, Hf.
Qed.

(* ===================================================================== *)
(** ** [parse] after [stringify] *)

(** The general form: the text of a readable value, whose lists of
    members may have the keys in any order and more than once, is read
    back as [as_parsed] of the value. *)
Lemma parse_stringify_as_parsed (v : JsonT) (opt : ParseOptions) :
  representable v = true -> readable v = true ->
  parse (stringify v) opt = Ret (as_parsed v).
Proof.
  intros Hrep Hpl.
  apply (parse_of_turns _ _ _ [[]]); [discriminate|].
  pose proof (parses_readable v Hrep Hpl (stringify v) JNull [[]] 3%N 0%N _ _ _
                EmptyString (slot_root JNull [] eq_refl) ltac:(auto)
                eq_refl eq_refl) as Ht.
  rewrite append_nil_r in Ht. exact Ht.
Qed.

Lemma ltb_compare (a b : string) : String.ltb a b = true <-> String.compare a b = Lt.
Proof. unfold String.ltb. destruct (String.compare a b); split; congruence. Qed.

Lemma map_insert_last (k : string) (v : JsonT) (acc : Map) :
  Forall (fun i => String.ltb (fst i) k = true) acc ->
  map_insert k v acc = (acc ++ [(k, v)])%list.
Proof.
  induction 1 as [|[k' x] acc Hk _ IH]; [reflexivity|].
  cbn [map_insert app fst] in *. apply ltb_compare in Hk.
  rewrite String.compare_antisym, Hk. cbn. rewrite IH. reflexivity.
Qed.

Lemma fold_insert_ascending (f : JsonT -> JsonT) (m : Map) :
  keys_ascending m = true ->
  Forall (fun i => f (snd i) = snd i) m ->
  forall acc,
    Forall (fun x => Forall (fun i => String.ltb (fst x) (fst i) = true) m) acc ->
    fold_left (fun acc i => map_insert (fst i) (f (snd i)) acc) m acc
    = (acc ++ m)%list.
Proof.
  intros Hk Hf. induction Hf as [|[k v] m Hv _ IH]; intros acc Hacc.
  - cbn. rewrite app_nil_r. reflexivity.
  - cbn [keys_ascending fst snd] in *. apply andb_true_iff in Hk as [Hk1 Hk2].
    cbn [fold_left fst snd]. rewrite Hv.
    rewrite map_insert_last.
    + rewrite IH; [rewrite <- app_assoc; reflexivity | exact Hk2 |].
      apply Forall_app_2.
      * eapply Forall_impl; [exact Hacc|]. cbn beta.
        intros x Hx. inversion Hx; assumption.
      * constructor; [|constructor]. cbn [fst].
        clear -Hk1. induction m as [|i m IHm]; [constructor|].
        cbn [forallb] in Hk1. apply andb_true_iff in Hk1 as [H1 H2].
        constructor; auto.
    + eapply Forall_impl; [exact Hacc|]. cbn beta.
      intros x Hx. inversion Hx; assumption.
Qed.

(** A value that satisfies the invariants of its types is its own
    [as_parsed]. *)
Lemma as_parsed_well_formed (v : JsonT) :
  well_formed v = true -> as_parsed v = v.
Proof.
  induction v as [|b|d|n|s|a IH|m IH] using JsonT_ind; intros Hwf;
    try reflexivity.
  - cbn [as_parsed well_formed] in *. apply andb_true_iff in Hwf as [_ Hwf].
    f_equal. induction IH as [|x a Hx _ IHa]; [reflexivity|].
    cbn [forallb map] in *. apply andb_true_iff in Hwf as [H1 H2].
    rewrite Hx, IHa by auto. reflexivity.
  - cbn [as_parsed well_formed] in *. apply andb_true_iff in Hwf as [Hk Hwf].
    f_equal. rewrite (fold_insert_ascending as_parsed m Hk); [reflexivity| |constructor].
    induction IH as [|x m Hx _ IHm]; [constructor|].
    cbn [forallb keys_ascending] in *. apply andb_true_iff in Hwf as [H1 H2].
    apply andb_true_iff in Hk as [_ Hk].
    constructor; auto.
Qed.

Lemma well_formed_representable (v : JsonT) :
  well_formed v = true -> representable v = true.
Proof.
  induction v as [|b|d|n|s|a IH|m IH] using JsonT_ind; intros Hwf;
    try reflexivity; try exact Hwf.
  - cbn [representable well_formed] in *. apply andb_true_iff in Hwf as [Hs Hwf].
    rewrite Hs. cbn [andb]. clear Hs.
    induction IH as [|x a Hx _ IHa]; [reflexivity|].
    cbn [forallb] in *. apply andb_true_iff in Hwf as [H1 H2].
    rewrite Hx, IHa by auto. reflexivity.
  - cbn [representable well_formed] in *. apply andb_true_iff in Hwf as [_ Hwf].
    induction IH as [|x m Hx _ IHm]; [reflexivity|].
    cbn [forallb] in *. apply andb_true_iff in Hwf as [H1 H2].
    rewrite Hx, IHm by auto. reflexivity.
Qed.

(** C1, as stated, fails: the text of a string that holds a line feed is
    not read back; [parse] throws in the middle of it. *)
Lemma line_feed_is_not_read_back :
  parse (stringify (JString (str1 chLF))) default_ParseOptions
  = Throw (ParseException (String chLF sDQ) 1).
Proof. vm_compute. reflexivity. Qed.

(** A [Float] is written with six digits after the point, so one that
    these digits do not determine is not read back: a small one comes
    back as zero. *)
Lemma small_float_is_not_read_back :
  stringify (JFloat (S754_finite false 1 (-30))) = "0.000000"
  /\ six_decimals_determine (S754_finite false 1 (-30)) = false
  /\ parse (stringify (JFloat (S754_finite false 1 (-30)))) default_ParseOptions
     = Ret (JFloat (S754_zero false)).
Proof. repeat split; vm_compute; reflexivity. Qed.

(** The [Float]s of the scenario, 1.5, 0.1 and -12345.6, are determined by
    their six decimals. *)
Lemma scenario_floats_are_determined :
  six_decimals_determine (S754_finite false 6755399441055744 (-52)) = true
  /\ six_decimals_determine (S754_finite false 7205759403792794 (-56)) = true
  /\ six_decimals_determine (S754_finite true 6787065375935693 (-39)) = true
  /\ to_string_double (S754_finite false 6755399441055744 (-52)) = "1.500000"
  /\ to_string_double (S754_finite false 7205759403792794 (-56)) = "0.100000"
  /\ to_string_double (S754_finite true 6787065375935693 (-39)) = "-12345.600000".
Proof. repeat split; vm_compute; reflexivity. Qed.

(** C1, amended: for every value in which no string and no key holds a
    line feed and every [Float] is determined by the six decimals that
    [std::to_string] writes (it is finite and [stod] makes it again from
    its text), and within the invariants of the C++ types (an [Int] fits
    [intmax_t], a vector size fits [size_t], the keys of a map ascend),
    [parse(stringify(v))] succeeds and gives [v] back. *)
Theorem parse_stringify_roundtrip (v : JsonT) (opt : ParseOptions) :
  well_formed v = true -> readable v = true ->
  parse (stringify v) opt = Ret v.
Proof.
  intros Hwf Hpl.
  rewrite parse_stringify_as_parsed by (auto using well_formed_representable).
  rewrite as_parsed_well_formed by exact Hwf. reflexivity.
Qed.

Lemma parse_stringify_roundtrip_witness :
  parse (stringify
           (JMap [("a", JArray [JInt (-7); JString "x/y"; JNull;
                                JFloat (S754_finite false 6755399441055744 (-52))]);
                  ("b", JMap [("", JBool true);
                              ("f", JFloat (S754_finite true 6787065375935693 (-39)))]);
                  ("c", JFloat (S754_finite false 7205759403792794 (-56)))]))
        default_ParseOptions
  = Ret (JMap [("a", JArray [JInt (-7); JString "x/y"; JNull;
                             JFloat (S754_finite false 6755399441055744 (-52))]);
               ("b", JMap [("", JBool true);
                           ("f", JFloat (S754_finite true 6787065375935693 (-39)))]);
               ("c", JFloat (S754_finite false 7205759403792794 (-56)))]).
Proof.
  apply (parse_stringify_roundtrip
           (JMap [("a", JArray [JInt (-7); JString "x/y"; JNull;
                                JFloat (S754_finite false 6755399441055744 (-52))]);
                  ("b", JMap [("", JBool true);
                              ("f", JFloat (S754_finite true 6787065375935693 (-39)))]);
                  ("c", JFloat (S754_finite false 7205759403792794 (-56)))]));
    vm_compute; reflexivity.
Defined.

(* ===================================================================== *)
(** ** A key that occurs more than once *)

Lemma find_key_app {A : Type} (k : string) (l1 l2 : list (string * A)) :
  find_key k (l1 ++ l2)
  = match find_key k l1 with
    | Some v => Some v
    | None => find_key k l2
    end.
Proof.
  induction l1 as [|[k' x] l1 IH]; [reflexivity|].
  cbn [app find_key]. destruct (String.eqb k k'); [reflexivity | exact IH].
Qed.

Lemma map_find_insert (k k' : string) (v : JsonT) (m : Map) :
  map_find k (map_insert k' v m)
  = if String.eqb k k' then Some v else map_find k m.
Proof.
  destruct (String.eqb_spec k k') as [->|Hne].
  - apply map_find_insert_eq.
  - apply map_find_insert_ne, Hne.
Qed.

Lemma map_find_members (key : string) (ms : list (string * JsonT)) (acc : Map) :
  map_find key (fold_left (fun m i => map_insert (fst i) (snd i) m) ms acc)
  = match last_member key ms with
    | Some v => Some v
    | None => map_find key acc
    end.
Proof.
  unfold last_member. revert acc.
  induction ms as [|[k v] ms IH]; intros acc; [reflexivity|].
  cbn [fold_left rev fst snd]. rewrite IH, find_key_app, map_find_insert.
  destruct (find_key key (rev ms)); [reflexivity|].
  cbn [find_key]. destruct (String.eqb key k); reflexivity.
Qed.

Lemma fold_left_pointwise_in {A B : Type} (f g : A -> B -> A) (l : list B) (a : A) :
  Forall (fun b => forall a, f a b = g a b) l -> fold_left f l a = fold_left g l a.
Proof.
  intros H. revert a. induction H as [|b l Hb _ IH]; intros a; [reflexivity|].
  cbn. rewrite Hb. apply IH.
Qed.

(** C9: when an object is written with a key more than once, the map that
    [parse] returns holds for that key the value of its last occurrence.
    The object has the members [ms] in this order, with any keys, and is
    written without white space. *)
Theorem duplicate_key_last_wins
    (ms : list (string * JsonT)) (key : string) (v : JsonT) (opt : ParseOptions) :
  forallb (fun i => no_lf (fst i) && plain (snd i) && well_formed (snd i)) ms = true ->
  last_member key ms = Some v ->
  parse (object_text ms) opt = Ret (JMap (map_of_members ms))
  /\ map_find key (map_of_members ms) = Some v.
Proof.
  intros Hms Hlast.
  assert (Hall : Forall (fun i => no_lf (fst i) = true /\ plain (snd i) = true
                                  /\ well_formed (snd i) = true) ms).
  { clear Hlast. induction ms as [|i ms IH]; [constructor|].
    cbn [forallb] in Hms. apply andb_true_iff in Hms as [H1 H2].
    apply andb_true_iff in H1 as [H1 H3]. apply andb_true_iff in H1 as [H0 H1].
    constructor; auto. }
  clear Hms.
  assert (Hrep : representable (JMap ms) = true).
  { clear Hlast. cbn [representable].
    induction Hall as [|i ms (_ & _ & Hwf) _ IH]; [reflexivity|].
    cbn [forallb]. rewrite well_formed_representable, IH by exact Hwf.
    reflexivity. }
  assert (Hpl : plain (JMap ms) = true).
  { clear Hlast Hrep. cbn [plain].
    induction Hall as [|i ms (H0 & H1 & _) _ IH]; [reflexivity|].
    cbn [forallb]. rewrite H0, H1, IH. reflexivity. }
  split.
  - rewrite <- stringify_map.
    rewrite parse_stringify_as_parsed by auto using plain_readable.
    cbn [as_parsed]. unfold map_of_members. do 2 f_equal.
    apply fold_left_pointwise_in.
    eapply Forall_impl; [exact Hall|]. cbn beta.
    intros i (_ & _ & Hwf) acc. rewrite as_parsed_well_formed by exact Hwf.
    reflexivity.
  - unfold map_of_members. rewrite map_find_members, Hlast. reflexivity.
Qed.

Lemma duplicate_key_last_wins_witness :
  parse (object_text [("k", JInt 1); ("j", JNull); ("k", JArray [JBool true])])
        default_ParseOptions
  = Ret (JMap (map_of_members
                 [("k", JInt 1); ("j", JNull); ("k", JArray [JBool true])]))
  /\ map_find "k" (map_of_members
                     [("k", JInt 1); ("j", JNull); ("k", JArray [JBool true])])
     = Some (JArray [JBool true]).
Proof.
  apply (duplicate_key_last_wins
           [("k", JInt 1); ("j", JNull); ("k", JArray [JBool true])]
           "k" (JArray [JBool true]));
    vm_compute; reflexivity.
Defined.

(* ===================================================================== *)
(** ** JSON Pointer *)

(** The empty pointer designates the receiver. *)
Lemma at_pointer_root (this : JsonT) : at_pointer this {| text := EmptyString |} = Ret [].
Proof. reflexivity. Qed.

(** The examples of the pointer syntax on [pointer_tree]. *)
Lemma at_pointer_examples :
  (let* p := at_pointer pointer_tree {| text := "/a/0" |} in
   Ret (get_at pointer_tree p)) = Ret (Some (JInt 10))
  /\ at_pointer pointer_tree {| text := "/a/5" |}
     = Throw (out_of_range "invalid index")
  /\ at_pointer pointer_tree {| text := "/a~1b" |} = Ret [Key "a/b"]
  /\ at_pointer pointer_tree {| text := "/x" |}
     = Throw (out_of_range "invalid key")
  /\ at_pointer pointer_tree {| text := "/a/0/1" |}
     = Throw (out_of_range "not array")
  /\ at_pointer pointer_tree {| text := "a" |}
     = Throw (out_of_range "invalid key").
Proof. repeat split; vm_compute; reflexivity. Qed.

(** C7 (the code departs from it): the index of a token of digits goes
    through [get<int>()], so [4294967296] addresses element 0 of the
    two-element array instead of being out of bounds; and a pointer that
    does not start with a slash but holds a quote ends in a
    [ParseException], not in [std::out_of_range]. *)
Theorem pointer_index_is_truncated :
  at_pointer pointer_tree {| text := "/a/4294967296" |} = Ret [Key "a"; Idx 0]
  /\ get_at pointer_tree [Key "a"; Idx 0] = Some (JInt 10)
  /\ size [JInt 10; JInt 20] <= 4294967296
  /\ at_pointer pointer_tree {| text := sDQ |}
     = Throw (ParseException ("stod" ++ sDQ ++ "]") 3).
Proof. repeat split; vm_compute; first [reflexivity | discriminate]. Qed.

(** The text that [at] hands to [parse] for [quote_pointer]: the quote of
    the token ends the string early. *)
Lemma quote_pointer_json :
  pointer_json (split_slash EmptyString (text quote_pointer ++ "/"))
  = "[" ++ sDQ ++ sDQ ++ "," ++ sDQ ++ "a" ++ sDQ ++ "b" ++ sDQ ++ "]".
Proof. vm_compute. reflexivity. Qed.

(** C10: for [quote_pointer], a pointer with a double quote in a token,
    whatever the receiver, both [at] and the
    non-throwing [operator[]] end in the [ParseException] of the inner
    [parse]; [operator[]] only catches [std::out_of_range]. *)
Theorem quote_in_pointer_throws_ParseException (this : JsonT) :
  at_pointer this quote_pointer
  = Throw (ParseException ("stodb" ++ sDQ ++ "]") 7)
  /\ subscript_pointer this quote_pointer
     = Throw (ParseException ("stodb" ++ sDQ ++ "]") 7).
Proof.
  assert (H : pointer_tokens quote_pointer
              = Throw (ParseException ("stodb" ++ sDQ ++ "]") 7))
    by (vm_compute; reflexivity).
  unfold subscript_pointer, at_pointer. rewrite H. split; reflexivity.
Qed.

(* ===================================================================== *)
(** ** Writing, finding and erasing members and elements *)

Lemma map_insert_bounds (lo k : string) (x : JsonT) (m : Map) :
  String.ltb lo k = true ->
  forallb (fun i => String.ltb lo (fst i)) m = true ->
  forallb (fun i => String.ltb lo (fst i)) (map_insert k x m) = true.
Proof.
  intros Hk. induction m as [|[k' y] m IH]; cbn [map_insert forallb fst].
  - rewrite Hk. reflexivity.
  - intros H. apply andb_prop in H as [H1 H2].
    destruct (String.compare k k'); cbn [forallb fst].
    + rewrite H1, H2. reflexivity.
    + rewrite Hk, H1, H2. reflexivity.
    + rewrite H1, IH by exact H2. reflexivity.
Qed.

Lemma ltb_trans (a b c : string) :
  String.ltb a b = true -> String.ltb b c = true -> String.ltb a c = true.
Proof.
  rewrite !ltb_compare. revert b c.
  induction a as [|x a IH]; intros [|y b] [|z c]; cbn; try discriminate; auto.
  destruct (Ascii.compare x y) eqn:Exy; try discriminate;
    destruct (Ascii.compare y z) eqn:Eyz; try discriminate; intros H1 H2.
  - apply Ascii.compare_eq_iff in Exy, Eyz. subst.
    unfold Ascii.compare. rewrite N.compare_refl. eauto.
  - apply Ascii.compare_eq_iff in Exy. subst. rewrite Eyz. reflexivity.
  - apply Ascii.compare_eq_iff in Eyz. subst. rewrite Exy. reflexivity.
  - unfold Ascii.compare in *. rewrite N.compare_lt_iff in *.
    assert (H : (N_of_ascii x < N_of_ascii z)%N) by lia.
    apply N.compare_lt_iff in H. rewrite H. reflexivity.
Qed.

Lemma compare_Gt_ltb (a b : string) :
  String.compare a b = Gt -> String.ltb b a = true.
Proof.
  intros H. apply ltb_compare. rewrite String.compare_antisym, H. reflexivity.
Qed.

Lemma map_insert_ascending (k : string) (x : JsonT) (m : Map) :
  keys_ascending m = true -> keys_ascending (map_insert k x m) = true.
Proof.
  induction m as [|[k' y] m IH]; [reflexivity|].
  cbn [keys_ascending map_insert fst]. intros H.
  apply andb_prop in H as [H1 H2].
  destruct (String.compare k k') eqn:E; cbn [keys_ascending forallb fst].
  - rewrite H1, H2. reflexivity.
  - apply ltb_compare in E. rewrite E, H1, H2, andb_true_r. cbn.
    eapply forallb_forall. intros i Hi.
    eapply ltb_trans; [exact E|].
    eapply forallb_forall in H1; [exact H1 | exact Hi].
  - rewrite IH by exact H2. rewrite andb_true_r.
    apply map_insert_bounds; [apply compare_Gt_ltb, E | exact H1].
Qed.

Lemma get_Map_ensureMap (v : JsonT) : get_Map (ensureMap v) = get_Map v.
Proof. destruct v; reflexivity. Qed.

Lemma assign_key_insert (v : JsonT) (key : string) (x : JsonT) :
  assign_key v key x = JMap (map_insert key x (get_Map v)).
Proof.
  unfold assign_key, subscript_key. cbn [set_child].
  rewrite map_subscript_insert, get_Map_ensureMap. reflexivity.
Qed.

(** X1: after [v[key] = x] the receiver is a map in which [key] is found
    with the value [x], by [at] and by the const [operator[]]; every other
    key is found as before (not at all when the receiver was not a map),
    and the keys stay in ascending order, once each. *)
Theorem assign_key_then_lookup (v : JsonT) (key : string) (x : JsonT) :
  exists m,
    assign_key v key x = JMap m
    /\ at_key (JMap m) key = Ret (Key key)
    /\ subscript_key_const (JMap m) key = RefChild (Key key)
    /\ child (JMap m) (Key key) = Some x
    /\ (forall k, k <> key ->
          child (JMap m) (Key k) = map_find k (get_Map v)
          /\ subscript_key_const (JMap m) k = subscript_key_const v k)
    /\ (keys_ascending (get_Map v) = true -> keys_ascending m = true).
Proof.
  exists (map_insert key x (get_Map v)).
  split; [apply assign_key_insert|].
  unfold at_key, subscript_key_const. cbn [get_Map child].
  rewrite map_find_insert_eq.
  repeat split; try reflexivity.
  - apply map_find_insert_ne. assumption.
  - rewrite map_find_insert_ne by assumption. reflexivity.
  - apply map_insert_ascending.
Qed.

Lemma ltb_irrefl (a : string) : String.ltb a a = false.
Proof.
  destruct (String.ltb a a) eqn:E; [|reflexivity].
  apply ltb_compare in E. rewrite compare_refl in E. discriminate.
Qed.

Lemma map_find_above (key : string) (m : Map) :
  forallb (fun i => String.ltb key (fst i)) m = true -> map_find key m = None.
Proof.
  induction m as [|[k y] m IH]; [reflexivity|].
  cbn [forallb fst map_find]. intros H. apply andb_prop in H as [H1 H2].
  destruct (String.eqb_spec key k) as [->|_].
  - rewrite ltb_irrefl in H1. discriminate.
  - apply IH, H2.
Qed.

Lemma map_erase_spec (key : string) (m : Map) :
  keys_ascending m = true ->
  map_find key (fst (map_erase key m)) = None
  /\ (forall k, k <> key ->
        map_find k (fst (map_erase key m)) = map_find k m)
  /\ snd (map_erase key m) = (match map_find key m with Some _ => 1 | None => 0 end)
  /\ (map_find key m = None -> fst (map_erase key m) = m)
  /\ length (fst (map_erase key m))
     = (length m - (match map_find key m with Some _ => 1 | None => 0 end))%nat.
Proof.
  induction m as [|[k y] m IH]; [cbn; auto|].
  cbn [keys_ascending fst]. intros H. apply andb_prop in H as [H1 H2].
  specialize (IH H2) as (IH1 & IH2 & IH3 & IH4 & IH5).
  cbn [map_erase map_find].
  destruct (String.eqb_spec key k) as [->|Hne].
  - cbn [fst snd]. repeat split.
    + apply map_find_above, H1.
    + intros k' Hk. destruct (String.eqb_spec k' k); [contradiction | reflexivity].
    + discriminate.
    + cbn. lia.
  - destruct (map_erase key m) as [r n]. cbn [fst snd] in *.
    cbn [map_find]. destruct (String.eqb_spec key k); [contradiction|].
    repeat split; auto.
    + intros k' Hk. destruct (String.eqb k' k); [reflexivity | auto].
    + intros Hn. rewrite IH4 by exact Hn. reflexivity.
    + cbn [length]. rewrite IH5. destruct (map_find key m) eqn:E; [|lia].
      destruct m; [discriminate | cbn; lia].
Qed.

(** X2: [erase(key)] on a map that holds [key] removes that member and
    answers [true]; afterwards [at(key)] throws [std::out_of_range] and the
    const [operator[]] gives [m_emptyJson], while every other key is found
    as before.  On a map without the key, or on a value that is not a map,
    nothing changes and the answer is [false].  The kind of the receiver
    never changes. *)
Theorem erase_key_removes (v : JsonT) (key : string) :
  well_formed v = true ->
  let v' := fst (erase_key v key) in
  let erased := snd (erase_key v key) in
  (erased = true <-> exists s, at_key v key = Ret s)
  /\ (exists w, at_key v' key = Throw (out_of_range w))
  /\ subscript_key_const v' key = RefEmptyJson
  /\ (forall k, k <> key -> child v' (Key k) = child v (Key k))
  /\ type v' = type v
  /\ (erased = false -> v' = v)
  /\ (erased = true ->
        Z.of_nat (length (get_Map v')) = Z.of_nat (length (get_Map v)) - 1).
Proof.
  intros Hwf. cbn zeta.
  destruct v as [| | | | | |m];
    try (cbn; repeat split; eauto; try discriminate;
         intros [s Hs]; discriminate).
  cbn [well_formed] in Hwf. apply andb_prop in Hwf as [Hasc _].
  destruct (map_erase_spec key m Hasc) as (H1 & H2 & H3 & H4 & H5).
  unfold erase_key. destruct (map_erase key m) as [m' n]. cbn [fst snd] in *.
  unfold at_key, subscript_key_const. cbn [get_Map child type]. rewrite H1.
  repeat split; eauto.
  - intros Hn. subst n. destruct (map_find key m); [eauto | discriminate].
  - intros [s Hs]. subst n. destruct (map_find key m); [reflexivity | discriminate].
  - intros Hn. subst n. destruct (map_find key m); [discriminate|].
    rewrite H4 by reflexivity. reflexivity.
  - intros Hn. subst n. rewrite H5. destruct (map_find key m) eqn:E; [|discriminate].
    destruct m; [discriminate | cbn [length]; lia].
Qed.

Lemma erase_key_removes_witness :
  fst (erase_key (JMap [("a", JInt 1); ("b", JNull)]) "a") = JMap [("b", JNull)]
  /\ exists w, at_key (fst (erase_key (JMap [("a", JInt 1); ("b", JNull)]) "a")) "a"
               = Throw (out_of_range w).
Proof.
  split; [reflexivity|].
  destruct (erase_key_removes (JMap [("a", JInt 1); ("b", JNull)]) "a")
    as (_ & H & _); [reflexivity|].
  exact H.
Defined.

(** X3: [erase(index)] on an array with more than [index] elements removes
    the element at [index] and answers [true]: the elements before it
    stay, the ones after it move down by one, and the size drops by one.
    With an index that is not below the size, or on a value that is not an
    array, nothing changes and the answer is [false]. *)
Theorem erase_index_shifts (v : JsonT) (index : Z) :
  0 <= index ->
  let v' := fst (erase_index v index) in
  let erased := snd (erase_index v index) in
  (erased = true <-> exists s, at_index v index = Ret s)
  /\ (erased = false -> v' = v)
  /\ type v' = type v
  /\ (erased = true ->
        size (get_Array v') = size (get_Array v) - 1
        /\ (forall i, (i < Z.to_nat index)%nat ->
              child v' (Idx i) = child v (Idx i))
        /\ (forall i, (Z.to_nat index <= i)%nat ->
              child v' (Idx i) = child v (Idx (S i)))).
Proof.
  intros Hi. cbn zeta.
  destruct v as [| | | | |a|];
    try (cbn; repeat split; eauto; try discriminate;
         intros [s Hs]; discriminate).
  unfold erase_index, at_index.
  destruct (Z.leb_spec (size a) index) as [Hge|Hlt]; cbn [fst snd].
  - repeat split; try discriminate. intros [s Hs]. discriminate.
  - cbn [type get_Array child]. unfold size in *.
    assert (Hsome : is_Some (a !! Z.to_nat index))
      by (apply lookup_lt_is_Some_2; lia).
    repeat split; eauto; try discriminate.
    + rewrite length_delete by exact Hsome. lia.
    + intros i Hlti. apply list_lookup_delete_lt. exact Hlti.
    + intros i Hge. apply list_lookup_delete_ge. exact Hge.
Qed.

Lemma erase_index_shifts_witness :
  erase_index (JArray [JInt 1; JInt 2; JInt 3]) 1 = (JArray [JInt 1; JInt 3], true)
  /\ child (fst (erase_index (JArray [JInt 1; JInt 2; JInt 3]) 1)) (Idx 1)
     = Some (JInt 3).
Proof.
  split; [reflexivity|].
  destruct (erase_index_shifts (JArray [JInt 1; JInt 2; JInt 3]) 1)
    as (_ & _ & _ & H); [lia|].
  destruct (H eq_refl) as (_ & _ & H3).
  rewrite (H3 1%nat) by (cbn; lia). reflexivity.
Defined.

(* ===================================================================== *)
(** ** [operator==] *)

Lemma double_eqb_refl (d : double) :
  double_eqb d d = match d with S754_nan => false | _ => true end.
Proof.
  unfold double_eqb, SFeqb, SFcompare.
  destruct d as [[]|[]| |[] m e]; try reflexivity;
    rewrite Z.compare_refl, Pos.compare_cont_refl; reflexivity.
Qed.

(** X4: [operator==] compares the trees: a tree is equal to itself exactly
    when it holds no NaN, and for a tree without [Float] the operator
    answers [true] exactly for the identical tree. *)
Theorem operator_eq_compares_trees (x : JsonT) :
  json_eqb x x = no_nan x
  /\ (no_float x = true -> forall y, json_eqb x y = true <-> x = y).
Proof.
  induction x as [|b|d|n|s|a IH|m IH] using JsonT_ind.
  - split; [reflexivity|]. intros _ [] ; cbn; split; congruence.
  - split; [cbn; apply Bool.eqb_reflx|].
    intros _ [ |b'| | | | | ]; cbn; try (split; congruence).
    rewrite Bool.eqb_true_iff. split; congruence.
  - split; [|discriminate]. cbn [json_eqb no_nan]. rewrite double_eqb_refl.
    destruct d; reflexivity.
  - split; [cbn; apply Z.eqb_refl|].
    intros _ [ | | |n'| | | ]; cbn; try (split; congruence).
    rewrite Z.eqb_eq. split; congruence.
  - split; [cbn; apply String.eqb_refl|].
    intros _ [ | | | |s'| | ]; cbn; try (split; congruence).
    rewrite String.eqb_eq. split; congruence.
  - split.
    + cbn [json_eqb no_nan]. induction IH as [|x a [Hx _] _ IHa]; [reflexivity|].
      cbn [forallb]. rewrite Hx, IHa. reflexivity.
    + cbn [no_float]. intros Hnf [ | | | | |b| ]; cbn [json_eqb];
        try (split; congruence).
      revert b. induction IH as [|x a [_ Hx] _ IHa]; intros [|y b];
        try (split; congruence).
      cbn [forallb] in Hnf. apply andb_prop in Hnf as [Hnx Hna].
      rewrite andb_true_iff, (Hx Hnx y), (IHa Hna b).
      split; [intros [-> [= ->]]; reflexivity | intros [= -> ->]; auto].
  - split.
    + cbn [json_eqb no_nan]. induction IH as [|[k x] m [Hx _] _ IHm]; [reflexivity|].
      cbn [forallb snd] in *. rewrite String.eqb_refl, Hx, IHm. reflexivity.
    + cbn [no_float]. intros Hnf [ | | | | | |b]; cbn [json_eqb];
        try (split; congruence).
      revert b. induction IH as [|[k x] m [_ Hx] _ IHm]; intros [|[k' y] b];
        try (split; congruence).
      cbn [forallb snd] in *. apply andb_prop in Hnf as [Hnx Hnm].
      rewrite !andb_true_iff, String.eqb_eq, (Hx Hnx y), (IHm Hnm b).
      split; [intros [[-> ->] [= ->]]; reflexivity | intros [= -> -> ->]; auto].
Qed.

(* ===================================================================== *)
(** ** The loop of [parse]: its end and its exceptions *)

(** X5: the loop of [parse] ends on every text: a turn that continues
    leaves strictly less text after [it], so one turn more than the text
    has characters is enough, and further turns change nothing. *)
Theorem parse_loop_terminates (s : string) (opt : ParseOptions) (fuel : nat) :
  (String.length s < fuel)%nat ->
  run fuel (init_state s) = Some (parse s opt)
  /\ (forall st st', turn st = Ret (Continue st') ->
        (String.length (it st') < String.length (it st))%nat).
Proof.
  intros Hlt. split.
  - eapply run_mono; [apply parse_run | lia].
  - apply turn_progress.
Qed.

Lemma parse_loop_terminates_witness :
  run 7 (init_state "[1,2]") = Some (parse "[1,2]" default_ParseOptions).
Proof.
  apply (parse_loop_terminates "[1,2]" default_ParseOptions 7). cbn. lia.
Defined.


Lemma parse_exception_is (msg : string) (st : State) :
  is_ParseException (json st) (parse_exception msg st).
Proof. eexists _, _. split; [reflexivity | lia]. Qed.

Ltac pe_cases :=
  repeat match goal with
         | |- context [match ?x with _ => _ end] =>
             lazymatch x with
             | context [match _ with _ => _ end] => fail
             | _ => destruct x eqn:?
             end
         end;
  try discriminate.

Lemma subscript_index_no_throw (v : JsonT) (index : Z) (e : exception) :
  subscript_index v index <> Throw e.
Proof. unfold subscript_index. destruct (_ <? _); discriminate. Qed.

Lemma assign_index_no_throw (v : JsonT) (index : Z) (x : JsonT) (e : exception) :
  assign_index v index x <> Throw e.
Proof.
  unfold assign_index, bind.
  destruct (subscript_index v index) as [[v' s]|e'| |] eqn:E; try discriminate.
  exfalso. eapply subscript_index_no_throw, E.
Qed.

Lemma setValue_throw (v : JsonT) (st : State) (e : exception) :
  setValue v st = Throw e -> is_ParseException (json st) e.
Proof.
  unfold setValue, bind, top, assert.
  destruct (parents st) as [|p ps]; [discriminate|].
  destruct (get_at (result st) p) as [parent|]; [|discriminate].
  destruct (value (flags st)) as [|[[]|[]|]];
    try (intros [= <-]; apply parse_exception_is); try discriminate.
  - destruct (negb _); [intros [= <-]; apply parse_exception_is|].
    destruct (assign_index _ _ _) as [?|e'| |] eqn:E; try discriminate.
    exfalso. eapply assign_index_no_throw, E.
  - destruct (isNull parent); discriminate.
Qed.

Lemma setValue_json (v : JsonT) (st st' : State) :
  setValue v st = Ret st' -> json st' = json st.
Proof.
  unfold setValue, bind, top, assert. pe_cases; intros [= <-]; reflexivity.
Qed.

Lemma setEnd_throw (st : State) (e : exception) :
  setEnd st = Throw e -> is_ParseException (json st) e.
Proof.
  unfold setEnd, bind, top. cbn [parents with_parents result].
  pe_cases; intros [= <-];
    apply (parse_exception_is EmptyString (with_parents (tail (parents st)) st)).
Qed.

Lemma setEnd_json (st st' : State) : setEnd st = Ret st' -> json st' = json st.
Proof.
  unfold setEnd, bind, top. cbn [parents with_parents result].
  pe_cases; intros [= <-]; reflexivity.
Qed.

Lemma on_begin_throw ensure f (st : State) (e : exception) :
  on_begin ensure f st = Throw e -> is_ParseException (json st) e.
Proof.
  unfold on_begin, bind, top.
  destruct (parents st) as [|p ps]; [discriminate|].
  destruct (get_at (result st) p) as [parent|]; [|discriminate].
  destruct (isType parent Type_.Array).
  - destruct (subscript_index _ _) as [[v' s]|e'| |] eqn:E; try discriminate.
    + destruct (child v' s); discriminate.
    + exfalso. eapply subscript_index_no_throw, E.
  - destruct (negb _); [intros [= <-]; apply parse_exception_is | discriminate].
Qed.

Lemma on_begin_json ensure f (st st' : State) :
  on_begin ensure f st = Ret st' -> json st' = json st.
Proof.
  unfold on_begin, bind, top. pe_cases; intros [= <-]; reflexivity.
Qed.

Lemma utf16_out_throw (c : list Z) (e : exception) :
  utf16_out c = Throw e -> e = range_error "wstring_convert::to_bytes".
Proof.
  remember (length c) as n eqn:Hn. revert c Hn.
  induction n as [n IH] using lt_wf_ind. intros c Hn.
  destruct c as [|x c]; [discriminate|]. cbn [utf16_out].
  destruct (is_high_surrogate x).
  - destruct c as [|y c]; [discriminate|].
    destruct (is_low_surrogate y); [|congruence].
    unfold bind. destruct (utf16_out c) eqn:E; try discriminate.
    intros [= <-]. eapply (IH (length c)); [cbn in Hn; lia | reflexivity | exact E].
  - destruct (is_low_surrogate x); [congruence|].
    unfold bind. destruct (utf16_out c) eqn:E; try discriminate.
    intros [= <-]. eapply (IH (length c)); [cbn in Hn; lia | reflexivity | exact E].
Qed.

Lemma rethrow_is {A : Type} (st : State) (o : outcome A) (e : exception) :
  (forall e', o = Throw e' -> forall w p, e' <> ParseException w p) ->
  rethrow st o = Throw e -> is_ParseException (json st) e.
Proof.
  intros Hno. unfold rethrow. destruct o as [a|e'| |]; try discriminate.
  destruct e' as [w p| | |].
  - exfalso. eapply Hno; reflexivity.
  - intros [= <-]. apply parse_exception_is.
  - intros [= <-]. apply parse_exception_is.
  - intros [= <-]. apply parse_exception_is.
Qed.

Lemma decode_string_throw (fuel : nat) (st : State) (text : string) (e : exception) :
  decode_string fuel st text = Throw e -> is_ParseException (json st) e.
Proof.
  revert st text. induction fuel as [|fuel IH]; intros st text; [discriminate|].
  cbn [decode_string].
  destruct (find_string_token (range st)) as [m|].
  2:{ intros [= <-]. apply parse_exception_is. }
  destruct (String.eqb (m2 m) sDQ); [discriminate|].
  destruct (find_key (m2 m) mapReplace).
  - intros H. apply IH in H. exact H.
  - unfold bind. destruct (rethrow _ _) as [su8|e'| |] eqn:Hr; try discriminate.
    + intros H. apply IH in H. exact H.
    + intros [= <-].
      apply (rethrow_is (advance (m_length m) st)) in Hr; [exact Hr|].
      intros e'' He w p ->. unfold to_bytes in He.
      apply utf16_out_throw in He. discriminate.
Qed.

Lemma decode_string_json (fuel : nat) (st st' : State) (text text' : string) :
  decode_string fuel st text = Ret (st', text') -> json st' = json st.
Proof.
  revert st text. induction fuel as [|fuel IH]; intros st text; [discriminate|].
  cbn [decode_string].
  destruct (find_string_token (range st)) as [m|]; [|discriminate].
  destruct (String.eqb (m2 m) sDQ).
  - intros [= <- _]. reflexivity.
  - destruct (find_key (m2 m) mapReplace).
    + intros H. apply IH in H. exact H.
    + unfold bind. destruct (rethrow _ _); try discriminate.
      intros H. apply IH in H. exact H.
Qed.

Lemma on_string_throw (st : State) (e : exception) :
  on_string st = Throw e -> is_ParseException (json st) e.
Proof.
  unfold on_string. unfold bind at 1.
  destruct (decode_string _ st EmptyString) as [[st1 sText]|e'| |] eqn:Hd;
    try discriminate.
  - pose proof (decode_string_json _ _ _ _ _ Hd) as Hj. rewrite <- Hj.
    destruct (objectKey (flags st1) =? 1)%N.
    + unfold bind, top, assert, subscript_key. pe_cases.
    + apply setValue_throw.
  - intros [= <-]. eapply decode_string_throw, Hd.
Qed.

Lemma on_string_json (st st' : State) : on_string st = Ret st' -> json st' = json st.
Proof.
  unfold on_string. unfold bind at 1.
  destruct (decode_string _ st EmptyString) as [[st1 sText]| | |] eqn:Hd;
    try discriminate.
  pose proof (decode_string_json _ _ _ _ _ Hd) as Hj. rewrite <- Hj.
  destruct (objectKey (flags st1) =? 1)%N.
  - unfold bind, top, assert, subscript_key. pe_cases; intros [= <-]; reflexivity.
  - apply setValue_json.
Qed.

(** Every handler of [mapToken] keeps [json] and throws nothing but a
    [ParseException]. *)
Lemma handler_json_throw (tok : string) (h : State -> outcome State) (st : State) :
  find_key tok mapToken = Some h ->
  (forall st', h st = Ret st' -> json st' = json st)
  /\ (forall e, h st = Throw e -> is_ParseException (json st) e).
Proof.
  unfold mapToken. cbn [find_key].
  repeat (destruct (String.eqb tok _);
          [intros [= <-]; split;
           [intros st' H;
            first [ apply setValue_json in H; exact H
                  | apply on_begin_json in H; exact H
                  | apply on_string_json in H; exact H
                  | idtac ]
           |intros e H;
            first [ apply setValue_throw in H; exact H
                  | apply on_begin_throw in H; exact H
                  | apply on_string_throw in H; exact H
                  | idtac ]]
          |]); try discriminate.
  - unfold on_line_comment, line_comment_end in H. injection H as <-. reflexivity.
  - unfold on_block_comment in H. destruct (block_comment_end (it st)); [|discriminate].
    injection H as <-. reflexivity.
  - unfold on_block_comment in H. destruct (block_comment_end (it st)); [discriminate|].
    injection H as <-. apply parse_exception_is.
  - injection H as <-. reflexivity.
  - unfold on_object_end, bind in H.
    destruct (top st) as [[? ?]| | |]; try discriminate.
    destruct (negb _); [discriminate|]. apply setEnd_json, H.
  - unfold on_object_end, bind, top in H. revert H.
    pe_cases; try (intros [= <-]; apply parse_exception_is).
    apply setEnd_throw.
  - unfold on_array_end, bind in H.
    destruct (top st) as [[? ?]| | |]; try discriminate.
    destruct (negb _); [discriminate|]. apply setEnd_json, H.
  - unfold on_array_end, bind, top in H. revert H.
    pe_cases; try (intros [= <-]; apply parse_exception_is).
    apply setEnd_throw.
  - unfold on_comma in H. revert H. pe_cases; intros [= <-]; reflexivity.
  - unfold on_comma in H. revert H. pe_cases; intros [= <-]; apply parse_exception_is.
Qed.

Lemma match_token_no_throw (f : Flags) (r : string) (e : exception) :
  match_token f r <> Throw e.
Proof.
  unfold match_token, token_alts, bind. pe_cases.
Qed.

Lemma dispatch_json_throw (t : string) (st1 : State) :
  match
    match find_key t mapToken with
    | Some handler => let* st' := handler st1 in Ret (Continue st')
    | None =>
        let* v := rethrow st1 (number_value t) in
        let* st' := setValue v st1 in
        Ret (Continue st')
    end
  with
  | Ret (Continue st') => json st' = json st1
  | Throw e => is_ParseException (json st1) e
  | _ => True
  end.
Proof.
  destruct (find_key t mapToken) as [h|] eqn:Hk.
  - destruct (handler_json_throw _ _ st1 Hk) as [H1 H2].
    unfold bind. destruct (h st1) as [st2|e'| |]; auto.
  - unfold bind.
    destruct (rethrow st1 (number_value t)) as [v|e'| |] eqn:Hr; auto.
    + destruct (setValue v st1) as [st2|e'| |] eqn:Hs; auto.
      * eapply setValue_json, Hs.
      * eapply setValue_throw, Hs.
    + apply (rethrow_is st1) in Hr; [exact Hr|].
      intros e'' He w p ->.
      destruct (number_value_cases t) as [[v Hv]|[Hv|Hv]]; congruence.
Qed.

Lemma turn_json_throw (st : State) :
  match turn st with
  | Ret (Continue st') => json st' = json st
  | Throw e => is_ParseException (json st) e
  | _ => True
  end.
Proof.
  unfold turn.
  destruct (flags_all_is_zero (flags st)); [apply parse_exception_is|].
  destruct (bool_decide (parents st = [])); [apply parse_exception_is|].
  destruct (is_empty (it st)).
  { destruct (negb (bFinish (flags st))); [apply parse_exception_is | exact I]. }
  set (st0 := with_itLineEnd (find_line_end (it st)) st).
  destruct (negb (has_nonspace (range st0))); [reflexivity|].
  unfold bind at 1.
  destruct (match_token (flags st0) (range st0)) as [tok|e'| |] eqn:Hm; auto.
  2:{ exfalso. eapply match_token_no_throw, Hm. }
  destruct tok as [[t n]|].
  - apply (dispatch_json_throw t (advance n st0)).
  - apply (dispatch_json_throw EmptyString st0).
Qed.

Lemma run_throw (fuel : nat) (st : State) (e : exception) :
  run fuel st = Some (Throw e) -> is_ParseException (json st) e.
Proof.
  revert st. induction fuel as [|fuel IH]; intros st; [discriminate|].
  cbn [run]. pose proof (turn_json_throw st) as Hj.
  destruct (turn st) as [[st'|st']|e'| |]; try discriminate.
  - intros H. apply IH in H. rewrite Hj in H. exact H.
  - intros [= <-]. exact Hj.
Qed.

(** X6: whatever goes wrong inside the loop, the only exception that
    leaves [parse] is a [ParseException] ([std::invalid_argument] and
    [std::out_of_range] of the number conversions and [std::range_error]
    of the UTF-16 conversion are caught and thrown again as one), and its
    position lies within the text. *)
Theorem parse_throws_only_ParseException
    (s : string) (opt : ParseOptions) (e : exception) :
  parse s opt = Throw e ->
  exists w p, e = ParseException w p /\ (p <= String.length s)%nat.
Proof.
  intros H. pose proof (parse_run s opt) as Hr. rewrite H in Hr.
  apply run_throw in Hr. exact Hr.
Qed.

Lemma parse_throws_only_ParseException_witness :
  exists w p, ParseException "stod" 5 = ParseException w p /\ (p <= 5)%nat.
Proof.
  apply (parse_throws_only_ParseException "1e999" default_ParseOptions).
  vm_compute. reflexivity.
Defined.

(* ===================================================================== *)
(** ** White space around a text *)

Lemma has_nonspace_blank (s : string) : has_nonspace s = negb (blank s).
Proof.
  induction s as [|c s IH]; [reflexivity|].
  cbn [has_nonspace blank string_forallb]. unfold blank in IH. rewrite IH.
  destruct (isspace c); reflexivity.
Qed.

Lemma blank_app (a b : string) : blank (a ++ b) = blank a && blank b.
Proof. apply string_forallb_app. Qed.

Lemma line_of_cons (c : ascii) (s : string) :
  line_of (String c s)
  = String c (if Ascii.eqb c chLF then EmptyString else line_of s).
Proof.
  unfold line_of. cbn [find_line_end String.length].
  destruct (Ascii.eqb c chLF).
  - replace (S (String.length s) - String.length s)%nat with 1%nat by lia.
    reflexivity.
  - pose proof (find_line_end_le s).
    replace (S (String.length s) - String.length (find_line_end s))%nat
      with (S (String.length s - String.length (find_line_end s))) by lia.
    reflexivity.
Qed.

Lemma line_of_nil : line_of EmptyString = EmptyString.
Proof. reflexivity. Qed.

Lemma line_of_app (a b : string) :
  line_of (a ++ b) = if no_lf a then a ++ line_of b else line_of a.
Proof.
  induction a as [|c a IH]; [reflexivity|].
  cbn [append no_lf string_forallb]. rewrite !line_of_cons.
  fold (no_lf a). destruct (Ascii.eqb c chLF); [reflexivity|].
  cbn [negb andb]. rewrite IH. destruct (no_lf a); reflexivity.
Qed.

Lemma find_line_end_app (a b : string) :
  find_line_end (a ++ b)
  = if no_lf a then find_line_end b else find_line_end a ++ b.
Proof.
  induction a as [|c a IH]; [reflexivity|].
  cbn [append no_lf string_forallb find_line_end].
  fold (no_lf a). destruct (Ascii.eqb c chLF); [reflexivity|].
  cbn [negb andb]. exact IH.
Qed.

Lemma line_of_find_line_end (s : string) : line_of s ++ find_line_end s = s.
Proof.
  induction s as [|c s IH]; [reflexivity|].
  rewrite line_of_cons. cbn [find_line_end append].
  destruct (Ascii.eqb c chLF); [reflexivity|]. rewrite IH. reflexivity.
Qed.

Lemma line_of_no_lf (s : string) : no_lf s = true -> line_of s = s.
Proof.
  intros H. pose proof (line_of_find_line_end s) as E.
  rewrite (find_line_end_no_lf s H), append_nil_r in E. exact E.
Qed.

Lemma blank_line_of (s : string) : blank s = true -> blank (line_of s) = true.
Proof.
  intros H. rewrite <- (line_of_find_line_end s), blank_app in H.
  apply andb_prop in H as [H _]. exact H.
Qed.

Lemma blank_find_line_end (s : string) :
  blank s = true -> blank (find_line_end s) = true.
Proof.
  intros H. rewrite <- (line_of_find_line_end s), blank_app in H.
  apply andb_prop in H as [_ H]. exact H.
Qed.




Lemma range_line (st : State) :
  range (with_itLineEnd (find_line_end (it st)) st) = line_of (it st).
Proof. reflexivity. Qed.

(** After a match of [k] characters inside the line, the range is what is
    left of the line. *)
Lemma range_advance (k : nat) (st : State) :
  (k <= String.length (line_of (it st)))%nat ->
  range (advance k (with_itLineEnd (find_line_end (it st)) st))
  = string_drop k (line_of (it st)).
Proof.
  intros Hk. unfold range, advance. cbn [it itLineEnd with_it with_itLineEnd].
  pose proof (line_of_find_line_end (it st)) as E.
  set (l := line_of (it st)) in *. set (r := find_line_end (it st)) in *.
  rewrite <- E. rewrite string_drop_app_le by exact Hk.
  rewrite length_append, Nat.add_sub. apply string_take_app.
Qed.

(** A turn on a line of white space goes to the next line. *)
Lemma turn_blank_line (st : State) :
  flags_all_is_zero (flags st) = false -> parents st <> [] ->
  it st <> EmptyString -> blank (line_of (it st)) = true ->
  turn st
  = Ret (Continue (with_it (find_line_end (it st))
                     (with_itLineEnd (find_line_end (it st)) st))).
Proof.
  intros Hf Hps Hne Hb. unfold turn.
  rewrite Hf, (bool_decide_eq_false_2 _ Hps), (is_empty_false _ Hne).
  rewrite range_line, has_nonspace_blank, Hb. reflexivity.
Qed.

(** On a text of white space the loop comes to the end of the text, where
    it stops with the result when a value is complete, and throws
    otherwise. *)
Lemma blank_run (st : State) :
  blank (it st) = true -> flags_all_is_zero (flags st) = false ->
  parents st <> [] ->
  exists fuel,
    run fuel st
    = Some (if bFinish (flags st) then Ret (result st)
            else Throw (ParseException EmptyString (String.length (json st)))).
Proof.
  remember (String.length (it st)) as n eqn:Hn. revert st Hn.
  induction n as [n IH] using lt_wf_ind. intros st Hn Hb Hf Hps.
  destruct (String.eqb_spec (it st) EmptyString) as [Hit|Hne].
  - exists 1%nat. cbn [run]. unfold turn.
    rewrite Hf, (bool_decide_eq_false_2 _ Hps), Hit. cbn [is_empty].
    destruct (bFinish (flags st)); cbn [negb]; [reflexivity|].
    unfold parse_exception. rewrite Hit. cbn. rewrite Nat.sub_0_r. reflexivity.
  - pose proof (turn_blank_line st Hf Hps Hne (blank_line_of _ Hb)) as Ht.
    set (st' := with_it (find_line_end (it st))
                  (with_itLineEnd (find_line_end (it st)) st)) in *.
    destruct (IH (String.length (it st')) ltac:(subst n; cbn [st' it with_it];
                apply find_line_end_length, Hne)
                st' eq_refl) as [fuel Hr].
    + apply blank_find_line_end, Hb.
    + exact Hf.
    + exact Hps.
    + exists (S fuel). cbn [run]. rewrite Ht. exact Hr.
Qed.

(** X7: a text of white space only, the empty text included, is not a
    value: [parse] throws a [ParseException] with an empty message at the
    end of the text. *)
Theorem blank_text_is_rejected (s : string) (opt : ParseOptions) :
  blank s = true ->
  parse s opt = Throw (ParseException EmptyString (String.length s)).
Proof.
  intros Hb.
  destruct (blank_run (init_state s)) as [fuel Hr];
    [exact Hb | reflexivity | discriminate |].
  eapply parse_of_run, Hr.
Qed.

Lemma blank_text_is_rejected_witness :
  parse (String " " (String chLF (String chTAB EmptyString))) default_ParseOptions
  = Throw (ParseException EmptyString 3).
Proof.
  apply (blank_text_is_rejected (String " " (String chLF (String chTAB EmptyString)))).
  reflexivity.
Defined.

(* ===================================================================== *)
(** ** The scanners do not look past white space *)

Lemma starts_with_tail (l r x : string) :
  string_forallb (fun c => negb (isspace c)) l = true -> blank x = true ->
  starts_with l (r ++ x) = starts_with l r.
Proof.
  revert r. induction l as [|c l IH]; intros r Hl Hx; [reflexivity|].
  cbn [string_forallb] in Hl. apply andb_prop in Hl as [Hc Hl].
  destruct r as [|d r]; cbn [append starts_with].
  - destruct x as [|b x]; [reflexivity|].
    cbn [blank string_forallb] in Hx. apply andb_prop in Hx as [Hb _].
    destruct (Ascii.eqb_spec c b) as [->|_]; [|reflexivity].
    rewrite Hb in Hc. discriminate.
  - rewrite IH by assumption. reflexivity.
Qed.

Lemma starts_with_length (l r : string) :
  starts_with l r = true -> (String.length l <= String.length r)%nat.
Proof.
  revert r. induction l as [|c l IH]; intros r; [cbn; lia|].
  destruct r as [|d r]; [discriminate|]. cbn [starts_with String.length].
  intros H. apply andb_prop in H as [_ H]. apply IH in H. lia.
Qed.

Lemma blank_not_digit (x : string) : blank x = true -> span_digits x = 0%nat.
Proof.
  destruct x as [|c x]; [reflexivity|]. cbn [blank string_forallb span_digits].
  intros H. apply andb_prop in H as [H _].
  destruct c as [[] [] [] [] [] [] [] []]; try discriminate H; reflexivity.
Qed.

Lemma span_digits_tail (s x : string) :
  blank x = true -> span_digits (s ++ x) = span_digits s.
Proof.
  intros Hx. induction s as [|c s IH]; [apply blank_not_digit, Hx|].
  cbn [append span_digits]. rewrite IH. reflexivity.
Qed.


Lemma blank_head (x : string) (P : Prop) :
  blank x = true ->
  (x = EmptyString -> P) ->
  (forall c x', x = String c x' -> isspace c = true -> P) -> P.
Proof.
  destruct x as [|c x]; [auto|]. cbn [blank string_forallb].
  intros H _ HP. apply andb_prop in H as [H _]. eapply HP; eauto.
Qed.

Lemma blank_stop (x : string) : blank x = true -> number_stop x = true.
Proof.
  destruct x as [|c x]; [reflexivity|]. cbn [blank string_forallb number_stop].
  intros H. apply andb_prop in H as [H _].
  destruct c as [[] [] [] [] [] [] [] []]; try discriminate H; reflexivity.
Qed.

Lemma scan_number_tail (r x : string) :
  blank x = true -> scan_number (r ++ x) = scan_number r.
Proof. intros Hx. apply scan_number_stop, blank_stop, Hx. Qed.

Lemma take_within (p : ascii -> bool) (n : nat) (r : string) (c : ascii) :
  string_forallb p (string_take n (r ++ str1 c)) = true -> p c = false ->
  (n <= String.length r)%nat.
Proof.
  revert r. induction n as [|n IH]; intros r; [lia|].
  destruct r as [|d r]; cbn [append str1 string_take string_forallb String.length].
  - intros H Hc. rewrite Hc in H. discriminate.
  - intros H Hc. apply andb_prop in H as [_ H]. specialize (IH r H Hc). lia.
Qed.

Lemma scan_number_le (r : string) (n : nat) :
  scan_number r = Some n -> (n <= String.length r)%nat.
Proof.
  intros H.
  rewrite <- (scan_number_tail r (str1 " ") eq_refl) in H.
  apply scan_number_chars in H.
  eapply take_within; [exact H | reflexivity].
Qed.

Lemma match_alt_tail (a : alt) (r x : string) :
  spaceless_alt a -> blank x = true -> match_alt a (r ++ x) = match_alt a r.
Proof.
  intros Ha Hx. destruct a as [l| |]; cbn [match_alt].
  - rewrite starts_with_tail by assumption. reflexivity.
  - destruct r as [|c r]; [|reflexivity]. cbn [append].
    apply (blank_head x _ Hx); [intros ->; reflexivity|].
    intros c x' -> ->. reflexivity.
  - apply scan_number_tail, Hx.
Qed.

Lemma match_alt_le (a : alt) (r : string) (n : nat) :
  match_alt a r = Some n -> (n <= String.length r)%nat.
Proof.
  destruct a as [l| |]; cbn [match_alt].
  - destruct (starts_with l r) eqn:E; [|discriminate].
    intros [= <-]. apply starts_with_length, E.
  - destruct r as [|c r]; [discriminate|].
    destruct (isspace c); [discriminate|]. intros [= <-]. cbn. lia.
  - apply scan_number_le.
Qed.

Lemma first_match_tail (alts : list alt) (r x : string) :
  Forall spaceless_alt alts -> blank x = true ->
  first_match alts (r ++ x) = first_match alts r.
Proof.
  intros Ha Hx. induction Ha as [|a alts Ha _ IH]; [reflexivity|].
  cbn [first_match]. rewrite match_alt_tail by assumption. rewrite IH.
  reflexivity.
Qed.

Lemma first_match_le (alts : list alt) (r : string) (n : nat) :
  first_match alts r = Some n -> (n <= String.length r)%nat.
Proof.
  induction alts as [|a alts IH]; [discriminate|]. cbn [first_match].
  destruct (match_alt a r) eqn:E; [|exact IH].
  intros [= <-]. eapply match_alt_le, E.
Qed.

Lemma token_alts_spaceless (f : Flags) (alts : list alt) :
  token_alts f = Ret alts -> Forall spaceless_alt alts.
Proof.
  unfold token_alts, bind. intros Ha.
  destruct (match end_ f with
            | 0%N => Ret []
            | 1%N => Ret [ALit "}"]
            | 2%N => Ret [ALit "}"; ALit ","]
            | 3%N => Ret [ALit "]"]
            | 4%N => Ret [ALit "]"; ALit ","]
            | _ => AssertFail
            end) as [ea| | |] eqn:He; try discriminate.
  destruct (match objectKey f with
            | 0%N => Ret []
            | 1%N => Ret [ALit sDQ]
            | 2%N => Ret [ALit ":"]
            | _ => AssertFail
            end) as [ka| | |] eqn:Hk; try discriminate.
  assert (Hea : Forall spaceless_alt ea).
  { repeat match type of He with
           | match ?x with _ => _ end = _ => destruct x; try discriminate He
           end;
      injection He as <-; repeat constructor. }
  assert (Hka : Forall spaceless_alt ka).
  { repeat match type of Hk with
           | match ?x with _ => _ end = _ => destruct x; try discriminate Hk
           end;
      injection Hk as <-; repeat constructor. }
  injection Ha as <-. cbn [app].
  constructor; [reflexivity|]. constructor; [reflexivity|].
  apply Forall_app_2; [destruct (bFinish f); repeat constructor|].
  apply Forall_app_2; [destruct (bBegin f); repeat constructor|].
  apply Forall_app_2; [exact Hea|].
  apply Forall_app_2; [exact Hka|].
  destruct (value f =? 0)%N; repeat constructor.
Qed.

Lemma span_space_tail (r x : string) :
  has_nonspace r = true ->
  span_space (r ++ x) = span_space r /\ (span_space r <= String.length r)%nat.
Proof.
  induction r as [|c r IH]; [discriminate|].
  cbn [has_nonspace append span_space String.length].
  destruct (isspace c); cbn [negb orb]; [|intros _; split; [reflexivity | lia]].
  intros H. destruct (IH H) as [-> Hle]. split; [reflexivity | lia].
Qed.

Lemma span_space_lead (ws r : string) :
  blank ws = true -> span_space (ws ++ r) = (String.length ws + span_space r)%nat.
Proof.
  induction ws as [|c ws IH]; [reflexivity|].
  cbn [blank string_forallb append span_space String.length].
  intros H. apply andb_prop in H as [-> H]. rewrite (IH H). reflexivity.
Qed.

(** The token expression finds the same token when white space is added
    after the line. *)
Lemma match_token_tail (f : Flags) (r x : string) :
  has_nonspace r = true -> blank x = true ->
  match_token f (r ++ x) = match_token f r
  /\ (forall t n, match_token f r = Ret (Some (t, n)) ->
        (n <= String.length r)%nat).
Proof.
  intros Hr Hx. unfold match_token, bind.
  destruct (token_alts f) as [alts| | |] eqn:Ha; try (split; [reflexivity | discriminate]).
  destruct (span_space_tail r x Hr) as [-> Hle].
  rewrite string_drop_app_le by exact Hle.
  rewrite first_match_tail by (eauto using token_alts_spaceless).
  destruct (first_match alts (string_drop (span_space r) r)) as [n|] eqn:Hm;
    [|split; [reflexivity | discriminate]].
  pose proof (first_match_le _ _ _ Hm) as Hn.
  rewrite string_take_app_le by exact Hn.
  split; [reflexivity|].
  intros t k [= _ <-]. rewrite string_drop_length in Hn. lia.
Qed.

(** The token expression skips white space in front of the line. *)
Lemma match_token_lead (f : Flags) (ws r : string) :
  blank ws = true ->
  match_token f (ws ++ r)
  = match match_token f r with
    | Ret (Some (t, n)) => Ret (Some (t, (String.length ws + n)%nat))
    | o => o
    end.
Proof.
  intros Hws. unfold match_token, bind.
  destruct (token_alts f) as [alts| | |]; try reflexivity.
  rewrite span_space_lead by exact Hws.
  rewrite string_drop_add, string_drop_app.
  destruct (first_match alts _); [|reflexivity].
  rewrite Nat.add_assoc. reflexivity.
Qed.

Lemma match_classes_tail (cls : list (ascii -> bool)) (r x : string) :
  Forall (fun p => forall c, isspace c = true -> p c = false) cls ->
  blank x = true ->
  match_classes cls (r ++ x) = match_classes cls r.
Proof.
  intros Hcls Hx. revert r. induction Hcls as [|p cls Hp _ IH]; intros r.
  - destruct (r ++ x), r; reflexivity.
  - destruct r as [|d r]; cbn [append match_classes].
    + apply (blank_head x _ Hx); [intros ->; reflexivity|].
      intros c x' -> Hc. rewrite (Hp c Hc). reflexivity.
    + rewrite IH. reflexivity.
Qed.

Lemma match_classes_length (cls : list (ascii -> bool)) (r : string) :
  match_classes cls r = true -> (length cls <= String.length r)%nat.
Proof.
  revert r. induction cls as [|p cls IH]; intros r; [cbn; lia|].
  destruct r as [|d r]; [discriminate|]. cbn [match_classes length String.length].
  intros H. apply andb_prop in H as [_ H]. apply IH in H. lia.
Qed.

Lemma substring_app_le (n m : nat) (a b : string) :
  (n + m <= String.length a)%nat -> substring n m (a ++ b) = substring n m a.
Proof.
  revert m a. induction n as [|n IHn]; intros m a.
  - revert a. induction m as [|m IHm]; intros a Hle.
    + destruct a, b; reflexivity.
    + destruct a as [|c a]; [cbn in Hle; lia|].
      cbn [append substring]. rewrite IHm by (cbn in Hle; lia). reflexivity.
  - intros Hle. destruct a as [|c a]; [cbn in Hle; lia|].
    cbn [append substring]. apply IHn. cbn in Hle. lia.
Qed.

Lemma classes_refuse_space :
  Forall (fun p : ascii -> bool => forall c, isspace c = true -> p c = false)
         (u_high ++ u_low)
  /\ Forall (fun p : ascii -> bool => forall c, isspace c = true -> p c = false)
            u_any.
Proof.
  split; repeat constructor; intros c H;
    destruct c as [[] [] [] [] [] [] [] []]; try discriminate H; reflexivity.
Qed.

Lemma match_string_token_tail (r x : string) :
  blank x = true -> match_string_token (r ++ x) = match_string_token r.
Proof.
  intros Hx. unfold match_string_token.
  destruct classes_refuse_space as [H1 H2].
  rewrite (match_classes_tail _ r x H1 Hx), (match_classes_tail _ r x H2 Hx).
  rewrite !(starts_with_tail _ r x) by (exact Hx || reflexivity).
  destruct (match_classes (u_high ++ u_low) r) eqn:E1.
  { apply match_classes_length in E1. cbn [length app u_high u_low] in E1.
    rewrite string_take_app_le, !substring_app_le by lia. reflexivity. }
  destruct (match_classes u_any r) eqn:E2.
  { apply match_classes_length in E2. cbn [length u_any] in E2.
    rewrite string_take_app_le, !substring_app_le by lia. reflexivity. }
  reflexivity.
Qed.

Lemma find_string_token_blank (x : string) :
  blank x = true -> find_string_token x = None.
Proof.
  induction x as [|c x IH]; [reflexivity|].
  cbn [blank string_forallb]. intros H. apply andb_prop in H as [Hc H].
  cbn [find_string_token]. rewrite (IH H).
  assert (Hm : match_string_token (String c x) = None)
    by (destruct c as [[] [] [] [] [] [] [] []]; try discriminate Hc; reflexivity).
  rewrite Hm. destruct (_ || _); reflexivity.
Qed.

(** The string expression finds the same match when white space is added
    after the line. *)
Lemma find_string_token_tail (r x : string) :
  blank x = true -> find_string_token (r ++ x) = find_string_token r.
Proof.
  intros Hx. induction r as [|c r IH].
  - cbn [append]. rewrite find_string_token_blank by exact Hx. reflexivity.
  - change (String c r ++ x) with (String c (r ++ x)).
    cbn [find_string_token].
    change (String c (r ++ x)) with (String c r ++ x).
    rewrite match_string_token_tail by exact Hx. rewrite IH. reflexivity.
Qed.

Lemma string_take_length_le (n : nat) (s : string) :
  (String.length (string_take n s) <= String.length s)%nat.
Proof.
  revert s. induction n as [|n IH]; intros s; [cbn; lia|].
  destruct s as [|c s]; [cbn; lia|]. cbn [string_take String.length].
  specialize (IH s). lia.
Qed.

Lemma match_string_token_le (r : string) (m : smatch) :
  match_string_token r = Some m -> (m_length m <= String.length r)%nat.
Proof.
  unfold match_string_token.
  assert (Hlit : forall l, starts_with l r = true ->
            (String.length l <= String.length r)%nat)
    by (intros l; apply starts_with_length).
  destruct (match_classes (u_high ++ u_low) r) eqn:E1.
  { apply match_classes_length in E1. cbn [length app u_high u_low] in E1.
    intros H.
    apply (f_equal (fun o => match o with Some m => m_length m | None => 0%nat end)) in H.
    cbn [m_length] in H. rewrite <- H. apply string_take_length_le. }
  destruct (match_classes u_any r) eqn:E2.
  { apply match_classes_length in E2. cbn [length u_any] in E2.
    intros H.
    apply (f_equal (fun o => match o with Some m => m_length m | None => 0%nat end)) in H.
    cbn [m_length] in H. rewrite <- H. apply string_take_length_le. }
  repeat match goal with
         | |- context [if starts_with ?l r then _ else _] =>
             let E := fresh "E" in
             destruct (starts_with l r) eqn:E;
             [apply Hlit in E; intros [= <-]; cbn in E |- *; lia|]
         end.
  discriminate.
Qed.

Lemma find_string_token_le (r : string) (m : smatch) :
  find_string_token r = Some m -> (m_length m <= String.length r)%nat.
Proof.
  revert m. induction r as [|c r IH]; intros m.
  - cbn. discriminate.
  - cbn [find_string_token].
    destruct (match_string_token (String c r)) as [m0|] eqn:E.
    + intros [= <-]. apply match_string_token_le, E.
    + destruct (_ || _); [discriminate|].
      destruct (find_string_token r) as [m1|]; [|discriminate].
      intros [= <-]. cbn [m_length String.length]. specialize (IH m1 eq_refl). lia.
Qed.

(* ===================================================================== *)
(** ** The handlers do not look past white space *)

Lemma on_string_eq (st : State) :
  on_string st
  = let* (st1, sText) :=
      decode_string (S (String.length (range st))) st EmptyString in
    on_string_tail sText st1.
Proof. reflexivity. Qed.

Lemma same_core_retext (s1 s2 : State) :
  result s1 = result s2 -> flags s1 = flags s2 -> parents s1 = parents s2 ->
  s1 = retext s2 (json s1) (it s1) (itLineEnd s1).
Proof.
  destruct s1, s2. cbn. intros -> -> ->. reflexivity.
Qed.

Ltac retext_cases :=
  cbn [retext result flags parents json it itLineEnd
         with_flags with_parents with_result];
  pe_cases; intros [= <-]; reflexivity.

Lemma setValue_retext v (st st' : State) j i le :
  setValue v st = Ret st' -> setValue v (retext st j i le) = Ret (retext st' j i le).
Proof. unfold setValue, bind, top, assert. retext_cases. Qed.

Lemma setEnd_retext (st st' : State) j i le :
  setEnd st = Ret st' -> setEnd (retext st j i le) = Ret (retext st' j i le).
Proof. unfold setEnd, bind, top. retext_cases. Qed.

Lemma on_begin_retext ensure f (st st' : State) j i le :
  on_begin ensure f st = Ret st' ->
  on_begin ensure f (retext st j i le) = Ret (retext st' j i le).
Proof. unfold on_begin, bind, top. retext_cases. Qed.

Lemma on_object_end_retext (st st' : State) j i le :
  on_object_end st = Ret st' ->
  on_object_end (retext st j i le) = Ret (retext st' j i le).
Proof.
  unfold on_object_end, bind, top.
  cbn [retext result flags parents].
  destruct (parents st) as [|p ps]; [discriminate|].
  destruct (get_at (result st) p); [|discriminate].
  destruct (negb _); [discriminate|].
  apply (setEnd_retext st st' j i le).
Qed.

Lemma on_array_end_retext (st st' : State) j i le :
  on_array_end st = Ret st' ->
  on_array_end (retext st j i le) = Ret (retext st' j i le).
Proof.
  unfold on_array_end, bind, top.
  cbn [retext result flags parents].
  destruct (parents st) as [|p ps]; [discriminate|].
  destruct (get_at (result st) p); [|discriminate].
  destruct (negb _); [discriminate|].
  apply (setEnd_retext st st' j i le).
Qed.

Lemma on_comma_retext (st st' : State) j i le :
  on_comma st = Ret st' -> on_comma (retext st j i le) = Ret (retext st' j i le).
Proof. unfold on_comma. retext_cases. Qed.

Lemma on_string_tail_retext sText (st st' : State) j i le :
  on_string_tail sText st = Ret st' ->
  on_string_tail sText (retext st j i le) = Ret (retext st' j i le).
Proof.
  unfold on_string_tail. cbn [retext flags].
  destruct (objectKey (flags st) =? 1)%N; [|apply setValue_retext].
  unfold bind, top, assert, subscript_key. retext_cases.
Qed.

Lemma on_string_tail_it sText (st st' : State) :
  on_string_tail sText st = Ret st' -> it st' = it st.
Proof.
  unfold on_string_tail.
  destruct (objectKey (flags st) =? 1)%N; [|apply setValue_it].
  unfold bind, top, assert, subscript_key. pe_cases; intros [= <-]; reflexivity.
Qed.

Lemma on_object_end_it (st st' : State) : on_object_end st = Ret st' -> it st' = it st.
Proof.
  unfold on_object_end, bind.
  destruct (top st) as [[? ?]| | |]; try discriminate.
  destruct (negb _); [discriminate|]. apply setEnd_it.
Qed.

Lemma on_array_end_it (st st' : State) : on_array_end st = Ret st' -> it st' = it st.
Proof.
  unfold on_array_end, bind.
  destruct (top st) as [[? ?]| | |]; try discriminate.
  destruct (negb _); [discriminate|]. apply setEnd_it.
Qed.

Lemma on_comma_it (st st' : State) : on_comma st = Ret st' -> it st' = it st.
Proof. unfold on_comma. pe_cases; intros [= <-]; reflexivity. Qed.

(** A handler that only reads and writes the result, the flags and the
    stack does the same in two states that agree on them. *)
Lemma core_handler_sim (h : State -> outcome State) :
  (forall st st' j i le, h st = Ret st' -> h (retext st j i le) = Ret (retext st' j i le)) ->
  (forall st st', h st = Ret st' -> it st' = it st) ->
  forall s1 s2 s2' ws x,
    same_but_tails s1 s2 ws x -> blank ws = true -> h s2 = Ret s2' ->
    exists s1', h s1 = Ret s1' /\ same_but_tail s1' s2'.
Proof.
  intros Hre Hit s1 s2 s2' ws x (Hr & Hf & Hp & Hi & _) Hws Hh.
  exists (retext s2' (json s1) (it s1) (itLineEnd s1)). split.
  - rewrite (same_core_retext s1 s2 Hr Hf Hp) at 1. apply Hre, Hh.
  - unfold same_but_tail. cbn [retext result flags parents it].
    repeat split; try reflexivity.
    exists ws. split; [exact Hws|]. rewrite (Hit _ _ Hh). exact Hi.
Qed.

Lemma string_take_nil (n : nat) : string_take n EmptyString = EmptyString.
Proof. destruct n; reflexivity. Qed.

Lemma string_drop_take (k m : nat) (s : string) :
  string_drop k (string_take m s) = string_take (m - k) (string_drop k s).
Proof.
  revert m s. induction k as [|k IH]; intros m s.
  - rewrite Nat.sub_0_r. reflexivity.
  - destruct m as [|m].
    { reflexivity. }
    destruct s as [|c s]; [cbn; rewrite string_take_nil; reflexivity|].
    cbn [string_take string_drop Nat.sub]. apply IH.
Qed.

Lemma range_advance_any (k : nat) (st : State) :
  range (advance k st) = string_drop k (range st).
Proof.
  unfold range, advance. cbn [it itLineEnd with_it].
  rewrite string_drop_take, string_drop_length. f_equal. lia.
Qed.

Lemma range_length_le (st : State) :
  (String.length (range st) <= String.length (it st))%nat.
Proof. apply string_take_length_le. Qed.

Lemma advance_tails (k : nat) (s1 s2 : State) (ws x : string) :
  same_but_tails s1 s2 ws x -> (k <= String.length (range s2))%nat ->
  same_but_tails (advance k s1) (advance k s2) ws x.
Proof.
  intros (Hr & Hf & Hp & Hi & Hx) Hk.
  pose proof (range_length_le s2).
  unfold same_but_tails. rewrite !range_advance_any, Hx.
  cbn [advance result flags parents it with_it]. rewrite Hi.
  rewrite !string_drop_app_le by lia. auto.
Qed.

Lemma decode_string_sim (fuel2 : nat) :
  forall s2 text s2' t',
    decode_string fuel2 s2 text = Ret (s2', t') ->
    forall fuel1 s1 ws x,
      same_but_tails s1 s2 ws x -> blank x = true -> (fuel2 <= fuel1)%nat ->
      exists s1', decode_string fuel1 s1 text = Ret (s1', t')
                  /\ same_but_tails s1' s2' ws x.
Proof.
  induction fuel2 as [|fuel2 IH]; intros s2 text s2' t' Hd; [discriminate|].
  intros fuel1 s1 ws x Hrel Hx Hle.
  destruct fuel1 as [|fuel1]; [lia|].
  cbn [decode_string] in *.
  destruct Hrel as (Hr & Hf & Hp & Hi & Hrg).
  rewrite Hrg, find_string_token_tail by exact Hx.
  destruct (find_string_token (range s2)) as [m|] eqn:Hm; [|discriminate].
  assert (Hadv : same_but_tails (advance (m_length m) s1) (advance (m_length m) s2) ws x).
  { apply advance_tails; [unfold same_but_tails; auto|].
    apply find_string_token_le, Hm. }
  destruct (String.eqb (m2 m) sDQ).
  - injection Hd as <- <-. eauto.
  - destruct (find_key (m2 m) mapReplace).
    + eapply IH; eauto. lia.
    + destruct (to_bytes _) as [su8|e| |]; cbn [rethrow bind] in *;
        try discriminate.
      * eapply IH; eauto. lia.
      * destruct e; discriminate.
Qed.

Lemma block_comment_end_app (a b r : string) :
  block_comment_end a = Some r -> block_comment_end (a ++ b) = Some (r ++ b).
Proof.
  revert r. induction a as [|c a IH]; intros r; [discriminate|].
  cbn [block_comment_end]. destruct a as [|c' a]; [discriminate|].
  cbn [append]. cbn [block_comment_end].
  destruct (Ascii.eqb c "*" && Ascii.eqb c' "/").
  - intros [= <-]. reflexivity.
  - intros H. apply IH in H. exact H.
Qed.

Lemma find_line_end_tail (i ws : string) :
  blank ws = true ->
  exists ws', blank ws' = true
              /\ find_line_end (i ++ ws) = find_line_end i ++ ws'.
Proof.
  intros Hws. rewrite find_line_end_app. destruct (no_lf i) eqn:E.
  - exists (find_line_end ws). split; [apply blank_find_line_end, Hws|].
    rewrite (find_line_end_no_lf i E). reflexivity.
  - exists ws. auto.
Qed.

Lemma line_of_tail (i ws : string) :
  blank ws = true ->
  exists x, blank x = true /\ line_of (i ++ ws) = line_of i ++ x.
Proof.
  intros Hws. rewrite line_of_app. destruct (no_lf i) eqn:E.
  - exists (line_of ws). split; [apply blank_line_of, Hws|].
    rewrite (line_of_no_lf i E). reflexivity.
  - exists EmptyString. split; [reflexivity|]. rewrite append_nil_r. reflexivity.
Qed.

(** Every handler of [mapToken] does the same when white space is added
    after the text. *)
Lemma handler_sim (tok : string) (h : State -> outcome State)
    (s1 s2 s2' : State) (ws x : string) :
  find_key tok mapToken = Some h ->
  same_but_tails s1 s2 ws x -> blank ws = true -> blank x = true ->
  h s2 = Ret s2' ->
  exists s1', h s1 = Ret s1' /\ same_but_tail s1' s2'.
Proof.
  unfold mapToken. cbn [find_key].
  repeat (destruct (String.eqb tok _);
          [intros [= <-]; intros Hrel Hws Hx Hh;
           first [ eapply core_handler_sim;
                   eauto using setValue_retext, setValue_it,
                     on_object_end_retext, on_object_end_it,
                     on_array_end_retext, on_array_end_it,
                     on_comma_retext, on_comma_it; fail
                 | idtac ]
          |]); try discriminate.
  - (* line comment *)
    unfold on_line_comment, line_comment_end in *. injection Hh as <-.
    destruct Hrel as (Hr & Hf & Hp & Hi & _).
    destruct (find_line_end_tail (it s2) ws Hws) as (ws' & Hws' & E).
    eexists. split; [reflexivity|].
    unfold same_but_tail. cbn [with_it result flags parents it].
    repeat split; auto. exists ws'. rewrite Hi. auto.
  - (* block comment *)
    unfold on_block_comment in *.
    destruct (block_comment_end (it s2)) as [i|] eqn:E; [|discriminate].
    injection Hh as <-.
    destruct Hrel as (Hr & Hf & Hp & Hi & _).
    rewrite Hi, (block_comment_end_app _ ws _ E).
    eexists. split; [reflexivity|].
    unfold same_but_tail. cbn [with_it result flags parents it].
    repeat split; auto. exists ws. auto.
  - (* opening brace *)
    eapply (core_handler_sim (on_begin ensureMap (flags_key 1)));
      eauto using on_begin_retext, on_begin_it.
  - (* colon *)
    eapply (core_handler_sim on_colon); eauto.
    + intros st st' j i le [= <-]. reflexivity.
    + intros st st' [= <-]. reflexivity.
  - (* opening bracket *)
    eapply (core_handler_sim (on_begin ensureArray (flags_value 3 2)));
      eauto using on_begin_retext, on_begin_it.
  - (* string *)
    rewrite on_string_eq in Hh |- *. unfold bind at 1 in Hh.
    destruct (decode_string _ s2 EmptyString) as [[st1 sText]| | |] eqn:Hd;
      try discriminate.
    destruct (decode_string_sim _ _ _ _ _ Hd (S (String.length (range s1))) s1 ws x
                Hrel Hx) as (s1a & Hd1 & Hrel1).
    { destruct Hrel as (_ & _ & _ & _ & ->). rewrite length_append. lia. }
    unfold bind at 1. rewrite Hd1.
    eapply (core_handler_sim (on_string_tail sText));
      eauto using on_string_tail_retext, on_string_tail_it.
Qed.

Lemma dispatch_sim (t : string) (s1 s2 s2' : State) (ws x : string) :
  same_but_tails s1 s2 ws x -> blank ws = true -> blank x = true ->
  dispatch t s2 = Ret (Continue s2') ->
  exists s1', dispatch t s1 = Ret (Continue s1') /\ same_but_tail s1' s2'.
Proof.
  intros Hrel Hws Hx. unfold dispatch.
  destruct (find_key t mapToken) as [h|] eqn:Hk.
  - unfold bind. destruct (h s2) as [s2a| | |] eqn:Hh; try discriminate.
    intros [= <-].
    destruct (handler_sim _ _ _ _ _ _ _ Hk Hrel Hws Hx Hh) as (s1' & -> & Hs).
    eauto.
  - destruct (number_value t) as [v|e| |]; cbn [rethrow bind];
      try discriminate; [|destruct e; discriminate].
    destruct (setValue v s2) as [s2a| | |] eqn:Hh; try discriminate.
    intros [= <-].
    destruct (core_handler_sim (setValue v)
                (setValue_retext v) (setValue_it v) _ _ _ _ _ Hrel Hws Hh)
      as (s1' & -> & Hs).
    eauto.
Qed.

Lemma dispatch_no_break (t : string) (st st' : State) :
  dispatch t st <> Ret (Break st').
Proof.
  unfold dispatch, bind. pe_cases.
Qed.

Lemma turn_unfold (st : State) :
  turn st
  = if flags_all_is_zero (flags st) then Throw (parse_exception EmptyString st)
    else if bool_decide (parents st = []) then Throw (parse_exception EmptyString st)
    else if is_empty (it st) then
      if negb (bFinish (flags st)) then Throw (parse_exception EmptyString st)
      else Ret (Break st)
    else
      let st0 := with_itLineEnd (find_line_end (it st)) st in
      if negb (has_nonspace (line_of (it st)))
      then Ret (Continue (with_it (find_line_end (it st)) st0))
      else
        let* tok := match_token (flags st) (line_of (it st)) in
        match tok with
        | Some (t, n) => dispatch t (advance n st0)
        | None => dispatch EmptyString st0
        end.
Proof.
  unfold turn.
  destruct (flags_all_is_zero (flags st)); [reflexivity|].
  destruct (bool_decide (parents st = [])); [reflexivity|].
  destruct (is_empty (it st)); [reflexivity|].
  rewrite range_line. cbn [flags with_itLineEnd].
  destruct (negb _); [reflexivity|].
  unfold bind at 1 3. destruct (match_token _ _) as [[[t n]|]| | |]; reflexivity.
Qed.

Lemma app_is_empty (a b : string) :
  is_empty a = false -> is_empty (a ++ b) = false.
Proof. destruct a; [discriminate | reflexivity]. Qed.

(** One turn on a text and on the same text followed by white space. *)
Lemma sim_turn (s1 s2 : State) :
  same_but_tail s1 s2 ->
  match turn s2 with
  | Ret (Continue s2') =>
      exists s1', turn s1 = Ret (Continue s1') /\ same_but_tail s1' s2'
  | Ret (Break s2') => exists fuel, run fuel s1 = Some (Ret (result s2'))
  | _ => True
  end.
Proof.
  intros (Hr & Hf & Hp & ws & Hws & Hi).
  rewrite (turn_unfold s2).
  destruct (flags_all_is_zero (flags s2)) eqn:Hz; [exact I|].
  destruct (bool_decide (parents s2 = [])) eqn:Hps; [exact I|].
  apply bool_decide_eq_false_1 in Hps.
  destruct (is_empty (it s2)) eqn:He.
  { destruct (bFinish (flags s2)) eqn:Hfin; cbn [negb]; [|exact I].
    destruct (blank_run s1) as [fuel Hrun].
    - rewrite Hi. destruct (it s2); [exact Hws | discriminate].
    - rewrite Hf. exact Hz.
    - rewrite Hp. exact Hps.
    - exists fuel. rewrite Hrun, Hf, Hfin, Hr. reflexivity. }
  cbn zeta.
  destruct (line_of_tail (it s2) ws Hws) as (x & Hx & Hl).
  destruct (find_line_end_tail (it s2) ws Hws) as (ws' & Hws' & Hfl).
  assert (Ht1 : turn s1
                = let st0 := with_itLineEnd (find_line_end (it s1)) s1 in
                  if negb (has_nonspace (line_of (it s2)))
                  then Ret (Continue (with_it (find_line_end (it s1)) st0))
                  else
                    let* tok := match_token (flags s2) (line_of (it s1)) in
                    match tok with
                    | Some (t, n) => dispatch t (advance n st0)
                    | None => dispatch EmptyString st0
                    end).
  { assert (He1 : is_empty (it s1) = false)
      by (rewrite Hi; apply app_is_empty, He).
    assert (Hns1 : has_nonspace (line_of (it s1)) = has_nonspace (line_of (it s2))).
    { rewrite Hi, Hl, !has_nonspace_blank, blank_app, Hx, andb_true_r.
      reflexivity. }
    rewrite (turn_unfold s1), Hf, Hz, Hp, (bool_decide_eq_false_2 _ Hps), He1, Hns1.
    reflexivity. }
  cbn zeta in Ht1.
  set (s10 := with_itLineEnd (find_line_end (it s1)) s1) in *.
  set (s20 := with_itLineEnd (find_line_end (it s2)) s2) in *.
  assert (Hrel0 : same_but_tails s10 s20 ws x).
  { unfold same_but_tails, s10, s20. rewrite !range_line.
    cbn [with_itLineEnd result flags parents it]. rewrite <- Hl, <- Hi. auto. }
  destruct (has_nonspace (line_of (it s2))) eqn:Hns; cbn [negb] in *.
  2:{ eexists. split; [exact Ht1|].
      unfold same_but_tail, s10, s20.
      cbn [with_it with_itLineEnd result flags parents it].
      repeat split; auto. exists ws'. rewrite Hi. auto. }
  rewrite Hi, Hl in Ht1.
  destruct (match_token_tail (flags s2) (line_of (it s2)) x Hns Hx) as [Hm Hle].
  rewrite Hm in Ht1. unfold bind at 1. unfold bind at 1 in Ht1.
  destruct (match_token (flags s2) (line_of (it s2))) as [[[t n]|]| | |];
    try exact I.
  destruct (dispatch t (advance n s20)) as [[s2'|s2']| | |] eqn:Hd; try exact I.
    + destruct (dispatch_sim t (advance n s10) (advance n s20) s2' ws x)
        as (s1' & Hd1 & Hs); auto.
      { apply advance_tails; [exact Hrel0|].
        unfold s20. rewrite range_line. eapply Hle. reflexivity. }
      exists s1'. rewrite Ht1. auto.
    + exfalso. eapply dispatch_no_break, Hd.
Qed.

Lemma sim_run (fuel : nat) (s1 s2 : State) (v : JsonT) :
  same_but_tail s1 s2 -> run fuel s2 = Some (Ret v) ->
  exists fuel', run fuel' s1 = Some (Ret v).
Proof.
  revert s1 s2. induction fuel as [|fuel IH]; intros s1 s2 Hrel; [discriminate|].
  cbn [run]. pose proof (sim_turn s1 s2 Hrel) as Ht.
  destruct (turn s2) as [[s2'|s2']| | |]; try discriminate.
  - destruct Ht as (s1' & Ht1 & Hrel'). intros Hrun.
    destruct (IH _ _ Hrel' Hrun) as [fuel' Hr'].
    exists (S fuel'). cbn [run]. rewrite Ht1. exact Hr'.
  - intros [= <-]. exact Ht.
Qed.

(** X8: white space after a text that [parse] reads changes nothing:
    the same value is returned. *)
Theorem trailing_space_is_ignored (s ws : string) (opt : ParseOptions) (v : JsonT) :
  parse s opt = Ret v -> blank ws = true -> parse (s ++ ws) opt = Ret v.
Proof.
  intros Hp Hws. pose proof (parse_run s opt) as Hr. rewrite Hp in Hr.
  destruct (sim_run (S (String.length s)) (init_state (s ++ ws)) (init_state s) v)
    as [fuel Hf]; [|exact Hr|eapply parse_of_run, Hf].
  unfold same_but_tail. cbn. repeat split; eauto.
Qed.

Lemma trailing_space_is_ignored_witness :
  parse ("[1, 2]" ++ String " " (String chLF EmptyString)) default_ParseOptions
  = Ret (JArray [JInt 1; JInt 2]).
Proof.
  apply (trailing_space_is_ignored "[1, 2]"); [vm_compute; reflexivity | reflexivity].
Defined.

(* ===================================================================== *)
(** ** White space and comments in front of a text *)

Lemma block_comment_end_first (c r : string) :
  occurs "*/" c = false -> block_comment_end (c ++ "*/" ++ r) = Some r.
Proof.
  induction c as [|a c IH]; [reflexivity|].
  cbn [occurs]. intros H. apply orb_false_elim in H as [Hs Hc].
  specialize (IH Hc).
  change (String a c ++ "*/" ++ r) with (String a (c ++ "*/" ++ r)).
  cbn [block_comment_end].
  destruct c as [|b c].
  - cbn [append]. cbn [starts_with] in Hs.
    destruct (Ascii.eqb a "*"); [|exact IH]. cbn. exact IH.
  - change (String b c ++ "*/" ++ r) with (String b (c ++ "*/" ++ r)) in *.
    cbn [starts_with] in Hs. rewrite (Ascii.eqb_sym a), (Ascii.eqb_sym b).
    rewrite andb_true_r in Hs. rewrite Hs. exact IH.
Qed.

Lemma turn_skip_space (st : State) (c : ascii) (r : string) (o : loop) :
  it st = String c r -> isspace c = true -> c <> chLF -> r <> EmptyString ->
  turn (with_it r st) = Ret o -> turn st = Ret o.
Proof.
  intros Hit Hc Hlf Hr.
  rewrite !turn_unfold. cbn [with_it flags parents it]. rewrite Hit.
  destruct (flags_all_is_zero (flags st)); [discriminate|].
  destruct (bool_decide (parents st = [])); [discriminate|].
  rewrite (is_empty_false r Hr). cbn [is_empty].
  rewrite line_of_cons. cbn [find_line_end].
  destruct (Ascii.eqb_spec c chLF) as [->|_]; [congruence|].
  cbn [has_nonspace]. rewrite Hc. cbn [negb orb]. cbn zeta.
  destruct (has_nonspace (line_of r)); cbn [negb].
  - change (String c (line_of r)) with (str1 c ++ line_of r).
    rewrite (match_token_lead (flags st) (str1 c) (line_of r))
      by (cbn; rewrite Hc; reflexivity).
    unfold bind.
    destruct (match_token (flags st) (line_of r)) as [[[t n]|]| | |];
      try discriminate.
    intros <-. unfold advance. cbn [with_it with_itLineEnd it]. rewrite Hit.
    reflexivity.
  - intros [= <-]. reflexivity.
Qed.

Lemma turn_block_comment (j le c r : string) :
  occurs "*/" c = false ->
  turn (fresh_state j ("/*" ++ c ++ "*/" ++ r) le)
  = Ret (Continue (fresh_state j r (find_line_end ("/*" ++ c ++ "*/" ++ r)))).
Proof.
  intros Hc. rewrite turn_unfold.
  cbn [fresh_state flags parents it flags_all_is_zero flags_value negb andb
         bFinish bBegin].
  rewrite bool_decide_eq_false_2 by discriminate.
  change ("/*" ++ c ++ "*/" ++ r) with (String "/" (String "*" (c ++ "*/" ++ r))).
  cbn [is_empty]. cbn zeta.
  rewrite !line_of_cons.
  change (has_nonspace (String "/" _)) with true. cbn [negb].
  change (match_token _ _) with
    (Ret (Some ("/*", 2%nat)) : outcome (option (string * nat))).
  cbn [bind]. unfold dispatch. cbn [find_key mapToken String.eqb Ascii.eqb Bool.eqb].
  unfold on_block_comment. cbn [advance it with_it with_itLineEnd string_drop fresh_state].
  rewrite (block_comment_end_first c r Hc). reflexivity.
Qed.

Lemma turn_line_comment (j le c r : string) :
  no_lf c = true ->
  turn (fresh_state j ("//" ++ c ++ str1 chLF ++ r) le)
  = Ret (Continue (fresh_state j r (find_line_end ("//" ++ c ++ str1 chLF ++ r)))).
Proof.
  intros Hc. rewrite turn_unfold.
  cbn [fresh_state flags parents it flags_all_is_zero flags_value negb andb
         bFinish bBegin].
  rewrite bool_decide_eq_false_2 by discriminate.
  change ("//" ++ c ++ str1 chLF ++ r)
    with (String "/" (String "/" (c ++ str1 chLF ++ r))).
  cbn [is_empty]. cbn zeta.
  rewrite !line_of_cons.
  change (has_nonspace (String "/" _)) with true. cbn [negb].
  change (match_token _ _) with
    (Ret (Some ("//", 2%nat)) : outcome (option (string * nat))).
  cbn [bind]. unfold dispatch. cbn [find_key mapToken String.eqb Ascii.eqb Bool.eqb].
  unfold on_line_comment, line_comment_end.
  cbn [advance it with_it with_itLineEnd string_drop fresh_state].
  rewrite find_line_end_app, Hc. reflexivity.
Qed.

Lemma lead_run (p : string) :
  filler p ->
  forall (s : string) (fuel : nat) (v : JsonT),
    run fuel (init_state s) = Some (Ret v) ->
    forall j le, exists fuel', run fuel' (fresh_state j (p ++ s) le) = Some (Ret v).
Proof.
  induction 1 as [|c p Hc _ IH|c p Hc _ IH|c p Hc _ IH]; intros s fuel v Hrun j le.
  - eapply (sim_run fuel _ (init_state s)); [|exact Hrun].
    unfold same_but_tail. cbn. repeat split; auto.
    exists EmptyString. rewrite append_nil_r. auto.
  - change (String c p ++ s) with (String c (p ++ s)).
    destruct (Ascii.eqb_spec c chLF) as [->|Hlf].
    { destruct (IH s fuel v Hrun j (p ++ s)) as [fuel' Hr].
      exists (S fuel'). cbn [run].
      rewrite turn_blank_line; try (reflexivity || discriminate).
      - exact Hr.
      - cbn [fresh_state it]. rewrite line_of_cons. reflexivity. }
    destruct (String.eqb_spec (p ++ s) EmptyString) as [He|Hne].
    { assert (Hs : s = EmptyString) by (destruct p; [exact He | discriminate]).
      rewrite He. subst s.
      eapply (sim_run fuel _ (init_state EmptyString)); [|exact Hrun].
      unfold same_but_tail. cbn. repeat split; auto.
      exists (str1 c). cbn. rewrite Hc. auto. }
    destruct (IH s fuel v Hrun j le) as [fuel' Hr].
    destruct fuel' as [|fuel']; [discriminate|].
    exists (S fuel'). cbn [run] in *.
    destruct (turn (fresh_state j (p ++ s) le)) as [o| | |] eqn:Ht;
      try discriminate.
    rewrite (turn_skip_space (fresh_state j (String c (p ++ s)) le) c (p ++ s) o);
      auto.
  - destruct (IH s fuel v Hrun j
                (find_line_end ("/*" ++ c ++ "*/" ++ p ++ s))) as [fuel' Hr].
    exists (S fuel'). cbn [run].
    rewrite !append_assoc. rewrite (turn_block_comment j le c (p ++ s) Hc).
    exact Hr.
  - destruct (IH s fuel v Hrun j
                (find_line_end ("//" ++ c ++ str1 chLF ++ p ++ s))) as [fuel' Hr].
    exists (S fuel'). cbn [run].
    rewrite !append_assoc. rewrite (turn_line_comment j le c (p ++ s) Hc).
    exact Hr.
Qed.

(** X9: white space and comments in front of a text that [parse] reads
    are skipped: the same value is returned.  The comments are block
    comments, and line comments that end with a line feed. *)
Theorem leading_filler_is_skipped (p s : string) (opt : ParseOptions) (v : JsonT) :
  filler p -> parse s opt = Ret v -> parse (p ++ s) opt = Ret v.
Proof.
  intros Hp Hs. pose proof (parse_run s opt) as Hr. rewrite Hs in Hr.
  destruct (lead_run p Hp s _ v Hr (p ++ s) EmptyString) as [fuel Hf].
  eapply parse_of_run, Hf.
Qed.

Lemma leading_filler_is_skipped_witness :
  parse ((" /* a * b */" ++ String chLF "// c" ++ String chLF "  ") ++ "{}")
        default_ParseOptions
  = Ret (JMap []).
Proof.
  apply leading_filler_is_skipped; [|vm_compute; reflexivity].
  apply filler_space; [reflexivity|].
  apply (filler_block " a * b "); [reflexivity|].
  apply filler_space; [reflexivity|].
  apply (filler_line " c"); [reflexivity|].
  apply filler_space; [reflexivity|].
  apply filler_space; [reflexivity|].
  apply filler_nil.
Defined.

(* ===================================================================== *)
(** ** Reading an array of strings written as they are, and of integers *)

Lemma raw_char_find (c : ascii) :
  raw_char c = true ->
  forall l, find_string_token (String c l)
            = match find_string_token l with
              | Some m => Some (smatch_cons c m)
              | None => None
              end.
Proof.
  intros Hc. destruct c as [[] [] [] [] [] [] [] []]; try discriminate Hc;
    intros l; reflexivity.
Qed.

Lemma find_string_token_raw (k rest : string) :
  string_forallb raw_char k = true ->
  find_string_token (k ++ sDQ ++ rest) = Some (smatch_raw k).
Proof.
  induction k as [|c k IH]; [reflexivity|].
  cbn [string_forallb]. intros H. apply andb_prop in H as [Hc Hk].
  change (String c k ++ sDQ ++ rest) with (String c (k ++ sDQ ++ rest)).
  rewrite (raw_char_find c Hc), (IH Hk). reflexivity.
Qed.

Lemma raw_no_lf (k : string) : string_forallb raw_char k = true -> no_lf k = true.
Proof.
  apply string_forallb_impl. intros c H.
  destruct c as [[] [] [] [] [] [] [] []]; try discriminate H; reflexivity.
Qed.

Lemma on_string_raw (k : string) j r e m ps rest :
  string_forallb raw_char k = true ->
  on_string (mkst j r (flags_value e m) ps (k ++ sDQ ++ rest))
  = setValue (JString k) (mkst j r (flags_value e m) ps rest).
Proof.
  intros Hk. unfold on_string. cbn [decode_string].
  rewrite range_mkst, (find_string_token_raw k rest Hk).
  cbn [smatch_raw m_length m1 m2 String.eqb]. rewrite String.eqb_refl.
  assert (Hadv : advance (S (String.length k))
                   (mkst j r (flags_value e m) ps (k ++ sDQ ++ rest))
                 = mkst j r (flags_value e m) ps rest).
  { replace (S (String.length k)) with (String.length (k ++ sDQ))
      by (rewrite length_append; cbn; lia).
    rewrite <- append_assoc. apply advance_mkst. }
  rewrite Hadv. reflexivity.
Qed.

Lemma reads_raw (k : string) :
  string_forallb raw_char k = true -> reads (sDQ ++ k ++ sDQ) (JString k).
Proof.
  intros Hk j r ps m e F ps' f' rest Hslot He Hrest Hd.
  apply turns_one. rewrite !append_assoc.
  rewrite (turn_tok _ _ _ _ _ _ on_string).
  - rewrite on_string_raw by exact Hk.
    rewrite (setValue_slot _ _ _ _ _ _ _ _ _ _ Hslot). reflexivity.
  - reflexivity.
  - eapply slot_stack, Hslot.
  - discriminate.
  - reflexivity.
  - rewrite !no_lf_app, raw_no_lf, Hrest by exact Hk. reflexivity.
  - reflexivity.
  - apply match_token_value_lit; [exact He | eapply slot_mode, Hslot | auto].
  - reflexivity.
Qed.

Lemma reads_int (n : Z) : in_intmax n = true -> reads (to_string_int n) (JInt n).
Proof. intros Hn. exact (parses_int n Hn). Qed.

Lemma fill_row j r0 c tl x (tvs : list (string * JsonT)) :
  get_at r0 c = Some x ->
  Forall (fun tv => reads (fst tv) (snd tv) /\ no_lf (fst tv) = true) tvs ->
  forall a rest,
    size a + Z.of_nat (length tvs) < SIZE_MOD -> no_lf rest = true ->
    turns (mkst j (set_at r0 c (JArray a)) (flags_end 4) (c :: tl)
             (comma_tail fst tvs ++ "]" ++ rest))
          (mkst j (set_at r0 c (JArray (a ++ map snd tvs))) (flags_end 4)
             (c :: tl) ("]" ++ rest)).
Proof.
  intros Hx HP. induction HP as [|tv tvs [Hv Hlf] Hall IH]; intros a rest Hsz Hrest.
  - cbn [comma_tail map append]. rewrite app_nil_r. apply turns_nil.
  - cbn [length] in Hsz.
    assert (Htail : no_lf (comma_tail fst tvs ++ "]" ++ rest) = true).
    { rewrite !no_lf_app, Hrest, no_lf_comma_tail; [reflexivity|].
      eapply Forall_impl; [exact Hall|]. intros ? [_ H]. exact H. }
    cbn [comma_tail]. rewrite !append_assoc.
    eapply turns_cons.
    { apply turn_comma_array; [discriminate|].
      rewrite no_lf_app, Hlf, Htail. reflexivity. }
    eapply turns_trans.
    { apply (Hv j _ _ 2%N 0%N _ _ _ _
               (slot_element _ c a tl (get_at_set_at _ _ _ _ Hx) ltac:(lia))
               ltac:(auto) Htail).
      apply delim_comma_tail. auto. }
    cbn beta. rewrite (set_at_set_at _ _ _ _ _ Hx).
    cbn [map]. replace (a ++ snd tv :: map snd tvs)%list
      with ((a ++ [snd tv]) ++ map snd tvs)%list
      by (rewrite <- app_assoc; reflexivity).
    apply IH; auto. rewrite size_snoc. lia.
Qed.

(** The text of an array whose elements are read one by one is read as
    the array of their values, whatever follows on the line. *)
Lemma turns_row (tvs : list (string * JsonT)) (j rest : string) :
  Forall (fun tv => reads (fst tv) (snd tv) /\ no_lf (fst tv) = true) tvs ->
  Z.of_nat (length tvs) < SIZE_MOD -> no_lf rest = true ->
  turns (mkst j JNull (flags_value 0 3) [[]] ("[" ++ comma_join fst tvs ++ "]" ++ rest))
        (mkst j (JArray (map snd tvs)) flags_finish [[]] rest).
Proof.
  intros HP Hsz Hrest.
  assert (Hjoin : no_lf (comma_join fst tvs ++ "]" ++ rest) = true).
  { rewrite !no_lf_app, Hrest, no_lf_comma_join; [reflexivity|].
    eapply Forall_impl; [exact HP|]. intros ? [_ H]. exact H. }
  destruct (on_begin_slot j 0%N (comma_join fst tvs ++ "]" ++ rest)
              3%N JNull [[]] _ _ _ ensureArray (flags_value 3 2)
              (slot_root JNull [] eq_refl))
    as (r0 & c & tl & x & Hb & Hx & Hcl).
  eapply turns_cons.
  { rewrite (turn_tok _ _ _ _ _ _ on_array_begin).
    - unfold on_array_begin. rewrite Hb. reflexivity.
    - reflexivity.
    - discriminate.
    - discriminate.
    - reflexivity.
    - exact Hjoin.
    - reflexivity.
    - apply match_token_value_lit; auto.
    - reflexivity. }
  cbn [ensureArray].
  assert (Hclose : forall V,
    turn (mkst j (set_at r0 c (JArray V)) (flags_end 4) (c :: tl) ("]" ++ rest))
    = Ret (Continue (mkst j (JArray V) flags_finish [[]] rest))).
  { intros V. rewrite (turn_tok _ _ _ _ _ _ on_array_end); auto;
      try reflexivity; try discriminate.
    rewrite (on_array_end_closes _ _ _ _ _ _ _ _ _ _ _ Hcl Hx). reflexivity. }
  destruct HP as [|tv tvs [Hv Hlf] Hvs].
  - cbn [comma_join map].
    change (EmptyString ++ "]" ++ rest) with ("]" ++ rest). apply turns_one.
    rewrite (turn_tok _ _ _ _ _ _ on_array_end); auto;
      try reflexivity; try discriminate.
    rewrite (on_array_end_closes _ _ _ _ _ _ _ _ _ _ _ Hcl Hx). reflexivity.
  - cbn [length] in Hsz. cbn [comma_join] in *.
    rewrite append_assoc in Hjoin |- *.
    rewrite no_lf_app in Hjoin. apply andb_true_iff in Hjoin as [_ Htail].
    eapply turns_trans.
    { apply (Hv j _ _ 2%N 3%N _ _ _ _
               (slot_element _ c [] tl (get_at_set_at _ _ _ _ Hx)
                  ltac:(unfold size; cbn [length]; lia))
               ltac:(auto) Htail).
      apply delim_comma_tail. auto. }
    cbn beta. rewrite (set_at_set_at _ _ _ _ _ Hx). cbn [app].
    eapply turns_trans.
    { eapply (fill_row j r0 c tl x tvs Hx Hvs [snd tv] rest);
        [unfold size; cbn [length]; lia | exact Hrest]. }
    apply turns_one. cbn [map app]. apply Hclose.
Qed.

Lemma parse_row (tvs : list (string * JsonT)) (opt : ParseOptions) :
  Forall (fun tv => reads (fst tv) (snd tv) /\ no_lf (fst tv) = true) tvs ->
  Z.of_nat (length tvs) < SIZE_MOD ->
  parse ("[" ++ comma_join fst tvs ++ "]") opt = Ret (JArray (map snd tvs)).
Proof.
  intros HP Hsz.
  apply (parse_of_turns _ _ _ [[]]); [discriminate|].
  pose proof (turns_row tvs ("[" ++ comma_join fst tvs ++ "]") EmptyString
                HP Hsz eq_refl) as Ht.
  rewrite !append_nil_r in Ht. exact Ht.
Qed.

(* ===================================================================== *)
(** ** Pointers that follow a path *)

Lemma regex_replace_absent (a : ascii) (fmt s : string) :
  string_forallb (fun c => negb (Ascii.eqb c a)) s = true ->
  regex_replace s (str1 a) fmt = s.
Proof.
  unfold regex_replace. induction s as [|c s IH]; [reflexivity|].
  cbn [string_forallb]. intros H. apply andb_prop in H as [Hc Hs].
  cbn [regex_replace_from starts_with str1].
  rewrite Ascii.eqb_sym. apply negb_true_iff in Hc. rewrite Hc. cbn [andb].
  rewrite (IH Hs). reflexivity.
Qed.

Lemma replace_tilde0 (k : string) :
  regex_replace (escape_key k) "~0" "~" = escape_slash k.
Proof.
  unfold regex_replace. induction k as [|c k IH]; [reflexivity|].
  cbn [escape_key escape_slash]. unfold escape_key_char.
  destruct (Ascii.eqb_spec c "~") as [->|Hc].
  - cbn. rewrite IH. reflexivity.
  - destruct (Ascii.eqb_spec c "/") as [->|Hs].
    + cbn. rewrite IH. reflexivity.
    + cbn [append str1 regex_replace_from starts_with].
      destruct (Ascii.eqb_spec "~" c) as [E|_]; [congruence|].
      cbn [andb]. rewrite IH. reflexivity.
Qed.

Lemma escape_slash_head (k : string) :
  starts_with "1" (escape_slash k) = starts_with "1" k.
Proof.
  destruct k as [|c k]; [reflexivity|]. cbn [escape_slash].
  destruct (Ascii.eqb_spec c "/") as [->|_]; reflexivity.
Qed.

Lemma replace_tilde1 (k : string) :
  occurs "~1" k = false ->
  regex_replace (escape_slash k) "~1" "/" = k.
Proof.
  unfold regex_replace. induction k as [|c k IH]; [reflexivity|].
  cbn [occurs]. intros H. apply orb_false_elim in H as [Hs Hk].
  specialize (IH Hk). cbn [escape_slash].
  destruct (Ascii.eqb_spec c "/") as [->|Hc].
  - cbn. rewrite IH. reflexivity.
  - cbn [append str1 regex_replace_from].
    assert (Hst : starts_with "~1" (String c (escape_slash k)) = false).
    { cbn [starts_with] in Hs |- *.
      destruct (Ascii.eqb "~" c); [|reflexivity]. cbn [andb] in *.
      change (starts_with "1" (escape_slash k) = false).
      rewrite escape_slash_head. exact Hs. }
    rewrite Hst, IH. reflexivity.
Qed.

Lemma pointer_key_chars (k : string) :
  string_forallb pointer_key_char k = true ->
  string_forallb raw_char k = true
  /\ string_forallb (fun c => negb (Ascii.eqb c chCR)) k = true
  /\ string_forallb (fun c => negb (Ascii.eqb c chTAB)) k = true
  /\ string_forallb (fun c => negb (Ascii.eqb c chBS)) k = true.
Proof.
  intros H. repeat split; revert H; apply string_forallb_impl; intros c Hc;
    destruct c as [[] [] [] [] [] [] [] []]; try discriminate Hc; reflexivity.
Qed.

(** The replacements of [at] undo the escapes of the token. *)
Lemma unescape_key (k : string) :
  string_forallb pointer_key_char k = true -> occurs "~1" k = false ->
  replace_each pointer_tbl (escape_key k) = k.
Proof.
  intros Hk Ho. destruct (pointer_key_chars k Hk) as (_ & Hcr & Htab & Hbs).
  unfold replace_each, pointer_tbl. cbn [fold_left fst snd].
  rewrite replace_tilde0, (replace_tilde1 k Ho).
  rewrite (regex_replace_absent chCR _ k Hcr).
  rewrite (regex_replace_absent chTAB _ k Htab).
  apply (regex_replace_absent chBS _ k Hbs).
Qed.

Lemma escape_key_digits (k : string) : is_digits (escape_key k) = is_digits k.
Proof.
  unfold is_digits. f_equal.
  - destruct k as [|c k]; [reflexivity|]. cbn [escape_key]. unfold escape_key_char.
    destruct (Ascii.eqb c "~"); [reflexivity|].
    destruct (Ascii.eqb c "/"); reflexivity.
  - induction k as [|c k IH]; [reflexivity|].
    cbn [escape_key]. unfold escape_key_char.
    destruct (Ascii.eqb_spec c "~") as [->|_]; [reflexivity|].
    destruct (Ascii.eqb_spec c "/") as [->|_]; [reflexivity|].
    cbn [append str1 string_forallb]. rewrite IH. reflexivity.
Qed.

Lemma escape_key_no_slash (k : string) :
  string_forallb (fun c => negb (Ascii.eqb c "/")) (escape_key k) = true.
Proof.
  induction k as [|c k IH]; [reflexivity|].
  cbn [escape_key]. unfold escape_key_char.
  destruct (Ascii.eqb_spec c "~") as [->|_]; [exact IH|].
  destruct (Ascii.eqb_spec c "/") as [->|Hc]; [exact IH|].
  cbn [append str1 string_forallb]. rewrite IH, andb_true_r.
  apply negb_true_iff. destruct (Ascii.eqb_spec c "/"); congruence.
Qed.

Lemma to_string_nat_digits (i : nat) :
  string_forallb isdigit (to_string_int (Z.of_nat i)) = true
  /\ to_string_int (Z.of_nat i) <> EmptyString.
Proof.
  unfold to_string_int.
  destruct (Z.of_nat i) as [|q|q] eqn:E; try lia.
  - split; [reflexivity | discriminate].
  - cbn [Z.to_int NilZero.string_of_int]. apply nz_uint_digits.
Qed.

Lemma digits_no_slash (s : string) :
  string_forallb isdigit s = true ->
  string_forallb (fun c => negb (Ascii.eqb c "/")) s = true.
Proof.
  apply string_forallb_impl. intros c H.
  destruct (isdigit_cases c H) as [->|[->|[->|[->|[->|[->|[->|[->|[->| ->]]]]]]]]];
    reflexivity.
Qed.

Lemma token_no_slash (s : step) :
  string_forallb (fun c => negb (Ascii.eqb c "/")) (token_of_step s) = true.
Proof.
  destruct s as [k|i]; [apply escape_key_no_slash|].
  apply digits_no_slash, to_string_nat_digits.
Qed.

Lemma split_slash_token (t rest cur : string) :
  string_forallb (fun c => negb (Ascii.eqb c "/")) t = true ->
  split_slash cur (t ++ "/" ++ rest) = (cur ++ t) :: split_slash EmptyString rest.
Proof.
  revert cur. induction t as [|c t IH]; intros cur.
  - intros _. cbn. rewrite append_nil_r. reflexivity.
  - cbn [string_forallb]. intros H. apply andb_prop in H as [Hc Ht].
    cbn [append split_slash]. apply negb_true_iff in Hc. rewrite Hc.
    rewrite (IH _ Ht), append_assoc. reflexivity.
Qed.

Lemma split_pointer_text (p : path) (s : step) :
  split_slash EmptyString (token_of_step s ++ pointer_text p ++ "/")
  = map token_of_step (s :: p).
Proof.
  revert s. induction p as [|s' p IH]; intros s.
  - cbn [pointer_text append map]. rewrite (split_slash_token _ EmptyString).
    + reflexivity.
    + apply token_no_slash.
  - cbn [pointer_text]. rewrite !append_assoc.
    rewrite (split_slash_token _ _ EmptyString) by apply token_no_slash.
    rewrite IH. reflexivity.
Qed.

Lemma comma_tail_map {A B : Type} (f : B -> string) (g : A -> B) (l : list A) :
  comma_tail f (map g l) = comma_tail (fun x => f (g x)) l.
Proof.
  induction l as [|x l IH]; [reflexivity|]. cbn [map comma_tail]. rewrite IH.
  reflexivity.
Qed.

Lemma comma_tail_ext {A : Type} (f g : A -> string) (l : list A) :
  Forall (fun x => f x = g x) l -> comma_tail f l = comma_tail g l.
Proof.
  induction 1 as [|x l Hx _ IH]; [reflexivity|]. cbn [comma_tail].
  rewrite Hx, IH. reflexivity.
Qed.

Lemma pointer_step_element (s : step) :
  pointer_step s = true ->
  (if is_digits (token_of_step s) then token_of_step s
   else sDQ ++ replace_each pointer_tbl (token_of_step s) ++ sDQ)
  = elem_text s.
Proof.
  destruct s as [k|i]; cbn [pointer_step token_of_step elem_text].
  - unfold pointer_key. intros H.
    apply andb_prop in H as [H Ho]. apply andb_prop in H as [Hk Hd].
    rewrite escape_key_digits. apply negb_true_iff in Hd, Ho. rewrite Hd.
    rewrite (unescape_key k Hk Ho). reflexivity.
  - intros _. destruct (to_string_nat_digits i) as [Hd Hne].
    unfold is_digits. rewrite Hd, (is_empty_false _ Hne). reflexivity.
Qed.

Lemma pointer_json_path (p : path) :
  forallb pointer_step p = true ->
  pointer_json (EmptyString :: map token_of_step p)
  = "[" ++ comma_join fst (map elem_of_step (Key EmptyString :: p)) ++ "]".
Proof.
  intros Hp. unfold pointer_json.
  rewrite (fold_left_pointwise _
             (fun json s =>
                json ++ ((if is_digits s then s
                          else sDQ ++ replace_each pointer_tbl s ++ sDQ) ++ ","))).
  2:{ intros json s. destruct (is_digits s); [reflexivity|].
      rewrite !append_assoc. reflexivity. }
  rewrite fold_commas.
  change ((?a ++ ?b) ++ ",") with ((a ++ b) ++ str1 ",").
  rewrite pop_back_app_char, append_assoc. do 2 f_equal.
  cbn [comma_join map elem_of_step fst elem_text].
  change (is_digits EmptyString) with false. cbn iota.
  change (replace_each pointer_tbl EmptyString) with EmptyString.
  f_equal. rewrite !comma_tail_map. apply comma_tail_ext.
  apply List.Forall_forall. intros s Hs. cbn [elem_of_step fst].
  apply pointer_step_element.
  eapply forallb_forall in Hp; [exact Hp | exact Hs].
Qed.

Lemma reads_element (s : step) :
  pointer_step s = true ->
  reads (elem_text s) (elem_value s) /\ no_lf (elem_text s) = true.
Proof.
  destruct s as [k|i]; cbn [pointer_step elem_text elem_value].
  - unfold pointer_key. intros H.
    apply andb_prop in H as [H _]. apply andb_prop in H as [Hk _].
    destruct (pointer_key_chars k Hk) as (Hraw & _).
    split; [apply reads_raw, Hraw|].
    rewrite !no_lf_app, (raw_no_lf k Hraw). reflexivity.
  - intros Hi. apply Z.ltb_lt in Hi.
    split; [|apply to_string_int_no_lf].
    apply reads_int. unfold in_intmax, INTMAX_MIN, INTMAX_MAX.
    apply andb_true_iff. split; apply Z.leb_le; lia.
Qed.

Lemma pointer_tokens_path (p : path) :
  p <> [] -> forallb pointer_step p = true ->
  Z.of_nat (length p) + 1 < SIZE_MOD ->
  pointer_tokens {| text := pointer_text p |}
  = Ret (JNull :: map elem_value p).
Proof.
  intros Hne Hp Hsz. unfold pointer_tokens. cbn [text].
  destruct p as [|s p]; [congruence|].
  cbn [pointer_text]. change (is_empty ("/" ++ _)) with false. cbn iota.
  rewrite !append_assoc.
  change (split_slash EmptyString ("/" ++ ?x))
    with (EmptyString :: split_slash EmptyString x).
  rewrite split_pointer_text, (pointer_json_path (s :: p) Hp).
  rewrite parse_row.
  - cbn [bind map elem_of_step snd elem_value type Type_.eqb assert
           ensureArray get_Array isType get_string is_empty andb clear].
    rewrite map_map. reflexivity.
  - apply List.Forall_forall. intros tv Htv.
    apply in_map_iff in Htv as (s' & <- & Hs').
    cbn [elem_of_step fst snd].
    destruct Hs' as [<-|Hs']; [split; [apply (reads_raw EmptyString) |]; reflexivity|].
    apply reads_element. eapply forallb_forall in Hp; [exact Hp | exact Hs'].
  - rewrite length_map. cbn [length] in *. lia.
Qed.

Lemma get_at_app (v : JsonT) (p q : path) :
  get_at v (p ++ q)
  = match get_at v p with
    | Some c => get_at c q
    | None => None
    end.
Proof.
  revert v. induction p as [|s p IH]; intros v; [reflexivity|].
  cbn [app get_at]. destruct (child v s); [apply IH | reflexivity].
Qed.

(** The loop of [at] over the values of the steps of [p] follows [p]. *)
Lemma walk_path (this : JsonT) (p : path) :
  forallb pointer_step p = true ->
  forall q cur, get_at this q = Some cur ->
    match get_at cur p with
    | Some _ => walk this q (map elem_value p) = Ret (q ++ p)%list
    | None => exists w, walk this q (map elem_value p) = Throw (out_of_range w)
    end.
Proof.
  induction p as [|s p IH]; intros Hp q cur Hq.
  - cbn. rewrite app_nil_r. reflexivity.
  - cbn [forallb] in Hp. apply andb_prop in Hp as [Hs Hp].
    cbn [map walk get_at]. rewrite Hq. cbn [bind].
    assert (Hstep :
      match child cur s with
      | Some _ =>
          match type (elem_value s) with
          | Type_.Int =>
              at_index cur (static_cast t_size (get_integer t_int (elem_value s)))
          | _ => at_key cur (get_string (elem_value s))
          end = Ret s
      | None =>
          exists w,
            match type (elem_value s) with
            | Type_.Int =>
                at_index cur (static_cast t_size (get_integer t_int (elem_value s)))
            | _ => at_key cur (get_string (elem_value s))
            end = Throw (out_of_range w)
      end).
    { destruct s as [k|i]; cbn [elem_value type get_string get_integer child].
      - destruct cur; try (eexists; reflexivity). cbn [at_key].
        destruct (map_find k m_map); [reflexivity | eexists; reflexivity].
      - cbn [pointer_step] in Hs. apply Z.ltb_lt in Hs.
        rewrite (static_cast_id t_int) by (cbn; lia || (apply andb_true_iff; split;
          [apply Z.leb_le | apply Z.ltb_lt]; cbn; lia)).
        rewrite (static_cast_id t_size) by (cbn; lia || (apply andb_true_iff; split;
          [apply Z.leb_le | apply Z.ltb_lt]; cbn; lia)).
        destruct cur; try (eexists; reflexivity). cbn [at_index]. unfold size.
        destruct (Z.leb_spec (Z.of_nat (length m_array)) (Z.of_nat i)) as [Hge|Hlt].
        + rewrite (lookup_ge_None_2 m_array i) by lia. eexists. reflexivity.
        + destruct (lookup_lt_is_Some_2 m_array i ltac:(lia)) as [c ->].
          rewrite Nat2Z.id. reflexivity. }
    destruct (child cur s) as [c|] eqn:Hc.
    + specialize (IH Hp (q ++ [s])%list c).
      rewrite (get_at_snoc _ _ s _ Hq) in IH. specialize (IH Hc).
      replace (q ++ s :: p)%list with ((q ++ [s]) ++ p)%list
        by (rewrite <- app_assoc; reflexivity).
      destruct s as [k|i]; cbn [elem_value type] in Hstep |- *;
        rewrite Hstep; cbn [bind]; exact IH.
    + destruct Hstep as [w Hw].
      destruct s as [k|i]; cbn [elem_value type] in Hw |- *;
        rewrite Hw; cbn [bind]; eauto.
Qed.

(** X10: a pointer written from a path resolves to that path.  The
    pointer has one token per step: the key with [~0] for a tilde and [~1]
    for a slash, or the decimal index.  When the path leads to a node of
    the receiver, [at] returns a reference to that node; when it does not,
    [at] throws [std::out_of_range].  (Keys are without quote, backslash
    and control characters, are not all digits, and hold no tilde followed
    by [1]; indices fit [int].) *)
Theorem at_pointer_follows_path (this : JsonT) (p : path) :
  forallb pointer_step p = true -> Z.of_nat (length p) + 1 < SIZE_MOD ->
  match get_at this p with
  | Some _ => at_pointer this {| text := pointer_text p |} = Ret p
  | None => exists w,
      at_pointer this {| text := pointer_text p |} = Throw (out_of_range w)
  end.
Proof.
  intros Hp Hsz. destruct p as [|s p]; [reflexivity|].
  unfold at_pointer.
  rewrite pointer_tokens_path by (auto; discriminate).
  cbn [bind isNull isType type Type_.eqb negb].
  exact (walk_path this (s :: p) Hp [] this eq_refl).
Qed.

Lemma at_pointer_follows_path_witness :
  at_pointer (JMap [("a/b", JArray [JInt 10; JMap [("~", JBool true)]])])
             {| text := "/a~1b/1/~0" |}
  = Ret [Key "a/b"; Idx 1; Key "~"].
Proof.
  apply (at_pointer_follows_path
           (JMap [("a/b", JArray [JInt 10; JMap [("~", JBool true)]])])
           [Key "a/b"; Idx 1; Key "~"]).
  - reflexivity.
  - rewrite size_mod_val. cbn. lia.
Defined.

Lemma at_key_child (v : JsonT) (key : string) (s : step) :
  at_key v key = Ret s -> exists c, child v s = Some c.
Proof.
  destruct v; try discriminate. cbn [at_key].
  destruct (map_find key m_map) as [c|] eqn:E; [|discriminate].
  intros [= <-]. exists c. exact E.
Qed.

Lemma at_index_child (v : JsonT) (index : Z) (s : step) :
  0 <= index -> at_index v index = Ret s -> exists c, child v s = Some c.
Proof.
  intros Hi. destruct v; try discriminate. cbn [at_index]. unfold size.
  destruct (Z.leb_spec (Z.of_nat (length m_array)) index); [discriminate|].
  intros [= <-]. cbn [child]. apply lookup_lt_is_Some_2. lia.
Qed.

Lemma walk_valid (this : JsonT) (tokens : list JsonT) :
  forall q p, walk this q tokens = Ret p ->
    (exists c, get_at this q = Some c) -> exists c, get_at this p = Some c.
Proof.
  induction tokens as [|j tokens IH]; intros q p.
  - intros [= <-]. auto.
  - cbn [walk]. intros Hw [cur Hq]. rewrite Hq in Hw. cbn [bind] in Hw.
    assert (Hnext : forall s, child cur s <> None ->
              walk this (q ++ [s])%list tokens = Ret p ->
              exists c, get_at this p = Some c).
    { intros s Hs Hw'. apply (IH _ _ Hw').
      rewrite (get_at_snoc _ _ s _ Hq).
      destruct (child cur s) as [c|]; [eauto | congruence]. }
    destruct (type j); try discriminate.
    + destruct (at_index cur _) as [s| | |] eqn:Es; try discriminate.
      apply at_index_child in Es as [c Hc].
      * apply (Hnext s); [congruence | exact Hw].
      * unfold static_cast. cbn [is_signed t_size andb bits].
        apply Z.mod_pos_bound. reflexivity.
    + destruct (at_key cur _) as [s| | |] eqn:Es; try discriminate.
      apply at_key_child in Es as [c Hc].
      apply (Hnext s); [congruence | exact Hw].
Qed.

(** X11: whatever the pointer, a reference that [at(Pointer)] returns
    designates a node that exists in the receiver (nothing is created on
    the way), and the const [operator[](Pointer)] returns the same
    reference. *)
Theorem at_pointer_designates_a_node (this : JsonT) (pointer : Pointer) (p : path) :
  at_pointer this pointer = Ret p ->
  (exists c, get_at this p = Some c)
  /\ subscript_pointer this pointer = Ret (Some p).
Proof.
  intros H. split; [|unfold subscript_pointer; rewrite H; reflexivity].
  unfold at_pointer, bind in H.
  destruct (pointer_tokens pointer) as [[|t0 rest]| | |]; try discriminate.
  - injection H as <-. exists this. reflexivity.
  - destruct (negb (isNull t0)); [discriminate|].
    apply (walk_valid this rest [] p H). exists this. reflexivity.
Qed.

Lemma at_pointer_designates_a_node_witness :
  exists c, get_at pointer_tree [Key "a"; Idx 1] = Some c.
Proof.
  apply (at_pointer_designates_a_node pointer_tree {| text := "/a/1" |}).
  vm_compute. reflexivity.
Defined.

(* ===================================================================== *)
(** ** What is accepted after a complete value *)

Lemma repeat_closing_no_lf (v : JsonT) (n : nat) :
  type v = Type_.Array \/ type v = Type_.Map ->
  no_lf (repeat_text n (closing v)) = true /\ delim (repeat_text n (closing v)) = true.
Proof.
  intros Hv. split.
  - induction n as [|n IH]; [reflexivity|]. cbn [repeat_text].
    rewrite no_lf_app, IH. destruct v; reflexivity.
  - destruct n as [|n]; [reflexivity|]. cbn [repeat_text].
    destruct v; destruct Hv as [Hv|Hv]; try discriminate Hv; reflexivity.
Qed.

Lemma turn_extra_closer (v : JsonT) (j rest : string) :
  type v = Type_.Array \/ type v = Type_.Map -> no_lf rest = true ->
  turn (mkst j v flags_finish [[]] (closing v ++ rest))
  = Ret (Continue (mkst j v flags_finish [[]] rest)).
Proof.
  intros Hv Hrest.
  destruct v; destruct Hv as [Hv|Hv]; try discriminate Hv; cbn [closing].
  - rewrite (turn_tok _ _ _ _ _ _ on_array_end); auto;
      try reflexivity; discriminate.
  - rewrite (turn_tok _ _ _ _ _ _ on_object_end); auto;
      try reflexivity; discriminate.
Qed.

Lemma run_extra_closers (v : JsonT) (j : string) (n : nat) :
  type v = Type_.Array \/ type v = Type_.Map ->
  run (S n) (mkst j v flags_finish [[]] (repeat_text n (closing v))) = Some (Ret v).
Proof.
  intros Hv. induction n as [|n IH].
  - cbn [run repeat_text]. unfold mkst. rewrite turn_finish by discriminate.
    reflexivity.
  - cbn [repeat_text]. change (run (S (S n)) ?st)
      with (match turn st with
            | Ret (Continue st') => run (S n) st'
            | Ret (Break st') => Some (Ret (result st'))
            | Throw e => Some (Throw e)
            | AssertFail => Some AssertFail
            | Undefined => Some Undefined
            end).
    rewrite turn_extra_closer; [exact IH | exact Hv |].
    apply repeat_closing_no_lf, Hv.
Qed.

(** X12: closing brackets in excess are accepted: the text of an array
    followed by any number of [\]], and the text of an object followed by
    any number of [}], is read as the array or the object itself. *)
Theorem extra_closers_are_accepted (v : JsonT) (n : nat) (opt : ParseOptions) :
  type v = Type_.Array \/ type v = Type_.Map ->
  well_formed v = true -> plain v = true ->
  parse (stringify v ++ repeat_text n (closing v)) opt = Ret v.
Proof.
  intros Hv Hwf Hpl.
  destruct (repeat_closing_no_lf v n Hv) as [Hlf Hd].
  pose proof (parses_plain v (well_formed_representable v Hwf) Hpl
                (stringify v ++ repeat_text n (closing v)) JNull [[]] 3%N 0%N _ _ _
                (repeat_text n (closing v)) (slot_root JNull [] eq_refl)
                ltac:(auto) Hlf Hd) as Ht.
  rewrite (as_parsed_well_formed v Hwf) in Ht. cbn [set_at] in Ht.
  destruct (turns_run _ _ Ht _ _ (run_extra_closers v _ n Hv)) as [fuel Hf].
  eapply parse_of_run, Hf.
Qed.

Lemma extra_closers_are_accepted_witness :
  parse ("[1,[2]]" ++ "]]]") default_ParseOptions
  = Ret (JArray [JInt 1; JArray [JInt 2]]).
Proof.
  apply (extra_closers_are_accepted (JArray [JInt 1; JArray [JInt 2]]) 3);
    auto; reflexivity.
Defined.

Lemma comma_join_map {A B : Type} (f : B -> string) (g : A -> B) (l : list A) :
  comma_join f (map g l) = comma_join (fun x => f (g x)) l.
Proof.
  destruct l as [|x l]; [reflexivity|]. cbn [map comma_join].
  rewrite comma_tail_map. reflexivity.
Qed.

(** X13: a colon after a complete array is not refused: it is taken as a
    token (anything that is not white space is one after a complete
    value) and makes the loop wait for the value of a member; the literal
    that follows then fails the assertion of [setValue], because the
    place it is to be stored in is the array and not an empty element. *)
Theorem colon_after_array_fails_assertion
    (a : Array) (tok : string) (opt : ParseOptions) :
  well_formed (JArray a) = true -> plain (JArray a) = true ->
  tok = "null" \/ tok = "true" \/ tok = "false" ->
  parse (stringify (JArray a) ++ ":" ++ tok) opt = AssertFail.
Proof.
  intros Hwf Hpl Htok.
  rewrite stringify_array, !append_assoc.
  set (txt := "[" ++ comma_join stringify a ++ "]" ++ ":" ++ tok).
  assert (Htoklf : no_lf (":" ++ tok) = true)
    by (destruct Htok as [->|[->| ->]]; reflexivity).
  pose proof (turns_row (map (fun v => (stringify v, v)) a) txt (":" ++ tok)) as Ht.
  rewrite map_map, map_id, comma_join_map, length_map in Ht. cbn [fst] in Ht.
  cbn [well_formed plain] in Hwf, Hpl.
  apply andb_prop in Hwf as [Hsz Hwf]. apply Z.ltb_lt in Hsz.
  assert (Hrd : Forall (fun tv : string * JsonT =>
                          reads (fst tv) (snd tv) /\ no_lf (fst tv) = true)
                       (map (fun v => (stringify v, v)) a)).
  { apply List.Forall_forall. intros tv Htv.
    apply in_map_iff in Htv as (v & <- & Hv). cbn [fst snd].
    eapply forallb_forall in Hwf; [|exact Hv].
    eapply forallb_forall in Hpl; [|exact Hv].
    split; [|apply no_lf_stringify, plain_readable, Hpl].
    pose proof (parses_plain v (well_formed_representable v Hwf) Hpl) as Hr.
    unfold parses in Hr. rewrite (as_parsed_well_formed v Hwf) in Hr. exact Hr. }
  specialize (Ht Hrd Hsz Htoklf).
  assert (Hrun : run 2 (mkst txt (JArray a) flags_finish [[]] (":" ++ tok))
                 = Some AssertFail).
  { cbn [run].
    rewrite (turn_tok _ _ _ _ _ _ on_colon); auto; try reflexivity;
      try discriminate.
    cbn [on_colon bind].
    change (with_flags (flags_value 0 1) (mkst txt (JArray a) flags_finish [[]] tok))
      with (mkst txt (JArray a) (flags_value 0 1) [[]] tok).
    rewrite <- (append_nil_r tok).
    destruct Htok as [->|[->| ->]].
    - rewrite (turn_tok _ _ _ _ _ _ (setValue JNull)); auto; reflexivity.
    - rewrite (turn_tok _ _ _ _ _ _ (setValue (JBool true))); auto; reflexivity.
    - rewrite (turn_tok _ _ _ _ _ _ (setValue (JBool false))); auto; reflexivity. }
  change (turns (init_state txt)
            (mkst txt (JArray a) flags_finish [[]] (":" ++ tok))) in Ht.
  destruct (turns_run _ _ Ht _ _ Hrun) as [fuel Hf].
  eapply parse_of_run, Hf.
Qed.

Lemma colon_after_array_fails_assertion_witness :
  parse ("[]" ++ ":" ++ "null") default_ParseOptions = AssertFail.
Proof.
  apply (colon_after_array_fails_assertion [] "null"); auto.
Defined.

(* ===================================================================== *)
(** ** The stack of [parents]: an invariant of the loop of [parse] *)

Lemma links_tail (p : path) (ps : list path) : links (p :: ps) -> links ps.
Proof.
  inversion 1; subst; [constructor | assumption].
Qed.

Lemma get_at_prefix (r : JsonT) (q : path) (s : step) (c : JsonT) :
  get_at r (q ++ [s]) = Some c ->
  exists cq, get_at r q = Some cq /\ child cq s = Some c.
Proof.
  rewrite get_at_app. destruct (get_at r q) as [cq|]; [|discriminate].
  cbn [get_at]. destruct (child cq s) as [d|] eqn:E; [|discriminate].
  intros [= <-]. eauto.
Qed.

Lemma links_below (r : JsonT) (p q : path) (ps : list path) (c : JsonT) :
  links (p :: q :: ps) -> get_at r p = Some c ->
  exists s cq, p = (q ++ [s])%list /\ get_at r q = Some cq /\ child cq s = Some c.
Proof.
  inversion 1; subst. intros Hc.
  destruct (get_at_prefix _ _ _ _ Hc) as (cq & Hq & Hs). eauto.
Qed.

Lemma max_size_elements (a : Array) (x : JsonT) :
  In x a -> (max_size x <= fold_right (fun x m => Nat.max (max_size x) m) 0 a)%nat.
Proof.
  induction a as [|y a IH]; [contradiction|]. cbn [fold_right].
  intros [->|H]; [lia|]. specialize (IH H). lia.
Qed.

Lemma max_size_members (m : Map) (k : string) (x : JsonT) :
  map_find k m = Some x ->
  (max_size x <= fold_right (fun i acc => Nat.max (max_size (snd i)) acc) 0 m)%nat.
Proof.
  induction m as [|[k' y] m IH]; [discriminate|]. cbn [map_find fold_right snd].
  destruct (String.eqb k k'); [intros [= <-]; lia|].
  intros H. specialize (IH H). lia.
Qed.

Lemma max_size_child (v : JsonT) (s : step) (c : JsonT) :
  child v s = Some c -> (max_size c <= max_size v)%nat.
Proof.
  destruct s as [k|i], v; try discriminate; cbn [child max_size].
  - apply max_size_members.
  - intros H. apply list_elem_of_lookup_2, list_elem_of_In in H.
    apply max_size_elements in H. lia.
Qed.

Lemma max_size_get_at (r : JsonT) (p : path) (c : JsonT) :
  get_at r p = Some c -> (max_size c <= max_size r)%nat.
Proof.
  revert r. induction p as [|s p IH]; intros r.
  - intros [= <-]. lia.
  - cbn [get_at]. destruct (child r s) as [d|] eqn:E; [|discriminate].
    intros H. apply IH in H. apply max_size_child in E. lia.
Qed.

Lemma max_size_map_insert (k : string) (x : JsonT) (m : Map) :
  (max_size (JMap (map_insert k x m)) <= Nat.max (max_size (JMap m)) (max_size x))%nat.
Proof.
  cbn [max_size]. induction m as [|[k' y] m IH]; cbn [map_insert fold_right snd].
  - lia.
  - destruct (String.compare k k'); cbn [fold_right snd]; lia.
Qed.

Lemma max_size_list_insert (i : nat) (x : JsonT) (a : Array) :
  (max_size (JArray (<[i := x]> a)) <= Nat.max (max_size (JArray a)) (max_size x))%nat.
Proof.
  cbn [max_size]. rewrite length_insert.
  assert (H : (fold_right (fun x m => Nat.max (max_size x) m) 0 (<[i := x]> a)
               <= Nat.max (fold_right (fun x m => Nat.max (max_size x) m) 0 a)
                          (max_size x))%nat).
  { revert i. induction a as [|y a IH]; intros i.
    - change (<[i := x]> (@nil JsonT)) with (@nil JsonT). cbn [fold_right]. lia.
    - destruct i as [|i].
      + change (<[0%nat := x]> (y :: a)) with (x :: a). cbn [fold_right]. lia.
      + change (<[S i := x]> (y :: a)) with (y :: <[i := x]> a).
        cbn [fold_right]. specialize (IH i). lia. }
  lia.
Qed.

Lemma max_size_set_child (v : JsonT) (s : step) (x : JsonT) :
  (max_size (set_child v s x) <= Nat.max (max_size v) (max_size x))%nat.
Proof.
  destruct s as [k|i], v; cbn [set_child]; try lia.
  - apply max_size_map_insert.
  - apply max_size_list_insert.
Qed.

Lemma max_size_set_at (r : JsonT) (p : path) (x : JsonT) :
  (max_size (set_at r p x) <= Nat.max (max_size r) (max_size x))%nat.
Proof.
  revert r. induction p as [|s p IH]; intros r; cbn [set_at]; [lia|].
  destruct (child r s) as [c|] eqn:E; [|lia].
  pose proof (max_size_set_child r s (set_at c p x)).
  specialize (IH c). apply max_size_child in E. lia.
Qed.

Lemma max_size_snoc (a : Array) (x : JsonT) :
  (max_size (JArray (a ++ [x])) <= Nat.max (S (max_size (JArray a))) (max_size x))%nat.
Proof.
  cbn [max_size]. rewrite length_app. cbn [length].
  assert (H : (fold_right (fun x m => Nat.max (max_size x) m) 0 (a ++ [x])
               <= Nat.max (fold_right (fun x m => Nat.max (max_size x) m) 0 a)
                          (max_size x))%nat).
  { induction a as [|y a IH]; cbn [app fold_right]; lia. }
  lia.
Qed.

Lemma max_size_array_length (a : Array) : (length a <= max_size (JArray a))%nat.
Proof. cbn [max_size]. lia. Qed.

Lemma inv_top (k : nat) (st : State) :
  inv k st -> parents st <> [] ->
  exists p ps c, parents st = p :: ps /\ get_at (result st) p = Some c
                 /\ top st = Ret (p, c).
Proof.
  intros (_ & Htop & _) Hne. unfold top.
  destruct (parents st) as [|p ps]; [congruence|].
  destruct Htop as [c Hc]. exists p, ps, c. rewrite Hc. auto.
Qed.

Lemma inv_room (st : State) (p : path) (a : Array) :
  inv 1 st -> Z.of_nat (String.length (json st)) < SIZE_MOD ->
  get_at (result st) p = Some (JArray a) -> size a + 1 < SIZE_MOD.
Proof.
  intros (_ & _ & Hsz) Hb Ha. apply max_size_get_at in Ha.
  pose proof (max_size_array_length a). unfold size. lia.
Qed.

Lemma get_at_set_at_below (r : JsonT) (q : path) (s : step) (c x : JsonT) :
  get_at r (q ++ [s]) = Some c ->
  exists y, get_at (set_at r (q ++ [s]) x) q = Some y.
Proof.
  intros Hc. destruct (get_at_prefix _ _ _ _ Hc) as (cq & Hq & Hs).
  rewrite (set_at_snoc _ _ _ _ _ _ Hq Hs).
  rewrite (get_at_set_at _ _ _ _ Hq). eauto.
Qed.

Lemma setValue_ok (v : JsonT) (st : State) :
  max_size v = 0%nat -> inv 1 st -> parents st <> [] ->
  Z.of_nat (String.length (json st)) < SIZE_MOD ->
  step_ok (setValue v st).
Proof.
  intros Hv Hinv Hne Hb.
  destruct (inv_top 1 st Hinv Hne) as (p & ps & c & Hps & Hc & Htop).
  pose proof Hinv as (Hl & _ & Hsz).
  pose proof (max_size_set_at (result st) p v) as Hset.
  unfold setValue. rewrite Htop. cbn [bind].
  destruct (value (flags st)) as [|[[]|[]|]]; try exact I.
  - (* 3: the root *)
    unfold step_ok, inv.
    cbn [with_flags with_result parents result it json].
    rewrite Hps in *. split; [exact Hl|]. split; [|lia].
    rewrite (get_at_set_at _ _ _ _ Hc). eauto.
  - (* 2: an element *)
    destruct (isType c Type_.Array) eqn:Ht; cbn [negb]; [|exact I].
    destruct c; try discriminate Ht. cbn [get_Array].
    rewrite assign_index_append by (eapply inv_room; eauto).
    cbn [bind]. unfold step_ok, inv.
    cbn [with_flags with_result parents result it json].
    rewrite Hps in *. split; [exact Hl|]. split.
    + rewrite (get_at_set_at _ _ _ _ Hc). eauto.
    + pose proof (max_size_set_at (result st) p (JArray (m_array ++ [v]))).
      pose proof (max_size_snoc m_array v).
      pose proof (max_size_get_at _ _ _ Hc). lia.
  - (* 1: the value of a member *)
    unfold assert. destruct (isNull c); cbn [bind]; [|exact I].
    unfold step_ok, inv.
    cbn [with_flags with_parents with_result parents result it json].
    rewrite Hps in *. cbn [tail].
    split; [eapply links_tail, Hl|]. split; [|lia].
    destruct ps as [|q ps']; [exact I|].
    destruct (links_below _ _ _ _ _ Hl Hc) as (s & cq & -> & Hq & Hs).
    eapply get_at_set_at_below, Hc.
Qed.

Lemma setEnd_ok (st : State) :
  inv 1 st -> parents st <> [] -> step_ok (setEnd st).
Proof.
  intros Hinv Hne.
  destruct (inv_top 1 st Hinv Hne) as (p & ps & c & Hps & Hc & _).
  pose proof Hinv as (Hl & _ & Hsz).
  unfold setEnd. rewrite Hps in *. cbn [length].
  destruct ps as [|q ps'].
  - cbn. unfold inv. cbn [with_flags parents result it json].
    try rewrite Hps. split; [exact Hl|]. split; [eauto | lia].
  - cbn [Nat.leb]. 
    destruct (links_below _ _ _ _ _ Hl Hc) as (s & cq & -> & Hq & Hs).
    unfold top. cbn [with_parents parents result tail].
    rewrite Hq. cbn [bind].
    assert (Hok : inv 0 (with_parents (q :: ps') st)).
    { unfold inv. cbn [with_parents parents result it json].
      split; [eapply links_tail, Hl|]. split; [eauto | lia]. }
    destruct (type cq); try exact I; exact Hok.
Qed.

Lemma on_begin_ok (ensure : JsonT -> JsonT) (f : Flags) (st : State) :
  (forall v, (max_size (ensure v) <= max_size v)%nat) ->
  inv 1 st -> parents st <> [] ->
  Z.of_nat (String.length (json st)) < SIZE_MOD ->
  step_ok (on_begin ensure f st).
Proof.
  intros He Hinv Hne Hb.
  destruct (inv_top 1 st Hinv Hne) as (p & ps & c & Hps & Hc & Htop).
  pose proof Hinv as (Hl & _ & Hsz).
  unfold on_begin. rewrite Htop. cbn [bind].
  destruct (isType c Type_.Array) eqn:Ht.
  - destruct c; try discriminate Ht. cbn [get_Array].
    rewrite subscript_index_append by (eapply inv_room; eauto).
    cbn [bind child].
    rewrite list_lookup_middle by reflexivity. cbn [bind].
    set (P := JArray (m_array ++ [JNull])).
    set (s := Idx (length m_array)).
    assert (Hchild : child P s = Some JNull)
      by (apply list_lookup_middle; reflexivity).
    unfold step_ok, inv.
    cbn [with_flags with_parents with_result parents result it json].
    rewrite Hps in *. split; [constructor; exact Hl|]. split.
    + rewrite (get_at_snoc _ _ s _ (get_at_set_at _ _ _ _ Hc)).
      rewrite (child_set_child _ _ _ _ Hchild). eauto.
    + pose proof (max_size_set_at (result st) p (set_child P s (ensure JNull))).
      pose proof (max_size_set_child P s (ensure JNull)).
      pose proof (max_size_snoc m_array JNull).
      pose proof (max_size_get_at _ _ _ Hc).
      pose proof (He JNull). subst P.
      change (max_size JNull) with 0%nat in *. lia.
  - destruct (isNull c); cbn [negb]; [|exact I].
    unfold step_ok, inv.
    cbn [with_flags with_result parents result it json].
    rewrite Hps in *. split; [exact Hl|]. split.
    + rewrite (get_at_set_at _ _ _ _ Hc). eauto.
    + pose proof (max_size_set_at (result st) p (ensure c)).
      pose proof (max_size_get_at _ _ _ Hc).
      pose proof (He c). lia.
Qed.

Lemma ensure_max_size :
  (forall v, (max_size (ensureMap v) <= max_size v)%nat)
  /\ (forall v, (max_size (ensureArray v) <= max_size v)%nat).
Proof. split; intros []; cbn [ensureMap ensureArray max_size fold_right length]; lia. Qed.

Lemma on_string_tail_ok (sText : string) (st : State) :
  inv 1 st -> parents st <> [] ->
  Z.of_nat (String.length (json st)) < SIZE_MOD ->
  step_ok (on_string_tail sText st).
Proof.
  intros Hinv Hne Hb. unfold on_string_tail.
  destruct (objectKey (flags st) =? 1)%N; [|apply setValue_ok; auto].
  destruct (inv_top 1 st Hinv Hne) as (p & ps & c & Hps & Hc & Htop).
  pose proof Hinv as (Hl & _ & Hsz).
  rewrite Htop. cbn [bind]. unfold assert.
  destruct (isType c Type_.Map) eqn:Ht; cbn [bind]; [|exact I].
  destruct c; try discriminate Ht.
  unfold subscript_key. cbn [ensureMap get_Map child].
  destruct (map_find_subscript sText m_map) as [x Hx]. rewrite Hx. cbn [bind].
  set (P := JMap (map_subscript sText m_map)).
  assert (Hchild : child P (Key sText) = Some x) by exact Hx.
  unfold step_ok, inv.
  cbn [with_flags with_parents with_result parents result it json].
  rewrite Hps in *. split; [constructor; exact Hl|]. split.
  - rewrite (get_at_snoc _ _ (Key sText) _ (get_at_set_at _ _ _ _ Hc)).
    rewrite (child_set_child _ _ _ _ Hchild). eauto.
  - pose proof (max_size_set_at (result st) p (set_child P (Key sText) (clear x))).
    pose proof (max_size_set_child P (Key sText) (clear x)).
    assert (HP : (max_size P <= max_size (JMap m_map))%nat).
    { unfold P, map_subscript. destruct (map_find sText m_map); [lia|].
      pose proof (max_size_map_insert sText JNull m_map).
      change (max_size JNull) with 0%nat in *. lia. }
    pose proof (max_size_get_at _ _ _ Hc).
    change (max_size (clear x)) with 0%nat in *. lia.
Qed.

Lemma string_take_length (n : nat) (s : string) :
  (n <= String.length s)%nat -> String.length (string_take n s) = n.
Proof.
  revert s. induction n as [|n IH]; intros s Hn; [reflexivity|].
  destruct s as [|c s]; [cbn in Hn; lia|].
  cbn [string_take String.length]. rewrite IH; [reflexivity | cbn in Hn; lia].
Qed.

Lemma match_string_token_pos (r : string) (m : smatch) :
  match_string_token r = Some m -> (1 <= m_length m)%nat.
Proof.
  unfold match_string_token.
  destruct (match_classes (u_high ++ u_low) r) eqn:E1.
  { apply match_classes_length in E1. cbn [length app u_high u_low] in E1.
    intros H.
    apply (f_equal (fun o => match o with Some m => m_length m | None => 0%nat end)) in H.
    cbn [m_length] in H. rewrite <- H, string_take_length; lia. }
  destruct (match_classes u_any r) eqn:E2.
  { apply match_classes_length in E2. cbn [length u_any] in E2.
    intros H.
    apply (f_equal (fun o => match o with Some m => m_length m | None => 0%nat end)) in H.
    cbn [m_length] in H. rewrite <- H, string_take_length; lia. }
  repeat match goal with
         | |- context [if starts_with ?l r then _ else _] =>
             destruct (starts_with l r);
             [intros [= <-]; cbn; lia|]
         end.
  discriminate.
Qed.

Lemma find_string_token_pos (r : string) (m : smatch) :
  find_string_token r = Some m -> (1 <= m_length m)%nat.
Proof.
  revert m. induction r as [|c r IH]; intros m.
  - cbn. discriminate.
  - cbn [find_string_token].
    destruct (match_string_token (String c r)) as [m0|] eqn:E.
    + intros [= <-]. apply match_string_token_pos in E. exact E.
    + destruct (_ || _); [discriminate|].
      destruct (find_string_token r) as [m1|]; [|discriminate].
      intros [= <-]. cbn [m_length]. lia.
Qed.

Lemma utf16_out_cases (c : list Z) :
  (exists r, utf16_out c = Ret r) \/ (exists e, utf16_out c = Throw e).
Proof.
  remember (length c) as n eqn:Hn. revert c Hn.
  induction n as [n IH] using lt_wf_ind. intros c Hn.
  destruct c as [|x c]; [left; eexists; reflexivity|]. cbn [utf16_out].
  destruct (is_high_surrogate x).
  - destruct c as [|y c]; [left; eexists; reflexivity|].
    destruct (is_low_surrogate y); [|right; eexists; reflexivity].
    destruct (IH (length c) ltac:(cbn in Hn; lia) c eq_refl) as [[r ->]|[e ->]];
      [left | right]; eexists; reflexivity.
  - destruct (is_low_surrogate x); [right; eexists; reflexivity|].
    destruct (IH (length c) ltac:(cbn in Hn; lia) c eq_refl) as [[r ->]|[e ->]];
      [left | right]; eexists; reflexivity.
Qed.

Lemma inv_advance (k n : nat) (st : State) : inv k st -> inv k (advance n st).
Proof.
  intros (Hl & Ht & Hsz). unfold inv, advance.
  cbn [with_it parents result it json].
  pose proof (string_drop_length_le n (it st)). repeat split; auto. lia.
Qed.

Lemma decode_string_ok (fuel : nat) :
  forall (st : State) (text : string) (k : nat),
    inv k st -> (String.length (range st) < fuel)%nat ->
    match decode_string fuel st text with
    | Ret (st', _) => inv k st' /\ parents st' = parents st /\ json st' = json st
    | Undefined => False
    | _ => True
    end.
Proof.
  induction fuel as [|fuel IH]; intros st text k Hinv Hfuel; [lia|].
  cbn [decode_string].
  destruct (find_string_token (range st)) as [m|] eqn:Hm; [|exact I].
  pose proof (find_string_token_pos _ _ Hm) as Hpos.
  pose proof (find_string_token_le _ _ Hm) as Hle.
  set (st1 := advance (m_length m) st).
  assert (Hinv1 : inv k st1) by (apply inv_advance, Hinv).
  assert (Hfuel1 : (String.length (range st1) < fuel)%nat).
  { unfold st1. rewrite range_advance_any, string_drop_length. lia. }
  assert (Hnext : forall text',
            match decode_string fuel st1 text' with
            | Ret (st', _) =>
                inv k st' /\ parents st' = parents st /\ json st' = json st
            | Undefined => False
            | _ => True
            end).
  { intros text'. specialize (IH st1 text' k Hinv1 Hfuel1).
    destruct (decode_string fuel st1 text') as [[st' t']| | |]; auto. }
  destruct (String.eqb (m2 m) sDQ); [auto|].
  destruct (find_key (m2 m) mapReplace); [apply Hnext|].
  unfold to_bytes.
  destruct (utf16_out_cases
              (c_str (if is_empty (m5 m) then [stoi16 (m3 m); stoi16 (m4 m)]
                      else [stoi16 (m5 m)]))) as [[r ->]|[e ->]].
  - cbn [rethrow bind]. apply Hnext.
  - destruct e; exact I.
Qed.

Lemma on_string_ok (st : State) :
  inv 1 st -> parents st <> [] ->
  Z.of_nat (String.length (json st)) < SIZE_MOD ->
  step_ok (on_string st).
Proof.
  intros Hinv Hne Hb. rewrite on_string_eq.
  pose proof (decode_string_ok (S (String.length (range st))) st EmptyString 1
                Hinv ltac:(lia)) as Hd.
  unfold bind at 1.
  destruct (decode_string _ st EmptyString) as [[st1 sText]| | |];
    try exact I; try contradiction.
  destruct Hd as (Hinv1 & Hps & Hj).
  apply on_string_tail_ok; [exact Hinv1 | rewrite Hps; exact Hne | rewrite Hj; exact Hb].
Qed.

Lemma inv_weaken (st : State) : inv 1 st -> inv 0 st.
Proof. intros (Hl & Ht & Hsz). repeat split; auto. lia. Qed.

Lemma handler_ok (tok : string) (h : State -> outcome State) (st : State) :
  find_key tok mapToken = Some h ->
  inv 1 st -> parents st <> [] ->
  Z.of_nat (String.length (json st)) < SIZE_MOD ->
  step_ok (h st).
Proof.
  unfold mapToken. cbn [find_key].
  repeat (destruct (String.eqb tok _);
          [intros [= <-]; intros Hinv Hne Hb;
           first [ apply setValue_ok; auto; reflexivity
                 | apply on_string_ok; auto; fail
                 | idtac ]
          |]); try discriminate.
  - (* line comment *)
    unfold on_line_comment, line_comment_end, step_ok, inv.
    cbn [with_it parents result it json].
    destruct Hinv as (Hl & Ht & Hsz). pose proof (find_line_end_le (it st)).
    repeat split; auto. lia.
  - (* block comment *)
    unfold on_block_comment.
    destruct (block_comment_end (it st)) as [i|] eqn:E; [|exact I].
    apply block_comment_end_length in E.
    unfold step_ok, inv. cbn [with_it parents result it json].
    destruct Hinv as (Hl & Ht & Hsz). repeat split; auto. lia.
  - apply on_begin_ok; auto. apply ensure_max_size.
  - apply inv_weaken in Hinv. exact Hinv.
  - (* closing brace *)
    unfold on_object_end.
    destruct (inv_top 1 st Hinv Hne) as (p & ps & c & _ & _ & ->). cbn [bind].
    destruct (negb _); [exact I|]. apply setEnd_ok; auto.
  - apply on_begin_ok; auto. apply ensure_max_size.
  - (* closing bracket *)
    unfold on_array_end.
    destruct (inv_top 1 st Hinv Hne) as (p & ps & c & _ & _ & ->). cbn [bind].
    destruct (negb _); [exact I|]. apply setEnd_ok; auto.
  - (* comma *)
    apply inv_weaken in Hinv. unfold on_comma.
    repeat match goal with
           | |- context [match ?x with _ => _ end] => destruct x
           end; first [exact I | exact Hinv].
Qed.

Lemma number_value_scalar (t : string) (v : JsonT) :
  number_value t = Ret v -> max_size v = 0%nat.
Proof.
  unfold number_value, bind.
  destruct (is_integer_token t); [destruct (stoll t)|];
    destruct (stod t); try discriminate; intros [= <-]; reflexivity.
Qed.

Lemma dispatch_ok (t : string) (st : State) :
  inv 1 st -> parents st <> [] ->
  Z.of_nat (String.length (json st)) < SIZE_MOD ->
  match dispatch t st with
  | Ret (Continue st') => inv 0 st'
  | Undefined => False
  | _ => True
  end.
Proof.
  intros Hinv Hne Hb. unfold dispatch.
  destruct (find_key t mapToken) as [h|] eqn:Hk.
  - pose proof (handler_ok _ _ st Hk Hinv Hne Hb) as Hh.
    unfold bind. destruct (h st); auto.
  - destruct (number_value_cases t) as [[v Hv]|[Hv|Hv]]; rewrite Hv;
      cbn [rethrow bind what]; try exact I.
    pose proof (setValue_ok v st (number_value_scalar _ _ Hv) Hinv Hne Hb) as Hs.
    destruct (setValue v st); auto.
Qed.

Lemma match_token_cases (f : Flags) (r : string) :
  (exists tok, match_token f r = Ret tok) \/ match_token f r = AssertFail.
Proof.
  unfold match_token, bind.
  destruct (token_alts f) as [alts| | |] eqn:Ha.
  - destruct (first_match alts _); left; eexists; reflexivity.
  - unfold token_alts, bind in Ha. revert Ha. pe_cases.
  - right. reflexivity.
  - unfold token_alts, bind in Ha. revert Ha. pe_cases.
Qed.

Lemma match_token_pos (f : Flags) (r t : string) (n : nat) :
  match_token f r = Ret (Some (t, n)) -> (1 <= n)%nat.
Proof.
  unfold match_token, bind.
  destruct (token_alts f) as [alts| | |] eqn:Ha; try discriminate.
  destruct (first_match alts _) as [k|] eqn:Hk; [|discriminate].
  intros [= _ <-]. apply (first_match_pos _ _ _ _ Ha) in Hk. lia.
Qed.

(** One turn keeps the invariant and is not undefined. *)
Lemma turn_ok (st : State) :
  inv 0 st -> Z.of_nat (String.length (json st)) < SIZE_MOD ->
  match turn st with
  | Ret (Continue st') => inv 0 st'
  | Undefined => False
  | _ => True
  end.
Proof.
  intros Hinv Hb. rewrite turn_unfold.
  destruct (flags_all_is_zero (flags st)); [exact I|].
  destruct (bool_decide (parents st = [])) eqn:Hps; [exact I|].
  apply bool_decide_eq_false_1 in Hps.
  destruct (is_empty (it st)) eqn:He.
  { destruct (negb _); exact I. }
  cbn zeta.
  destruct (negb (has_nonspace (line_of (it st)))).
  { destruct Hinv as (Hl & Ht & Hsz). unfold inv.
    cbn [with_it with_itLineEnd parents result it json].
    pose proof (find_line_end_le (it st)). repeat split; auto. lia. }
  destruct (match_token_cases (flags st) (line_of (it st))) as [[tok Hm]| ->];
    [|exact I].
  rewrite Hm. cbn [bind]. destruct tok as [[t n]|]; [|exact I].
  apply match_token_pos in Hm.
  apply dispatch_ok; auto.
  destruct Hinv as (Hl & Ht & Hsz). unfold inv, advance.
  cbn [with_it with_itLineEnd parents result it json].
  repeat split; auto.
  rewrite string_drop_length.
  destruct (it st); [discriminate He|]. cbn [String.length] in *. lia.
Qed.

Lemma run_ok (fuel : nat) (st : State) :
  inv 0 st -> Z.of_nat (String.length (json st)) < SIZE_MOD ->
  run fuel st <> Some Undefined.
Proof.
  revert st. induction fuel as [|fuel IH]; intros st Hinv Hb; [discriminate|].
  cbn [run]. pose proof (turn_ok st Hinv Hb) as Ht.
  pose proof (turn_json_throw st) as Hj.
  destruct (turn st) as [[st'|st']| | |]; try discriminate; [|contradiction].
  apply IH; [exact Ht | rewrite Hj; exact Hb].
Qed.

Lemma turns_inv (st st' : State) :
  turns st st' -> inv 0 st -> Z.of_nat (String.length (json st)) < SIZE_MOD ->
  inv 0 st' /\ json st' = json st.
Proof.
  induction 1 as [st|st st1 st2 Ht _ IH]; intros Hinv Hb; [auto|].
  pose proof (turn_ok st Hinv Hb) as Hok.
  pose proof (turn_json_throw st) as Hj.
  rewrite Ht in Hok, Hj.
  destruct (IH Hok ltac:(rewrite Hj; exact Hb)) as [H1 H2].
  split; [exact H1 | congruence].
Qed.

Lemma links_prefix (ps : list path) :
  links ps ->
  forall p tl, ps = p :: tl -> forall q, In q ps -> exists r, p = (q ++ r)%list.
Proof.
  induction 1 as [| |p s ps Hl IH]; intros p0 tl E q Hq.
  - discriminate.
  - injection E as <- <-. destruct Hq as [<-|[]]. exists []. reflexivity.
  - injection E as <- <-. destruct Hq as [<-|Hq].
    + exists []. rewrite app_nil_r. reflexivity.
    + destruct (IH p ps eq_refl q Hq) as [r ->].
      exists (r ++ [s])%list. rewrite app_assoc. reflexivity.
Qed.

Lemma get_at_app_some (r : JsonT) (q t : path) (c : JsonT) :
  get_at r (q ++ t) = Some c -> exists cq, get_at r q = Some cq.
Proof.
  rewrite get_at_app. destruct (get_at r q) as [cq|]; [eauto | discriminate].
Qed.

(** X14: an invariant of the loop of [parse] on a text shorter than
    [2^64] characters.  In every state that the loop reaches, the stack
    [parents] is empty, or it holds the root at the bottom and, above each
    pointer, a pointer to a child of the node that this one designates;
    every pointer of the stack designates a node of [result], which is
    the node on top of the stack or an ancestor of it; and no array of
    [result] has more elements than characters have been read. *)
Theorem parents_stack_invariant (s : string) (st : State) :
  Z.of_nat (String.length s) < SIZE_MOD ->
  turns (init_state s) st ->
  links (parents st)
  /\ (forall q, In q (parents st) ->
        (exists c, get_at (result st) q = Some c)
        /\ exists p c r, top st = Ret (p, c) /\ p = (q ++ r)%list)
  /\ (max_size (result st) + String.length (it st) <= String.length s)%nat.
Proof.
  intros Hb Ht.
  assert (Hinit : inv 0 (init_state s)).
  { unfold inv. cbn. repeat split; [constructor | eauto | lia]. }
  destruct (turns_inv _ _ Ht Hinit Hb) as [Hinv Hj].
  pose proof Hinv as (Hl & _ & Hsz). cbn [init_state json] in Hj.
  rewrite Hj in Hsz. split; [exact Hl|]. split; [|lia].
  intros q Hq.
  assert (Hne : parents st <> []) by (intros E; rewrite E in Hq; destruct Hq).
  destruct (inv_top 0 st Hinv Hne) as (p & ps & c & Hps & Hc & Htop).
  destruct (links_prefix _ Hl p ps Hps q Hq) as [r Hr].
  split.
  - rewrite Hr in Hc. eapply get_at_app_some, Hc.
  - eauto.
Qed.

Lemma parents_stack_invariant_witness :
  links [[Idx 0]; []]
  /\ get_at (JArray [JMap []]) [Idx 0] = Some (JMap []).
Proof.
  destruct (parents_stack_invariant "[{]"
              {| json := "[{]"; result := JArray [JMap []]; flags := flags_key 1;
                 parents := [[Idx 0]; []]; it := "]";
                 itLineEnd := EmptyString |}) as (Hl & _ & _).
  - rewrite size_mod_val. cbn. lia.
  - eapply turns_cons; [vm_compute; reflexivity|].
    eapply turns_cons; [vm_compute; reflexivity | apply turns_nil].
  - split; [exact Hl | reflexivity].
Defined.

(* ===================================================================== *)
(** ** Accessors applied one after the other *)

Lemma const_subscript_child (v : JsonT) (s : step) :
  const_subscript v s = match child v s with Some c => c | None => m_emptyJson end
  /\ deref v (match s with
              | Key k => subscript_key_const v k
              | Idx i => subscript_index_const v (Z.of_nat i)
              end) <> None.
Proof.
  unfold const_subscript. destruct s as [k|i].
  - unfold subscript_key_const.
    destruct v; cbn [get_Map m_emptyMap map_find deref child];
      try (split; [reflexivity | discriminate]).
    destruct (map_find k m_map) eqn:E; cbn [deref child]; rewrite ?E;
      split; (reflexivity || discriminate).
  - unfold subscript_index_const, size.
    destruct v; cbn [get_Array m_emptyArray length deref child];
      try (destruct (Z.ltb_spec (Z.of_nat i) (Z.of_nat 0)); [lia|];
           split; [reflexivity | discriminate]).
    destruct (Z.ltb_spec (Z.of_nat i) (Z.of_nat (length m_array))) as [Hlt|Hge];
      cbn [deref child]; rewrite ?Nat2Z.id.
    + destruct (lookup_lt_is_Some_2 m_array i ltac:(lia)) as [c ->].
      split; [reflexivity | discriminate].
    + rewrite (lookup_ge_None_2 m_array i) by lia.
      split; [reflexivity | discriminate].
Qed.

Lemma const_path_empty (p : path) : const_path m_emptyJson p = m_emptyJson.
Proof.
  induction p as [|s p IH]; [reflexivity|]. cbn [const_path].
  rewrite (proj1 (const_subscript_child m_emptyJson s)).
  destruct s; cbn [child m_emptyJson]; exact IH.
Qed.

Lemma const_path_get_at (v : JsonT) (p : path) :
  const_path v p = match get_at v p with Some c => c | None => m_emptyJson end.
Proof.
  revert v. induction p as [|s p IH]; intros v; [reflexivity|].
  cbn [const_path get_at]. rewrite (proj1 (const_subscript_child v s)).
  destruct (child v s) as [c|]; [apply IH | apply const_path_empty].
Qed.

(** X15: the const [operator[]] can be applied again to what it returns,
    without a check: along a path of keys and indices it gives the node
    that the path leads to when that node exists, and the shared
    [m_emptyJson], a [Null], as soon as a step is missing; every reference
    it returns on the way designates an object. *)
Theorem const_accessors_follow_path (v : JsonT) (p : path) :
  const_path v p = match get_at v p with Some c => c | None => m_emptyJson end
  /\ (forall s, deref v (match s with
                         | Key k => subscript_key_const v k
                         | Idx i => subscript_index_const v (Z.of_nat i)
                         end) <> None).
Proof.
  split; [apply const_path_get_at | intros s; apply const_subscript_child].
Qed.

Lemma subscript_step_child (v : JsonT) (s : step) :
  step_in_range s = true ->
  exists v1 c, subscript_step v s = Ret (v1, s) /\ child v1 s = Some c.
Proof.
  destruct s as [k|i]; cbn [step_in_range subscript_step].
  - intros _. unfold subscript_key. rewrite get_Map_ensureMap.
    destruct (map_find_subscript k (get_Map v)) as [c Hc].
    exists (JMap (map_subscript k (get_Map v))), c. auto.
  - intros Hi. apply Z.ltb_lt in Hi. unfold subscript_index.
    set (a := get_Array (ensureArray v)).
    set (a' := if size a <=? Z.of_nat i
               then resize (Z.to_nat ((Z.of_nat i + 1) mod SIZE_MOD)) JNull a
               else a).
    assert (Hlen : (i < length a')%nat).
    { unfold a', size. destruct (Z.leb_spec (Z.of_nat (length a)) (Z.of_nat i)).
      - rewrite Z.mod_small by (rewrite size_mod_val in *; lia).
        rewrite length_resize. lia.
      - lia. }
    destruct (lookup_lt_is_Some_2 a' i Hlen) as [c Hc].
    exists (JArray a'), c. unfold size.
    destruct (Z.ltb_spec (Z.of_nat i) (Z.of_nat (length a'))); [|lia].
    rewrite Nat2Z.id. auto.
Qed.

(** X16: the mutable [operator[]] applied along a path and followed by an
    assignment, [v[s1][s2]...[sn] = x], with every index below the largest
    [size_t], always succeeds and makes what is missing on the way:
    afterwards the path leads to [x], for [at] as for the const
    [operator[]]. *)
Theorem assign_path_then_lookup (v : JsonT) (p : path) (x : JsonT) :
  forallb step_in_range p = true ->
  exists v',
    assign_path v p x = Ret v'
    /\ get_at v' p = Some x
    /\ const_path v' p = x.
Proof.
  intros Hp.
  assert (H : exists v', assign_path v p x = Ret v' /\ get_at v' p = Some x).
  { revert v. induction p as [|s p IH]; intros v; [exists x; auto|].
    cbn [forallb] in Hp. apply andb_prop in Hp as [Hs Hp].
    destruct (subscript_step_child v s Hs) as (v1 & c & Hsub & Hc).
    destruct (IH Hp c) as (c' & Hc' & Hget).
    exists (set_child v1 s c'). cbn [assign_path].
    rewrite Hsub. cbn [bind]. rewrite Hc. cbn [bind]. rewrite Hc'. cbn [bind].
    split; [reflexivity|]. cbn [get_at].
    rewrite (child_set_child _ _ _ _ Hc). exact Hget. }
  destruct H as (v' & Ha & Hg). exists v'. repeat split; auto.
  rewrite const_path_get_at, Hg. reflexivity.
Qed.

Lemma assign_path_then_lookup_witness :
  exists v',
    assign_path (JInt 5) [Idx 2; Key "add"] (JInt 123) = Ret v'
    /\ get_at v' [Idx 2; Key "add"] = Some (JInt 123).
Proof.
  destruct (assign_path_then_lookup (JInt 5) [Idx 2; Key "add"] (JInt 123))
    as (v' & H1 & H2 & _); [reflexivity|].
  exists v'. auto.
Defined.

(* ===================================================================== *)
(** ** The escape of a code unit *)

Lemma raw_head_not_backslash (b rest : string) :
  string_forallb raw_char b = true ->
  exists c s, b ++ sDQ ++ rest = String c s /\ is_char chBSL c = false.
Proof.
  destruct b as [|c b]; cbn [string_forallb append].
  - intros _. exists chDQ, rest. split; reflexivity.
  - intros H. apply andb_prop in H as [Hc _]. exists c, (b ++ sDQ ++ rest).
    split; [reflexivity|].
    destruct c as [[] [] [] [] [] [] [] []]; try discriminate Hc; reflexivity.
Qed.

Lemma match_string_token_unit (h b rest : string) :
  String.length h = 4%nat -> string_forallb isxdigit h = true ->
  string_forallb raw_char b = true ->
  match_string_token (escape2 "u" ++ h ++ b ++ sDQ ++ rest)
  = Some (smatch_unit EmptyString h).
Proof.
  intros Hlen Hhex Hb.
  destruct h as [|h1 [|h2 [|h3 [|h4 [|? ?]]]]]; try discriminate Hlen.
  cbn [string_forallb] in Hhex.
  apply andb_prop in Hhex as [H1 Hhex]. apply andb_prop in Hhex as [H2 Hhex].
  apply andb_prop in Hhex as [H3 Hhex]. apply andb_prop in Hhex as [H4 _].
  destruct (raw_head_not_backslash b rest Hb) as (c & s & Hcs & Hc).
  cbn [escape2 str1 append]. rewrite Hcs.
  unfold match_string_token.
  assert (Hpair : match_classes (u_high ++ u_low)
                    (String chBSL (String "u" (String h1 (String h2
                       (String h3 (String h4 (String c s))))))) = false).
  { cbn [match_classes u_high u_low app]. rewrite Hc.
    rewrite !andb_false_r. reflexivity. }
  assert (Hany : match_classes u_any
                   (String chBSL (String "u" (String h1 (String h2
                      (String h3 (String h4 (String c s))))))) = true).
  { cbn [match_classes u_any]. rewrite H1, H2, H3, H4. reflexivity. }
  rewrite Hpair, Hany. reflexivity.
Qed.

Lemma find_string_token_unit (a h b rest : string) :
  String.length h = 4%nat -> string_forallb isxdigit h = true ->
  string_forallb raw_char a = true -> string_forallb raw_char b = true ->
  find_string_token (a ++ escape2 "u" ++ h ++ b ++ sDQ ++ rest)
  = Some (smatch_unit a h).
Proof.
  intros Hlen Hhex Ha Hb. induction a as [|c a IH].
  - cbn [append].
    pose proof (match_string_token_unit h b rest Hlen Hhex Hb) as Hm.
    destruct (escape2 "u" ++ h ++ b ++ sDQ ++ rest) as [|c s] eqn:E;
      [discriminate Hm|].
    cbn [find_string_token]. rewrite Hm. reflexivity.
  - cbn [string_forallb] in Ha. apply andb_prop in Ha as [Hc Ha].
    change (String c a ++ ?x) with (String c (a ++ x)).
    rewrite (raw_char_find c Hc), (IH Ha). reflexivity.
Qed.

Lemma hex_no_lf (h : string) : string_forallb isxdigit h = true -> no_lf h = true.
Proof.
  apply string_forallb_impl. intros c H.
  destruct c as [[] [] [] [] [] [] [] []]; try discriminate H; reflexivity.
Qed.

Lemma to_bytes_unit (u : Z) :
  is_high_surrogate u = false -> is_low_surrogate u = false ->
  to_bytes [u] = Ret (unit_bytes u).
Proof.
  intros Hh Hl. unfold to_bytes, unit_bytes. cbn [c_str].
  destruct (u =? 0); [reflexivity|]. cbn [utf16_out]. rewrite Hh, Hl.
  cbn [bind]. rewrite append_nil_r. reflexivity.
Qed.

Lemma on_string_unit (a h b : string) j r e m ps rest :
  String.length h = 4%nat -> string_forallb isxdigit h = true ->
  string_forallb raw_char a = true -> string_forallb raw_char b = true ->
  is_high_surrogate (stoi16 h) = false -> is_low_surrogate (stoi16 h) = false ->
  on_string (mkst j r (flags_value e m) ps
               (a ++ escape2 "u" ++ h ++ b ++ sDQ ++ rest))
  = setValue (JString (a ++ unit_bytes (stoi16 h) ++ b))
             (mkst j r (flags_value e m) ps rest).
Proof.
  intros Hlen Hhex Ha Hb Hhi Hlo. unfold on_string.
  rewrite range_mkst.
  destruct (String.length (a ++ escape2 "u" ++ h ++ b ++ sDQ ++ rest)) as [|fuel] eqn:Hf.
  { rewrite !length_append in Hf. cbn in Hf. lia. }
  cbn [decode_string]. rewrite range_mkst.
  rewrite (find_string_token_unit a h b rest Hlen Hhex Ha Hb).
  cbn [smatch_unit m_length m1 m2 m3 m4 m5].
  assert (Hadv : advance (String.length a + 6)
                   (mkst j r (flags_value e m) ps
                      (a ++ escape2 "u" ++ h ++ b ++ sDQ ++ rest))
                 = mkst j r (flags_value e m) ps (b ++ sDQ ++ rest)).
  { replace (String.length a + 6)%nat
      with (String.length (a ++ escape2 "u" ++ h))
      by (rewrite !length_append, Hlen; reflexivity).
    replace (a ++ escape2 "u" ++ h ++ b ++ sDQ ++ rest)
      with ((a ++ escape2 "u" ++ h) ++ b ++ sDQ ++ rest)
      by (rewrite !append_assoc; reflexivity).
    apply advance_mkst. }
  rewrite Hadv.
  change (String.eqb (escape2 "u" ++ h) sDQ) with false. cbn iota.
  change (find_key (escape2 "u" ++ h) mapReplace) with (@None string).
  cbn iota.
  assert (He : is_empty h = false) by (destruct h; [discriminate Hlen | reflexivity]).
  rewrite He, (to_bytes_unit _ Hhi Hlo). cbn [rethrow bind].
  cbn [decode_string]. rewrite range_mkst, (find_string_token_raw b rest Hb).
  cbn [smatch_raw m_length m1 m2 String.eqb]. rewrite String.eqb_refl.
  assert (Hadv2 : advance (S (String.length b))
                    (mkst j r (flags_value e m) ps (b ++ sDQ ++ rest))
                  = mkst j r (flags_value e m) ps rest).
  { replace (S (String.length b)) with (String.length (b ++ sDQ))
      by (rewrite length_append; cbn; lia).
    rewrite <- append_assoc. apply advance_mkst. }
  rewrite Hadv2. cbn [append]. rewrite !append_assoc. reflexivity.
Qed.

Lemma reads_unit (a h b : string) :
  String.length h = 4%nat -> string_forallb isxdigit h = true ->
  string_forallb raw_char a = true -> string_forallb raw_char b = true ->
  is_high_surrogate (stoi16 h) = false -> is_low_surrogate (stoi16 h) = false ->
  reads (sDQ ++ a ++ escape2 "u" ++ h ++ b ++ sDQ)
        (JString (a ++ unit_bytes (stoi16 h) ++ b)).
Proof.
  intros Hlen Hhex Ha Hb Hhi Hlo j r ps m e F ps' f' rest Hslot He Hrest Hd.
  apply turns_one. rewrite !append_assoc.
  rewrite (turn_tok _ _ _ _ _ _ on_string).
  - rewrite on_string_unit by assumption.
    rewrite (setValue_slot _ _ _ _ _ _ _ _ _ _ Hslot). reflexivity.
  - reflexivity.
  - eapply slot_stack, Hslot.
  - discriminate.
  - reflexivity.
  - rewrite !no_lf_app, (raw_no_lf a Ha), (raw_no_lf b Hb), (hex_no_lf h Hhex), Hrest.
    reflexivity.
  - reflexivity.
  - apply match_token_value_lit; [exact He | eapply slot_mode, Hslot | auto].
  - reflexivity.
Qed.

(** X17. A string with one escape of the form backslash, u and four
    hexadecimal digits, between characters that stand for themselves, parses
    to the string in which the escape is replaced by the UTF-8 encoding of
    the code unit the digits denote, provided the unit is not a surrogate;
    the escape of the unit zero is replaced by nothing, since the converted
    units are taken up to the first zero. *)
Theorem unit_escape_decodes_to_utf8 (a h b : string) (opt : ParseOptions) :
  String.length h = 4%nat -> string_forallb isxdigit h = true ->
  string_forallb raw_char a = true -> string_forallb raw_char b = true ->
  is_high_surrogate (stoi16 h) = false -> is_low_surrogate (stoi16 h) = false ->
  parse (sDQ ++ a ++ escape2 "u" ++ h ++ b ++ sDQ) opt
  = Ret (JString (a ++ (if stoi16 h =? 0 then EmptyString
                        else utf8_encode (stoi16 h)) ++ b)).
Proof.
  intros Hlen Hhex Ha Hb Hhi Hlo.
  apply (parse_of_turns _ _ _ [[]]); [discriminate|].
  pose proof (reads_unit a h b Hlen Hhex Ha Hb Hhi Hlo
                (sDQ ++ a ++ escape2 "u" ++ h ++ b ++ sDQ)
                JNull [[]] 3%N 0%N _ _ _ EmptyString
                (slot_root JNull [] eq_refl) (or_introl eq_refl)
                eq_refl eq_refl) as Ht.
  rewrite !append_nil_r in Ht. exact Ht.
Qed.

Lemma unit_escape_decodes_to_utf8_witness :
  parse (sDQ ++ "a" ++ escape2 "u" ++ "3042" ++ "b" ++ sDQ) default_ParseOptions
  = Ret (JString (String "a" (String (ascii_of_nat 227)
           (String (ascii_of_nat 129) (String (ascii_of_nat 130) "b"))))).
Proof.
  apply (unit_escape_decodes_to_utf8 "a" "3042" "b" default_ParseOptions);
    reflexivity.
Defined.

(* ===================================================================== *)
(** ** Number tokens: [Int] or [Float] *)

(** White space before a token, line feeds included, is passed over. *)
Lemma turns_skip_blank (x : string) (n : nat) :
  forall (ws : string) (st : State),
    (String.length ws <= n)%nat -> blank ws = true -> it st = ws ++ x ->
    flags_all_is_zero (flags st) = false -> parents st <> [] ->
    exists ws' le,
      blank ws' = true /\ no_lf ws' = true
      /\ turns st (retext st (json st) (ws' ++ x) le).
Proof.
  induction n as [|n IH]; intros ws st Hn Hb Hit Hf Hps.
  - destruct ws; [|cbn in Hn; lia].
    exists EmptyString, (itLineEnd st). repeat split.
    rewrite <- Hit. destruct st; apply turns_nil.
  - destruct (no_lf ws) eqn:Hlf.
    + exists ws, (itLineEnd st). split; [exact Hb|]. split; [exact Hlf|].
      rewrite <- Hit. destruct st; apply turns_nil.
    + assert (Hne : ws <> EmptyString) by (intros ->; discriminate Hlf).
      assert (Hline : line_of (it st) = line_of ws).
      { rewrite Hit, line_of_app, Hlf. reflexivity. }
      assert (Hend : find_line_end (it st) = find_line_end ws ++ x).
      { rewrite Hit, find_line_end_app, Hlf. reflexivity. }
      pose proof (turn_blank_line st Hf Hps) as Ht.
      rewrite Hline in Ht.
      specialize (Ht ltac:(rewrite Hit; apply app_nonempty, Hne)
                     (blank_line_of _ Hb)).
      destruct (IH (find_line_end ws)
                  (with_it (find_line_end (it st))
                     (with_itLineEnd (find_line_end (it st)) st)))
        as (ws' & le & Hb' & Hlf' & Hts).
      * pose proof (find_line_end_length ws Hne). lia.
      * apply blank_find_line_end, Hb.
      * exact Hend.
      * exact Hf.
      * exact Hps.
      * exists ws', le. split; [exact Hb'|]. split; [exact Hlf'|].
        eapply turns_cons; [exact Ht | exact Hts].
Qed.

Lemma number_stop_line_of (rest : string) :
  number_stop rest = true -> number_stop (line_of rest) = true.
Proof.
  destruct rest as [|c r]; [reflexivity|]. rewrite line_of_cons. auto.
Qed.

Lemma number_not_blank (c : ascii) (s : string) :
  c = "-"%char \/ isdigit c = true -> blank (String c s) = false.
Proof.
  intros Hc. pose proof (has_nonspace_number c s Hc) as H.
  rewrite has_nonspace_blank in H. apply negb_true_iff in H. exact H.
Qed.

(** A turn in a state that waits for a value, on a line that goes on with
    a number token. *)
Lemma turn_at_number (st : State) (ws tok rest : string) (e m : N) :
  it st = ws ++ tok ++ rest -> blank ws = true -> no_lf ws = true ->
  is_number_token tok = true -> number_stop rest = true ->
  flags st = flags_value e m -> (e = 0 \/ e = 3)%N ->
  (m = 1 \/ m = 2 \/ m = 3)%N -> parents st <> [] ->
  turn st
  = let st' := retext st (json st) rest (find_line_end rest) in
    let* v := rethrow st' (number_value tok) in
    let* st'' := setValue v st' in
    Ret (Continue st'').
Proof.
  intros Hit Hb Hlf Hn Hstop Hfl He Hm Hps.
  pose proof (number_token_scan tok Hn) as Hscan.
  destruct (number_start tok _ Hscan) as (c & s & Hcs & Hc).
  pose proof (number_token_no_lf tok Hn) as Htlf.
  rewrite turn_unfold.
  assert (Hz : flags_all_is_zero (flags st) = false).
  { rewrite Hfl. destruct He as [->| ->], Hm as [->|[->| ->]]; reflexivity. }
  rewrite Hz, (bool_decide_eq_false_2 _ Hps).
  assert (Hne : is_empty (it st) = false).
  { rewrite Hit, Hcs. destruct ws; reflexivity. }
  rewrite Hne.
  assert (Hline : line_of (it st) = ws ++ tok ++ line_of rest).
  { rewrite Hit, line_of_app, Hlf, line_of_app, Htlf. reflexivity. }
  assert (Hend : find_line_end (it st) = find_line_end rest).
  { rewrite Hit, find_line_end_app, Hlf, find_line_end_app, Htlf. reflexivity. }
  assert (Hbt : blank tok = false).
  { rewrite Hcs. apply number_not_blank, Hc. }
  assert (Hmt : match_token (flags_value e m) (tok ++ line_of rest)
                = Ret (Some (tok, String.length tok))).
  { pose proof (number_token_stop tok _ Hn (number_stop_line_of _ Hstop)) as Hs.
    pose proof (string_take_app tok (line_of rest)) as Htk.
    rewrite Hcs in Hs, Htk |- *. cbn [append] in Hs, Htk |- *.
    rewrite match_token_number by assumption.
    rewrite Hs, Htk. reflexivity. }
  assert (Hk : find_key tok mapToken = None).
  { rewrite Hcs. apply find_key_number, Hc. }
  rewrite Hline, has_nonspace_blank, !blank_app, Hbt, andb_false_r.
  cbn [negb]. cbn zeta.
  rewrite match_token_lead by exact Hb. rewrite Hfl, Hmt. cbn [bind].
  assert (Hadv : advance (String.length ws + String.length tok)
                   (with_itLineEnd (find_line_end (it st)) st)
                 = retext st (json st) rest (find_line_end rest)).
  { unfold advance, with_it, with_itLineEnd, retext. cbn [it json result flags
      parents itLineEnd]. rewrite Hend, Hit.
    rewrite string_drop_add, !string_drop_app. reflexivity. }
  rewrite Hadv. unfold dispatch. rewrite Hk. reflexivity.
Qed.

(** [setValue] stores the value in the slot, in any state. *)
Lemma setValue_state_at (st : State) (v : JsonT) (e m : N) F ps' f' (rest : string) :
  flags st = flags_value e m -> slot m (result st) (parents st) F ps' f' ->
  setValue v (retext st (json st) rest (find_line_end rest))
  = Ret (state_at st (F v) f' ps' rest).
Proof.
  intros Hfl Hslot.
  pose proof (setValue_slot (json st) e rest m (result st) (parents st) F ps' f' v
                Hslot) as H.
  apply (setValue_retext _ _ _ (json st) rest (find_line_end rest)) in H.
  unfold retext, mkst in H. cbn [result flags parents] in H.
  unfold retext, state_at. rewrite Hfl. exact H.
Qed.

(** The loop at a number token, in any place that waits for a value and
    after any white space: the value of the token is stored, or the
    exception of [stod] becomes a [ParseException] behind the token. *)
Lemma turns_at_number (st : State) (ws tok rest : string) (e m : N) F ps' f' :
  it st = ws ++ tok ++ rest -> blank ws = true ->
  is_number_token tok = true -> number_stop rest = true ->
  flags st = flags_value e m -> (e = 0 \/ e = 3)%N ->
  slot m (result st) (parents st) F ps' f' ->
  match number_value tok with
  | Ret v => turns st (state_at st (F v) f' ps' rest)
  | _ =>
      exists st1,
        turns st st1
        /\ turn st1
           = Throw (ParseException ("stod" ++ string_take 16 rest)
                      (String.length (json st) - String.length rest))
  end.
Proof.
  intros Hit Hb Hn Hstop Hfl He Hslot.
  pose proof (slot_mode _ _ _ _ _ _ Hslot) as Hm.
  pose proof (slot_stack _ _ _ _ _ _ Hslot) as Hps.
  assert (Hz : flags_all_is_zero (flags st) = false).
  { rewrite Hfl. destruct He as [->| ->], Hm as [->|[->| ->]]; reflexivity. }
  destruct (turns_skip_blank (tok ++ rest) _ ws st (le_n _) Hb Hit Hz Hps)
    as (ws' & le & Hb' & Hlf' & Hts).
  set (st0 := retext st (json st) (ws' ++ tok ++ rest) le) in *.
  pose proof (turn_at_number st0 ws' tok rest e m eq_refl Hb' Hlf' Hn Hstop
                Hfl He Hm Hps) as Ht.
  change (json st0) with (json st) in Ht.
  change (retext st0 (json st) rest (find_line_end rest))
    with (retext st (json st) rest (find_line_end rest)) in Ht.
  destruct (number_value_cases tok) as [[v Hv]|[Hv|Hv]]; rewrite Hv in Ht |- *.
  - eapply turns_trans; [exact Hts|]. apply turns_one.
    cbn [rethrow bind] in Ht.
    rewrite (setValue_state_at st v e m F ps' f' rest Hfl Hslot) in Ht.
    exact Ht.
  - exists st0. split; [exact Hts | exact Ht].
  - exists st0. split; [exact Hts | exact Ht].
Qed.

(** The whole text is a number token between white space. *)
Lemma parse_padded_number (ws1 tok ws2 : string) (opt : ParseOptions) :
  blank ws1 = true -> blank ws2 = true -> is_number_token tok = true ->
  parse (ws1 ++ tok ++ ws2) opt
  = match number_value tok with
    | Ret v => Ret v
    | _ => Throw (ParseException ("stod" ++ string_take 16 ws2)
                    (String.length ws1 + String.length tok))
    end.
Proof.
  intros Hb1 Hb2 Hn.
  set (s := ws1 ++ tok ++ ws2).
  pose proof (turns_at_number (init_state s) ws1 tok ws2 0 3 _ _ _
                eq_refl Hb1 Hn (blank_stop _ Hb2) eq_refl (or_introl eq_refl)
                (slot_root JNull [] eq_refl)) as H.
  cbn [init_state json] in H.
  assert (Hlen : (String.length s - String.length ws2
                  = String.length ws1 + String.length tok)%nat).
  { unfold s. rewrite !length_append. lia. }
  destruct (number_value tok) as [v| e | |] eqn:Hv.
  - destruct (blank_run (state_at (init_state s) (set_at JNull [] v)
                           flags_finish [[]] ws2))
      as [fuel Hr]; [exact Hb2 | reflexivity | discriminate |].
    destruct (turns_run _ _ H _ _ Hr) as [fuel' Hr'].
    apply (parse_of_run _ _ _ _ Hr').
  - destruct H as (st1 & Hts & Ht).
    destruct (turns_run _ _ Hts 1%nat (Throw (ParseException
                ("stod" ++ string_take 16 ws2)
                (String.length s - String.length ws2)))) as [fuel' Hr'].
    { cbn [run]. rewrite Ht. reflexivity. }
    rewrite <- Hlen. apply (parse_of_run _ _ _ _ Hr').
  - destruct (number_value_cases tok) as [[v Hv']|[Hv'|Hv']]; congruence.
  - destruct (number_value_cases tok) as [[v Hv']|[Hv'|Hv']]; congruence.
Qed.

(** *** A plus sign where a token is expected *)

(** In a state that waits for a value no alternative of the token
    expression starts with a plus sign: the token is empty, and [stod]
    refuses it. *)
Lemma turn_at_plus (st : State) (ws r : string) (e m : N) :
  it st = ws ++ "+" ++ r -> blank ws = true -> no_lf ws = true ->
  flags st = flags_value e m -> (e = 0 \/ e = 3)%N ->
  (m = 1 \/ m = 2 \/ m = 3)%N -> parents st <> [] ->
  turn st
  = Throw (parse_exception "stod" (with_itLineEnd (find_line_end (it st)) st)).
Proof.
  intros Hit Hb Hlf Hfl He Hm Hps.
  rewrite turn_unfold.
  assert (Hz : flags_all_is_zero (flags st) = false).
  { rewrite Hfl. destruct He as [->| ->], Hm as [->|[->| ->]]; reflexivity. }
  rewrite Hz, (bool_decide_eq_false_2 _ Hps).
  assert (Hne : is_empty (it st) = false).
  { rewrite Hit. destruct ws; reflexivity. }
  rewrite Hne.
  assert (Hline : line_of (it st) = ws ++ String "+" (line_of r)).
  { rewrite Hit, line_of_app, Hlf. cbn [append]. rewrite line_of_cons.
    reflexivity. }
  rewrite Hline, has_nonspace_blank, blank_app.
  change (blank (String "+" (line_of r))) with false.
  rewrite andb_false_r. cbn [negb]. cbn zeta.
  rewrite match_token_lead by exact Hb. rewrite Hfl.
  assert (Hmt : match_token (flags_value e m) (String "+" (line_of r)) = Ret None).
  { destruct He as [->| ->], Hm as [->|[->| ->]]; reflexivity. }
  rewrite Hmt. reflexivity.
Qed.

Lemma turns_throw (j : string) (st : State) (e : exception) (opt : ParseOptions) :
  turns (init_state j) st -> turn st = Throw e -> parse j opt = Throw e.
Proof.
  intros Hts Ht.
  destruct (turns_run _ _ Hts 1%nat (Throw e)) as [fuel Hr].
  { cbn [run]. rewrite Ht. reflexivity. }
  apply (parse_of_run _ _ _ _ Hr).
Qed.

(** Wherever the loop waits for a value and finds a plus sign, [parse]
    throws a [ParseException]. *)
Lemma plus_throws (j : string) (st : State) (ws r : string) (e m : N)
    (opt : ParseOptions) :
  turns (init_state j) st -> flags st = flags_value e m ->
  (e = 0 \/ e = 3)%N -> (m = 1 \/ m = 2 \/ m = 3)%N ->
  it st = ws ++ "+" ++ r -> blank ws = true ->
  exists w p, parse j opt = Throw (ParseException w p).
Proof.
  intros Hts Hfl He Hm Hit Hb.
  assert (Hz : flags_all_is_zero (flags st) = false).
  { rewrite Hfl. destruct He as [->| ->], Hm as [->|[->| ->]]; reflexivity. }
  destruct (decide (parents st = [])) as [Hps|Hps].
  - eexists _, _. apply (turns_throw j st _ opt Hts).
    rewrite turn_unfold, Hz, (bool_decide_eq_true_2 _ Hps). reflexivity.
  - destruct (turns_skip_blank ("+" ++ r) _ ws st (le_n _) Hb Hit Hz Hps)
      as (ws' & le & Hb' & Hlf' & Hts').
    eexists _, _.
    apply (turns_throw j _ _ opt (turns_trans _ _ _ Hts Hts')).
    rewrite (turn_at_plus (retext st (json st) (ws' ++ "+" ++ r) le) ws' r e m
               eq_refl Hb' Hlf' Hfl He Hm Hps).
    reflexivity.
Qed.

Lemma parse_plus (s : string) (opt : ParseOptions) :
  parse ("+" ++ s) opt
  = Throw (ParseException ("stod" ++ string_take 16 ("+" ++ s)) 0).
Proof.
  apply (turns_throw _ (init_state ("+" ++ s)) _ opt (turns_nil _)).
  rewrite (turn_at_plus (init_state ("+" ++ s)) EmptyString s 0 3
             eq_refl eq_refl eq_refl eq_refl)
    by (auto; discriminate).
  unfold parse_exception. cbn [init_state with_itLineEnd json it].
  rewrite Nat.sub_diag. reflexivity.
Qed.

(** C6: a number token, in any place where the loop waits for a value
    (the root, an element of an array, the value of a member), after any
    white space and whatever follows that is not a character of a number,
    is read as the [Int] holding its exact integer when the token is an
    optional minus and digits and the integer fits [intmax_t]; otherwise
    as the [Float] that [stod] makes of it, and when [stod] refuses the
    token (its value is out of range) the loop throws a [ParseException]
    behind the token.  The same holds for [parse] on the token alone or
    between white space.  [1] is the [Int] 1, [1.0] is a [Float]; and
    wherever a value is expected a plus sign is a [ParseException]. *)
Theorem number_token_kind (tok : string) (opt : ParseOptions) :
  is_number_token tok = true ->
  (forall (st : State) (ws rest : string) (e m : N) F ps' f',
      it st = ws ++ tok ++ rest -> blank ws = true -> number_stop rest = true ->
      flags st = flags_value e m -> (e = 0 \/ e = 3)%N ->
      slot m (result st) (parents st) F ps' f' ->
      (is_integer_token tok = true -> in_intmax (integer_of_token tok) = true ->
         turns st (state_at st (F (JInt (integer_of_token tok))) f' ps' rest))
      /\ (is_integer_token tok = false
          \/ in_intmax (integer_of_token tok) = false ->
            forall d, stod tok = Ret d ->
              turns st (state_at st (F (JFloat d)) f' ps' rest))
      /\ (is_integer_token tok = false
          \/ in_intmax (integer_of_token tok) = false ->
            (forall d, stod tok <> Ret d) ->
            exists st1,
              turns st st1
              /\ turn st1
                 = Throw (ParseException ("stod" ++ string_take 16 rest)
                            (String.length (json st) - String.length rest))))
  /\ (forall ws1 ws2 : string, blank ws1 = true -> blank ws2 = true ->
        (is_integer_token tok = true ->
         in_intmax (integer_of_token tok) = true ->
           parse (ws1 ++ tok ++ ws2) opt = Ret (JInt (integer_of_token tok)))
        /\ (is_integer_token tok = false
            \/ in_intmax (integer_of_token tok) = false ->
              forall v, parse (ws1 ++ tok ++ ws2) opt = Ret v
                        <-> exists d, stod tok = Ret d /\ v = JFloat d)
        /\ (forall v, parse (ws1 ++ tok ++ ws2) opt = Ret v ->
              type v = Type_.Int \/ type v = Type_.Float))
  /\ parse "1" opt = Ret (JInt 1)
  /\ get_integer t_intmax (JInt 1) = 1
  /\ parse "1.0" opt = Ret (JFloat (S754_finite false 4503599627370496 (-52)))
  /\ (forall s : string,
        parse ("+" ++ s) opt
        = Throw (ParseException ("stod" ++ string_take 16 ("+" ++ s)) 0))
  /\ (forall (j : string) (st : State) (ws r : string) (e m : N),
        turns (init_state j) st -> flags st = flags_value e m ->
        (e = 0 \/ e = 3)%N -> (m = 1 \/ m = 2 \/ m = 3)%N ->
        it st = ws ++ "+" ++ r -> blank ws = true ->
        exists w p, parse j opt = Throw (ParseException w p)).
Proof.
  intros Hnum.
  pose proof (number_value_kind tok) as Hkind.
  assert (Hint : is_integer_token tok = true ->
                 in_intmax (integer_of_token tok) = true ->
                 number_value tok = Ret (JInt (integer_of_token tok))).
  { intros Hi Hfit. rewrite Hkind, Hi, Hfit. reflexivity. }
  assert (Hfloat : is_integer_token tok = false
                   \/ in_intmax (integer_of_token tok) = false ->
                   number_value tok = let* d := stod tok in Ret (JFloat d)).
  { intros [Hc|Hc]; rewrite Hkind, Hc, ?andb_false_r; reflexivity. }
  split; [|split; [|split; [|split; [|split; [|split]]]]].
  - intros st ws rest e m F ps' f' Hit Hb Hstop Hfl He Hslot.
    pose proof (turns_at_number st ws tok rest e m F ps' f' Hit Hb Hnum Hstop
                  Hfl He Hslot) as H.
    split; [|split].
    + intros Hi Hfit. rewrite (Hint Hi Hfit) in H. exact H.
    + intros Hc d Hd. rewrite (Hfloat Hc), Hd in H. exact H.
    + intros Hc Hno. rewrite (Hfloat Hc) in H.
      destruct (stod tok) as [d| | |]; [destruct (Hno d eq_refl) | | |]; exact H.
  - intros ws1 ws2 Hb1 Hb2.
    rewrite (parse_padded_number ws1 tok ws2 opt Hb1 Hb2 Hnum).
    split; [|split].
    + intros Hi Hfit. rewrite (Hint Hi Hfit). reflexivity.
    + intros Hc v. rewrite (Hfloat Hc).
      destruct (stod tok) as [d| | |]; cbn [bind].
      * split; [intros [= <-]; eauto | intros (d' & [= <-] & ->); reflexivity].
      * split; [discriminate | intros (d' & Hd' & _); discriminate].
      * split; [discriminate | intros (d' & Hd' & _); discriminate].
      * split; [discriminate | intros (d' & Hd' & _); discriminate].
    + intros v. rewrite Hkind.
      destruct (is_integer_token tok && in_intmax (integer_of_token tok)).
      * intros [= <-]. auto.
      * destruct (stod tok) as [d| | |]; cbn [bind]; try discriminate.
        intros [= <-]. auto.
  - vm_compute. reflexivity.
  - reflexivity.
  - vm_compute. reflexivity.
  - intros s. apply parse_plus.
  - intros j st ws r e m. apply plus_throws.
Qed.

Lemma number_token_kind_witness :
  parse (" -12" ++ str1 chLF) default_ParseOptions = Ret (JInt (-12))
  /\ turns (mkst "[ -12,3]" (JArray []) (flags_value 3 2) [[]] " -12,3]")
           (state_at (mkst "[ -12,3]" (JArray []) (flags_value 3 2) [[]] " -12,3]")
              (JArray [JInt (-12)]) (flags_end 4) [[]] ",3]").
Proof.
  destruct (number_token_kind "-12" default_ParseOptions) as (Hany & Hall & _);
    [vm_compute; reflexivity|].
  split.
  - destruct (Hall " " (str1 chLF)) as (H & _); [reflexivity | reflexivity |].
    apply H; vm_compute; reflexivity.
  - destruct (Hany (mkst "[ -12,3]" (JArray []) (flags_value 3 2) [[]] " -12,3]")
                " " ",3]" 3%N 2%N
                (fun v => set_at (JArray []) [] (JArray ([] ++ [v])%list))
                [[]] (flags_end 4)) as (H & _);
      try reflexivity; [auto | |].
    + apply (slot_element (JArray []) [] [] []); [reflexivity|].
      unfold size, SIZE_MOD. cbn. lia.
    + apply H; vm_compute; reflexivity.
Defined.

(** The same on a text of several lines, inside an array, and a plus sign
    inside an array. *)
Lemma number_tokens_in_array :
  parse ("[1, 2.5," ++ str1 chLF ++ " -3e2 ]") default_ParseOptions
  = Ret (JArray [JInt 1;
                 JFloat (S754_finite false 5629499534213120 (-51));
                 JFloat (S754_finite true 5277655813324800 (-44))])
  /\ exists w p,
       parse "[1, +2]" default_ParseOptions = Throw (ParseException w p).
Proof. split; [vm_compute; reflexivity | eexists _, _; vm_compute; reflexivity]. Qed.

(* ===================================================================== *)
(** ** Move construction and move assignment *)

Lemma move_construct_fst (s : JsonT) : fst (move_construct s) = s.
Proof. destruct s; reflexivity. Qed.

Lemma move_construct_type (s : JsonT) : type (snd (move_construct s)) = type s.
Proof. destruct s; reflexivity. Qed.

Lemma move_construct_scalar (s : JsonT) :
  is_scalar s = true -> snd (move_construct s) = s.
Proof. destruct s; try discriminate; reflexivity. Qed.

Lemma step_eqb_eq (a b : step) : step_eqb a b = true <-> a = b.
Proof.
  destruct a as [k|i], b as [k'|j]; cbn; try (split; [discriminate | congruence]).
  - rewrite String.eqb_eq. split; congruence.
  - rewrite Nat.eqb_eq. split; congruence.
Qed.

Lemma step_eqb_sym (a b : step) : step_eqb a b = step_eqb b a.
Proof.
  destruct a as [k|i], b as [k'|j]; cbn; try reflexivity.
  - apply String.eqb_sym.
  - apply Nat.eqb_sym.
Qed.

Lemma diverge_sym (p q : path) : diverge p q = diverge q p.
Proof.
  revert q. induction p as [|a p IH]; intros [|b q]; try reflexivity.
  cbn [diverge]. rewrite (step_eqb_sym b a), IH. reflexivity.
Qed.

Lemma apart_sym (a b : object) : apart a b = apart b a.
Proof. unfold apart. rewrite Nat.eqb_sym, diverge_sym. reflexivity. Qed.

Lemma child_set_child_ne (v : JsonT) (s s' : step) (x : JsonT) :
  s <> s' -> child (set_child v s x) s' = child v s'.
Proof.
  intros Hne. destruct s as [k|i], v as [| | | | |a|m]; try reflexivity;
    destruct s' as [k'|j]; try reflexivity; cbn [set_child child].
  - apply map_find_insert_ne. congruence.
  - apply list_lookup_insert_ne. congruence.
Qed.

(** A write at one place is not seen at a place that parts from it. *)
Lemma get_at_set_at_diverge (v : JsonT) (p q : path) (x : JsonT) :
  diverge p q = true -> get_at (set_at v p x) q = get_at v q.
Proof.
  revert v q. induction p as [|a p IH]; intros v [|b q]; try discriminate.
  cbn [diverge set_at]. intros Hd.
  destruct (child v a) as [c|] eqn:Hc; [|reflexivity].
  cbn [get_at]. destruct (step_eqb a b) eqn:E.
  - apply step_eqb_eq in E as <-.
    rewrite (child_set_child _ _ _ _ Hc), Hc. apply IH, Hd.
  - rewrite child_set_child_ne; [reflexivity|].
    intros <-. rewrite (proj2 (step_eqb_eq a a) eq_refl) in E. discriminate.
Qed.

Lemma load_save_same (h : store) (o : object) (x c : JsonT) :
  load h o = Some c -> load (save h o x) o = Some x.
Proof.
  unfold load, save. destruct (h !! var o) as [v|] eqn:Hv; [|discriminate].
  intros Hc. rewrite list_lookup_insert_eq by (eapply lookup_lt_Some, Hv).
  eapply get_at_set_at, Hc.
Qed.

Lemma load_save_apart (h : store) (o o' : object) (x : JsonT) :
  apart o o' = true -> load (save h o x) o' = load h o'.
Proof.
  unfold apart, load, save. intros Ha.
  destruct (h !! var o) as [v|] eqn:Hv; [|reflexivity].
  destruct (Nat.eqb_spec (var o) (var o')) as [E|E].
  - cbn [negb orb] in Ha. rewrite <- E, Hv.
    rewrite list_lookup_insert_eq by (eapply lookup_lt_Some, Hv).
    apply get_at_set_at_diverge, Ha.
  - rewrite list_lookup_insert_ne by exact E. reflexivity.
Qed.

Lemma apart_not_same (a b : object) : apart a b = true -> object_eqb a b = false.
Proof.
  unfold apart, object_eqb. destruct (Nat.eqb (var a) (var b)); [|reflexivity].
  cbn [negb orb andb]. generalize (place a), (place b). clear.
  induction l as [|x p IH]; intros [|y q]; try discriminate; try reflexivity.
  cbn [diverge path_eqb]. destruct (step_eqb x y); [apply IH | reflexivity].
Qed.

(** C3, as stated, fails: a [Bool] that is moved from, by the constructor
    or by the assignment, is still that [Bool] and not [Null]. *)
Lemma move_source_not_null :
  isNull (snd (move_construct (JBool true))) = false
  /\ move_assign {| var := 0; place := [] |} {| var := 1; place := [] |}
       [JNull; JBool true]
     = Ret [JBool true; JBool true].
Proof. split; reflexivity. Qed.

(** A source that is part of the destination, as in [a = std::move(a[k])],
    is destroyed by [clear()] before it is read. *)
Lemma move_from_a_part_is_undefined (h : store) (n : nat) (p q : path)
    (dst src : JsonT) :
  q <> [] ->
  load h {| var := n; place := p |} = Some dst ->
  load h {| var := n; place := (p ++ q)%list |} = Some src ->
  move_assign {| var := n; place := p |} {| var := n; place := (p ++ q)%list |} h
  = Undefined.
Proof.
  intros Hq Hd Hs. unfold move_assign. rewrite Hd, Hs.
  assert (Hne : object_eqb {| var := n; place := p |}
                           {| var := n; place := (p ++ q)%list |} = false).
  { unfold object_eqb. cbn [var place]. rewrite Nat.eqb_refl. cbn [andb].
    clear -Hq. induction p as [|a p IH]; cbn.
    - destruct q; [congruence | reflexivity].
    - rewrite IH. apply andb_false_r. }
  rewrite Hne.
  assert (Hgone : load (save h {| var := n; place := p |} (clear dst))
                       {| var := n; place := (p ++ q)%list |} = None).
  { unfold load, save in *. cbn [var place] in *.
    destruct (h !! n) as [v|] eqn:Hv; [|discriminate].
    rewrite list_lookup_insert_eq by (eapply lookup_lt_Some, Hv).
    rewrite get_at_app, (get_at_set_at _ _ _ _ Hd).
    destruct q as [|s q]; [congruence|]. destruct s; reflexivity. }
  rewrite Hgone. reflexivity.
Qed.

(** The two nested cases on [[[1,2],3]]: moving the first element into the
    array itself is undefined, and moving the array into its first
    element leaves an empty array, the element being lost with the
    payload it was in. *)
Lemma move_between_nested_objects :
  move_assign {| var := 0; place := [] |} {| var := 0; place := [Idx 0] |}
    [JArray [JArray [JInt 1; JInt 2]; JInt 3]] = Undefined
  /\ move_assign {| var := 0; place := [Idx 0] |} {| var := 0; place := [] |}
       [JArray [JArray [JInt 1; JInt 2]; JInt 3]] = Ret [JArray []]
  /\ move_assign {| var := 0; place := [Idx 0] |} {| var := 0; place := [Idx 0] |}
       [JArray [JArray [JInt 1; JInt 2]; JInt 3]]
     = Ret [JArray [JArray [JInt 1; JInt 2]; JInt 3]].
Proof. repeat split; reflexivity. Qed.

(** C3, amended: the move constructor gives the new object the value of
    the source; the move assignment to an object that is neither the
    source, nor a part of it, nor an object that the source is part of,
    gives the destination the value the source had and leaves every
    object apart from the two as it was.  In both cases the source keeps
    its tag: a scalar keeps its payload too, a string, an array or a map
    is left with the payload that the move took from; so the source is
    [Null] afterwards only when it was [Null] before. *)
Theorem move_keeps_source_tag (h : store) (this s : object) (dst src : JsonT) :
  load h this = Some dst -> load h s = Some src -> apart this s = true ->
  fst (move_construct src) = src
  /\ type (snd (move_construct src)) = type src
  /\ (is_scalar src = true -> snd (move_construct src) = src)
  /\ (isNull (snd (move_construct src)) = true <-> isNull src = true)
  /\ exists h',
       move_assign this s h = Ret h'
       /\ load h' this = Some src
       /\ load h' s = Some (snd (move_construct src))
       /\ (forall o, apart o this = true -> apart o s = true ->
             load h' o = load h o).
Proof.
  intros Hthis Hs Hap.
  split; [apply move_construct_fst|].
  split; [apply move_construct_type|].
  split; [apply move_construct_scalar|].
  split; [unfold isNull, isType; rewrite move_construct_type; tauto|].
  pose proof Hap as Hap'. rewrite apart_sym in Hap'.
  set (h1 := save h this (clear dst)).
  assert (H1s : load h1 s = Some src).
  { unfold h1. rewrite load_save_apart by exact Hap. exact Hs. }
  assert (H1t : load h1 this = Some (clear dst)).
  { unfold h1. eapply load_save_same, Hthis. }
  set (h2 := save h1 s (snd (move_construct src))).
  assert (H2s : load h2 s = Some (snd (move_construct src))).
  { unfold h2. eapply load_save_same, H1s. }
  assert (H2t : load h2 this = Some (clear dst)).
  { unfold h2. rewrite load_save_apart by exact Hap'. exact H1t. }
  exists (save h2 this src). split; [|split; [|split]].
  - unfold move_assign. rewrite Hthis, Hs, (apart_not_same _ _ Hap).
    fold h1. rewrite H1s. subst h2. clear H1s.
    pose proof (move_construct_fst src) as Hf.
    destruct (move_construct src) as [new src']. cbn [fst snd] in *.
    subst new. reflexivity.
  - eapply load_save_same, H2t.
  - rewrite load_save_apart by exact Hap. exact H2s.
  - intros o Hot Hos. rewrite apart_sym in Hot, Hos.
    rewrite load_save_apart by exact Hot. unfold h2.
    rewrite load_save_apart by exact Hos. unfold h1.
    rewrite load_save_apart by exact Hot. reflexivity.
Qed.

Lemma move_keeps_source_tag_witness :
  exists h',
    move_assign {| var := 0; place := [Idx 0] |} {| var := 0; place := [Idx 2] |}
      [JArray [JArray [JInt 1]; JString "abc"; JMap [("k", JBool true)]]]
    = Ret h'
    /\ load h' {| var := 0; place := [Idx 0] |} = Some (JMap [("k", JBool true)])
    /\ load h' {| var := 0; place := [Idx 2] |} = Some (JMap [])
    /\ load h' {| var := 0; place := [Idx 1] |} = Some (JString "abc").
Proof.
  destruct (move_keeps_source_tag
              [JArray [JArray [JInt 1]; JString "abc"; JMap [("k", JBool true)]]]
              {| var := 0; place := [Idx 0] |} {| var := 0; place := [Idx 2] |}
              (JArray [JInt 1]) (JMap [("k", JBool true)]))
    as (_ & _ & _ & _ & h' & H1 & H2 & H3 & H4);
    [reflexivity | reflexivity | reflexivity |].
  exists h'. split; [exact H1|]. split; [exact H2|]. split; [exact H3|].
  rewrite (H4 {| var := 0; place := [Idx 1] |}); reflexivity.
Defined.

(* ===================================================================== *)
(** ** The text of a [Float] alone *)

Lemma string_forallb_drop (p : ascii -> bool) (n : nat) (s : string) :
  string_forallb p s = true -> string_forallb p (string_drop n s) = true.
Proof.
  revert s. induction n as [|n IH]; intros s H; [exact H|].
  destruct s as [|c s]; [reflexivity|].
  cbn [string_forallb] in H. apply andb_prop in H as [_ H].
  cbn [string_drop]. apply IH, H.
Qed.

Lemma to_string_int_nonneg (n : Z) :
  0 <= n ->
  string_forallb isdigit (to_string_int n) = true
  /\ to_string_int n <> EmptyString.
Proof.
  intros Hn. unfold to_string_int. destruct n as [|p|p]; [| |lia].
  - split; [reflexivity | discriminate].
  - cbn. apply nz_uint_digits.
Qed.

(** Digits, a point and digits make a number token, with a minus in front
    as well. *)
Lemma number_token_fraction (ds1 ds2 : string) :
  string_forallb isdigit ds1 = true -> ds1 <> EmptyString ->
  string_forallb isdigit ds2 = true ->
  is_number_token (ds1 ++ "." ++ ds2) = true
  /\ is_number_token (String "-" (ds1 ++ "." ++ ds2)) = true.
Proof.
  intros H1 Hne H2.
  assert (Hsp : span_digits (ds1 ++ "." ++ ds2) = String.length ds1)
    by (apply span_digits_app; [exact H1 | reflexivity]).
  assert (Hsp2 : span_digits ds2 = String.length ds2).
  { rewrite <- (append_nil_r ds2) at 1. apply span_digits_app; auto. }
  assert (Hlen : Nat.eqb (String.length ds1) 0 = false).
  { destruct ds1; [congruence | reflexivity]. }
  assert (Hall : string_drop (String.length ds2) ds2 = EmptyString).
  { rewrite <- (append_nil_r ds2) at 2. apply string_drop_app. }
  assert (Htail : forall k,
    (let s2 := string_drop (String.length ds1) (ds1 ++ "." ++ ds2) in
     let nf := match s2 with
               | String "."%char s' => S (span_digits s')
               | _ => 0%nat
               end in
     let s3 := string_drop nf s2 in
     let ne := match s3 with
               | String c s' =>
                   if Ascii.eqb c "e" || Ascii.eqb c "E" then
                     let '(sg, s'') :=
                       match s' with
                       | String c2 t =>
                           if Ascii.eqb c2 "+" || Ascii.eqb c2 "-"
                           then (1%nat, t) else (0%nat, s')
                       | EmptyString => (0%nat, s')
                       end in
                     let k := span_digits s'' in
                     if Nat.eqb k 0 then 0%nat else (1 + sg + k)%nat
                   else 0%nat
               | EmptyString => 0%nat
               end in
     Some (k + String.length ds1 + nf + ne)%nat)
    = Some (k + String.length (ds1 ++ "." ++ ds2))%nat).
  { intros k. rewrite string_drop_app. cbn [append]. cbn zeta.
    rewrite Hsp2. cbn [string_drop]. rewrite Hall, !length_append.
    cbn [String.length]. f_equal. lia. }
  assert (Hscan : scan_number (ds1 ++ "." ++ ds2)
                  = Some (String.length (ds1 ++ "." ++ ds2))
                  /\ scan_number (String "-" (ds1 ++ "." ++ ds2))
                     = Some (S (String.length (ds1 ++ "." ++ ds2)))).
  { split.
    - unfold scan_number.
      destruct ds1 as [|c ds1']; [congruence|].
      assert (Hc : c <> "-"%char) by (intros ->; cbn in H1; discriminate).
      cbn [append].
      replace (match String c (ds1' ++ String "." ds2) with
               | String "-"%char s' => (1%nat, s')
               | _ => (0%nat, String c (ds1' ++ String "." ds2))
               end) with (0%nat, String c (ds1' ++ String "." ds2)).
      2:{ destruct c as [[] [] [] [] [] [] [] []]; try reflexivity. congruence. }
      change (String c (ds1' ++ String "." ds2))
        with (String c ds1' ++ "." ++ ds2).
      rewrite Hsp, Hlen. apply (Htail 0%nat).
    - unfold scan_number. rewrite Hsp, Hlen. apply (Htail 1%nat). }
  destruct Hscan as [Hs1 Hs2]. unfold is_number_token.
  rewrite Hs1, Hs2. cbn [String.length]. rewrite !Nat.eqb_refl. auto.
Qed.

Lemma div_nearest_even_nonneg (num den : Z) :
  0 <= num -> 0 < den -> 0 <= div_nearest_even num den.
Proof.
  intros Hn Hd. unfold div_nearest_even.
  pose proof (Z.div_pos num den Hn Hd).
  destruct (2 * (num mod den) ?= den); [destruct (Z.even _)| |]; lia.
Qed.

(** The text of a finite [Float] is a number token. *)
Lemma to_string_double_token (d : double) :
  (exists s, d = S754_zero s) \/ (exists s m e, d = S754_finite s m e) ->
  is_number_token (to_string_double d) = true.
Proof.
  intros [[s ->]|(s & m & e & ->)]; [destruct s; reflexivity|].
  unfold to_string_double.
  set (scaled := div_nearest_even _ _).
  assert (Hs : 0 <= scaled).
  { apply div_nearest_even_nonneg; [|apply Z.pow_pos_nonneg; lia].
    apply Z.mul_nonneg_nonneg; [lia|]. apply Z.pow_nonneg. lia. }
  destruct (to_string_int_nonneg (scaled / 10 ^ 6)) as [H1 Hne].
  { apply Z.div_pos; lia. }
  assert (H2 : string_forallb isdigit (six_digits scaled) = true).
  { unfold six_digits. apply string_forallb_drop.
    apply to_string_int_nonneg.
    pose proof (Z.mod_pos_bound scaled (10 ^ 6) ltac:(lia)). lia. }
  destruct (number_token_fraction _ _ H1 Hne H2) as [Hp Hm].
  destruct s; [exact Hm | exact Hp].
Qed.

(** For a [Float] alone the condition is exact: its text is read back as
    the same [Float] if and only if its six decimals determine it. *)
Lemma float_roundtrip_iff (d : double) (opt : ParseOptions) :
  parse (stringify (JFloat d)) opt = Ret (JFloat d)
  <-> six_decimals_determine d = true.
Proof.
  split.
  - cbn [stringify]. intros Hp.
    destruct d as [s|s| |s m e].
    + destruct s; reflexivity.
    + destruct s; vm_compute in Hp; discriminate Hp.
    + vm_compute in Hp. discriminate Hp.
    + pose proof (to_string_double_token (S754_finite s m e)
                    (or_intror (ex_intro _ s (ex_intro _ m (ex_intro _ e eq_refl)))))
        as Hn.
      pose proof (parse_padded_number EmptyString _ EmptyString opt
                    eq_refl eq_refl Hn) as Hq.
      cbn [append] in Hq. rewrite append_nil_r in Hq. rewrite Hq in Hp.
      unfold number_value in Hp.
      rewrite to_string_double_not_integer in Hp.
      unfold six_decimals_determine.
      destruct (stod (to_string_double (S754_finite s m e))) as [d'| | |];
        try discriminate Hp.
      cbn [bind] in Hp. injection Hp as ->.
      cbn. rewrite Bool.eqb_reflx, Pos.eqb_refl, Z.eqb_refl. reflexivity.
  - intros Hd.
    destruct (determined_number_value d Hd) as [Hn Hv].
    pose proof (parse_padded_number EmptyString _ EmptyString opt
                  eq_refl eq_refl Hn) as Hq.
    cbn [append] in Hq. rewrite append_nil_r in Hq.
    cbn [stringify]. rewrite Hq, Hv. reflexivity.
Qed.
